(** * Quote assembly and validation engine: a shallow embedding

    The development follows the Python sources of the engine:

    - [modules/rag/used_map.py]            (module [UsedMap])
    - [modules/chunking/phrase_chunker.py] (module [PhraseChunker])
    - [modules/chunking/fragment_chunker.py] (module [FragmentChunker])
    - [modules/translator/selector.py]     (module [Selector])
    - [modules/translator/assembler.py]    (module [Assembler])
    - [modules/validation/validator.py]    (module [Validator])
    - [modules/translator/translation_manager.py] (module [TranslationManager])

    Python [str] is [string]; the character-level behaviour of [str.lower],
    [str.isalnum], [str.isspace] and of the regular-expression classes [\w]
    and [\s] is the one Python has on ASCII text.  Characters above code 127
    are kept as they are and belong to no class.  Python [dict]s are [gmap]s,
    Python [set]s are [gset]s, Python [int]s are [Z] (or [nat] for lengths and
    positions), [None] is an explicit constructor or an [option].

    The first part of the file holds the definitions, module by module; the
    second part holds the lemmas and theorems. *)

From Stdlib Require Import ZArith QArith Ascii String List Bool Arith Lia Sorted.
From stdpp Require Import base decidable option list gmap strings pretty fin_maps.

Local Close Scope Q_scope.
Local Open Scope string_scope.
Local Open Scope list_scope.

(* ===================================================================== *)
(** * Part I: definitions                                                 *)
(* ===================================================================== *)

(** ** Python built-ins on ASCII strings *)

Module Py.

Definition code (c : ascii) : nat := nat_of_ascii c.

Definition between (lo hi : nat) (c : ascii) : bool :=
  (lo <=? code c)%nat && (code c <=? hi)%nat.

Definition isdigit (c : ascii) : bool := between 48 57 c.
Definition isupper (c : ascii) : bool := between 65 90 c.
Definition islower (c : ascii) : bool := between 97 122 c.
Definition isalpha (c : ascii) : bool := isupper c || islower c.
Definition isalnum (c : ascii) : bool := isalpha c || isdigit c.

(** [str.isspace] on ASCII: TAB, LF, VT, FF, CR, FS, GS, RS, US, SPACE. *)
Definition isspace (c : ascii) : bool :=
  between 9 13 c || between 28 32 c.

(** The class [\w] of [re]: alphanumeric or underscore. *)
Definition isword (c : ascii) : bool := isalnum c || (code c =? 95)%nat.

Definition lower_char (c : ascii) : ascii :=
  if isupper c then ascii_of_nat (code c + 32) else c.

Definition upper_char (c : ascii) : ascii :=
  if islower c then ascii_of_nat (code c - 32) else c.

Fixpoint str_map (f : ascii -> ascii) (s : string) : string :=
  match s with
  | EmptyString => EmptyString
  | String c s' => String (f c) (str_map f s')
  end.

Fixpoint str_filter (p : ascii -> bool) (s : string) : string :=
  match s with
  | EmptyString => EmptyString
  | String c s' => if p c then String c (str_filter p s') else str_filter p s'
  end.

Fixpoint str_any (p : ascii -> bool) (s : string) : bool :=
  match s with
  | EmptyString => false
  | String c s' => p c || str_any p s'
  end.

(** [s.lower()] and [s.upper()] *)
Definition lower (s : string) : string := str_map lower_char s.
Definition upper (s : string) : string := str_map upper_char s.

(** [len(s)] *)
Definition len (s : string) : nat := String.length s.

(** [not s] for a string *)
Definition is_empty (s : string) : bool :=
  match s with EmptyString => true | _ => false end.

(** [s.startswith(p)] *)
Fixpoint startswith (s p : string) {struct p} : bool :=
  match p with
  | EmptyString => true
  | String b p' =>
      match s with
      | EmptyString => false
      | String a s' => if Ascii.eqb a b then startswith s' p' else false
      end
  end.

(** [s[n:]] *)
Fixpoint drop_str (n : nat) (s : string) : string :=
  match n with
  | O => s
  | S n' => match s with
            | EmptyString => EmptyString
            | String _ s' => drop_str n' s'
            end
  end.

(** [s.lstrip()], [s.rstrip()], [s.strip()] *)
Fixpoint lstrip (s : string) : string :=
  match s with
  | EmptyString => EmptyString
  | String c s' => if isspace c then lstrip s' else s
  end.

Fixpoint rstrip (s : string) : string :=
  match s with
  | EmptyString => EmptyString
  | String c s' =>
      match rstrip s' with
      | EmptyString => if isspace c then EmptyString else String c EmptyString
      | r => String c r
      end
  end.

Definition strip (s : string) : string := rstrip (lstrip s).

(** [sep.join(l)] *)
Fixpoint join (sep : string) (l : list string) : string :=
  match l with
  | [] => ""
  | [x] => x
  | x :: tl => x +:+ sep +:+ join sep tl
  end.

(** [s.split(c)] for a one-character separator: never empty, keeps the
    empty fields. *)
Fixpoint split_char (sep : ascii) (s : string) : list string :=
  match s with
  | EmptyString => [""]
  | String c s' =>
      if Ascii.eqb c sep then "" :: split_char sep s'
      else match split_char sep s' with
           | [] => [String c ""]
           | w :: ws => String c w :: ws
           end
  end.

(** [s.split()]: the maximal runs of non-whitespace characters. *)
Fixpoint split_ws_aux (cur : option string) (s : string) : list string :=
  match s with
  | EmptyString => match cur with Some w => [w] | None => [] end
  | String c s' =>
      if isspace c
      then match cur with
           | Some w => w :: split_ws_aux None s'
           | None => split_ws_aux None s'
           end
      else match cur with
           | Some w => split_ws_aux (Some (w +:+ String c "")) s'
           | None => split_ws_aux (Some (String c "")) s'
           end
  end.

Definition split_ws (s : string) : list string := split_ws_aux None s.

(** [c in s] for a character [c] *)
Definition contains_char (c : ascii) (s : string) : bool :=
  str_any (Ascii.eqb c) s.

(** [re.sub(r'\s+', ' ', s)]: every maximal run of whitespace becomes one
    space. *)
Fixpoint collapse_ws_aux (in_run : bool) (s : string) : string :=
  match s with
  | EmptyString => EmptyString
  | String c s' =>
      if isspace c
      then if in_run then collapse_ws_aux true s'
           else String " "%char (collapse_ws_aux true s')
      else String c (collapse_ws_aux false s')
  end.

Definition collapse_ws (s : string) : string := collapse_ws_aux false s.

(** [str(n)] for an [int] *)
Definition str_of_Z (n : Z) : string := pretty n.
Definition str_of_nat (n : nat) : string := pretty n.

(** [int(s)]: surrounding whitespace, an optional sign, decimal digits
    with single underscores between them; [None] stands for
    [ValueError]. *)
Definition digit_val (c : ascii) : Z := Z.of_nat (code c - 48).

Fixpoint parse_digits (acc : Z) (prev_digit : bool) (s : string) : option Z :=
  match s with
  | EmptyString => if prev_digit then Some acc else None
  | String c s' =>
      if isdigit c then parse_digits (10 * acc + digit_val c)%Z true s'
      else if (code c =? 95)%nat && prev_digit then parse_digits acc false s'
      else None
  end.

Definition int_of_str (s : string) : option Z :=
  match strip s with
  | String "-"%char ds => Z.opp <$> parse_digits 0 false ds
  | String "+"%char ds => parse_digits 0 false ds
  | ds => parse_digits 0 false ds
  end.

(** [re.findall(r"\b\w[\w']*\b", s)].  A match starts at the first word
    character after the previous match, takes the maximal run of word
    characters and apostrophes, and gives back the trailing apostrophes
    so that it ends at a word boundary.  [cur] is the run read so far and
    [pend] the apostrophes read after its last word character. *)
Definition is_apostrophe (c : ascii) : bool := (code c =? 39)%nat.

Fixpoint findall_words_aux (cur : option (string * string)) (s : string)
  : list string :=
  match s with
  | EmptyString => match cur with Some (w, _) => [w] | None => [] end
  | String c s' =>
      match cur with
      | None =>
          if isword c then findall_words_aux (Some (String c "", "")) s'
          else findall_words_aux None s'
      | Some (w, pend) =>
          if isword c
          then findall_words_aux (Some (w +:+ pend +:+ String c "", "")) s'
          else if is_apostrophe c
          then findall_words_aux (Some (w, pend +:+ String c "")) s'
          else w :: findall_words_aux None s'
      end
  end.

Definition findall_words (s : string) : list string :=
  findall_words_aux None s.

(** [range(a, b)] on naturals *)
Definition range (a b : nat) : list nat := seq a (b - a).

(** [os.path.join(a, b)] on POSIX paths *)
Definition path_join (a b : string) : string :=
  if startswith b "/" then b
  else if is_empty a then b
  else if startswith (String.string_of_list_ascii
                        (rev (String.list_ascii_of_string a))) "/"
  then a +:+ b
  else a +:+ "/" +:+ b.

(** [all(p(c) for c in s)] *)
Fixpoint str_all (p : ascii -> bool) (s : string) : bool :=
  match s with
  | EmptyString => true
  | String c s' => p c && str_all p s'
  end.

(** [s[:n]] *)
Fixpoint take_str (n : nat) (s : string) : string :=
  match n, s with
  | S n', String c s' => String c (take_str n' s')
  | _, _ => EmptyString
  end.

(** The longest prefix of [s] whose characters satisfy [p]: what a
    greedy character class [[...]*] matches at the start of [s]. *)
Fixpoint take_while (p : ascii -> bool) (s : string) : string :=
  match s with
  | EmptyString => EmptyString
  | String c s' => if p c then String c (take_while p s') else EmptyString
  end.

Fixpoint drop_while (p : ascii -> bool) (s : string) : string :=
  match s with
  | EmptyString => EmptyString
  | String c s' => if p c then drop_while p s' else s
  end.

(** [sub in s] for strings *)
Fixpoint contains (sub s : string) : bool :=
  startswith s sub ||
  match s with
  | EmptyString => false
  | String _ s' => contains sub s'
  end.

(** [s.replace(old, new)] for a one-character [old] *)
Fixpoint replace_char (old : ascii) (new : string) (s : string) : string :=
  match s with
  | EmptyString => EmptyString
  | String c s' =>
      if Ascii.eqb c old then new +:+ replace_char old new s'
      else String c (replace_char old new s')
  end.

(** [s.strip(chars)] for a one-character [chars] *)
Definition strip_char (ch : ascii) (s : string) : string :=
  let lstripped := drop_while (Ascii.eqb ch) s in
  String.string_of_list_ascii
    (rev (String.list_ascii_of_string
            (drop_while (Ascii.eqb ch)
               (String.string_of_list_ascii
                  (rev (String.list_ascii_of_string lstripped)))))).

End Py.

(** ** [modules/rag/used_map.py] *)

Module UsedMap.

(** [context_range : Union[str, List[int]]] *)
Inductive context_range :=
| RangeStr (s : string)
| RangeList (l : list Z).

(** The persisted ledger file, as [load] reads it: a text that
    [json.load] turns into a dict from reference keys to lists of range
    strings, or anything [load] fails to read that way, an empty or
    half-written file among them. *)
Inductive ledger_file :=
| Ledger (data : gmap string (list string))
| Malformed.

(** The directory of ledger files, by path. *)
Abbreviation filesystem := (gmap string ledger_file).

Record t := mk {
  storage_dir : string;
  active_translation_id : option string;
  used_maps : gmap string (gmap string (gset string))
}.

(** [UsedMap.__init__] *)
Definition init (dir : string) : t :=
  {| storage_dir := dir; active_translation_id := None; used_maps := ∅ |}.

Definition _get_filepath (s : t) (translation_id : string) : string :=
  Py.path_join (storage_dir s) (translation_id +:+ "_used_map.json").

(** [if not tid]: [None] and the empty string are both falsy. *)
Definition truthy_id (tid : option string) : option string :=
  match tid with
  | Some id => if Py.is_empty id then None else Some id
  | None => None
  end.

Definition load (fs : filesystem) (translation_id : string) (s : t) : t :=
  let loaded :=
    match fs !! _get_filepath s translation_id with
    | Some (Ledger data) => list_to_set (C:=gset string) <$> data
    | Some Malformed => ∅
    | None => ∅
    end in
  {| storage_dir := storage_dir s;
     active_translation_id := Some translation_id;
     used_maps := <[translation_id := loaded]> (used_maps s) |}.

(** [serializable_map = {k: list(v) for k, v in
    self.used_maps.get(tid, {}).items()}] *)
Definition serializable_map (s : t) (tid : string) : gmap string (list string) :=
  elements <$> default ∅ (used_maps s !! tid).

(** How [with open(path, 'w') as f: json.dump(serializable_map, f)] ends.
    [open] raises, and the file is as it was; or [open] succeeds, which
    empties the file, and then [json.dump] raises before the text is
    complete, or writes it.  [read_back data] is the file that the text
    written for [data] makes: what [json.load] will find there. *)
Inductive write_outcome :=
| OpenFails
| DumpFails
| Written (read_back : gmap string (list string) -> ledger_file).

(** [save]: the method catches and logs what [open] or [json.dump]
    raises. *)
Definition save (io : write_outcome) (translation_id : option string) (s : t)
    (fs : filesystem) : filesystem :=
  let tid := match truthy_id translation_id with
             | Some id => Some id
             | None => active_translation_id s
             end in
  match truthy_id tid with
  | None => fs
  | Some id =>
      let path := _get_filepath s id in
      match io with
      | OpenFails => fs
      | DumpFails => <[path := Malformed]> fs
      | Written read_back => <[path := read_back (serializable_map s id)]> fs
      end
  end.

Definition context_str (r : context_range) : string :=
  match r with
  | RangeList l => Py.join "," (map Py.str_of_Z l)
  | RangeStr s => s
  end.

Definition mark_used (reference_key : string) (r : context_range) (s : t) : t :=
  match truthy_id (active_translation_id s) with
  | None => s
  | Some tid =>
      let map_for_tid := default ∅ (used_maps s !! tid) in
      let contexts := default ∅ (map_for_tid !! reference_key) in
      {| storage_dir := storage_dir s;
         active_translation_id := active_translation_id s;
         used_maps :=
           <[tid := <[reference_key := contexts ∪ {[context_str r]}]>
                      map_for_tid]> (used_maps s) |}
  end.

Definition was_used (reference_key : string) (r : context_range) (s : t) : bool :=
  match truthy_id (active_translation_id s) with
  | None => false
  | Some tid =>
      bool_decide
        (context_str r ∈
           default ∅ (default ∅ (used_maps s !! tid) !! reference_key))
  end.

(** What the ledger file of a session records for a key and a range, as
    [load] reads it. *)
Definition ledger_records (fs : filesystem) (s : t) (translation_id : string)
    (reference_key : string) (r : context_range) : Prop :=
  ∃ data ranges,
    fs !! _get_filepath s translation_id = Some (Ledger data) ∧
    data !! reference_key = Some ranges ∧
    context_str r ∈ ranges.

(** [tid = translation_id or self.active_translation_id] *)
Definition id_or_active (translation_id : option string) (s : t) : option string :=
  match truthy_id translation_id with
  | Some id => Some id
  | None => active_translation_id s
  end.

(** [reset] *)
Definition reset (translation_id : option string) (s : t) : t :=
  match truthy_id (id_or_active translation_id s) with
  | Some tid =>
      {| storage_dir := storage_dir s;
         active_translation_id := active_translation_id s;
         used_maps := <[tid := ∅]> (used_maps s) |}
  | None => s
  end.

(** [get_used_map]: the map of the session and the state after
    [self.used_maps.setdefault(tid, {})]. *)
Definition get_used_map (translation_id : option string) (s : t)
  : gmap string (gset string) * t :=
  match truthy_id (id_or_active translation_id s) with
  | None => (∅, s)
  | Some tid =>
      match used_maps s !! tid with
      | Some m => (m, s)
      | None =>
          (∅, {| storage_dir := storage_dir s;
                 active_translation_id := active_translation_id s;
                 used_maps := <[tid := ∅]> (used_maps s) |})
      end
  end.

End UsedMap.

(** ** [modules/chunking]: what the chunkers share *)

Module Chunking.

(** A spaCy token, as far as the chunkers read it. *)
Record Token := mk_token {
  text : string;
  pos_ : string;
  is_punct : bool;
  is_space : bool
}.

(** A token of a parsed [Doc] with [list(token.subtree)]. *)
Record DocToken := mk_doc_token {
  tok : Token;
  subtree : list Token
}.

Definition Doc := list DocToken.

(** A line chunk, the input of the phrase and fragment chunkers: a dict
    with ["text"] and ["chunk_id"], and optionally ["title"], ["line"],
    ["act"], ["scene"], ["mood"] (read with [.get]). *)
Record line_chunk := mk_line_chunk {
  lc_text : string;
  lc_chunk_id : string;
  lc_title : option string;
  lc_line : option Z;
  lc_act : option string;
  lc_scene : option string;
  lc_mood : option string
}.

(** [_normalize_quotes] replaces the curly quotes U+2018, U+2019, U+201C
    and U+201D by the plain apostrophe and the plain double quote.  The
    strings of this development are ASCII text, where these characters
    do not occur and the function returns its argument; the statements
    name it wherever the source applies it, and say nothing of text
    that is not ASCII. *)
Definition _normalize_quotes (line : string) : string := line.

Definition is_vowel (c : ascii) : bool :=
  existsb (Ascii.eqb c) ["a"; "e"; "i"; "o"; "u"; "y"]%char.

(** [len(re.findall(r'[aeiouy]+', word))] *)
Fixpoint vowel_groups (in_group : bool) (word : string) : nat :=
  match word with
  | EmptyString => 0
  | String c w =>
      if is_vowel c
      then (if in_group then 0 else 1) + vowel_groups true w
      else vowel_groups false w
  end.

(** [word[:-1] if word.endswith('e') else word] *)
Fixpoint drop_final_e (word : string) : string :=
  match word with
  | EmptyString => EmptyString
  | String c EmptyString => if Ascii.eqb c "e" then EmptyString else word
  | String c w => String c (drop_final_e w)
  end.

Definition _count_syllables (word : string) : nat :=
  if negb (Py.str_any Py.isalpha word) then 0
  else
    let word := Py.lower word in
    if (Py.len word <=? 3)%nat then 1
    else Nat.max 1 (vowel_groups false (drop_final_e word)).

(** The tokens of a [Doc] that are neither punctuation nor whitespace. *)
Definition word_tokens (toks : list Token) : list Token :=
  filter (λ t, negb (is_punct t) && negb (is_space t) = true) toks.

(** [token_words[i:i+len(words)] == words] for the first [i] of
    [range(len(token_words) - len(words) + 1)]; [None] when the loop ends
    without a match. *)
Definition find_slice (token_words words : list string) : option nat :=
  List.find
    (λ i, bool_decide (take (length words) (drop i token_words) = words))
    (seq 0 (length token_words + 1 - length words)).

(** [any(idx in used_indices for idx in range(a, b))] *)
Definition any_used (used_indices : gset nat) (a b : nat) : bool :=
  existsb (λ idx, bool_decide (idx ∈ used_indices)) (Py.range a b).

(** [used_indices.update(range(a, b))] *)
Definition update_used (used_indices : gset nat) (a b : nat) : gset nat :=
  used_indices ∪ list_to_set (Py.range a b).

(** [l[a:b]] *)
Definition slice {X : Type} (l : list X) (a b : nat) : list X :=
  take (b - a) (drop a l).

(** Two inclusive index ranges that share an index. *)
Definition ranges_overlap (r1 r2 : Z * Z) : Prop :=
  ∃ idx : Z, (fst r1 <= idx <= snd r1)%Z ∧ (fst r2 <= idx <= snd r2)%Z.

(** No two ranges at different positions of the list share an index. *)
Definition non_overlapping (ranges : list (Z * Z)) : Prop :=
  ∀ i j r1 r2, i ≠ j →
    ranges !! i = Some r1 → ranges !! j = Some r2 → ¬ ranges_overlap r1 r2.

(** The ranges a chunking loop appends when it starts from the set
    [used_indices]: each one is [range(i, i + n)], free in the set at that
    moment, and is added to the set before the loop goes on. *)
Inductive emits : gset nat → list (Z * Z) → Prop :=
| emits_nil used_indices : emits used_indices []
| emits_cons used_indices i n ranges :
    any_used used_indices i (i + n) = false →
    emits (update_used used_indices i (i + n)) ranges →
    emits used_indices
      ((Z.of_nat i, (Z.of_nat i + Z.of_nat n - 1)%Z) :: ranges).

(** A range avoids a set of indices. *)
Definition avoids (used_indices : gset nat) (r : Z * Z) : Prop :=
  ∀ k : nat, (fst r <= Z.of_nat k <= snd r)%Z → k ∉ used_indices.

(** The identity of a source line: [(title, act, scene, line)]. *)
Definition line_key : Type := string * option string * option string * option Z.

Section Tokenizer.
(** The module-level [SPACY_AVAILABLE] and [nlp]; [nlp line = None] is a
    call that raises. *)
Context (SPACY_AVAILABLE : bool) (nlp : string -> option Doc).

(** [_process_line_with_spacy] of the phrase chunker: spaCy tokens, or the
    words of the regular expression when spaCy is missing or fails. *)
Definition _process_line_with_spacy (line : string) : list Token + list string :=
  if negb SPACY_AVAILABLE then inr (Py.findall_words line)
  else match nlp (_normalize_quotes line) with
       | Some doc => inl (word_tokens (tok <$> doc))
       | None => inr (Py.findall_words line)
       end.

(** [[t.text for t in tokens]] when every token has a [text], the tokens
    themselves otherwise. *)
Definition token_texts (tokens : list Token + list string) : list string :=
  match tokens with
  | inl toks => text <$> toks
  | inr words => words
  end.

Definition token_tags (tokens : list Token + list string) : list string :=
  match tokens with
  | inl toks => pos_ <$> toks
  | inr words => replicate (length words) ""
  end.

End Tokenizer.

End Chunking.

(** ** [modules/chunking/phrase_chunker.py] *)

Module PhraseChunker.
Import Chunking.

Record chunk := mk_chunk {
  chunk_id : string;
  source_chunk_id : string;
  title : string;
  line : option Z;
  act : option string;
  scene : option string;
  text : string;
  (** ["word_index"] is the string [f"{start},{end}"] of these two *)
  word_index : Z * Z;
  syllables : nat;
  POS : list string;
  mood : string;
  word_count : nat;
  phrase_position : nat;
  total_phrases_in_line : nat;
  ends_with_punctuation : bool
}.

(** The characters of [r'([.!?;:])']. *)
Definition is_phrase_delim (c : ascii) : bool :=
  existsb (Ascii.eqb c) ["."; "!"; "?"; ";"; ":"]%char.

(** [phrase_pattern.split(line_text)]: the texts between the delimiters
    with the delimiters themselves at the odd positions. *)
Fixpoint pattern_split (cur : string) (s : string) : list string :=
  match s with
  | EmptyString => [cur]
  | String c s' =>
      if is_phrase_delim c
      then cur :: String c "" :: pattern_split "" s'
      else pattern_split (cur +:+ String c "") s'
  end.

(** [phrase_pattern.match(part)] *)
Definition pattern_match (part : string) : bool :=
  match part with
  | String c _ => is_phrase_delim c
  | EmptyString => false
  end.

(** The [while i < len(major_parts)] loop that glues each text to the
    delimiter after it. *)
Fixpoint merge_parts (major_parts : list string) : list string :=
  match major_parts with
  | [] => []
  | a :: tl =>
      match tl with
      | b :: rest =>
          if pattern_match b then (a +:+ b) :: merge_parts rest
          else (if Py.is_empty (Py.strip a) then [] else [a]) ++ merge_parts tl
      | [] => if Py.is_empty (Py.strip a) then [] else [a]
      end
  end.

(** [for j, part in enumerate(comma_parts)] *)
Fixpoint comma_phrases (comma_parts : list string) : list string :=
  match comma_parts with
  | [] => []
  | part :: tl =>
      let cleaned := Py.strip part in
      (if Py.is_empty cleaned then []
       else [match tl with
             | [] => cleaned
             | _ :: _ => cleaned +:+ ","
             end])
      ++ comma_phrases tl
  end.

Definition final_phrases (line_text : string) : list string :=
  flat_map (λ phrase, comma_phrases (Py.split_char "," phrase))
           (merge_parts (pattern_split "" line_text)).

(** [bool(re.search(r'[.!?;:,]$', phrase))]: [$] is the end of the string
    or the position before a final newline. *)
Definition ends_with_punct (phrase : string) : bool :=
  let is_mark c := is_phrase_delim c || Ascii.eqb c ","%char in
  match rev (String.list_ascii_of_string phrase) with
  | c :: rest =>
      is_mark c ||
      (Ascii.eqb c "010"%char &&
       match rest with c' :: _ => is_mark c' | [] => false end)
  | [] => false
  end.

Section Chunker.
Context (SPACY_AVAILABLE : bool) (nlp : string -> option Doc).

(** The body of [for phrase_idx, phrase in enumerate(final_phrases)], from
    index [phrase_idx] on; the state is [used_indices], the result the
    chunks appended. *)
Fixpoint phrase_loop (lc : line_chunk) (token_words token_pos : list string)
    (total : nat) (phrase_idx : nat) (phrases : list string)
    (used_indices : gset nat) : list chunk :=
  match phrases with
  | [] => []
  | phrase :: rest =>
      let continue_ us := phrase_loop lc token_words token_pos total
                            (S phrase_idx) rest us in
      let phrase_words :=
        token_texts (_process_line_with_spacy SPACY_AVAILABLE nlp phrase) in
      let phrase_text := Py.strip (Py.join " " phrase_words) in
      if (length phrase_words <? 3)%nat then continue_ used_indices
      else
        match find_slice token_words phrase_words with
        | None => continue_ used_indices
        | Some i =>
            let phrase_start := Z.of_nat i in
            let phrase_end := (Z.of_nat i + Z.of_nat (length phrase_words) - 1)%Z in
            (* [range(phrase_start, phrase_end + 1)] *)
            let stop := i + length phrase_words in
            if any_used used_indices i stop
            then continue_ used_indices
            else
              {| chunk_id := "phrase_" +:+ lc_chunk_id lc +:+ "_"
                               +:+ Py.str_of_nat phrase_idx;
                 source_chunk_id := lc_chunk_id lc;
                 title := default "Unknown" (lc_title lc);
                 line := lc_line lc;
                 act := lc_act lc;
                 scene := lc_scene lc;
                 text := phrase_text;
                 word_index := (phrase_start, phrase_end);
                 syllables := sum_list (_count_syllables <$> phrase_words);
                 POS := if (phrase_end <? Z.of_nat (length token_pos))%Z
                        then slice token_pos i stop
                        else [];
                 mood := default "neutral" (lc_mood lc);
                 word_count := length phrase_words;
                 phrase_position := phrase_idx;
                 total_phrases_in_line := total;
                 ends_with_punctuation := ends_with_punct phrase |}
              :: continue_ (update_used used_indices i stop)
        end
  end.

(** One iteration of [for line_chunk in line_chunks]. *)
Definition chunks_for_line (lc : line_chunk) : list chunk :=
  let line_text := _normalize_quotes (lc_text lc) in
  let tokens := _process_line_with_spacy SPACY_AVAILABLE nlp line_text in
  let phrases := final_phrases line_text in
  phrase_loop lc (token_texts tokens) (token_tags tokens)
    (length phrases) 0 phrases ∅.

Definition chunk_from_line_chunks (line_chunks : list line_chunk) : list chunk :=
  flat_map chunks_for_line line_chunks.

End Chunker.

(** The word indices a chunk covers. *)
Definition covers (c : chunk) (idx : Z) : Prop :=
  (fst (word_index c) <= idx)%Z ∧ (idx <= snd (word_index c))%Z.

Definition hamlet_line : line_chunk :=
  {| lc_text := "To be, or not to be, that is the question";
     lc_chunk_id := "chunk_1";
     lc_title := Some "THE TRAGEDY OF HAMLET, PRINCE OF DENMARK";
     lc_line := Some 1%Z; lc_act := Some "III"; lc_scene := Some "I";
     lc_mood := None |}.

End PhraseChunker.

(** ** [modules/chunking/fragment_chunker.py] *)

Module FragmentChunker.
Import Chunking.

Record chunk := mk_chunk {
  chunk_id : string;
  source_chunk_id : string;
  title : string;
  line : option Z;
  act : option string;
  scene : option string;
  text : string;
  (** ["word_index"] is the string [f"{start},{end}"] of these two *)
  word_index : Z * Z;
  syllables : nat;
  POS : list string;
  mood : string;
  word_count : nat;
  fragment_position : nat;
  total_fragments_in_line : option nat
}.

Definition make_chunk (lc : line_chunk) (fragment_idx : nat)
    (words tags : list string) (first last : Z) : chunk :=
  {| chunk_id := "fragment_" +:+ lc_chunk_id lc +:+ "_"
                   +:+ Py.str_of_nat fragment_idx;
     source_chunk_id := lc_chunk_id lc;
     title := default "Unknown" (lc_title lc);
     line := lc_line lc;
     act := lc_act lc;
     scene := lc_scene lc;
     text := Py.strip (Py.join " " words);
     word_index := (first, last);
     syllables := sum_list (_count_syllables <$> words);
     POS := tags;
     mood := default "neutral" (lc_mood lc);
     word_count := length words;
     fragment_position := fragment_idx;
     total_fragments_in_line := None |}.

Section Chunker.
(** [self.min_words]; [self.max_words] is forced to 6 by
    [chunk_from_line_chunks]. *)
Context (min_words : nat).
Definition max_words : nat := 6.

(** Primary strategy, [for token in line_doc]: the state is
    [used_indices] and [fragment_idx]. *)
Fixpoint subtree_loop (lc : line_chunk) (token_words : list string)
    (line_doc : Doc) (used_indices : gset nat) (fragment_idx : nat)
  : list chunk :=
  match line_doc with
  | [] => []
  | token :: rest =>
      let toks := word_tokens (subtree token) in
      if (length toks <? min_words)%nat || (max_words <? length toks)%nat
      then subtree_loop lc token_words rest used_indices fragment_idx
      else
        let word_texts := Chunking.text <$> toks in
        match find_slice token_words word_texts with
        | None => subtree_loop lc token_words rest used_indices fragment_idx
        | Some i =>
            let word_index_start := Z.of_nat i in
            let word_index_end := (Z.of_nat i + Z.of_nat (length word_texts) - 1)%Z in
            (* [range(word_index_start, word_index_end + 1)] *)
            let stop := i + length word_texts in
            if any_used used_indices i stop
            then subtree_loop lc token_words rest used_indices fragment_idx
            else
              make_chunk lc fragment_idx word_texts (pos_ <$> toks)
                         word_index_start word_index_end
              :: subtree_loop lc token_words rest
                   (update_used used_indices i stop) (S fragment_idx)
        end
  end.

(** [range(self.max_words, self.min_words - 1, -1)] *)
Definition window_sizes : list nat :=
  rev (seq min_words (max_words + 1 - min_words)).

(** [for window_size in ...] at position [i]: the first size that fits in
    the line and touches no used index. *)
Definition first_window (n_tokens : nat) (used_indices : gset nat) (i : nat)
  : option nat :=
  List.find
    (λ window_size,
       negb (n_tokens <? i + window_size)%nat &&
       negb (any_used used_indices i (i + window_size)))
    window_sizes.

(** Fallback strategy, [while i <= len(line_tokens) - self.min_words],
    over the positions [i] still to visit. *)
Fixpoint window_loop (lc : line_chunk) (line_tokens : list Token + list string)
    (pos_tags : list string) (positions : list nat)
    (used_indices : gset nat) (fragment_idx : nat) : list chunk :=
  match positions with
  | [] => []
  | i :: rest =>
      let n_tokens := length (token_texts line_tokens) in
      match first_window n_tokens used_indices i with
      | None => window_loop lc line_tokens pos_tags rest used_indices fragment_idx
      | Some window_size =>
          let stop := i + window_size in
          let fragment_words := slice (token_texts line_tokens) i stop in
          let fragment_pos :=
            match line_tokens with
            | inl toks => pos_ <$> slice toks i stop
            | inr _ =>
                if (i + window_size <=? length pos_tags)%nat
                then slice pos_tags i stop
                else replicate (length fragment_words) ""
            end in
          make_chunk lc fragment_idx fragment_words fragment_pos
                     (Z.of_nat i) (Z.of_nat stop - 1)%Z
          :: window_loop lc line_tokens pos_tags rest
               (update_used used_indices i stop) (S fragment_idx)
      end
  end.

(** The tokens of a line: those of the parsed document when spaCy is
    available and the document is not empty, the words of the regular
    expression otherwise. *)
Definition line_tokens_of (line_text : string) (line_doc : option Doc)
  : list Token + list string :=
  match line_doc with
  | Some ((_ :: _) as doc) => inl (word_tokens (tok <$> doc))
  | _ => inr (Py.findall_words line_text)
  end.

(** One iteration of [for line_chunk in line_chunks], given
    [line_doc = nlp(line_text) if SPACY_AVAILABLE else None]. *)
Definition chunks_for_line (lc : line_chunk) (line_doc : option Doc) : list chunk :=
  let line_text := _normalize_quotes (lc_text lc) in
  let line_tokens := line_tokens_of line_text line_doc in
  let token_words := token_texts line_tokens in
  let pos_tags := token_tags line_tokens in
  let primary :=
    match line_doc with
    | Some ((_ :: _) as doc) => subtree_loop lc token_words doc ∅ 0
    | _ => []
    end in
  match primary with
  | [] =>
      window_loop lc line_tokens pos_tags
        (seq 0 (length token_words + 1 - min_words)) ∅ 0
  | _ :: _ => primary
  end.

Definition key_of (c : chunk) : line_key := (title c, act c, scene c, line c).

Definition key_of_line (lc : line_chunk) : line_key :=
  (default "Unknown" (lc_title lc), lc_act lc, lc_scene lc, lc_line lc).

(** [line_to_count[key]] after the counting loop *)
Definition line_to_count (chunks : list chunk) (key : line_key) : nat :=
  length (filter (λ c, key_of c = key) chunks).

(** The second loop: [chunk['total_fragments_in_line'] = line_to_count[key]] *)
Definition update_totals (chunks : list chunk) : list chunk :=
  (λ c,
     {| chunk_id := chunk_id c; source_chunk_id := source_chunk_id c;
        title := title c; line := line c; act := act c; scene := scene c;
        text := text c; word_index := word_index c; syllables := syllables c;
        POS := POS c; mood := mood c; word_count := word_count c;
        fragment_position := fragment_position c;
        total_fragments_in_line := Some (line_to_count chunks (key_of c)) |})
  <$> chunks.

Context (SPACY_AVAILABLE : bool) (nlp : string -> option Doc).

(** The first loop over the line chunks; [None] is an exception of [nlp],
    which this chunker does not catch. *)
Fixpoint all_line_chunks (line_chunks : list line_chunk) : option (list chunk) :=
  match line_chunks with
  | [] => Some []
  | lc :: rest =>
      let line_doc :=
        if SPACY_AVAILABLE
        then Some <$> nlp (_normalize_quotes (lc_text lc))
        else Some None in
      match line_doc with
      | None => None
      | Some doc => app (chunks_for_line lc doc) <$> all_line_chunks rest
      end
  end.

Definition chunk_from_line_chunks (line_chunks : list line_chunk)
  : option (list chunk) :=
  update_totals <$> all_line_chunks line_chunks.

(** [line_doc] for a line chunk on which [nlp] does not raise. *)
Definition line_doc_for (lc : line_chunk) : option Doc :=
  if SPACY_AVAILABLE then nlp (_normalize_quotes (lc_text lc)) else None.

End Chunker.

(** The word indices a chunk covers. *)
Definition covers (c : chunk) (idx : Z) : Prop :=
  (fst (word_index c) <= idx)%Z ∧ (idx <= snd (word_index c))%Z.

End FragmentChunker.

(** ** [modules/translator/types.py] *)

Module Types.

(** The values a reference dict holds: [None], a string, an integer, or a
    list of strings (the part-of-speech tags). *)
Inductive value :=
| VNone
| VStr (s : string)
| VInt (n : Z)
| VList (l : list string).

#[export] Instance value_eq_dec : EqDecision value.
Proof. solve_decision. Defined.

(** [ReferenceDict] *)
Abbreviation ReferenceDict := (gmap string value).

(** [CandidateQuote]; [F] is the type of Python floats. *)
Record CandidateQuote (F : Type) := mk_candidate {
  text : string;
  reference : ReferenceDict;
  score : F
}.
Arguments mk_candidate {F} _ _ _.
Arguments text {F} _.
Arguments reference {F} _.
Arguments score {F} _.

(** [str(v)] *)
Definition str (v : value) : string :=
  match v with
  | VNone => "None"
  | VStr s => s
  | VInt n => Py.str_of_Z n
  | VList l => "[" +:+ Py.join ", " ((λ x, "'" +:+ x +:+ "'") <$> l) +:+ "]"
  end.

(** [bool(v)] *)
Definition truthy (v : value) : bool :=
  match v with
  | VNone => false
  | VStr s => negb (Py.is_empty s)
  | VInt n => negb (n =? 0)%Z
  | VList l => match l with [] => false | _ => true end
  end.

End Types.

(** ** [modules/translator/selector.py]: [Selector.rank_candidates] *)

Module Selector.
Import Types.

Section MMR.
(** Python floats and the operations [rank_candidates] uses on them:
    [<], [>], [+], [-], [*], true division (where [None] is
    [ZeroDivisionError]), [float(n)] for an [int], [0.0], [1.0] and
    [-float('inf')]. *)
Context {F : Type}
        (flt fgt : F -> F -> bool)
        (fadd fsub fmul : F -> F -> F)
        (fdiv : F -> F -> option F)
        (float_of_nat : nat -> F)
        (zero one neg_inf : F).

Local Abbreviation candidate := (CandidateQuote F).

(** [sorted(candidates, key=lambda c: c.score)]: stable, ascending.  The
    sort only asks whether one score is less than another. *)
Fixpoint insert_by_score (c : candidate) (l : list candidate) : list candidate :=
  match l with
  | [] => [c]
  | d :: tl =>
      if flt (score d) (score c) then d :: insert_by_score c tl
      else c :: d :: tl
  end.

Fixpoint sorted_by_score (l : list candidate) : list candidate :=
  match l with
  | [] => []
  | c :: tl => insert_by_score c (sorted_by_score tl)
  end.

(** [compute_similarity]: Jaccard similarity of the sets of lower-cased
    words. *)
Definition compute_similarity (text1 text2 : string) : option F :=
  let words1 : gset string := list_to_set (Py.split_ws (Py.lower text1)) in
  let words2 : gset string := list_to_set (Py.split_ws (Py.lower text2)) in
  if bool_decide (words1 = ∅) || bool_decide (words2 = ∅) then Some zero
  else fdiv (float_of_nat (size (words1 ∩ words2)))
            (float_of_nat (size (words1 ∪ words2))).

(** [max(a, b)] of Python: the second argument only when it is greater. *)
Definition py_max (a b : F) : F := if fgt b a then b else a.

(** [for selected in ranked_candidates: ... max_similarity = max(...)] *)
Fixpoint max_similarity_loop (cand_text : string) (ranked : list candidate)
    (max_similarity : F) : option F :=
  match ranked with
  | [] => Some max_similarity
  | selected :: tl =>
      match compute_similarity cand_text (text selected) with
      | Some similarity =>
          max_similarity_loop cand_text tl (py_max max_similarity similarity)
      | None => None
      end
  end.

(** [mmr_score] of one candidate of the pool *)
Definition mmr_score (lambda_param : F) (ranked : list candidate)
    (cand : candidate) : option F :=
  match fdiv one (fadd one (score cand)) with
  | None => None
  | Some relevance =>
      match max_similarity_loop (text cand) ranked zero with
      | None => None
      | Some max_similarity =>
          Some (fsub (fmul lambda_param relevance)
                     (fmul (fsub one lambda_param) max_similarity))
      end
  end.

(** [for i, candidate in enumerate(remaining_candidates)]: the state is
    [max_mmr_score] and [max_mmr_idx] ([None] for [-1]); the outer [None]
    is a raised exception. *)
Fixpoint select_loop (lambda_param : F) (ranked : list candidate)
    (i : nat) (remaining : list candidate)
    (max_mmr_score : F) (max_mmr_idx : option nat) : option (option nat) :=
  match remaining with
  | [] => Some max_mmr_idx
  | cand :: tl =>
      match mmr_score lambda_param ranked cand with
      | None => None
      | Some mmr =>
          if fgt mmr max_mmr_score
          then select_loop lambda_param ranked (S i) tl mmr (Some i)
          else select_loop lambda_param ranked (S i) tl max_mmr_score max_mmr_idx
      end
  end.

Definition select_best (lambda_param : F) (ranked remaining : list candidate)
  : option (option nat) :=
  select_loop lambda_param ranked 0 remaining neg_inf None.

(** [while remaining_candidates and len(ranked_candidates) <
    len(sorted_candidates)]; each iteration removes one candidate from
    the pool or leaves the loop, so [fuel = len(remaining_candidates)]
    iterations are enough. *)
Fixpoint mmr_loop (fuel : nat) (lambda_param : F) (total : nat)
    (ranked remaining : list candidate) : option (list candidate) :=
  match fuel with
  | O => Some ranked
  | S fuel' =>
      match remaining with
      | [] => Some ranked
      | _ :: _ =>
          if negb (length ranked <? total)%nat then Some ranked
          else
            match select_best lambda_param ranked remaining with
            | None => None
            | Some None => Some ranked
            | Some (Some max_mmr_idx) =>
                match remaining !! max_mmr_idx with
                | Some chosen =>
                    mmr_loop fuel' lambda_param total
                      (ranked ++ [chosen]) (delete max_mmr_idx remaining)
                | None => Some ranked
                end
            end
      end
  end.

(** [rank_candidates]; [mmr_lambda] is [self.mmr_lambda]. *)
Definition rank_candidates (mmr_lambda : F) (candidates : list candidate)
    (lambda_param : option F) : option (list candidate) :=
  let lambda_param := default mmr_lambda lambda_param in
  match candidates with
  | [] => Some []
  | _ :: _ =>
      let sorted_candidates := sorted_by_score candidates in
      if (length sorted_candidates <=? 1)%nat then Some sorted_candidates
      else
        match sorted_candidates with
        | first :: rest =>
            mmr_loop (length rest) lambda_param (length sorted_candidates)
              [first] rest
        | [] => Some []
        end
  end.

(** Two candidates with the same text and the same score. *)
Definition same_text_and_score (a b : candidate) : Prop :=
  text a = text b ∧ score a = score b.

(** The order the result is expected to have, stated without the loops.
    A comparison of floats that is a strict weak order puts them in
    levels: [lt a b] never holds both ways, and a value that is neither
    above [a] nor below [c] leaves [lt a c] false.  [<] and [>] of
    Python are such orders on the floats that are not NaN. *)
Definition strict_weak_order (lt : F -> F -> bool) : Prop :=
  (∀ a b, lt a b = true -> lt b a = false) ∧
  (∀ a b c, lt a c = true -> lt a b = true ∨ lt b c = true).

(** Two candidates whose scores tie: neither score is less than the
    other. *)
Definition tied (a b : candidate) : bool :=
  negb (flt (score a) (score b)) && negb (flt (score b) (score a)).

(** [pool] is [candidates] sorted by score, ascending and stable: the
    same candidates, no candidate before one of a lesser score, and the
    candidates of every level of score in the order [candidates] has
    them in. *)
Definition stable_sort_by_score (candidates pool : list candidate) : Prop :=
  pool ≡ₚ candidates ∧
  StronglySorted (λ a b, flt (score b) (score a) = false) pool ∧
  ∀ x, List.filter (tied x) pool = List.filter (tied x) candidates.

(** [selects_by_mmr lambda ranked pool res]: starting with [ranked] and
    the candidates of [pool] left to rank, [res] is reached by moving,
    time after time, one candidate of the pool to the end of the
    ranking: the candidate at the first position [i] of the pool whose
    MMR score against the ranking so far no candidate of the pool
    exceeds, so that the candidates before it in the pool all score
    less.  This ends when the pool is empty, or when no score of a
    candidate of the pool exceeds minus infinity. *)
Inductive selects_by_mmr (lambda_param : F)
  : list candidate -> list candidate -> list candidate -> Prop :=
| selects_done ranked :
    selects_by_mmr lambda_param ranked [] ranked
| selects_none ranked pool :
    (∀ c m, c ∈ pool -> mmr_score lambda_param ranked c = Some m ->
            fgt m neg_inf = false) ->
    selects_by_mmr lambda_param ranked pool ranked
| selects_step ranked pool i chosen m res :
    pool !! i = Some chosen ->
    mmr_score lambda_param ranked chosen = Some m ->
    fgt m neg_inf = true ->
    (∀ j c' m', pool !! j = Some c' ->
                mmr_score lambda_param ranked c' = Some m' ->
                fgt m' m = false ∧ ((j < i)%nat -> fgt m m' = true)) ->
    selects_by_mmr lambda_param (ranked ++ [chosen]) (delete i pool) res ->
    selects_by_mmr lambda_param ranked pool res.

End MMR.

(** An instance of the float operations for running the ranking: exact
    rationals extended with [-inf]. *)
Inductive xrat := NegInf | Fin (q : Q).

Definition xgt (a b : xrat) : bool :=
  match a, b with
  | NegInf, _ => false
  | Fin _, NegInf => true
  | Fin x, Fin y => negb (Qle_bool x y)
  end.

Definition xlt (a b : xrat) : bool := xgt b a.

Definition xlift (f : Q -> Q -> Q) (a b : xrat) : xrat :=
  match a, b with
  | Fin x, Fin y => Fin (f x y)
  | _, _ => NegInf
  end.

Definition xdiv (a b : xrat) : option xrat :=
  match a, b with
  | Fin x, Fin y => if Qeq_bool y 0 then None else Some (Fin (x / y))
  | _, _ => Some NegInf
  end.

Definition x_of_nat (n : nat) : xrat := Fin (inject_Z (Z.of_nat n)).

Definition xrank (mmr_lambda : xrat) (candidates : list (CandidateQuote xrat))
    (lambda_param : option xrat) : option (list (CandidateQuote xrat)) :=
  rank_candidates xlt xgt (xlift Qplus) (xlift Qminus) (xlift Qmult) xdiv
    x_of_nat (Fin 0) (Fin 1) NegInf mmr_lambda candidates lambda_param.

Definition example_candidates : list (CandidateQuote xrat) :=
  [ mk_candidate "thou art a villain" ∅ (Fin (1 # 2));
    mk_candidate "to be or not to be" ∅ (Fin (1 # 4));
    mk_candidate "not to be" ∅ (Fin (1 # 4));
    mk_candidate "the question" ∅ (Fin (1 # 4)) ].

End Selector.

(** ** [modules/translator/assembler.py] *)

Module Assembler.

(** One element of a list of [quote_data]: a prompt option, a dict with the
    keys ["temp_id"] and ["text"] (and the score, form and syllable count,
    which [_mini_validate] does not read), or the ["metadata"] entry
    [{"target_syllables": n}], which has neither key. *)
Inductive prompt_entry :=
| Quote (temp_id text : string)
| Metadata (target_syllables : nat).

(** [quote_data : Dict[str, List[Dict]]], in insertion order. *)
Definition quote_data := list (string * list prompt_entry).

(** An element of [all_quotes]. *)
Record listed_quote := mk_listed {
  temp_id : string;
  original : string;
  normalized : string
}.

(** [normalize_text]: [''.join(c.lower() for c in text if c.isalnum())] *)
Definition normalize_text (text : string) : string :=
  Py.str_map Py.lower_char (Py.str_filter Py.isalnum text).

(** The loop that fills [all_quotes]; [None] is the [KeyError] of
    [quote["temp_id"]] on an entry without that key. *)
Fixpoint collect_entries (quotes : list prompt_entry) : option (list listed_quote) :=
  match quotes with
  | [] => Some []
  | Quote tid text :: tl =>
      cons {| temp_id := tid; original := text; normalized := normalize_text text |}
        <$> collect_entries tl
  | Metadata _ :: _ => None
  end.

Fixpoint collect_quotes (qd : quote_data) : option (list listed_quote) :=
  match qd with
  | [] => Some []
  | (_, quotes) :: tl =>
      match collect_entries quotes with
      | Some l => app l <$> collect_quotes tl
      | None => None
      end
  end.

(** [''.join(l)] *)
Definition concat_str (l : list string) : string := Py.join "" l.

Section Matching.
Context {A : Type} (norm : A -> string).

(** [all_quotes.sort(key=lambda q: len(q["normalized"]), reverse=True)]:
    a stable sort, longest first; equal lengths keep their listing order. *)
Fixpoint insert_desc (x : A) (l : list A) : list A :=
  match l with
  | [] => [x]
  | y :: tl =>
      if (Py.len (norm y) <=? Py.len (norm x))%nat then x :: y :: tl
      else y :: insert_desc x tl
  end.

Fixpoint sort_desc (l : list A) : list A :=
  match l with
  | [] => []
  | x :: tl => insert_desc x (sort_desc tl)
  end.

(** The inner [for i, quote in enumerate(available_quotes)]: the first
    available quote the remaining text starts with, and the list after
    [available_quotes.pop(i)]. *)
Fixpoint find_match (remaining_text : string) (available_quotes : list A)
  : option (A * list A) :=
  match available_quotes with
  | [] => None
  | quote :: tl =>
      if Py.startswith remaining_text (norm quote) then Some (quote, tl)
      else match find_match remaining_text tl with
           | Some (m, tl') => Some (m, quote :: tl')
           | None => None
           end
  end.

(** [for position in range(3)] with the test after it; [positions] counts
    the iterations left, [used] is the list of matches so far.  [None] is
    [return False]. *)
Fixpoint match_positions (positions : nat) (remaining_text : string)
    (available_quotes used : list A) : option (list A) :=
  match positions with
  | O => if Py.is_empty remaining_text then Some used else None
  | S positions' =>
      if Py.is_empty remaining_text then Some used
      else match find_match remaining_text available_quotes with
           | Some (quote, available') =>
               match_positions positions'
                 (Py.drop_str (Py.len (norm quote)) remaining_text)
                 available' (used ++ [quote])
           | None => None
           end
  end.

Definition match_quotes (normalized_assembled : string) (all_quotes : list A)
  : option (list A) :=
  match_positions 3 normalized_assembled (sort_desc all_quotes) [].

(** The order the sort establishes: an earlier quote is at least as long. *)
Definition longer_first (x y : A) : Prop :=
  (Py.len (norm y) <= Py.len (norm x))%nat.

(** Greedy, longest-first matching, read on the list of matches [picks]:
    at every position, no quote of [avail] that is still unmatched and that
    the remaining text starts with is longer than the quote matched. *)
Definition greedy_picks (avail picks : list A) : Prop :=
  ∀ j q, picks !! j = Some q →
    ∀ x, x ∈ avail → x ∉ take j picks →
      Py.startswith (concat_str (map norm (drop j picks))) (norm x) = true →
      (Py.len (norm x) <= Py.len (norm q))%nat.

End Matching.

(** The value of [_mini_validate]: a dict, [False], or a raised
    [KeyError]. *)
Inductive mini_result :=
| MiniDict (text : string) (temp_ids : list string)
| MiniFalse
| MiniRaise.

Definition _mini_validate (assembled_line : string) (qd : quote_data) : mini_result :=
  let normalized_assembled := normalize_text assembled_line in
  match collect_quotes qd with
  | None => MiniRaise
  | Some all_quotes =>
      match match_quotes normalized normalized_assembled all_quotes with
      | Some used => MiniDict assembled_line (temp_id <$> used)
      | None => MiniFalse
      end
  end.

(** The candidates listed in [quote_data], in listing order, for the
    statement of properties: position [i] of this list is the [i]-th
    candidate. *)
Definition listed (qd : quote_data) : list listed_quote :=
  default [] (collect_quotes qd).

(** The listed candidates with their positions. *)
Definition tagged (l : list listed_quote) : list (nat * listed_quote) :=
  imap pair l.

Definition example_quote_data : quote_data :=
  [ ("line", [Quote "line_1" "To be, or not"; Quote "line_2" "to be"]);
    ("phrases", [Quote "phrases_1" "To be"; Quote "phrases_2" "or not to be"]);
    ("fragments", []) ].

(** The alphanumeric-only lower-cased text of the [i]-th listed
    candidate. *)
Definition candidate_text (qd : quote_data) (i : nat) : string :=
  default "" ((λ q, normalize_text (original q)) <$> listed qd !! i).

End Assembler.

(** ** [modules/validation/validator.py] *)

Module Validator.
Import Types Chunking.

(** [d.get(key, default)] *)
Definition get (d : ReferenceDict) (key : string) (dflt : value) : value :=
  default dflt (d !! key).

(** [v is None or v == "" or v == "null"] *)
Definition is_null (v : value) : bool :=
  match v with
  | VNone => true
  | VStr s => Py.is_empty s || String.eqb s "null"
  | _ => false
  end.

Section Validate.
(** The validator's own [SPACY_AVAILABLE] and [nlp], and
    [self.ground_truth]. *)
Context (SPACY_AVAILABLE : bool) (nlp : string -> option Doc)
        (ground_truth : list ReferenceDict).

(** [_tokenize_line_for_validation] *)
Definition _tokenize_line_for_validation (line_text : string)
  : list (string * nat) :=
  let words :=
    if negb SPACY_AVAILABLE then Py.findall_words line_text
    else match nlp (_normalize_quotes line_text) with
         | Some doc => Chunking.text <$> word_tokens (tok <$> doc)
         | None => Py.findall_words line_text
         end in
  imap (λ i word, (word, i)) words.

(** [_normalize_and_clean] *)
Definition _normalize_and_clean (text : string) : string :=
  Py.strip (Py.collapse_ws (Py.lower (_normalize_quotes text))).

(** The test of the loop over [self.ground_truth]. *)
Definition entry_matches (title act scene line_num : value)
    (entry : ReferenceDict) : bool :=
  let act_match :=
    (is_null act && is_null (get entry "act" VNone))
    || String.eqb (str (get entry "act" VNone)) (str act) in
  let scene_match :=
    (is_null scene && is_null (get entry "scene" VNone))
    || String.eqb (str (get entry "scene" VNone)) (str scene) in
  bool_decide (get entry "title" VNone = title)
  && act_match && scene_match
  && String.eqb (str (get entry "line" VNone)) (str line_num).

Definition find_entry (title act scene line_num : value)
  : option ReferenceDict :=
  List.find (entry_matches title act scene line_num) ground_truth.

(** [start, end = map(int, word_index.split(","))]; [None] is the
    [ValueError] of a wrong number of fields or of [int]. *)
Definition parse_range (sep : ascii) (word_index : string) : option (Z * Z) :=
  match Py.split_char sep word_index with
  | [a; b] =>
      match Py.int_of_str a, Py.int_of_str b with
      | Some first, Some last => Some (first, last)
      | _, _ => None
      end
  | _ => None
  end.

(** The words of a tokenized line whose index lies in the range. *)
Definition words_in_range (tokenized_line : list (string * nat))
    (first last : Z) : list string :=
  fst <$> filter (λ wi, (first <= Z.of_nat (snd wi) <= last)%Z) tokenized_line.

(** What one reference contributes to [extracted_fragments_gt]: nothing
    ([Some None]), a fragment ([Some (Some f)]), where a fragment that is
    not a string makes [validate_line] fail later with an exception. *)
Inductive extracted :=
| Skipped
| Fragment (fragment_gt : string)
| NotText.

Definition extract_reference (ref : ReferenceDict) : extracted :=
  let title := get ref "title" (VStr "") in
  let act := get ref "act" (VStr "") in
  let scene := get ref "scene" (VStr "") in
  let line_num := get ref "line" (VStr "") in
  let word_index := get ref "word_index" (VStr "") in
  if negb (truthy title) || Py.is_empty (str line_num) then Skipped
  else
    match find_entry title act scene line_num with
    | None => Skipped
    | Some gt_entry =>
        let gt_text := get gt_entry "text" (VStr "") in
        if truthy word_index then
          (* the [try] block: any exception skips the reference *)
          match gt_text, word_index with
          | VStr gt_line, VStr wi =>
              if Py.contains_char "," wi then
                match parse_range "," wi with
                | Some (first, last) =>
                    match words_in_range
                            (_tokenize_line_for_validation gt_line) first last with
                    | [] => Skipped
                    | fragment_words => Fragment (Py.join " " fragment_words)
                    end
                | None => Skipped
                end
              else Skipped
          | _, _ => Skipped
          end
        else
          match gt_text with
          | VStr gt_line => Fragment gt_line
          | _ => NotText
          end
    end.

(** [for ref in references]: the fragments in reference order; [None]
    when one of them is not a string. *)
Fixpoint extract_all (references : list ReferenceDict) : option (list string) :=
  match references with
  | [] => Some []
  | ref :: tl =>
      match extract_reference ref, extract_all tl with
      | NotText, _ => None
      | _, None => None
      | Skipped, Some l => Some l
      | Fragment f, Some l => Some (f :: l)
      end
  end.

(** [validate_line]; [None] is a raised exception. *)
Definition validate_line (assembled_text : string)
    (references : list ReferenceDict) : option bool :=
  match extract_all references with
  | None => None
  | Some [] => Some false
  | Some extracted_fragments_gt =>
      let normalized_fragments_gt := _normalize_and_clean <$> extracted_fragments_gt in
      let normalized_assembled := _normalize_and_clean assembled_text in
      let alpha_only_fragments_gt :=
        Py.str_filter Py.isalnum <$> normalized_fragments_gt in
      let alpha_only_assembled := Py.str_filter Py.isalnum normalized_assembled in
      let expected_text_gt := Py.join " " normalized_fragments_gt in
      let expected_alpha_only_gt := Py.join "" alpha_only_fragments_gt in
      if String.eqb normalized_assembled expected_text_gt then Some true
      else Some (String.eqb alpha_only_assembled expected_alpha_only_gt)
  end.

End Validate.

End Validator.

(** ** [modules/translator/translation_manager.py] *)

Module TranslationManager.
Import Types.

(** Exceptions, all of them subclasses of [Exception]; [Failure n] is
    whatever a collaborator raises. *)
Inductive exn :=
| RuntimeError
| KeyError
| ValueError
| Failure (n : nat).

Inductive outcome (A : Type) :=
| Return (a : A)
| Raise (e : exn).
Arguments Return {A} _.
Arguments Raise {A} _.

(** What the manager does that the claims speak about: a call of
    [validator.validate_line] that returned, and a call of
    [used_map.mark_used]. *)
Inductive event :=
| Validated (text : string) (references : list ReferenceDict) (ok : bool)
| Marked (reference_key : string) (word_indices : list Z).

(** The dict [translate_line] returns: the validated result of the main
    path, or the result of [_create_single_quote_result], which carries
    [is_failsafe]. *)
Inductive result :=
| Translated (text : string) (temp_ids : list string)
             (references : list ReferenceDict)
             (original_modern_line : string) (search_type : string)
| Failsafe (text : string) (reference : ReferenceDict)
           (original_modern_line : string).

(** [assembled_result]: the text and the temp_ids of the dict the
    assembler returns (the defaults of [.get] when a key is missing). *)
Record assembled := mk_assembled {
  assembled_text : string;
  assembled_temp_ids : list string
}.

Section Manager.
(** The type of Python floats; the manager does not compute with scores. *)
Context {F : Type}.

Local Abbreviation candidate := (CandidateQuote F).
Local Abbreviation selector_results := (gmap string (list candidate)).
Local Abbreviation temp_map_t := (gmap string candidate).

(** The collaborators.  The first argument is the number of collaborator
    calls made before this one, so that a collaborator may answer each
    call differently; every call may raise.  [prepare_prompt_structure]
    reads the used map and does not change it; [save_io] tells how the
    write of [UsedMap.save] ends. *)
Record collaborators := mk_collaborators {
  hybrid_search : nat -> string -> nat -> outcome selector_results;
  retrieve_all : nat -> string -> nat -> outcome selector_results;
  prepare_prompt_structure :
    nat -> selector_results -> UsedMap.t ->
    outcome (Assembler.quote_data * temp_map_t);
  assemble_line :
    nat -> string -> Assembler.quote_data -> nat -> outcome (option assembled);
  validate_line : nat -> string -> list ReferenceDict -> outcome bool;
  save_io : nat -> UsedMap.write_outcome
}.

Record state := mk_state {
  translation_id : option string;
  used_map : UsedMap.t;
  files : UsedMap.filesystem;
  calls : nat;
  log : list event
}.

(** Computations of the manager: state passing with exceptions. *)
Definition M (A : Type) : Type := state -> outcome A * state.

Definition ret {A} (a : A) : M A := λ s, (Return a, s).

Definition raise {A} (e : exn) : M A := λ s, (Raise e, s).

Definition bind {A B} (m : M A) (k : A -> M B) : M B :=
  λ s, match m s with
       | (Return a, s') => k a s'
       | (Raise e, s') => (Raise e, s')
       end.

(** [try: m  except Exception as e: handler e] *)
Definition try_except {A} (m : M A) (handler : exn -> M A) : M A :=
  λ s, match m s with
       | (Return a, s') => (Return a, s')
       | (Raise e, s') => handler e s'
       end.

Notation "'let*' x ':=' m 'in' k" := (bind m (λ x, k))
  (at level 10, x name, m at level 100, k at level 200).

(** A call of a collaborator: it gets the number of the call. *)
Definition call {A} (f : nat -> outcome A) : M A :=
  λ s, (f (calls s),
        {| translation_id := translation_id s; used_map := used_map s;
           files := files s; calls := S (calls s); log := log s |}).

Definition emit (e : event) : M unit :=
  λ s, (Return tt,
        {| translation_id := translation_id s; used_map := used_map s;
           files := files s; calls := calls s; log := log s ++ [e] |}).

(** [self.used_map.mark_used(ref_key, word_indices)] *)
Definition mark_used (ref_key : string) (word_indices : list Z) : M unit :=
  λ s, (Return tt,
        {| translation_id := translation_id s;
           used_map := UsedMap.mark_used ref_key (UsedMap.RangeList word_indices)
                         (used_map s);
           files := files s; calls := calls s;
           log := log s ++ [Marked ref_key word_indices] |}).

(** [self.used_map.save()] *)
Definition save (c : collaborators) : M unit :=
  λ s, (Return tt,
        {| translation_id := translation_id s; used_map := used_map s;
           files := UsedMap.save (save_io c (calls s)) None (used_map s) (files s);
           calls := S (calls s); log := log s |}).

(** [list(range(first, last + 1))] on integers *)
Definition int_range (first last : Z) : list Z :=
  (λ k, (first + Z.of_nat k)%Z) <$> seq 0 (Z.to_nat (last + 1 - first)).

(** [f"{title}|{act if act is not None else 'NULL'}|{scene if scene is not
    None else 'NULL'}|{line}"] *)
Definition ref_key_of (ref : ReferenceDict) : string :=
  let null_or v := match v with VNone => "NULL" | _ => str v end in
  str (Validator.get ref "title" (VStr "")) +:+ "|" +:+
  null_or (Validator.get ref "act" (VStr "")) +:+ "|" +:+
  null_or (Validator.get ref "scene" (VStr "")) +:+ "|" +:+
  str (Validator.get ref "line" (VStr "")).

(** The word indices step 6 marks for a reference; [None] when the
    reference has no usable ["word_index"] and nothing is marked. *)
Definition word_indices_main (ref : ReferenceDict) : option (list Z) :=
  match Validator.get ref "word_index" (VStr "") with
  | VStr word_index_str =>
      if Py.is_empty word_index_str then None
      else if Py.contains_char "," word_index_str then
        (λ r, int_range (fst r) (snd r)) <$> Validator.parse_range "," word_index_str
      else if Py.contains_char "-" word_index_str then
        (λ r, int_range (fst r) (snd r)) <$> Validator.parse_range "-" word_index_str
      else (λ index, [index]) <$> Py.int_of_str (Py.strip word_index_str)
  | _ => None
  end.

(** The word indices [_create_single_quote_result] marks. *)
Definition word_indices_failsafe (ref : ReferenceDict) : option (list Z) :=
  match Validator.get ref "word_index" (VStr "") with
  | VStr word_index_str =>
      if Py.is_empty word_index_str then None
      else if Py.contains_char "," word_index_str then
        (λ r, int_range (fst r) (snd r)) <$> Validator.parse_range "," word_index_str
      else (λ index, [index]) <$> Py.int_of_str (Py.strip word_index_str)
  | _ => None
  end.

(** The reference dict of a result: the fields of the candidate's
    reference, with defaults for the missing ones. *)
Definition result_reference (temp_id : string) (ref : ReferenceDict)
  : ReferenceDict :=
  <["temp_id" := VStr temp_id]>
  (<["title" := Validator.get ref "title" (VStr "Unknown")]>
  (<["act" := Validator.get ref "act" (VStr "Unknown")]>
  (<["scene" := Validator.get ref "scene" (VStr "Unknown")]>
  (<["line" := Validator.get ref "line" (VStr "Unknown")]>
  (<["word_index" := Validator.get ref "word_index" (VStr "0,0")]> ∅))))).

(** [_create_single_quote_result] *)
Definition _create_single_quote_result (c : collaborators) (quote : candidate)
    (modern_line : string) : M result :=
  let* _ := match word_indices_failsafe (reference quote) with
      | Some word_indices =>
          let* _ := mark_used (ref_key_of (reference quote)) word_indices in
          save c
      | None => ret tt
      end in
  ret (Failsafe (text quote) (result_reference "failsafe_1" (reference quote))
                modern_line).

(** [_count_syllables] of the manager: the syllables of the words of a
    text. *)
Definition _count_syllables (text : string) : nat :=
  sum_list (Chunking._count_syllables <$> Py.split_ws text).

(** [sum(len(options) for options in prompt_structure.values())] *)
Definition total_options (prompt_structure : Assembler.quote_data) : nat :=
  sum_list ((λ kv, length (snd kv)) <$> prompt_structure).

(** [prompt_structure[key] = options] *)
Fixpoint dict_set (key : string) (options : list Assembler.prompt_entry)
    (d : Assembler.quote_data) : Assembler.quote_data :=
  match d with
  | [] => [(key, options)]
  | (k, v) :: tl =>
      if String.eqb k key then (key, options) :: tl
      else (k, v) :: dict_set key options tl
  end.

(** The shape the three fallbacks share:
    [try: r = self.rag.retrieve_all(modern_line, top_k=1); if r.get("line"):
    return self._create_single_quote_result(r["line"][0], modern_line)
    except Exception: ...] followed by [return None]. *)
Definition failsafe_search (c : collaborators) (modern_line : string)
  : M (option result) :=
  try_except
    (let* fallback_results := call (λ n, retrieve_all c n modern_line 1) in
     match fallback_results !! "line" with
     | Some (top_line :: _) =>
         let* r := _create_single_quote_result c top_line modern_line in
         ret (Some r)
     | _ => ret None
     end)
    (λ _, ret None).

(** Step 6, [for ref in references]. *)
Fixpoint mark_references (references : list ReferenceDict) : M unit :=
  match references with
  | [] => ret tt
  | ref :: tl =>
      let* _ := match word_indices_main ref with
          | Some word_indices => mark_used (ref_key_of ref) word_indices
          | None => ret tt
          end in
      mark_references tl
  end.

(** The [if use_hybrid_search and not selector_results] block: the
    results to go on with, or the value to return at once. *)
Definition hybrid_prelude (c : collaborators) (modern_line : string)
  : M (selector_results + option result) :=
  try_except
    (let* selector_results := call (λ n, hybrid_search c n modern_line 15) in
     let count level := length (default [] (selector_results !! level)) in
     let total_candidates := count "line" + count "phrases" + count "fragments" in
     if (total_candidates =? 0)%nat then raise KeyError
     else ret (inl selector_results))
    (λ _, let* r := failsafe_search c modern_line in ret (inr r)).

(** Steps 1 to 7, the body of the inner [try]; [recurse] is the call
    [self.translate_line(modern_line, {}, use_hybrid_search=True)]. *)
Definition main_steps (c : collaborators) (recurse : M (option result))
    (modern_line : string) (selector_results : selector_results)
    (use_hybrid_search : bool) : M (option result) :=
  let search_type := if use_hybrid_search then "HYBRID" else "STANDARD" in
  (* step 1 *)
  let* um := (λ s, (Return (used_map s), s)) in
  let* prepared := call (λ n, prepare_prompt_structure c n selector_results um) in
  let target_syllables := _count_syllables modern_line in
  let prompt_structure :=
    dict_set "metadata" [Assembler.Metadata target_syllables] (fst prepared) in
  let temp_map := snd prepared in
  let* step1 :=
    (if (total_options prompt_structure <? 3)%nat then
       let* extended :=
         try_except
           (let* extended_results :=
              (if use_hybrid_search
               then call (λ n, hybrid_search c n modern_line 25)
               else call (λ n, retrieve_all c n modern_line 20)) in
            let* um' := (λ s, (Return (used_map s), s)) in
            let* prepared' := call (λ n, prepare_prompt_structure c n extended_results um') in
            ret (fst prepared', snd prepared', total_options (fst prepared')))
           (λ _, ret (prompt_structure, temp_map, 0)) in
       if (snd extended <? 1)%nat then raise ValueError
       else ret (fst (fst extended), snd (fst extended))
     else ret (prompt_structure, temp_map)) in
  let prompt_structure := fst step1 in
  let temp_map := snd step1 in
  (* step 2 *)
  let max_retries := if use_hybrid_search then 0 else 1 in
  let* assembled_result :=
    call (λ n, assemble_line c n modern_line prompt_structure max_retries) in
  match assembled_result with
  | None =>
      if negb use_hybrid_search then recurse else raise ValueError
  | Some assembled_result =>
      (* step 3 *)
      let assembled_text := Py.strip (assembled_text assembled_result) in
      let temp_ids_used := assembled_temp_ids assembled_result in
      if Py.is_empty assembled_text ||
         match temp_ids_used with [] => true | _ => false end
      then raise ValueError
      else
        (* step 4 *)
        match mapM (λ cid, temp_map !! cid) temp_ids_used with
        | None => raise ValueError
        | Some used_candidates =>
            let references := reference <$> used_candidates in
            (* step 5 *)
            let* validation_result :=
              call (λ n, validate_line c n assembled_text references) in
            let* _ := emit (Validated assembled_text references validation_result) in
            if negb validation_result then raise ValueError
            else
              (* step 6 *)
              let* _ := mark_references references in
              let* _ := save c in
              (* step 7 *)
              let full_references :=
                zip_with result_reference temp_ids_used references in
              ret (Some (Translated assembled_text temp_ids_used full_references
                                    modern_line search_type))
        end
  end.

(** The handler of the inner [try]. *)
Definition main_handler (c : collaborators) (modern_line : string)
    (selector_results : selector_results) : M (option result) :=
  match selector_results !! "line" with
  | Some (top_line :: _) =>
      let* r := _create_single_quote_result c top_line modern_line in
      ret (Some r)
  | _ => failsafe_search c modern_line
  end.

(** The body of [translate_line] after the defaults are resolved. *)
Definition translate_line_body (c : collaborators) (recurse : M (option result))
    (modern_line : string) (selector_results : selector_results)
    (use_hybrid_search : bool) : M (option result) :=
  λ s,
    if negb (bool_decide (is_Some (UsedMap.truthy_id (translation_id s))))
    then (Raise RuntimeError, s)
    else
      try_except
        (let* start :=
           (if use_hybrid_search && bool_decide (selector_results = ∅)
            then hybrid_prelude c modern_line
            else ret (inl selector_results)) in
         match start with
         | inr early => ret early
         | inl selector_results =>
             try_except
               (main_steps c recurse modern_line selector_results use_hybrid_search)
               (λ _, main_handler c modern_line selector_results)
         end)
        (λ _, failsafe_search c modern_line)
        s.

(** [translate_line]; [default_hybrid] is
    [self.config['default_search_mode'] == 'hybrid'].  The only recursive
    call is made with [use_hybrid_search=True], and a hybrid call makes
    none. *)
Definition translate_line (c : collaborators) (default_hybrid : bool)
    (modern_line : string) (selector_results : selector_results)
    (use_hybrid_search : option bool) : M (option result) :=
  let use_hybrid_search := default default_hybrid use_hybrid_search in
  translate_line_body c
    (translate_line_body c (raise ValueError) modern_line ∅ true)
    modern_line selector_results use_hybrid_search.

(** The events a run appended to the log. *)
Definition new_events (s s' : state) : list event :=
  drop (length (log s)) (log s').

(** The mark of a reference made by step 6, and the one made by the
    failsafe. *)
Definition marks_main (references : list ReferenceDict) : list event :=
  omap (λ ref, Marked (ref_key_of ref) <$> word_indices_main ref) references.

Definition marks_failsafe (ref : ReferenceDict) : list event :=
  match word_indices_failsafe ref with
  | Some word_indices => [Marked (ref_key_of ref) word_indices]
  | None => []
  end.

Definition is_mark (e : event) : bool :=
  match e with Marked _ _ => true | Validated _ _ _ => false end.

(** How a run may end, with the events it appended: with [None] and no
    mark; with the failsafe result of a candidate and at most its mark; or
    with a translated line, a successful validation of its text and
    references, and then the marks of these references and no other. *)
Definition run_ends_well (new : list event) (r : outcome (option result)) : Prop :=
  match r with
  | Raise _ => False
  | Return None => filter is_mark new = []
  | Return (Some (Failsafe text ref original)) =>
      ∃ quote : candidate,
        text = Types.text quote ∧
        ref = result_reference "failsafe_1" (reference quote) ∧
        filter is_mark new = marks_failsafe (reference quote)
  | Return (Some (Translated text temp_ids refs original search_type)) =>
      ∃ (references : list ReferenceDict) (before : list event),
        new = before ++ Validated text references true :: marks_main references ∧
        filter is_mark before = [] ∧
        refs = zip_with result_reference temp_ids references
  end.

(** C2 as the claim states it: every mark of a run comes after a
    successful validation, in that run, of the references it belongs
    to. *)
Definition marks_only_after_validation (new : list event) : Prop :=
  ∀ before key word_indices after,
    new = before ++ Marked key word_indices :: after →
    ∃ text references,
      Validated text references true ∈ before ∧
      Marked key word_indices ∈ marks_main references.

(** A run of a computation from [s]: its outcome, its final state and the
    events it appended; the session id is never changed. *)
Definition runs {A} (m : M A) (s : state) (r : outcome A)
    (s' : state) (new : list event) : Prop :=
  m s = (r, s') ∧ log s' = log s ++ new ∧ translation_id s' = translation_id s.

(** Every run of [m] ends with an outcome and new events that satisfy
    [Q]. *)
Definition always {A} (m : M A) (Q : outcome A → list event → Prop) : Prop :=
  ∀ s, ∃ r s' new, runs m s r s' new ∧ Q r new.

(** A fallback search returns [None] and appends nothing, or returns the
    failsafe result of a quote and appends at most its mark. *)
Definition failsafe_outcome (modern_line : string)
    (r : outcome (option result)) (new : list event) : Prop :=
  (r = Return None ∧ new = []) ∨
  (∃ quote : candidate,
     r = Return (Some (Failsafe (text quote)
                 (result_reference "failsafe_1" (reference quote)) modern_line)) ∧
     new = marks_failsafe (reference quote)).

(** The inner [try] block either raises before any mark, or returns a
    value with which the run ends well. *)
Definition main_outcome (r : outcome (option result)) (new : list event) : Prop :=
  match r with
  | Raise _ => filter is_mark new = []
  | Return o => run_ends_well new (Return o)
  end.

End Manager.

(** The first line of a poem: the line chunker gives it no act and no
    scene ([None]), and the vector store keeps only the string and number
    fields of a chunk, so the reference of the candidate has neither
    key. *)
Definition poem_ground_truth : list ReferenceDict :=
  [ list_to_map
      [ ("chunk_id", VStr "chunk_1"); ("title", VStr "VENUS AND ADONIS");
        ("line", VInt 1); ("act", VNone); ("scene", VNone);
        ("text", VStr "Even as the sun with purple-colour'd face,");
        ("word_index", VStr "0,7") ] ].

Definition poem_quote : CandidateQuote Selector.xrat :=
  mk_candidate "Even as the sun with purple-colour'd face,"
    (list_to_map
       [ ("title", VStr "VENUS AND ADONIS"); ("line", VInt 1);
         ("word_index", VStr "0,7") ])
    (Selector.Fin (1 # 4)).

(** The value of [result["references"]] of a failsafe result. *)
Definition failsafe_references (r : result) : list ReferenceDict :=
  match r with
  | Failsafe _ ref _ => [ref]
  | Translated _ _ refs _ _ => refs
  end.

Definition result_text (r : result) : string :=
  match r with
  | Failsafe text _ _ => text
  | Translated text _ _ _ _ => text
  end.

(** A line candidate as the line chunker describes it, and a session. *)
Definition example_reference : ReferenceDict :=
  list_to_map
    [ ("title", VStr "THE TRAGEDY OF MACBETH"); ("act", VStr "I");
      ("scene", VStr "III"); ("line", VInt 38); ("word_index", VStr "0,3") ].

Definition example_quote : CandidateQuote Selector.xrat :=
  mk_candidate "So foul and fair" example_reference (Selector.Fin (1 # 4)).

Definition example_results : gmap string (list (CandidateQuote Selector.xrat)) :=
  {[ "line" := [example_quote] ]}.

Definition started_state : state :=
  {| translation_id := Some "t1";
     used_map := UsedMap.load ∅ "t1" (UsedMap.init "data/used_maps/");
     files := ∅; calls := 0; log := [] |}.

(** Collaborators that all fail. *)
Definition failing_collaborators : @collaborators Selector.xrat :=
  {| hybrid_search := λ n _ _, Raise (Failure n);
     retrieve_all := λ n _ _, Raise (Failure n);
     prepare_prompt_structure := λ n _ _, Raise (Failure n);
     assemble_line := λ n _ _ _, Raise (Failure n);
     validate_line := λ n _ _, Raise (Failure n);
     save_io := λ _, UsedMap.Written UsedMap.Ledger |}.

(** Collaborators that propose the example quote, assemble it and accept
    it. *)
Definition working_collaborators : @collaborators Selector.xrat :=
  {| hybrid_search := λ _ _ _, Return example_results;
     retrieve_all := λ _ _ _, Return example_results;
     prepare_prompt_structure := λ _ _ _,
       Return ([("line", [Assembler.Quote "line_1" "So foul and fair";
                          Assembler.Quote "line_2" "a day";
                          Assembler.Quote "line_3" "I have not seen"])],
               {[ "line_1" := example_quote ]});
     assemble_line := λ _ _ _ _,
       Return (Some {| assembled_text := "So foul and fair";
                       assembled_temp_ids := ["line_1"] |});
     validate_line := λ _ _ _, Return true;
     save_io := λ _, UsedMap.Written UsedMap.Ledger |}.

End TranslationManager.

(** ** [modules/translator/selector.py]: [Selector.filter_candidates] and
    [Selector.prepare_prompt_structure] *)

Module Selection.
Import Types.

(** [has_proper_noun] after the check of the ["POS"] field: the field is
    a list that holds ["PROPN"], at its first position or at a later
    one. *)
Definition propn_in_tags (reference : ReferenceDict) : bool :=
  match reference !! "POS" with
  | Some (VList pos_tags) => bool_decide ("PROPN" ∈ pos_tags)
  | _ => false
  end.

(** [word[0].isupper() and any(c.isalpha() for c in word) and
    word.lower() != "i"] *)
Definition is_capitalized (word : string) : bool :=
  match word with
  | String c _ =>
      Py.isupper c && Py.str_any Py.isalpha word &&
      negb (String.eqb (Py.lower word) "i")
  | EmptyString => false
  end.

(** The loop over [enumerate(text.split())]: a word after the first that
    is capitalized. *)
Definition capitalized_mid_sentence (text : string) : bool :=
  match Py.split_ws text with
  | [] => false
  | _ :: rest => existsb is_capitalized rest
  end.

(** [f"{title}|{act}|{scene}|{line}"] *)
Definition reference_key (reference : ReferenceDict) : string :=
  str (Validator.get reference "title" (VStr "Unknown")) +:+ "|" +:+
  str (Validator.get reference "act" (VStr "")) +:+ "|" +:+
  str (Validator.get reference "scene" (VStr "")) +:+ "|" +:+
  str (Validator.get reference "line" (VStr "")).

(** What the body of the loop finds out about the ["word_index"] of a
    candidate: nothing to check, the word indices to look up, or a
    format it skips the candidate for. *)
Inductive index_check :=
| NoIndex
| Indices (word_indices : list Z)
| BadIndex.

Definition check_word_index (reference : ReferenceDict) : index_check :=
  match Validator.get reference "word_index" (VStr "") with
  | VStr word_index_str =>
      if Py.is_empty word_index_str then NoIndex
      else if Py.contains_char "," word_index_str then
        match Py.split_char "," word_index_str with
        | [a; b] =>
            match Py.int_of_str a, Py.int_of_str b with
            | Some first, Some last =>
                Indices (TranslationManager.int_range first last)
            | _, _ => BadIndex
            end
        | _ => BadIndex
        end
      else
        match Py.int_of_str word_index_str with
        | Some index => Indices [index]
        | None => BadIndex
        end
  | _ => NoIndex
  end.

Section Filter.
Context {F : Type}.
Local Abbreviation candidate := (CandidateQuote F).

(** One iteration of the loop of [filter_candidates]: whether the
    candidate is appended. *)
Definition keeps (used_map : UsedMap.t) (cand : candidate) : bool :=
  let has_proper_noun :=
    propn_in_tags (reference cand) || capitalized_mid_sentence (text cand) in
  if has_proper_noun then false
  else
    match check_word_index (reference cand) with
    | NoIndex => true
    | BadIndex => false
    | Indices word_indices =>
        negb (UsedMap.was_used (reference_key (reference cand))
                (UsedMap.RangeList word_indices) used_map)
    end.

(** [filter_candidates] *)
Definition filter_candidates (used_map : UsedMap.t) (candidates : list candidate)
  : list candidate :=
  List.filter (keeps used_map) candidates.

End Filter.

(** An entry of [prompt_data]: the dict with ["temp_id"], ["text"],
    ["score"], ["form"] and, when the reference has it, ["syllables"]. *)
Record prompt_option (F : Type) := mk_option {
  temp_id : string;
  option_text : string;
  option_score : F;
  form : string;
  syllables : option value
}.
Arguments mk_option {F} _ _ _ _ _.
Arguments temp_id {F} _.
Arguments option_text {F} _.
Arguments option_score {F} _.
Arguments form {F} _.
Arguments syllables {F} _.

Section Prompt.
Context {F : Type}
        (flt fgt : F -> F -> bool)
        (fadd fsub fmul : F -> F -> F)
        (fdiv : F -> F -> option F)
        (float_of_nat : nat -> F)
        (zero one neg_inf : F).
Local Abbreviation candidate := (CandidateQuote F).

Definition max_options : nat := 5.

(** Step 6 for one level: the entries, with [temp_id = f"{level}_{i + 1}"]. *)
Definition level_options (level : string) (top_n : list candidate)
  : list (prompt_option F) :=
  imap (λ i cand,
          {| temp_id := level +:+ "_" +:+ Py.str_of_nat (i + 1);
             option_text := text cand;
             option_score := score cand;
             form := level;
             syllables := reference cand !! "syllables" |}) top_n.

(** [chunk_map[temp_id] = cand] for the entries of one level. *)
Definition level_map (level : string) (top_n : list candidate)
    (chunk_map : gmap string candidate) : gmap string candidate :=
  foldl (λ m ic, <[level +:+ "_" +:+ Py.str_of_nat (fst ic + 1) := snd ic]> m)
        chunk_map (imap pair top_n).

(** The candidates that reach the prompt for one level; the outer [None]
    is an exception of [rank_candidates]. *)
Definition level_top (used_map : UsedMap.t) (mmr_lambda : F)
    (candidates : list candidate) : option (list candidate) :=
  match filter_candidates used_map candidates with
  | [] => Some []
  | filtered =>
      take max_options <$>
        Selector.rank_candidates flt fgt fadd fsub fmul fdiv float_of_nat
          zero one neg_inf mmr_lambda filtered (Some mmr_lambda)
  end.

(** [for level in ["line", "phrases", "fragments"]] *)
Fixpoint levels_loop (used_map : UsedMap.t) (mmr_lambda : F)
    (selector_results : gmap string (list candidate)) (levels : list string)
    (chunk_map : gmap string candidate)
  : option (list (string * list (prompt_option F)) * gmap string candidate) :=
  match levels with
  | [] => Some ([], chunk_map)
  | level :: rest =>
      match level_top used_map mmr_lambda
              (default [] (selector_results !! level)) with
      | None => None
      | Some top_n =>
          match levels_loop used_map mmr_lambda selector_results rest
                  (level_map level top_n chunk_map) with
          | None => None
          | Some (prompt_data, chunk_map') =>
              Some ((level, level_options level top_n) :: prompt_data, chunk_map')
          end
      end
  end.

(** [prepare_prompt_structure]; [self.mmr_lambda] is not read, the
    parameter [mmr_lambda] is passed to [rank_candidates].  The calls of
    [analyze_candidate_diversity] only feed the log. *)
Definition prepare_prompt_structure (used_map : UsedMap.t)
    (selector_results : gmap string (list candidate)) (mmr_lambda : F)
  : option (list (string * list (prompt_option F)) * gmap string candidate) :=
  levels_loop used_map mmr_lambda selector_results
    ["line"; "phrases"; "fragments"] ∅.

(** The prompt data as the assembler reads it. *)
Definition to_quote_data (prompt_data : list (string * list (prompt_option F)))
  : Assembler.quote_data :=
  (λ kv : string * list (prompt_option F),
     (fst kv, (λ o, Assembler.Quote (temp_id o) (option_text o)) <$> snd kv))
    <$> prompt_data.

End Prompt.

End Selection.

(** ** [modules/translator/assembler.py]: [Assembler.assemble_line] *)

Module Assembly.
Import TranslationManager.

Section AssembleLine.
(** What [assemble_line] calls and this development does not look into.
    [respond i modern_line data] is
    [_call_model(_build_prompt(modern_line, data))] on attempt [i]: the
    reply of the language model, or what the client raises.  [parse] is the
    regular-expression and JSON part of [_extract_output], on the stripped
    reply; [None] when it raises.  [shuffle i k options] is the list after
    [random.shuffle] of the options of the [k]-th form on attempt [i]. *)
Context (respond : nat -> string -> Assembler.quote_data -> outcome string)
        (parse : string -> option string)
        (shuffle : nat -> nat -> list Assembler.prompt_entry ->
                   list Assembler.prompt_entry).

(** [_extract_output]: the value of [parsed["text"]], or [None]. *)
Definition _extract_output (response_text : string) : option string :=
  if Py.is_empty response_text || Py.str_all Py.isspace response_text then None
  else parse (Py.strip response_text).

(** [if len(options) > 1: options.pop()] *)
Definition pop_if_many (options : list Assembler.prompt_entry)
  : list Assembler.prompt_entry :=
  if (1 <? length options)%nat then removelast options else options.

(** The retry step, [for form in working_prompt_data]: one option is
    removed from every form that has more than one, and every form is
    shuffled. *)
Definition pop_and_shuffle (retries : nat) (working_prompt_data : Assembler.quote_data)
  : Assembler.quote_data :=
  imap (λ k kv, (fst kv, shuffle retries k (pop_if_many (snd kv))))
       working_prompt_data.

(** [while retries <= max_retries]; [left] counts the iterations left. *)
Fixpoint attempts (left retries : nat) (modern_line : string)
    (working_prompt_data : Assembler.quote_data) : outcome (option assembled) :=
  match left with
  | O => Return None
  | S left' =>
      let working_prompt_data :=
        if (0 <? retries)%nat then pop_and_shuffle retries working_prompt_data
        else working_prompt_data in
      match respond retries modern_line working_prompt_data with
      | Raise e => Raise e
      | Return response =>
          match _extract_output response with
          | None => attempts left' (S retries) modern_line working_prompt_data
          | Some assembled_line =>
              match Assembler._mini_validate assembled_line working_prompt_data with
              | Assembler.MiniDict text temp_ids =>
                  Return (Some {| assembled_text := text;
                                  assembled_temp_ids := temp_ids |})
              | Assembler.MiniFalse =>
                  attempts left' (S retries) modern_line working_prompt_data
              | Assembler.MiniRaise => Raise KeyError
              end
          end
      end
  end.

(** [assemble_line] *)
Definition assemble_line (modern_line : string) (prompt_data : Assembler.quote_data)
    (max_retries : nat) : outcome (option assembled) :=
  attempts (S max_retries) 0 modern_line prompt_data.

End AssembleLine.

(** The options of a prompt, form after form. *)
Definition options_of (prompt_data : Assembler.quote_data) : list Assembler.prompt_entry :=
  mjoin (snd <$> prompt_data).

(** The manager with this assembler: the collaborators [c] with
    [Assembler.assemble_line] for [assemble_line]; the language model and
    the shuffle may answer every call of the manager differently. *)
Definition with_assembler {F : Type} (c : @collaborators F)
    (respond : nat -> nat -> string -> Assembler.quote_data -> outcome string)
    (parse : string -> option string)
    (shuffle : nat -> nat -> nat -> list Assembler.prompt_entry ->
               list Assembler.prompt_entry)
  : @collaborators F :=
  mk_collaborators
    (hybrid_search c) (retrieve_all c) (prepare_prompt_structure c)
    (λ n modern_line prompt_data max_retries,
       assemble_line (respond n) parse (shuffle n) modern_line prompt_data
                     max_retries)
    (validate_line c) (save_io c).

(** Whether a value of [translate_line] is a line the assembler made. *)
Definition is_assembled (r : option result) : bool :=
  match r with
  | Some (Translated _ _ _ _ _) => true
  | _ => false
  end.

(** A language model that answers with the first option of the prompt,
    and a shuffle that reverses. *)
Definition first_option_model (n : nat) (modern_line : string)
    (data : Assembler.quote_data) : outcome string :=
  match options_of data with
  | Assembler.Quote _ text :: _ => Return text
  | _ => Return ""
  end.

Definition reversing_shuffle (n k : nat) (options : list Assembler.prompt_entry)
  : list Assembler.prompt_entry := rev options.

End Assembly.

(** ** [modules/translator/translation_manager.py]: [translate_scene] and
    [translate_group] *)

Module Scene.
Import Types TranslationManager.

(** [result["original_modern_line"]] *)
Definition original_modern_line (r : result) : string :=
  match r with
  | Translated _ _ _ original _ => original
  | Failsafe _ _ original => original
  end.

Section Scene.
Context {F : Type} (c : @collaborators F) (default_hybrid : bool).

Notation "'let*' x ':=' m 'in' k" := (bind m (λ x, k))
  (at level 10, x name, m at level 100, k at level 200).

(** [translate_scene]: the retrieval of a line is outside every [try]; a
    line whose translation is [None] is skipped. *)
Fixpoint translate_scene (scene_lines : list string) : M (list result) :=
  match scene_lines with
  | [] => ret []
  | line :: tl =>
      let* selector_results := call (λ n, retrieve_all c n line 5) in
      let* translated :=
        translate_line c default_hybrid line selector_results None in
      let* rest := translate_scene tl in
      ret (match translated with
           | Some r => r :: rest
           | None => rest
           end)
  end.

(** [translate_group] *)
Fixpoint translate_group (modern_lines : list string) (use_hybrid_search : bool)
  : M (list result) :=
  match modern_lines with
  | [] => ret []
  | line :: tl =>
      let* selector_results :=
        (if use_hybrid_search
         then call (λ n, hybrid_search c n line 10)
         else call (λ n, retrieve_all c n line 5)) in
      let* result :=
        translate_line c default_hybrid line selector_results
                       (Some use_hybrid_search) in
      let* rest := translate_group tl use_hybrid_search in
      ret (match result with
           | Some r => r :: rest
           | None => rest
           end)
  end.

End Scene.

End Scene.

(** ** [modules/translator/scene_saver.py] *)

Module SceneSaver.
Import Types.

(** A translated line as [save_scene] reads it: the dict itself, and its
    values of ["text"], ["original_modern_line"] and ["references"] when
    it has these keys. *)
Record line_data (X : Type) := mk_line_data {
  payload : X;
  text : option string;
  original_modern_line : option string;
  references : option (list ReferenceDict)
}.
Arguments mk_line_data {X} _ _ _ _.
Arguments payload {X} _.
Arguments text {X} _.
Arguments original_modern_line {X} _.
Arguments references {X} _.

(** [enhanced_line]: the copy of the dict with the two keys
    [save_scene] sets. *)
Record enhanced_line (X : Type) := mk_enhanced {
  source : line_data X;
  enhanced_original : string;
  formatted_references : list string
}.
Arguments mk_enhanced {X} _ _ _.
Arguments source {X} _.
Arguments enhanced_original {X} _.
Arguments formatted_references {X} _.

(** What one checkpoint writes: the JSON file with its data, and the
    Markdown preview ([metadata.timestamp] is left out). *)
Record checkpoint (X : Type) := mk_checkpoint {
  json_path : string;
  md_path : string;
  total_lines : nat;
  has_original_lines : bool;
  translated_lines : list (enhanced_line X);
  original_lines : option (list string);
  markdown : string
}.
Arguments mk_checkpoint {X} _ _ _ _ _ _ _.
Arguments json_path {X} _.
Arguments md_path {X} _.
Arguments total_lines {X} _.
Arguments has_original_lines {X} _.
Arguments translated_lines {X} _.
Arguments original_lines {X} _.
Arguments markdown {X} _.

(** [f"{source} ({act_num}.{scene_num}.{line_num})"] *)
Definition format_reference (ref : ReferenceDict) : string :=
  str (Validator.get ref "title" (VStr "Unknown")) +:+ " (" +:+
  str (Validator.get ref "act" (VStr "")) +:+ "." +:+
  str (Validator.get ref "scene" (VStr "")) +:+ "." +:+
  str (Validator.get ref "line" (VStr "")) +:+ ")".

(** The two branches that make [original_lines] as long as
    [translated_lines]. *)
Definition same_length (original_lines : list string) (n : nat) : list string :=
  if (length original_lines <? n)%nat
  then original_lines ++ replicate (n - length original_lines) ""
  else if (n <? length original_lines)%nat then take n original_lines
  else original_lines.

Section Saver.
Context {X : Type}.

(** The body of [for i, line_data in enumerate(translated_lines)];
    [original_lines[i]] exists, the list being as long as the lines. *)
Definition enhance (original_lines : list string) (i : nat) (line : line_data X)
  : enhanced_line X :=
  {| source := line;
     enhanced_original :=
       match original_modern_line line with
       | Some own => if Py.is_empty own then default "" (original_lines !! i)
                     else own
       | None => default "" (original_lines !! i)
       end;
     formatted_references := format_reference <$> default [] (references line) |}.

(** A row of the Markdown table. *)
Definition markdown_row (line : enhanced_line X) : string :=
  let escape s := Py.replace_char "|" "\|" s in
  let flat s := Py.replace_char "010" " " s in
  "| " +:+ escape (flat (default "" (text (source line)))) +:+ " | " +:+
  escape (Py.join ", " (formatted_references line)) +:+ " | " +:+
  escape (flat (enhanced_original line)) +:+ " |" +:+ String "010" "".

Definition markdown_of (act scene : string) (lines : list (enhanced_line X))
  : string :=
  "# ACT " +:+ act +:+ String "010" (String "010" "") +:+
  "## SCENE " +:+ scene +:+ String "010" (String "010" "") +:+
  "| Shakespearean Line | References | Modern Line |" +:+ String "010" "" +:+
  "|-------------------|------------|-------------|" +:+ String "010" "" +:+
  Py.join "" (markdown_row <$> lines).

(** [_save_json] and [_save_md] of the lines accumulated. *)
Definition save (output_dir act scene : string)
    (accumulated : list (enhanced_line X)) (originals : list string)
  : checkpoint X :=
  let clean_act := Py.strip_char "_" (Py.lower act) in
  let scene_id := "act_" +:+ clean_act +:+ "_scene_" +:+ scene in
  {| json_path := Py.path_join output_dir (scene_id +:+ ".json");
     md_path := Py.path_join output_dir (scene_id +:+ ".md");
     total_lines := length accumulated;
     has_original_lines := existsb (λ o, negb (Py.is_empty o)) originals;
     translated_lines := accumulated;
     original_lines := match originals with [] => None | _ :: _ => Some originals end;
     markdown := markdown_of act scene accumulated |}.

(** [for idx, enhanced_line in enumerate(enhanced_lines, start=1)]: the
    checkpoints written, or [None] for the [ZeroDivisionError] of
    [idx % checkpoint_interval]. *)
Fixpoint checkpoints (output_dir act scene : string) (checkpoint_interval : Z)
    (n : nat) (originals : list string)
    (accumulated : list (enhanced_line X)) (idx : nat)
    (todo : list (enhanced_line X)) : option (list (checkpoint X)) :=
  match todo with
  | [] => Some []
  | line :: rest =>
      let accumulated := accumulated ++ [line] in
      if (checkpoint_interval =? 0)%Z then None
      else
        let here :=
          if (Z.of_nat idx mod checkpoint_interval =? 0)%Z || (idx =? n)%nat
          then [save output_dir act scene accumulated (take idx originals)]
          else [] in
        app here <$> checkpoints output_dir act scene checkpoint_interval n
                       originals accumulated (S idx) rest
  end.

(** [save_scene] *)
Definition save_scene (output_dir act scene : string)
    (translated : list (line_data X)) (original : option (list string))
    (checkpoint_interval : Z) : option (list (checkpoint X)) :=
  let given :=
    match original with
    | Some l => l
    | None => (λ line, default "" (original_modern_line line)) <$> translated
    end in
  let originals := same_length given (length translated) in
  let enhanced_lines := imap (enhance originals) translated in
  checkpoints output_dir act scene checkpoint_interval (length enhanced_lines)
              originals [] 1 enhanced_lines.

End Saver.

(** The dict [translate_line] returns, as a translated line. *)
Definition of_result (r : TranslationManager.result)
  : line_data TranslationManager.result :=
  {| payload := r;
     text := Some (TranslationManager.result_text r);
     original_modern_line := Some (Scene.original_modern_line r);
     references := Some (TranslationManager.failsafe_references r) |}.

End SceneSaver.

(** ** [modules/rag/embeddings.py]: [EmbeddingGenerator.embed_texts] *)

Module Embeddings.
Import TranslationManager.

Definition MAX_TOKENS : N := 600000.
Definition BATCH_SIZE_LIMIT : nat := 1500.

(** [estimate_tokens]: [int(len(text.split()) * 1.33)].  For a word count
    below 10^13 the float product has the integer part of [n * 133 / 100]. *)
Definition estimate_tokens (text : string) : N :=
  (N.of_nat (length (Py.split_ws text)) * 133 / 100)%N.

(** The variables of the first loop. *)
Record batching := mk_batching {
  batches : list (list string);
  current_batch : list string;
  current_tokens : N
}.

(** The body of [for text in texts]. *)
Definition add_text (st : batching) (text : string) : batching :=
  let tokens := estimate_tokens text in
  let st' :=
    if (MAX_TOKENS <? current_tokens st + tokens)%N ||
       (BATCH_SIZE_LIMIT <=? length (current_batch st))%nat
    then {| batches := batches st ++ [current_batch st];
            current_batch := []; current_tokens := 0 |}
    else st in
  {| batches := batches st';
     current_batch := current_batch st' ++ [text];
     current_tokens := (current_tokens st' + tokens)%N |}.

(** The batches [embed_texts] sends, the last one only if it is not
    empty. *)
Definition make_batches (texts : list string) : list (list string) :=
  let st := foldl add_text {| batches := []; current_batch := [];
                              current_tokens := 0 |} texts in
  match current_batch st with
  | [] => batches st
  | _ :: _ => batches st ++ [current_batch st]
  end.

(** The estimated tokens of a batch. *)
Definition batch_tokens (batch : list string) : N :=
  foldr N.add 0%N (estimate_tokens <$> batch).

(** A batch within the limits: at most [BATCH_SIZE_LIMIT] texts, and at
    most [MAX_TOKENS] estimated tokens unless it is one text alone. *)
Definition within_limits (batch : list string) : Prop :=
  (length batch <= BATCH_SIZE_LIMIT)%nat ∧
  ((batch_tokens batch <= MAX_TOKENS)%N ∨ length batch = 1%nat).

Section Embed.
(** [E] is the type of an embedding; [create idx batch] is
    [[item.embedding for item in openai.embeddings.create(input=batch,
    ...).data]] for the batch number [idx], or what the call raises. *)
Context {E : Type} (create : nat -> list string -> outcome (list E)).

(** The second loop: an exception of a batch is raised again. *)
Fixpoint embed_batches (idx : nat) (batches : list (list string))
  : outcome (list E) :=
  match batches with
  | [] => Return []
  | batch :: tl =>
      match create idx batch with
      | Raise e => Raise e
      | Return batch_embeddings =>
          match embed_batches (S idx) tl with
          | Raise e => Raise e
          | Return rest => Return (batch_embeddings ++ rest)
          end
      end
  end.

Definition embed_texts (texts : list string) : outcome (list E) :=
  embed_batches 0 (make_batches texts).

End Embed.

End Embeddings.

(** ** [modules/rag/search_engine.py] *)

Module SearchEngine.
Import Chunking TranslationManager.

(** [result["search_chunks"]]: the value of ["line"] is the list [[]] the
    structure starts with ([None]) or one query result; the values of
    ["phrases"] and ["fragments"] are lists of query results. *)
Record search_chunks (R : Type) := mk_search_chunks {
  line : option R;
  phrases : list R;
  fragments : list R
}.
Arguments mk_search_chunks {R} _ _ _.
Arguments line {R} _.
Arguments phrases {R} _.
Arguments fragments {R} _.

(** [self.vector_stores]: the keys and the collections. *)
Definition vector_stores : list (string * string) :=
  [("lines", "lines"); ("phrases", "phrases"); ("fragments", "fragments")].

(** [self.vector_stores[level].collection]; [None] is the [KeyError]. *)
Definition store (level : string) : option string :=
  snd <$> List.find (λ kv, String.eqb (fst kv) level) vector_stores.

Definition stopwords : list string :=
  ["the"; "and"; "that"; "have"; "for"; "not"; "with"; "you"; "this"; "but";
   "his"; "from"; "they"; "will"; "would"; "what"; "all"; "were"; "when";
   "there"; "their"; "your"; "been"; "one"; "who"; "very"; "had"; "was"; "are";
   "she"; "her"; "him"; "has"; "our"; "them"; "its"; "about"; "can"; "out"].

(** The maximal runs of word characters of a text. *)
Fixpoint word_runs (cur : string) (s : string) : list string :=
  match s with
  | EmptyString => if Py.is_empty cur then [] else [cur]
  | String ch tl =>
      if Py.isword ch then word_runs (cur +:+ String ch EmptyString) tl
      else (if Py.is_empty cur then [] else [cur]) ++ word_runs EmptyString tl
  end.

(** [re.findall(r'\b\w{3,}\b', s)]: the runs of three word characters
    or more. *)
Definition findall_long_words (s : string) : list string :=
  List.filter (λ w, (3 <=? Py.len w)%nat) (word_runs EmptyString s).

(** The keys of a [Counter], in the order of their first occurrence. *)
Fixpoint first_occurrences (seen : list string) (l : list string) : list string :=
  match l with
  | [] => []
  | x :: tl =>
      if bool_decide (x ∈ seen) then first_occurrences seen tl
      else x :: first_occurrences (x :: seen) tl
  end.

Definition count_of (w : string) (l : list string) : nat :=
  length (List.filter (String.eqb w) l).

(** A stable sort by count, largest first. *)
Fixpoint insert_by_count (l : list string) (x : string) (sorted : list string)
  : list string :=
  match sorted with
  | [] => [x]
  | y :: tl =>
      if (count_of y l <? count_of x l)%nat then x :: y :: tl
      else y :: insert_by_count l x tl
  end.

(** [[kw for kw, _ in Counter(keywords).most_common(n)]] *)
Definition most_common (n : nat) (keywords : list string) : list string :=
  take n (foldl (λ sorted x, insert_by_count keywords x sorted) []
                (first_occurrences [] keywords)).

(** The keywords of a line: its three most common words of three
    characters or more that are not stopwords. *)
Definition top_keywords (modern_line : string) : list string :=
  let words := findall_long_words (Py.lower modern_line) in
  let keywords := List.filter (λ w, negb (bool_decide (w ∈ stopwords))) words in
  most_common 3 keywords.

(** [line_dict = {"text": modern_line, "chunk_id": "input_line"}] *)
Definition line_dict (modern_line : string) : line_chunk :=
  {| lc_text := modern_line; lc_chunk_id := "input_line"; lc_title := None;
     lc_line := None; lc_act := None; lc_scene := None; lc_mood := None |}.

Section Engine.
(** [SPACY_AVAILABLE] and [nlp] of the chunkers.  [E] is the type of an
    embedding and [R] the type of a query result.  [embed site text] is
    [self.embedder.embed_texts([text])[0]] and [query site collection
    embedding n_results] is the [collection.query] of that collection;
    both may raise, and [site] tells the calls of a run apart, so that
    every call may be answered differently. *)
Context (SPACY_AVAILABLE : bool) (nlp : string -> option Doc).
Context {E R : Type}
        (embed : list nat -> string -> outcome E)
        (query : list nat -> string -> E -> nat -> outcome R).

(** An embedding and the query with it. *)
Definition search_text (site : list nat) (collection text : string) (top_k : nat)
  : outcome R :=
  match embed site text with
  | Raise e => Raise e
  | Return emb => query site collection emb top_k
  end.

(** [for chunk in chunks: ... .append(search_result)] *)
Fixpoint search_texts (level i : nat) (collection : string) (texts : list string)
    (top_k : nat) : outcome (list R) :=
  match texts with
  | [] => Return []
  | text :: tl =>
      match search_text [level; i] collection text top_k with
      | Raise e => Raise e
      | Return search_result =>
          match search_texts level (S i) collection tl top_k with
          | Raise e => Raise e
          | Return rest => Return (search_result :: rest)
          end
      end
  end.

(** [search_line]; the exception of the fragment chunker is the one of
    [nlp]. *)
Definition search_line (modern_line : string) (top_k : nat)
  : outcome (search_chunks R) :=
  match search_text [0] "lines" modern_line top_k with
  | Raise e => Raise e
  | Return line_result =>
      let phrase_chunks :=
        PhraseChunker.chunk_from_line_chunks SPACY_AVAILABLE nlp
          [line_dict modern_line] in
      match search_texts 1 0 "phrases" (PhraseChunker.text <$> phrase_chunks) top_k with
      | Raise e => Raise e
      | Return phrase_results =>
          match FragmentChunker.chunk_from_line_chunks 3 SPACY_AVAILABLE nlp
                  [line_dict modern_line] with
          | None => Raise (Failure 0)
          | Some fragment_chunks =>
              match search_texts 2 0 "fragments"
                      (FragmentChunker.text <$> fragment_chunks) top_k with
              | Raise e => Raise e
              | Return fragment_results =>
                  Return {| line := Some line_result;
                            phrases := phrase_results;
                            fragments := fragment_results |}
              end
          end
      end
  end.

(** The body of [for level in ["line", "phrases", "fragments"]], in its
    [try]: an exception leaves the result as it is. *)
Definition keyword_level (k : nat) (emb : E) (result : search_chunks R)
    (jl : nat * string) : search_chunks R :=
  match store (snd jl) with
  | None => result
  | Some collection =>
      match query [3; k; fst jl] collection emb 3 with
      | Raise _ => result
      | Return keyword_results =>
          if String.eqb (snd jl) "line" then
            {| line := Some keyword_results; phrases := phrases result;
               fragments := fragments result |}
          else if String.eqb (snd jl) "phrases" then
            {| line := line result;
               phrases := phrases result ++ [keyword_results];
               fragments := fragments result |}
          else if String.eqb (snd jl) "fragments" then
            {| line := line result; phrases := phrases result;
               fragments := fragments result ++ [keyword_results] |}
          else result
      end
  end.

(** The body of [for keyword in top_keywords], in its [try]. *)
Definition keyword_step (result : search_chunks R) (kk : nat * string)
  : search_chunks R :=
  match embed [3; fst kk] (snd kk) with
  | Raise _ => result
  | Return keyword_embedding =>
      foldl (keyword_level (fst kk) keyword_embedding) result
            (imap pair ["line"; "phrases"; "fragments"])
  end.

(** [hybrid_search]: the structure it returns, also from its [except]. *)
Definition hybrid_search (modern_line : string) (top_k : nat) : search_chunks R :=
  match search_line modern_line top_k with
  | Raise _ => {| line := None; phrases := []; fragments := [] |}
  | Return vector_results =>
      foldl keyword_step vector_results (imap pair (top_keywords modern_line))
  end.

End Engine.

End SearchEngine.

(** ** [modules/chunking/line_chunker.py] *)

Module LineChunker.
Import Chunking Types.

(** [self.shakespeare_titles] *)
Definition shakespeare_titles : list string :=
  [ "THE SONNETS";
    "ALL'S WELL THAT ENDS WELL";
    "THE TRAGEDY OF ANTONY AND CLEOPATRA";
    "AS YOU LIKE IT";
    "THE COMEDY OF ERRORS";
    "THE TRAGEDY OF CORIOLANUS";
    "CYMBELINE";
    "THE TRAGEDY OF HAMLET, PRINCE OF DENMARK";
    "THE FIRST PART OF KING HENRY THE FOURTH";
    "THE SECOND PART OF KING HENRY THE FOURTH";
    "THE LIFE OF KING HENRY THE FIFTH";
    "THE FIRST PART OF HENRY THE SIXTH";
    "THE SECOND PART OF KING HENRY THE SIXTH";
    "THE THIRD PART OF KING HENRY THE SIXTH";
    "KING HENRY THE EIGHTH";
    "THE LIFE AND DEATH OF KING JOHN";
    "THE TRAGEDY OF JULIUS CAESAR";
    "THE TRAGEDY OF KING LEAR";
    "LOVE'S LABOUR'S LOST";
    "THE TRAGEDY OF MACBETH";
    "MEASURE FOR MEASURE";
    "THE MERCHANT OF VENICE";
    "THE MERRY WIVES OF WINDSOR";
    "A MIDSUMMER NIGHT'S DREAM";
    "MUCH ADO ABOUT NOTHING";
    "THE TRAGEDY OF OTHELLO, THE MOOR OF VENICE";
    "PERICLES, PRINCE OF TYRE";
    "KING RICHARD THE SECOND";
    "KING RICHARD THE THIRD";
    "THE TRAGEDY OF ROMEO AND JULIET";
    "THE TAMING OF THE SHREW";
    "THE TEMPEST";
    "THE LIFE OF TIMON OF ATHENS";
    "THE TRAGEDY OF TITUS ANDRONICUS";
    "TROILUS AND CRESSIDA";
    "TWELFTH NIGHT; OR, WHAT YOU WILL";
    "THE TWO GENTLEMEN OF VERONA";
    "THE TWO NOBLE KINSMEN";
    "A WINTER'S TALE";
    "A LOVER'S COMPLAINT";
    "THE PASSIONATE PILGRIM";
    "THE PHOENIX AND THE TURTLE";
    "THE RAPE OF LUCRECE";
    "VENUS AND ADONIS" ].

(** [line.upper() in self.shakespeare_titles] *)
Definition is_title (line : string) : bool :=
  existsb (String.eqb (Py.upper line)) shakespeare_titles.

(** The class [[IVX]] under [re.IGNORECASE]. *)
Definition is_roman (c : ascii) : bool :=
  existsb (Ascii.eqb (Py.upper_char c)) ["I"; "V"; "X"]%char.

(** [keyword\s+(group)] matched at the start of [line] under
    [re.IGNORECASE]: the text of the group.  [keyword] is in upper case;
    after it comes at least one whitespace character, and the group
    starts at the first character that is not whitespace. *)
Definition header_match (keyword : string) (group : string -> option string)
    (line : string) : option string :=
  if Py.startswith (Py.upper line) keyword then
    match Py.drop_str (Py.len keyword) line with
    | String c rest =>
        if Py.isspace c then group (Py.lstrip rest) else None
    | EmptyString => None
    end
  else None.

(** [(?:INDUCTION|[IVX]+)]: the first alternative that matches. *)
Definition act_group (s : string) : option string :=
  if Py.startswith (Py.upper s) "INDUCTION" then Some (Py.take_str 9 s)
  else match Py.take_while is_roman s with
       | EmptyString => None
       | g => Some g
       end.

(** [(?:PROLOGUE|[IVX]+|\d+)] *)
Definition scene_group (s : string) : option string :=
  if Py.startswith (Py.upper s) "PROLOGUE" then Some (Py.take_str 8 s)
  else match Py.take_while is_roman s with
       | EmptyString =>
           match Py.take_while Py.isdigit s with
           | EmptyString => None
           | g => Some g
           end
       | g => Some g
       end.

(** [self.act_pattern.match(line)] and [self.scene_pattern.match(line)]:
    [group(1)] of the match, [None] when there is none. *)
Definition act_pattern (line : string) : option string :=
  header_match "ACT" act_group line.

Definition scene_pattern (line : string) : option string :=
  header_match "SCENE" scene_group line.

(** [self.sonnet_number_pattern.match(line)], the pattern [^(\d+)$]: the
    digits, when the line is digits only, up to one final newline. *)
Definition sonnet_number_pattern (line : string) : option string :=
  let digits := Py.take_while Py.isdigit line in
  let rest := Py.drop_while Py.isdigit line in
  if Py.is_empty digits then None
  else if Py.is_empty rest || String.eqb rest (String "010"%char "")
  then Some digits
  else None.

(** A character of the class [[A-Z\s.,;:!?]]. *)
Definition is_caps_char (c : ascii) : bool :=
  Py.isupper c || Py.isspace c ||
  existsb (Ascii.eqb c) ["."; ","; ";"; ":"; "!"; "?"]%char.

(** [self.all_caps_pattern.match(line)], the pattern
    [^[A-Z\s.,;:!?]+$]. *)
Definition all_caps_pattern (line : string) : bool :=
  negb (Py.is_empty line) && Py.str_all is_caps_char line.

(** [_is_structural_line] *)
Definition _is_structural_line (line : string) : bool :=
  match act_pattern line, scene_pattern line with
  | Some _, _ => true
  | None, Some _ => true
  | None, None => all_caps_pattern line
  end.

(** A line chunk: the dict [chunk_text] appends.  Its ["word_index"] is
    [f"0,{word_count - 1}"] and its ["mood"] is ["neutral"]. *)
Record chunk := mk_chunk {
  chunk_id : string;
  title : string;
  line : nat;
  act : option string;
  scene : option string;
  text : string;
  syllables : nat;
  POS : list string;
  word_count : nat
}.

Definition word_index (c : chunk) : string :=
  "0," +:+ Py.str_of_Z (Z.of_nat (word_count c) - 1).

(** The local variables of [chunk_text]. *)
Record state := mk_state {
  current_title : string;
  current_act : option string;
  current_scene : option string;
  chunk_counter : nat;
  scene_line_index : nat
}.

Definition initial : state :=
  {| current_title := "Unknown"; current_act := None; current_scene := None;
     chunk_counter := 0; scene_line_index := 0 |}.

Section Chunker.
(** The module-level [SPACY_AVAILABLE] and [nlp]. *)
Context (SPACY_AVAILABLE : bool) (nlp : string -> option Doc).

(** One iteration of [for raw_line in lines]: the state after it and the
    chunk it appends, if any.  The three detection sets the method also
    fills are read by [_print_detection_summary] only, which logs
    them. *)
Definition step (st : state) (raw_line : string) : state * option chunk :=
  let line := Py.strip raw_line in
  if Py.is_empty line then (st, None)
  else
    let line := _normalize_quotes line in
    if is_title line then
      ({| current_title := line; current_act := None; current_scene := None;
          chunk_counter := chunk_counter st; scene_line_index := 0 |}, None)
    else
      match act_pattern line with
      | Some g =>
          ({| current_title := current_title st;
              current_act := Some (Py.upper g); current_scene := None;
              chunk_counter := chunk_counter st; scene_line_index := 0 |}, None)
      | None =>
          match scene_pattern line with
          | Some g =>
              ({| current_title := current_title st;
                  current_act := current_act st;
                  current_scene := Some (Py.upper g);
                  chunk_counter := chunk_counter st; scene_line_index := 0 |},
               None)
          | None =>
              match (if Py.contains "SONNETS" (Py.upper (current_title st))
                     then sonnet_number_pattern line else None) with
              | Some g =>
                  ({| current_title := current_title st;
                      current_act := Some g; current_scene := Some "";
                      chunk_counter := chunk_counter st;
                      scene_line_index := 0 |}, None)
              | None =>
                  if _is_structural_line line then (st, None)
                  else
                    let tokens := _process_line_with_spacy SPACY_AVAILABLE nlp line in
                    let words := token_texts tokens in
                    ({| current_title := current_title st;
                        current_act := current_act st;
                        current_scene := current_scene st;
                        chunk_counter := S (chunk_counter st);
                        scene_line_index := S (scene_line_index st) |},
                     Some {| chunk_id := "chunk_" +:+ Py.str_of_nat (S (chunk_counter st));
                             title := current_title st;
                             line := S (scene_line_index st);
                             act := current_act st;
                             scene := current_scene st;
                             text := line;
                             syllables := sum_list (_count_syllables <$> words);
                             POS := token_tags tokens;
                             word_count := length words |})
              end
          end
      end.

Fixpoint chunk_loop (lines : list string) (st : state) : list chunk :=
  match lines with
  | [] => []
  | raw_line :: rest =>
      let '(st', out) := step st raw_line in
      match out with
      | Some c => c :: chunk_loop rest st'
      | None => chunk_loop rest st'
      end
  end.

(** [chunk_text] *)
Definition chunk_text (text : string) : list chunk :=
  chunk_loop (Py.split_char "010"%char text) initial.

End Chunker.

(** The chunk as the dict it is, and as the phrase and fragment chunkers
    read it. *)
Definition opt_str (o : option string) : value :=
  match o with Some s => VStr s | None => VNone end.

Definition to_dict (c : chunk) : gmap string value :=
  list_to_map
    [ ("chunk_id", VStr (chunk_id c)); ("title", VStr (title c));
      ("line", VInt (Z.of_nat (line c))); ("act", opt_str (act c));
      ("scene", opt_str (scene c)); ("text", VStr (text c));
      ("word_index", VStr (word_index c));
      ("syllables", VInt (Z.of_nat (syllables c))); ("POS", VList (POS c));
      ("mood", VStr "neutral");
      ("word_count", VInt (Z.of_nat (word_count c))) ].

Definition as_line_chunk (c : chunk) : line_chunk :=
  {| lc_text := text c; lc_chunk_id := chunk_id c; lc_title := Some (title c);
     lc_line := Some (Z.of_nat (line c)); lc_act := act c;
     lc_scene := scene c; lc_mood := Some "neutral" |}.

(** [self.chunks[start_index:end_idx]] with integers that may be
    negative: a negative bound counts from the end. *)
Definition py_slice {X : Type} (l : list X) (first last : Z) : list X :=
  let n := Z.of_nat (length l) in
  let clamp i := Z.max 0 (Z.min n (if (i <? 0)%Z then n + i else i)) in
  slice l (Z.to_nat (clamp first)) (Z.to_nat (clamp last)).

(** [get_dialogue_exchange] *)
Definition get_dialogue_exchange (chunks : list chunk) (start_index max_lines : Z)
  : list chunk :=
  match chunks with
  | [] => []
  | _ :: _ =>
      if (start_index <? 0)%Z || (Z.of_nat (length chunks) <=? start_index)%Z
      then []
      else
        let end_idx := Z.min (start_index + max_lines) (Z.of_nat (length chunks)) in
        py_slice chunks start_index end_idx
  end.

(** [get_lines_by_act_scene] and [get_sonnet_lines] *)
Definition get_lines_by_act_scene (chunks : list chunk) (a s : string) : list chunk :=
  filter (λ c, act c = Some a ∧ scene c = Some s) chunks.

Definition get_sonnet_lines (chunks : list chunk) (sonnet_number : string)
  : list chunk :=
  filter (λ c, act c = Some sonnet_number ∧ scene c = Some "") chunks.

End LineChunker.

(** ** [modules/rag/vector_store.py] *)

Module VectorStore.
Import Types.

(** [isinstance(v, (str, int, float, bool))] on the values a chunk dict
    holds. *)
Definition is_scalar (v : value) : bool :=
  match v with
  | VStr _ | VInt _ => true
  | VNone | VList _ => false
  end.

(** [clean_meta]: the metadata [add_documents] stores for a chunk. *)
Definition clean_meta (chunk : gmap string value) : gmap string value :=
  filter (λ kv, (fst kv ∉ ["text"; "embedding"; "chunk_id"]) ∧
                is_scalar (snd kv) = true) chunk.

(** A reference, the metadata of a stored chunk, that carries the
    identity of a chunk: its title, its line number and its word index
    [f"{first},{last}"], and its act and scene when the chunk has them
    (a field that is [None] is not stored). *)
Definition carries (ref : ReferenceDict) (title : string)
    (act scene : option string) (line : Z) (word_index : Z * Z) : Prop :=
  ref !! "title" = Some (VStr title) ∧
  ref !! "line" = Some (VInt line) ∧
  ref !! "word_index" =
    Some (VStr (Py.str_of_Z (fst word_index) +:+ "," +:+
                Py.str_of_Z (snd word_index))) ∧
  ref !! "act" = VStr <$> act ∧
  ref !! "scene" = VStr <$> scene.

End VectorStore.

(** ** Sample inputs *)

Module Sample.
Import Types.





(** The opening of a scene as the line chunker reads it, and its first
    line chunk. *)
Definition macbeth_text : string :=
  Py.join (String "010"%char "")
    [ "THE TRAGEDY OF MACBETH"; ""; "ACT I"; "SCENE III. A heath."; "MACBETH.";
      "So foul and fair a day I have not seen.";
      "  Speak, if you can: what are you?  " ].

Definition macbeth_line : LineChunker.chunk :=
  {| LineChunker.chunk_id := "chunk_1";
     LineChunker.title := "THE TRAGEDY OF MACBETH";
     LineChunker.line := 1;
     LineChunker.act := Some "I";
     LineChunker.scene := Some "III";
     LineChunker.text := "So foul and fair a day I have not seen.";
     LineChunker.syllables := 10;
     LineChunker.POS := [""; ""; ""; ""; ""; ""; ""; ""; ""; ""];
     LineChunker.word_count := 10 |}.

End Sample.

(* ===================================================================== *)
(** * Part II: lemmas and theorems                                        *)
(* ===================================================================== *)

Section Py_string_facts.

Lemma append_empty_l (s : string) : "" +:+ s = s.
Proof. reflexivity. Qed.

Lemma append_cons (c : ascii) (s t : string) :
  String c s +:+ t = String c (s +:+ t).
Proof. reflexivity. Qed.

Lemma append_nil_r (s : string) : s +:+ "" = s.
Proof.
  induction s as [|c s IH]; [done|]. by rewrite append_cons, IH.
Qed.

Lemma append_assoc (a b c : string) : (a +:+ b) +:+ c = a +:+ (b +:+ c).
Proof.
  induction a as [|x a IH]; [done|]. by rewrite !append_cons, IH.
Qed.

Lemma is_empty_true (s : string) : Py.is_empty s = true ↔ s = "".
Proof. destruct s; simpl; split; congruence. Qed.

Lemma startswith_split (s p : string) :
  Py.startswith s p = true → s = p +:+ Py.drop_str (Py.len p) s.
Proof.
  revert s. induction p as [|b p IH]; intros s; [done|].
  destruct s as [|a s]; simpl; [discriminate|].
  destruct (Ascii.eqb a b) eqn:E; [|discriminate].
  apply Ascii.eqb_eq in E. subst b. intros H.
  rewrite append_cons. f_equal. by apply IH.
Qed.

Lemma startswith_append (p r : string) : Py.startswith (p +:+ r) p = true.
Proof.
  induction p as [|b p IH]; [done|].
  rewrite append_cons. simpl. rewrite Ascii.eqb_refl. exact IH.
Qed.

Lemma drop_str_append (p r : string) : Py.drop_str (Py.len p) (p +:+ r) = r.
Proof. induction p as [|b p IH]; [done|]. rewrite append_cons. exact IH. Qed.

Lemma join_empty_cons (x : string) (l : list string) :
  Py.join "" (x :: l) = x +:+ Py.join "" l.
Proof. destruct l; simpl; [by rewrite append_nil_r | done]. Qed.

Lemma join_empty_app (l1 l2 : list string) :
  Py.join "" (l1 ++ l2) = Py.join "" l1 +:+ Py.join "" l2.
Proof.
  induction l1 as [|x l1 IH]; [done|].
  rewrite <- app_comm_cons, !join_empty_cons, IH. by rewrite append_assoc.
Qed.

End Py_string_facts.

Section Assembler_matching.
Import Assembler.
Context {A : Type} (norm : A → string).

Lemma insert_desc_perm x l : insert_desc norm x l ≡ₚ x :: l.
Proof.
  induction l as [|y l IH]; simpl; [done|].
  destruct (_ <=? _)%nat; [done|]. rewrite IH. apply Permutation_swap.
Qed.

Lemma sort_desc_perm l : sort_desc norm l ≡ₚ l.
Proof.
  induction l as [|x l IH]; simpl; [done|].
  by rewrite insert_desc_perm, IH.
Qed.

Lemma insert_desc_sorted x l :
  StronglySorted (longer_first norm) l → StronglySorted (longer_first norm) (insert_desc norm x l).
Proof.
  induction 1 as [|y l Hs IH Hall]; simpl.
  - repeat constructor.
  - destruct (Py.len (norm y) <=? Py.len (norm x))%nat eqn:E.
    + apply Nat.leb_le in E. constructor; [by constructor|].
      constructor; [done|].
      eapply Forall_impl; [exact Hall|]. unfold longer_first. simpl. lia.
    + apply Nat.leb_gt in E. constructor; [done|].
      rewrite insert_desc_perm. constructor; [|done].
      unfold longer_first. lia.
Qed.

Lemma sort_desc_sorted l : StronglySorted (longer_first norm) (sort_desc norm l).
Proof.
  induction l as [|x l IH]; simpl; [constructor | by apply insert_desc_sorted].
Qed.

Lemma sorted_remove_middle l1 (q : A) l2 :
  StronglySorted (longer_first norm) (l1 ++ q :: l2) →
  StronglySorted (longer_first norm) (l1 ++ l2) ∧ Forall (longer_first norm q) l2.
Proof.
  induction l1 as [|y l1 IH]; simpl; intros H.
  - apply StronglySorted_inv in H as [H1 H2]. done.
  - apply StronglySorted_inv in H as [H1 H2].
    destruct (IH H1) as [H3 H4]. split; [|done].
    constructor; [done|].
    rewrite Forall_app in H2 |- *. destruct H2 as [Ha Hb].
    split; [done|]. by inversion Hb.
Qed.

(** The inner loop picks the first available quote the text starts with. *)
Lemma find_match_first rem l q l' :
  find_match norm rem l = Some (q, l') →
  ∃ l1 l2, l = l1 ++ q :: l2 ∧ l' = l1 ++ l2 ∧
    Py.startswith rem (norm q) = true ∧
    Forall (λ x, Py.startswith rem (norm x) = false) l1.
Proof.
  revert l'. induction l as [|y l IH]; simpl; intros l'; [discriminate|].
  destruct (Py.startswith rem (norm y)) eqn:E.
  - intros [= -> <-]. exists [], l. done.
  - destruct (find_match norm rem l) as [[m tl']|] eqn:F; [|discriminate].
    intros [= -> <-]. destruct (IH _ eq_refl) as (l1 & l2 & -> & -> & Hs & Hall).
    exists (y :: l1), l2. repeat split; try done. by constructor.
Qed.

Lemma match_positions_sound n : ∀ rem avail used res,
  StronglySorted (longer_first norm) avail → NoDup avail →
  match_positions norm n rem avail used = Some res →
  ∃ picks rest,
    res = used ++ picks ∧ (length picks ≤ n)%nat ∧
    rem = concat_str (map norm picks) ∧
    avail ≡ₚ picks ++ rest ∧
    greedy_picks norm avail picks.
Proof.
  induction n as [|n IH]; intros rem avail used res Hsort Hnd; simpl.
  - destruct (Py.is_empty rem) eqn:E; [|discriminate].
    intros [= <-]. apply is_empty_true in E as ->.
    exists [], avail. rewrite app_nil_r. repeat split; done.
  - destruct (Py.is_empty rem) eqn:E.
    + intros [= <-]. apply is_empty_true in E as ->.
      exists [], avail. rewrite app_nil_r. repeat split; try done. simpl; lia.
    + destruct (find_match norm rem avail) as [[q avail']|] eqn:F; [|discriminate].
      destruct (find_match_first _ _ _ _ F) as (l1 & l2 & -> & -> & Hstart & Hnone).
      destruct (sorted_remove_middle _ _ _ Hsort) as [Hsort' Hq].
      assert (Hnd' : NoDup (l1 ++ l2)).
      { apply NoDup_app in Hnd as (H1 & H2 & H3). apply NoDup_app.
        apply NoDup_cons in H3 as [H3 H4]. repeat split; try done.
        intros x Hx Hx2. apply (H2 x Hx). by right. }
      intros Hres.
      destruct (IH _ _ _ _ Hsort' Hnd' Hres) as (picks & rest & -> & Hlen & Hrem & Hperm & Hgreedy).
      exists (q :: picks), rest. repeat split.
      * by rewrite <- app_assoc.
      * simpl. lia.
      * simpl map. unfold concat_str. rewrite join_empty_cons.
        unfold concat_str in Hrem. rewrite <- Hrem.
        by apply startswith_split.
      * rewrite <- app_comm_cons, <- Hperm. by rewrite Permutation_middle.
      * intros j p Hj x Hx Hnot Hpre. destruct j as [|j]; simpl in *.
        -- injection Hj as <-.
           assert (Hrem0 : concat_str (norm q :: map norm picks) = rem).
           { unfold concat_str. rewrite join_empty_cons.
             unfold concat_str in Hrem. rewrite <- Hrem.
             symmetry. by apply startswith_split. }
           rewrite Hrem0 in Hpre.
           apply elem_of_app in Hx as [Hx|Hx].
           ++ rewrite Forall_forall in Hnone. by rewrite (Hnone x) in Hpre.
           ++ apply elem_of_cons in Hx as [->|Hx]; [done|].
              rewrite Forall_forall in Hq. by apply Hq.
        -- apply (Hgreedy j p Hj x); [| |done].
           ++ apply not_elem_of_cons in Hnot as [Hne Hnot].
              apply elem_of_app in Hx as [Hx|Hx]; apply elem_of_app; [by left|].
              apply elem_of_cons in Hx as [->|Hx]; [done | by right].
           ++ by apply not_elem_of_cons in Hnot as [_ Hnot].
Qed.

End Assembler_matching.

Section Assembler_naturality.
Import Assembler.
Context {A B : Type} (g : B → A) (norm : A → string).

Let normB (b : B) : string := norm (g b).

Lemma insert_desc_fmap (x : B) (l : list B) :
  g <$> insert_desc normB x l = insert_desc norm (g x) (g <$> l).
Proof.
  induction l as [|y l IH]; [done|]. rewrite fmap_cons. cbn [insert_desc].
  unfold normB at 1 2.
  destruct (_ <=? _)%nat; [done|]. rewrite fmap_cons. by f_equal.
Qed.

Lemma sort_desc_fmap (l : list B) : g <$> sort_desc normB l = sort_desc norm (g <$> l).
Proof.
  induction l as [|x l IH]; [done|]. rewrite fmap_cons. cbn [sort_desc].
  by rewrite insert_desc_fmap, IH.
Qed.

Lemma find_match_fmap rem (l : list B) :
  find_match norm rem (fmap (M:=list) g l) =
  fmap (M:=option) (λ '(m, r), (g m, fmap (M:=list) g r)) (find_match normB rem l).
Proof.
  induction l as [|y l IH]; [done|]. rewrite fmap_cons. cbn [find_match].
  unfold normB at 1.
  destruct (Py.startswith rem (norm (g y))); [done|].
  rewrite IH. by destruct (find_match normB rem l) as [[m r]|].
Qed.

Lemma match_positions_fmap n : ∀ rem (l used : list B),
  match_positions norm n rem (fmap (M:=list) g l) (fmap (M:=list) g used) =
  fmap (M:=option) (fmap (M:=list) g) (match_positions normB n rem l used).
Proof.
  induction n as [|n IH]; intros rem l used; cbn [match_positions].
  - by destruct (Py.is_empty rem).
  - destruct (Py.is_empty rem); [done|].
    rewrite find_match_fmap.
    destruct (find_match normB rem l) as [[m r]|]; [|done].
    cbn [fmap option_fmap option_map].
    replace ((g <$> used) ++ [g m]) with (g <$> (used ++ [m]))
      by by rewrite fmap_app.
    by rewrite IH.
Qed.

End Assembler_naturality.

Section Assembler_properties.
Import Assembler.

Lemma tagged_snd l : snd <$> tagged l = l.
Proof.
  unfold tagged. rewrite fmap_imap.
  rewrite (imap_ext _ (const id)); [|done].
  by rewrite imap_const, list_fmap_id.
Qed.

Lemma tagged_fst l : fst <$> tagged l = seq 0 (length l).
Proof.
  unfold tagged. rewrite fmap_imap.
  rewrite (imap_ext _ (λ j _, id j)); [|done].
  by rewrite imap_seq_0, list_fmap_id.
Qed.

Lemma tagged_NoDup_fst l : NoDup (fst <$> tagged l).
Proof. rewrite tagged_fst. apply NoDup_ListNoDup, List.seq_NoDup. Qed.

Lemma tagged_elem l i q : (i, q) ∈ tagged l ↔ l !! i = Some q.
Proof.
  unfold tagged. rewrite elem_of_lookup_imap. split.
  - intros (j & y & [= -> ->] & H). done.
  - intros H. by exists i, q.
Qed.

Lemma collect_entries_normalized quotes l q :
  collect_entries quotes = Some l → q ∈ l →
  normalized q = normalize_text (original q).
Proof.
  revert l. induction quotes as [|[tid text|n] tl IH]; simpl; intros l.
  - intros [= <-] H. by apply elem_of_nil in H.
  - destruct (collect_entries tl) as [l'|]; [|discriminate]. simpl.
    intros [= <-] [->|H]%elem_of_cons; [done|]. by eapply IH.
  - discriminate.
Qed.

Lemma collect_quotes_normalized qd l q :
  collect_quotes qd = Some l → q ∈ l →
  normalized q = normalize_text (original q).
Proof.
  revert l. induction qd as [|[form quotes] tl IH]; simpl; intros l.
  - intros [= <-] H. by apply elem_of_nil in H.
  - destruct (collect_entries quotes) as [l1|] eqn:E1; [|discriminate].
    destruct (collect_quotes tl) as [l2|]; [|discriminate]. simpl.
    intros [= <-] [H|H]%elem_of_app.
    + by eapply collect_entries_normalized.
    + by eapply IH.
Qed.

Lemma candidate_text_tagged qd all (tq : list (nat * listed_quote)) :
  collect_quotes qd = Some all →
  (∀ x, x ∈ tq → x ∈ tagged all) →
  candidate_text qd <$> (fst <$> tq) = (λ b, normalized (snd b)) <$> tq.
Proof.
  intros Hall Hsub. rewrite <- list_fmap_compose.
  apply list_fmap_ext. intros k [i q] Hk. simpl.
  assert (Hin : (i, q) ∈ tagged all).
  { apply Hsub. by eapply list_elem_of_lookup_2. }
  apply tagged_elem in Hin. unfold candidate_text, listed.
  rewrite Hall. simpl. rewrite Hin. simpl.
  symmetry. eapply collect_quotes_normalized; [done|].
  by eapply list_elem_of_lookup_2.
Qed.

(** C4.  When [_mini_validate] returns a dict, its text is the assembled
    line and its [temp_ids] has at most three elements.  The elements
    identify pairwise distinct positions of the listing, the concatenation
    of the candidates' alphanumeric-only lower-cased texts in the returned
    order is the alphanumeric-only lower-cased assembled line, every match
    is at the front of the text that remained, and no candidate still
    available at that point that the remaining text starts with is longer
    than the one matched. *)
Theorem mini_validate_success
    (assembled_line : string) (qd : quote_data)
    (text : string) (temp_ids : list string) :
  _mini_validate assembled_line qd = MiniDict text temp_ids →
  text = assembled_line ∧
  (length temp_ids ≤ 3)%nat ∧
  ∃ idxs : list nat,
    NoDup idxs ∧
    Forall2 (λ i tid, temp_id <$> listed qd !! i = Some tid) idxs temp_ids ∧
    concat_str (candidate_text qd <$> idxs) = normalize_text assembled_line ∧
    ∀ j i, idxs !! j = Some i →
      Py.startswith (concat_str (candidate_text qd <$> drop j idxs))
                    (candidate_text qd i) = true ∧
      ∀ i', (i' < length (listed qd))%nat → i' ∉ take j idxs →
        Py.startswith (concat_str (candidate_text qd <$> drop j idxs))
                      (candidate_text qd i') = true →
        (Py.len (candidate_text qd i') ≤ Py.len (candidate_text qd i))%nat.
Proof.
  unfold _mini_validate.
  destruct (collect_quotes qd) as [all|] eqn:Hall; [|discriminate].
  destruct (match_quotes normalized (normalize_text assembled_line) all)
    as [used|] eqn:Hm; [|discriminate].
  intros [= <- <-]. split; [done|].
  set (normB := λ b : nat * listed_quote, normalized (snd b)).
  unfold match_quotes in Hm.
  rewrite <- (tagged_snd all) in Hm.
  rewrite <- (sort_desc_fmap snd normalized) in Hm.
  change (@nil listed_quote) with (snd <$> @nil (nat * listed_quote)) in Hm.
  rewrite (match_positions_fmap snd normalized) in Hm.
  fold normB in Hm.
  destruct (match_positions normB 3 (normalize_text assembled_line)
              (sort_desc normB (tagged all)) []) as [tused|] eqn:Ht;
    [|discriminate].
  injection Hm as <-.
  assert (Hnd : NoDup (sort_desc normB (tagged all))).
  { rewrite sort_desc_perm. eapply NoDup_fmap_1, tagged_NoDup_fst. }
  destruct (match_positions_sound normB 3 _ _ _ _
              (sort_desc_sorted normB _) Hnd Ht)
    as (picks & rest & Hres & Hlen & Hrem & Hperm & Hgreedy).
  simpl in Hres. subst tused.
  rewrite sort_desc_perm in Hperm.
  assert (Hsub : ∀ x, x ∈ picks → x ∈ tagged all).
  { intros x Hx. rewrite Hperm. apply elem_of_app. by left. }
  assert (Hsub' : ∀ j x, x ∈ drop j picks → x ∈ tagged all).
  { intros j x [i Hi]%list_elem_of_lookup_1. rewrite lookup_drop in Hi.
    apply Hsub. by eapply list_elem_of_lookup_2. }
  split; [by rewrite !length_fmap|].
  assert (Hc : ∀ i1 q1, (i1, q1) ∈ tagged all →
                        candidate_text qd i1 = normB (i1, q1)).
  { intros i1 q1 H1. pose proof H1 as H2. apply tagged_elem in H1.
    unfold candidate_text, listed. rewrite Hall. simpl. rewrite H1. simpl.
    symmetry. eapply collect_quotes_normalized; [done|].
    by eapply list_elem_of_lookup_2. }
  exists (fst <$> picks). split; [|split; [|split]].
  - assert (Hn : NoDup (fst <$> (picks ++ rest))).
    { rewrite <- Hperm. exact (tagged_NoDup_fst all). }
    rewrite fmap_app in Hn. by apply NoDup_app in Hn as [Hn _].
  - rewrite <- list_fmap_compose. apply Forall2_fmap, Forall_Forall2_diag.
    apply Forall_forall. intros [i q] Hx. simpl.
    apply Hsub, tagged_elem in Hx. unfold listed. rewrite Hall. simpl.
    by rewrite Hx.
  - by rewrite (candidate_text_tagged _ _ _ Hall Hsub).
  - intros j i Hji.
    rewrite <- fmap_drop, (candidate_text_tagged _ _ _ Hall (Hsub' j)).
    rewrite list_lookup_fmap in Hji.
    destruct (picks !! j) as [[i0 q]|] eqn:Hj; simpl in Hji; [|discriminate].
    injection Hji as <-.
    assert (Hiq : (i0, q) ∈ tagged all).
    { by eapply Hsub, list_elem_of_lookup_2. }
    rewrite (Hc _ _ Hiq). split.
    + rewrite (drop_S _ _ _ Hj), fmap_cons.
      unfold concat_str. rewrite join_empty_cons. apply startswith_append.
    + intros i' Hi' Hnot.
      destruct (lookup_lt_is_Some_2 (listed qd) i' Hi') as [q' Hq'].
      assert (Hin' : (i', q') ∈ tagged all).
      { apply tagged_elem. unfold listed in Hq'. by rewrite Hall in Hq'. }
      rewrite (Hc _ _ Hin'). intros Hpre.
      apply (Hgreedy j (i0, q) Hj (i', q')); [| |done].
      * by rewrite sort_desc_perm.
      * intros Hx. apply Hnot. rewrite <- fmap_take.
        by apply (list_elem_of_fmap_2 fst) in Hx.
Qed.

Lemma mini_validate_success_witness :
  let qd := example_quote_data in
  "To be, or not to be!" = "To be, or not to be!" ∧
  (length ["line_1"; "line_2"] ≤ 3)%nat ∧
  ∃ idxs : list nat,
    NoDup idxs ∧
    Forall2 (λ i tid, temp_id <$> listed qd !! i = Some tid)
            idxs ["line_1"; "line_2"] ∧
    concat_str (candidate_text qd <$> idxs)
      = normalize_text "To be, or not to be!" ∧
    ∀ j i, idxs !! j = Some i →
      Py.startswith (concat_str (candidate_text qd <$> drop j idxs))
                    (candidate_text qd i) = true ∧
      ∀ i', (i' < length (listed qd))%nat → i' ∉ take j idxs →
        Py.startswith (concat_str (candidate_text qd <$> drop j idxs))
                      (candidate_text qd i') = true →
        (Py.len (candidate_text qd i') ≤ Py.len (candidate_text qd i))%nat.
Proof.
  intros qd.
  apply (mini_validate_success "To be, or not to be!" qd
           "To be, or not to be!" ["line_1"; "line_2"]).
  reflexivity.
Defined.

End Assembler_properties.

Section Chunking_ranges.
Import Chunking.

Lemma elem_of_range a b k : k ∈ Py.range a b ↔ (a ≤ k < b)%nat.
Proof. unfold Py.range. rewrite elem_of_seq. lia. Qed.

Lemma any_used_false used a b :
  any_used used a b = false → ∀ k, (a ≤ k < b)%nat → k ∉ used.
Proof.
  unfold any_used. intros H k Hk Hin.
  assert (Ht : existsb (λ idx, bool_decide (idx ∈ used)) (Py.range a b) = true).
  { apply existsb_exists. exists k. split.
    - apply list_elem_of_In, elem_of_range. lia.
    - by apply bool_decide_eq_true. }
  congruence.
Qed.

Lemma elem_of_update_used used a b k :
  k ∈ update_used used a b ↔ k ∈ used ∨ (a ≤ k < b)%nat.
Proof.
  unfold update_used. rewrite elem_of_union, elem_of_list_to_set, elem_of_range.
  done.
Qed.

Lemma emits_avoids used ranges :
  emits used ranges → Forall (avoids used) ranges.
Proof.
  induction 1 as [|used i n ranges Hfree _ IH]; constructor.
  - intros k Hk. simpl in Hk. apply (any_used_false _ _ _ Hfree). lia.
  - eapply Forall_impl; [exact IH|]. intros r Hr k Hk Hin.
    apply (Hr k Hk), elem_of_update_used. by left.
Qed.

Lemma emits_non_overlapping used ranges :
  emits used ranges → non_overlapping ranges.
Proof.
  induction 1 as [|used i n ranges Hfree Hrest IH].
  - intros i j r1 r2 _ H. by rewrite lookup_nil in H.
  - assert (Hhead : ∀ r, r ∈ ranges →
              ¬ ranges_overlap (Z.of_nat i, (Z.of_nat i + Z.of_nat n - 1)%Z) r).
    { intros r Hr (idx & H1 & H2). simpl in H1.
      pose proof (emits_avoids _ _ Hrest) as Hav.
      rewrite Forall_forall in Hav.
      apply (Hav r Hr (Z.to_nat idx)); [lia|].
      apply elem_of_update_used. right. lia. }
    intros a b r1 r2 Hab H1 H2.
    destruct a as [|a], b as [|b]; simpl in H1, H2; try done.
    + injection H1 as <-. apply Hhead. by eapply list_elem_of_lookup_2.
    + injection H2 as <-. intros (idx & Ha & Hb).
      eapply Hhead; [by eapply list_elem_of_lookup_2|]. by exists idx.
    + apply (IH a b); [congruence|done|done].
Qed.

End Chunking_ranges.

Section PhraseChunker_properties.
Import Chunking PhraseChunker.
Context (SPACY_AVAILABLE : bool) (nlp : string → option Doc).

Lemma phrase_loop_emits lc token_words token_pos total phrases :
  ∀ phrase_idx used,
    emits used (word_index <$> phrase_loop SPACY_AVAILABLE nlp lc token_words
                                 token_pos total phrase_idx phrases used).
Proof.
  induction phrases as [|phrase rest IH]; intros idx used; simpl.
  - constructor.
  - destruct (_ <? 3)%nat; [apply IH|].
    destruct (find_slice _ _) as [i|]; [|apply IH].
    destruct (any_used used i _) eqn:Hfree; [apply IH|].
    rewrite fmap_cons. simpl. apply emits_cons; [done | apply IH].
Qed.

Lemma phrase_loop_total lc token_words token_pos total phrases :
  ∀ phrase_idx used c,
    c ∈ phrase_loop SPACY_AVAILABLE nlp lc token_words token_pos total
          phrase_idx phrases used →
    total_phrases_in_line c = total.
Proof.
  induction phrases as [|phrase rest IH]; intros idx used c; simpl.
  - intros H. by apply elem_of_nil in H.
  - destruct (_ <? 3)%nat; [apply IH|].
    destruct (find_slice _ _) as [i|]; [|apply IH].
    destruct (any_used used i _); [apply IH|].
    intros [->|H]%elem_of_cons; [done | by eapply IH].
Qed.

Lemma phrase_loop_length lc token_words token_pos total phrases :
  ∀ phrase_idx used,
    (length (phrase_loop SPACY_AVAILABLE nlp lc token_words token_pos total
               phrase_idx phrases used) ≤ length phrases)%nat.
Proof.
  induction phrases as [|phrase rest IH]; intros idx used; simpl; [lia|].
  destruct (_ <? 3)%nat; [by etrans; [apply IH|lia]|].
  destruct (find_slice _ _) as [i|]; [|by etrans; [apply IH|lia]].
  destruct (any_used used i _); [by etrans; [apply IH|lia]|].
  simpl. pose proof (IH (S idx) (update_used used i (i + length
    (token_texts (_process_line_with_spacy SPACY_AVAILABLE nlp phrase))))). lia.
Qed.

End PhraseChunker_properties.

Section FragmentChunker_properties.
Import Chunking FragmentChunker.
Context (min_words : nat).

Lemma subtree_loop_emits lc token_words line_doc :
  ∀ used fragment_idx,
    emits used (word_index <$> subtree_loop min_words lc token_words line_doc
                                 used fragment_idx).
Proof.
  induction line_doc as [|token rest IH]; intros used idx; simpl.
  - constructor.
  - destruct (_ || _); [apply IH|].
    destruct (find_slice _ _) as [i|]; [|apply IH].
    destruct (any_used used i _) eqn:Hfree; [apply IH|].
    rewrite fmap_cons. simpl. apply emits_cons; [done | apply IH].
Qed.

Lemma window_loop_emits lc line_tokens pos_tags positions :
  ∀ used fragment_idx,
    emits used (word_index <$> window_loop min_words lc line_tokens pos_tags
                                 positions used fragment_idx).
Proof.
  induction positions as [|i rest IH]; intros used idx; simpl.
  - constructor.
  - destruct (first_window _ _ _ _) as [w|] eqn:Hw; [|apply IH].
    rewrite fmap_cons. simpl.
    replace (Z.of_nat (i + w) - 1)%Z with (Z.of_nat i + Z.of_nat w - 1)%Z by lia.
    apply emits_cons; [|apply IH].
    unfold first_window in Hw. apply find_some in Hw as [_ Hw].
    apply andb_true_iff in Hw as [_ Hw]. by apply negb_true_iff in Hw.
Qed.

Lemma chunks_for_line_emits lc line_doc :
  emits ∅ (word_index <$> chunks_for_line min_words lc line_doc).
Proof.
  unfold chunks_for_line.
  set (primary := match line_doc with
                  | Some ((_ :: _) as doc) => _
                  | _ => []
                  end).
  assert (Hp : emits ∅ (word_index <$> primary)).
  { subst primary. destruct line_doc as [[|t doc]|]; try constructor.
    apply subtree_loop_emits. }
  destruct primary as [|c cs]; [apply window_loop_emits | exact Hp].
Qed.

End FragmentChunker_properties.

(** C1.  Non-overlap invariant.  For one line chunk, whatever the tagger
    returns, no two phrase chunks produced for the line share a word index,
    and no two fragment chunks produced for the line share a word index,
    whether they come from the subtrees or from the sliding window. *)
Theorem chunks_of_a_line_never_overlap
    (SPACY_AVAILABLE : bool) (nlp : string → option Chunking.Doc)
    (min_words : nat) (lc : Chunking.line_chunk)
    (line_doc : option Chunking.Doc) :
  Chunking.non_overlapping
    (PhraseChunker.word_index
       <$> PhraseChunker.chunks_for_line SPACY_AVAILABLE nlp lc) ∧
  Chunking.non_overlapping
    (FragmentChunker.word_index
       <$> FragmentChunker.chunks_for_line min_words lc line_doc).
Proof.
  split.
  - eapply emits_non_overlapping. unfold PhraseChunker.chunks_for_line.
    apply phrase_loop_emits.
  - eapply emits_non_overlapping. apply chunks_for_line_emits.
Qed.

Section FragmentChunker_counts.
Import Chunking FragmentChunker.
Context (min_words : nat).







Lemma subtree_loop_key lc token_words line_doc :
  ∀ used fragment_idx c,
    c ∈ subtree_loop min_words lc token_words line_doc used fragment_idx →
    key_of c = key_of_line lc.
Proof.
  induction line_doc as [|token rest IH]; intros used idx c; simpl.
  - intros H. by apply elem_of_nil in H.
  - destruct (_ || _); [apply IH|].
    destruct (find_slice _ _) as [i|]; [|apply IH].
    destruct (any_used used i _); [apply IH|].
    intros [->|H]%elem_of_cons; [done|by eapply IH].
Qed.

Lemma window_loop_key lc line_tokens pos_tags positions :
  ∀ used fragment_idx c,
    c ∈ window_loop min_words lc line_tokens pos_tags positions used fragment_idx →
    key_of c = key_of_line lc.
Proof.
  induction positions as [|i rest IH]; intros used idx c; simpl.
  - intros H. by apply elem_of_nil in H.
  - destruct (first_window _ _ _ _) as [w|]; [|apply IH].
    intros [->|H]%elem_of_cons; [done|by eapply IH].
Qed.

Lemma chunks_for_line_key lc line_doc c :
  c ∈ chunks_for_line min_words lc line_doc → key_of c = key_of_line lc.
Proof.
  unfold chunks_for_line.
  set (primary := match line_doc with
                  | Some ((_ :: _) as doc) => _
                  | _ => []
                  end).
  assert (Hp : ∀ c, c ∈ primary → key_of c = key_of_line lc).
  { subst primary. destruct line_doc as [[|t doc]|]; try (intros ? H; by apply elem_of_nil in H).
    intros c'. apply subtree_loop_key. }
  destruct primary as [|c0 cs]; [apply window_loop_key | apply Hp].
Qed.


End FragmentChunker_counts.

Section FragmentChunker_totals.
Import Chunking FragmentChunker.
Context (min_words : nat) (SPACY_AVAILABLE : bool) (nlp : string → option Doc).

Lemma key_of_update_totals chunks :
  key_of <$> update_totals chunks = key_of <$> chunks.
Proof.
  unfold update_totals. rewrite <- list_fmap_compose. by apply list_fmap_ext.
Qed.

Lemma line_to_count_fmap chunks key :
  line_to_count chunks key = length (filter (λ k, k = key) (key_of <$> chunks)).
Proof.
  unfold line_to_count. induction chunks as [|c cs IH]; [done|].
  rewrite fmap_cons, !filter_cons.
  destruct (decide (key_of c = key)); simpl; by rewrite IH.
Qed.

Lemma line_to_count_update_totals chunks key :
  line_to_count (update_totals chunks) key = line_to_count chunks key.
Proof. by rewrite !line_to_count_fmap, key_of_update_totals. Qed.

Lemma update_totals_total chunks c :
  c ∈ update_totals chunks →
  total_fragments_in_line c = Some (line_to_count (update_totals chunks) (key_of c)).
Proof.
  rewrite line_to_count_update_totals. unfold update_totals.
  intros (c0 & -> & _)%list_elem_of_fmap_1. done.
Qed.

Lemma line_to_count_app l1 l2 key :
  line_to_count (l1 ++ l2) key = (line_to_count l1 key + line_to_count l2 key)%nat.
Proof. unfold line_to_count. by rewrite filter_app, length_app. Qed.

Lemma line_to_count_all chunks key :
  (∀ c, c ∈ chunks → key_of c = key) → line_to_count chunks key = length chunks.
Proof.
  intros H. unfold line_to_count. induction chunks as [|c cs IH]; [done|].
  rewrite filter_cons. destruct (decide (key_of c = key)) as [_|Hne].
  - simpl. f_equal. apply IH. intros c' Hc'. apply H. by right.
  - exfalso. apply Hne, H. by left.
Qed.

Lemma line_to_count_none chunks key :
  (∀ c, c ∈ chunks → key_of c ≠ key) → line_to_count chunks key = 0%nat.
Proof.
  intros H. unfold line_to_count. induction chunks as [|c cs IH]; [done|].
  rewrite filter_cons. destruct (decide (key_of c = key)) as [He|_].
  - exfalso. by apply (H c); [left|].
  - apply IH. intros c' Hc'. apply H. by right.
Qed.

Lemma all_line_chunks_keys lcs chunks c :
  all_line_chunks min_words SPACY_AVAILABLE nlp lcs = Some chunks →
  c ∈ chunks → key_of c ∈ key_of_line <$> lcs.
Proof.
  revert chunks. induction lcs as [|lc rest IH]; simpl; intros chunks.
  - intros [= <-] H. by apply elem_of_nil in H.
  - destruct (if SPACY_AVAILABLE then _ else _) as [doc|]; [|discriminate].
    destruct (all_line_chunks _ _ _ rest) as [cr|]; [|discriminate]. simpl.
    intros [= <-] [H|H]%elem_of_app.
    + apply elem_of_cons. left. by eapply chunks_for_line_key.
    + apply elem_of_cons. right. by eapply IH.
Qed.

Lemma all_line_chunks_count lcs chunks lc :
  all_line_chunks min_words SPACY_AVAILABLE nlp lcs = Some chunks →
  NoDup (key_of_line <$> lcs) → lc ∈ lcs →
  line_to_count chunks (key_of_line lc) =
  length (chunks_for_line min_words lc (line_doc_for SPACY_AVAILABLE nlp lc)).
Proof.
  revert chunks. induction lcs as [|lc0 rest IH]; simpl; intros chunks.
  - intros _ _ H. by apply elem_of_nil in H.
  - destruct (if SPACY_AVAILABLE then _ else _) as [doc|] eqn:Hdoc; [|discriminate].
    destruct (all_line_chunks _ _ _ rest) as [cr|] eqn:Hrest; [|discriminate].
    simpl. intros [= <-] Hnd Hin.
    apply NoDup_cons in Hnd as [Hfresh Hnd].
    rewrite line_to_count_app.
    assert (Hdoc' : doc = line_doc_for SPACY_AVAILABLE nlp lc0).
    { unfold line_doc_for. destruct SPACY_AVAILABLE.
      - destruct (nlp _); simpl in Hdoc; by inversion Hdoc.
      - by inversion Hdoc. }
    apply elem_of_cons in Hin as [->|Hin].
    + rewrite (line_to_count_all (chunks_for_line _ _ _)),
        (line_to_count_none cr), Hdoc'; [lia| |].
      * intros c Hc Hk. apply Hfresh. rewrite <- Hk.
        by eapply all_line_chunks_keys.
      * intros c Hc. by eapply chunks_for_line_key.
    + rewrite (line_to_count_none (chunks_for_line _ _ _)), (IH cr); try done.
      intros c Hc Hk. apply Hfresh.
      apply chunks_for_line_key in Hc. rewrite <- Hc, Hk.
      by apply list_elem_of_fmap_2.
Qed.

End FragmentChunker_totals.

(** C7 fails for phrase chunks: the Hamlet line is split into three
    phrases, of which the first has two words and yields no chunk; the two
    chunks created carry [total_phrases_in_line = 3]. *)
Lemma total_phrases_is_not_the_chunk_count :
  ¬ (∀ c, c ∈ PhraseChunker.chunk_from_line_chunks false (λ _, None)
                [PhraseChunker.hamlet_line] →
          PhraseChunker.total_phrases_in_line c =
          length (PhraseChunker.chunk_from_line_chunks false (λ _, None)
                    [PhraseChunker.hamlet_line])).
Proof.
  intros H.
  specialize (H (PhraseChunker.mk_chunk "phrase_chunk_1_1" "chunk_1"
                   "THE TRAGEDY OF HAMLET, PRINCE OF DENMARK" (Some 1%Z)
                   (Some "III") (Some "I") "or not to be" (2, 5)%Z 4
                   [""; ""; ""; ""] "neutral" 4 1 3 true)).
  assert (Hin : PhraseChunker.mk_chunk "phrase_chunk_1_1" "chunk_1"
                   "THE TRAGEDY OF HAMLET, PRINCE OF DENMARK" (Some 1%Z)
                   (Some "III") (Some "I") "or not to be" (2, 5)%Z 4
                   [""; ""; ""; ""] "neutral" 4 1 3 true
                ∈ PhraseChunker.chunk_from_line_chunks false (λ _, None)
                    [PhraseChunker.hamlet_line]).
  { vm_compute. left. }
  specialize (H Hin). vm_compute in H. discriminate.
Qed.

(** C7, as the code has it.  Every phrase chunk of a line carries in
    [total_phrases_in_line] the number of phrases the text of the line was
    split into, which is at least the number of phrase chunks created for
    the line.  Every fragment chunk returned by the fragment chunker
    carries in [total_fragments_in_line] the number of returned fragment
    chunks with its own (title, act, scene, line); when the line chunks
    have pairwise different (title, act, scene, line), this is the number
    of fragment chunks created for its parent line. *)
Theorem totals_in_line
    (SPACY_AVAILABLE : bool) (nlp : string → option Chunking.Doc)
    (min_words : nat) :
  (∀ lc c,
     c ∈ PhraseChunker.chunks_for_line SPACY_AVAILABLE nlp lc →
     PhraseChunker.total_phrases_in_line c =
       length (PhraseChunker.final_phrases
                 (Chunking._normalize_quotes (Chunking.lc_text lc))) ∧
     (length (PhraseChunker.chunks_for_line SPACY_AVAILABLE nlp lc) ≤
      length (PhraseChunker.final_phrases
                (Chunking._normalize_quotes (Chunking.lc_text lc))))%nat) ∧
  (∀ lcs chunks c,
     FragmentChunker.chunk_from_line_chunks min_words SPACY_AVAILABLE nlp lcs
       = Some chunks →
     c ∈ chunks →
     FragmentChunker.total_fragments_in_line c =
       Some (FragmentChunker.line_to_count chunks (FragmentChunker.key_of c)) ∧
     (NoDup (FragmentChunker.key_of_line <$> lcs) →
      ∀ lc, lc ∈ lcs →
        FragmentChunker.key_of c = FragmentChunker.key_of_line lc →
        FragmentChunker.total_fragments_in_line c =
          Some (length (FragmentChunker.chunks_for_line min_words lc
                          (FragmentChunker.line_doc_for SPACY_AVAILABLE nlp lc))))).
Proof.
  split.
  - intros lc c Hc. split.
    + by eapply phrase_loop_total.
    + apply phrase_loop_length.
  - intros lcs chunks c Hrun Hc.
    unfold FragmentChunker.chunk_from_line_chunks in Hrun.
    destruct (FragmentChunker.all_line_chunks _ _ _ lcs) as [raw|] eqn:Hraw;
      [|discriminate].
    injection Hrun as <-.
    pose proof (update_totals_total _ _ Hc) as Htot. split; [done|].
    intros Hnd lc Hlc Hkey.
    rewrite Htot, line_to_count_update_totals, Hkey.
    f_equal. by eapply all_line_chunks_count.
Qed.

Lemma totals_in_line_witness :
  let lcs := [PhraseChunker.hamlet_line] in
  (∀ c, c ∈ PhraseChunker.chunks_for_line false (λ _, None)
              PhraseChunker.hamlet_line →
        PhraseChunker.total_phrases_in_line c = 3%nat) ∧
  (∀ c, c ∈ default [] (FragmentChunker.chunk_from_line_chunks 3 false
                          (λ _, None) lcs) →
        FragmentChunker.total_fragments_in_line c = Some 2%nat).
Proof.
  intros lcs.
  destruct (totals_in_line false (λ _, None) 3) as [Hphrase Hfragment].
  split.
  - intros c Hc. destruct (Hphrase _ _ Hc) as [-> _]. vm_compute. reflexivity.
  - intros c.
    destruct (FragmentChunker.chunk_from_line_chunks 3 false (λ _, None) lcs)
      as [chunks|] eqn:Hrun; [|intros Hc; by apply elem_of_nil in Hc].
    intros Hc. cbn [default from_option id] in Hc.
    destruct (Hfragment lcs chunks c Hrun Hc) as [_ Hcount].
    rewrite (Hcount (NoDup_singleton _) PhraseChunker.hamlet_line).
    + vm_compute. reflexivity.
    + apply list_elem_of_singleton. reflexivity.
    + pose proof Hrun as Hrun'. vm_compute in Hrun'.
      injection Hrun' as <-.
      repeat (apply elem_of_cons in Hc as [->|Hc]; [vm_compute; reflexivity|]).
      by apply elem_of_nil in Hc.
Defined.



Section Selector_properties.
Import Types Selector.
Context {F : Type}
        (flt fgt : F → F → bool)
        (fadd fsub fmul : F → F → F)
        (fdiv : F → F → option F)
        (float_of_nat : nat → F)
        (zero one neg_inf : F).

Local Abbreviation candidate := (CandidateQuote F).
Local Abbreviation R := (@same_text_and_score F).
Local Abbreviation mmr := (mmr_score fgt fadd fsub fmul fdiv float_of_nat zero one).
Local Abbreviation sel := (select_loop fgt fadd fsub fmul fdiv float_of_nat zero one).
Local Abbreviation selects :=
  (selects_by_mmr fgt fadd fsub fmul fdiv float_of_nat zero one neg_inf).
Local Abbreviation ascending :=
  (λ a b : candidate, flt (score b) (score a) = false).

Lemma insert_by_score_related (a b : candidate) l1 l2 :
  R a b → Forall2 R l1 l2 →
  Forall2 R (insert_by_score flt a l1) (insert_by_score flt b l2).
Proof.
  intros Hab H. induction H as [|x y l1 l2 Hxy H IH]; simpl.
  - constructor; [done | constructor].
  - pose proof Hab as [Ht Hs]. pose proof Hxy as [Ht' Hs']. rewrite Hs, Hs'.
    destruct (flt (score y) (score b)).
    + constructor; [done | apply IH].
    + constructor; [done|]. by constructor.
Qed.

Lemma sorted_by_score_related (l1 l2 : list candidate) :
  Forall2 R l1 l2 →
  Forall2 R (sorted_by_score flt l1) (sorted_by_score flt l2).
Proof.
  induction 1; simpl; [constructor | by apply insert_by_score_related].
Qed.

Lemma max_similarity_loop_related t (r1 r2 : list candidate) m :
  Forall2 R r1 r2 →
  max_similarity_loop fgt fdiv float_of_nat zero t r1 m =
  max_similarity_loop fgt fdiv float_of_nat zero t r2 m.
Proof.
  intros H. revert m. induction H as [|x y r1 r2 [Ht _] H IH]; intros m; simpl.
  - done.
  - rewrite Ht. destruct (compute_similarity _ _ _ _ _); [apply IH | done].
Qed.

Lemma mmr_score_related lam (r1 r2 : list candidate) (a b : candidate) :
  Forall2 R r1 r2 → R a b → mmr lam r1 a = mmr lam r2 b.
Proof.
  intros Hr [Ht Hs]. unfold mmr_score. rewrite Hs, Ht.
  by rewrite (max_similarity_loop_related _ _ _ _ Hr).
Qed.

Lemma select_loop_related lam (r1 r2 l1 l2 : list candidate) :
  Forall2 R r1 r2 → Forall2 R l1 l2 →
  ∀ i m idx, sel lam r1 i l1 m idx = sel lam r2 i l2 m idx.
Proof.
  intros Hr H. induction H as [|x y l1 l2 Hxy H IH]; intros i m idx; simpl.
  - done.
  - rewrite (mmr_score_related lam _ _ _ _ Hr Hxy).
    destruct (mmr lam r2 y) as [s|]; [|done].
    destruct (fgt s m); apply IH.
Qed.

Lemma Forall2_delete_related (l1 l2 : list candidate) i :
  Forall2 R l1 l2 → Forall2 R (delete i l1) (delete i l2).
Proof. apply Forall2_delete. Qed.

Lemma mmr_loop_related fuel lam total :
  ∀ (r1 r2 l1 l2 : list candidate),
    Forall2 R r1 r2 → Forall2 R l1 l2 →
    option_Forall2 (Forall2 R)
      (mmr_loop fgt fadd fsub fmul fdiv float_of_nat zero one neg_inf
         fuel lam total r1 l1)
      (mmr_loop fgt fadd fsub fmul fdiv float_of_nat zero one neg_inf
         fuel lam total r2 l2).
Proof.
  induction fuel as [|fuel IH]; intros r1 r2 l1 l2 Hr Hl; simpl.
  - by constructor.
  - destruct Hl as [|x y l1 l2 Hxy Hl]; [by constructor|].
    rewrite (Forall2_length _ _ _ Hr).
    destruct (negb _); [by constructor|].
    assert (Hall : Forall2 R (x :: l1) (y :: l2)) by by constructor.
    unfold select_best.
    rewrite (select_loop_related lam r1 r2 (x :: l1) (y :: l2) Hr Hall).
    destruct (sel lam r2 0 (y :: l2) neg_inf None) as [[i|]|];
      try by constructor.
    destruct (proj1 (Forall2_lookup _ _ _) Hall i) as [a b Hab| ];
      [|by constructor].
    apply IH.
    + apply Forall2_app; [done|]. constructor; [done | constructor].
    + by apply Forall2_delete.
Qed.

Lemma rank_candidates_related mmr_lambda lp (l1 l2 : list candidate) :
  Forall2 R l1 l2 →
  option_Forall2 (Forall2 R)
    (rank_candidates flt fgt fadd fsub fmul fdiv float_of_nat zero one neg_inf
       mmr_lambda l1 lp)
    (rank_candidates flt fgt fadd fsub fmul fdiv float_of_nat zero one neg_inf
       mmr_lambda l2 lp).
Proof.
  intros H. unfold rank_candidates.
  destruct H as [|x y l1 l2 Hxy H]; [constructor; constructor|].
  assert (Hs : Forall2 R (sorted_by_score flt (x :: l1))
                         (sorted_by_score flt (y :: l2))).
  { apply sorted_by_score_related. by constructor. }
  rewrite (Forall2_length _ _ _ Hs).
  destruct (_ <=? 1)%nat; [by constructor|].
  destruct Hs as [|a b s1 s2 Hab Hs]; [constructor; constructor|].
  rewrite (Forall2_length _ _ _ Hs).
  apply mmr_loop_related; [|done]. constructor; [done | constructor].
Qed.

Lemma strict_weak_order_irrefl (lt : F → F → bool) a :
  strict_weak_order lt → lt a a = false.
Proof.
  intros [Hasym _]. destruct (lt a a) eqn:E; [|done].
  by rewrite (Hasym _ _ E) in E.
Qed.

Lemma strict_weak_order_trans (lt : F → F → bool) a b c :
  strict_weak_order lt → lt a b = true → lt b c = true → lt a c = true.
Proof.
  intros [Hasym Hneg] Hab Hbc.
  destruct (Hneg _ c _ Hab) as [H|H]; [done|].
  by rewrite (Hasym _ _ Hbc) in H.
Qed.

Lemma insert_by_score_perm (c : candidate) l : insert_by_score flt c l ≡ₚ c :: l.
Proof.
  induction l as [|d l IH]; simpl; [done|].
  destruct (flt _ _); [|done]. rewrite IH. apply Permutation_swap.
Qed.

Lemma sorted_by_score_perm (l : list candidate) : sorted_by_score flt l ≡ₚ l.
Proof.
  induction l as [|c l IH]; simpl; [done|].
  by rewrite insert_by_score_perm, IH.
Qed.

Section Sorting.
Hypothesis flt_order : strict_weak_order flt.

Lemma tied_refl (x : candidate) : tied flt x x = true.
Proof.
  unfold tied. by rewrite (strict_weak_order_irrefl flt _ flt_order).
Qed.

(** A candidate that ties with [x] is below what [x] is below. *)
Lemma tied_not_between (x c d : candidate) :
  flt (score d) (score c) = true → tied flt x c = true → tied flt x d = false.
Proof.
  destruct flt_order as [Hasym Hneg].
  unfold tied. intros Hdc [Hxc Hcx]%andb_true_iff.
  apply negb_true_iff in Hxc, Hcx.
  destruct (Hneg _ (score x) _ Hdc) as [H|H]; [|congruence].
  by rewrite H, andb_false_r.
Qed.

Lemma insert_by_score_sorted (c : candidate) l :
  StronglySorted ascending l → StronglySorted ascending (insert_by_score flt c l).
Proof.
  destruct flt_order as [Hasym Hneg].
  induction 1 as [|d tl Hs IH Hd]; simpl.
  - constructor; [constructor | constructor].
  - destruct (flt (score d) (score c)) eqn:Hdc.
    + constructor; [done|].
      rewrite insert_by_score_perm. constructor; [by apply Hasym | done].
    + constructor; [by constructor|].
      constructor; [done|].
      rewrite Forall_forall in Hd |- *. intros x Hx.
      destruct (flt (score x) (score c)) eqn:E; [|done].
      destruct (Hneg _ (score d) _ E) as [H|H]; [|congruence].
      by rewrite (Hd x Hx) in H.
Qed.

Lemma sorted_by_score_sorted (l : list candidate) :
  StronglySorted ascending (sorted_by_score flt l).
Proof.
  induction l as [|c l IH]; simpl; [constructor | by apply insert_by_score_sorted].
Qed.

Lemma insert_by_score_stable (x c : candidate) l :
  List.filter (tied flt x) (insert_by_score flt c l)
  = List.filter (tied flt x) (c :: l).
Proof.
  induction l as [|d tl IH]; [done|].
  cbn [insert_by_score].
  destruct (flt (score d) (score c)) eqn:Hdc; [|done].
  cbn [List.filter] in *. rewrite IH.
  destruct (tied flt x c) eqn:Hc; [|done].
  by rewrite (tied_not_between x c d Hdc Hc).
Qed.

Lemma sorted_by_score_stable (x : candidate) l :
  List.filter (tied flt x) (sorted_by_score flt l) = List.filter (tied flt x) l.
Proof.
  induction l as [|c l IH]; [done|].
  cbn [sorted_by_score]. rewrite insert_by_score_stable.
  cbn [List.filter]. by rewrite IH.
Qed.

Lemma sorted_by_score_stable_sort (l : list candidate) :
  stable_sort_by_score flt l (sorted_by_score flt l).
Proof.
  split; [apply sorted_by_score_perm|].
  split; [apply sorted_by_score_sorted|].
  intros x. apply sorted_by_score_stable.
Qed.

(** Two sorted lists with the same candidates, in the same order, on
    every level of score are the same list. *)
Lemma sorted_levels_unique (p1 : list candidate) : ∀ p2,
  StronglySorted ascending p1 → StronglySorted ascending p2 →
  (∀ x, List.filter (tied flt x) p1 = List.filter (tied flt x) p2) →
  p1 = p2.
Proof.
  induction p1 as [|h1 t1 IH]; intros p2 Hs1 Hs2 Hlev.
  - destruct p2 as [|h2 t2]; [done|].
    specialize (Hlev h2). cbn [List.filter] in Hlev.
    by rewrite tied_refl in Hlev.
  - destruct p2 as [|h2 t2].
    { specialize (Hlev h1). cbn [List.filter] in Hlev.
      by rewrite tied_refl in Hlev. }
    apply StronglySorted_inv in Hs1 as [Hs1 Hh1].
    apply StronglySorted_inv in Hs2 as [Hs2 Hh2].
    rewrite Forall_forall in Hh1, Hh2.
    assert (Hin12 : h1 ∈ h2 :: t2).
    { assert (H : In h1 (List.filter (tied flt h1) (h2 :: t2))).
      { rewrite <- Hlev. cbn [List.filter]. rewrite tied_refl. by left. }
      apply filter_In in H as [H _].
      by apply list_elem_of_In. }
    assert (Hin21 : h2 ∈ h1 :: t1).
    { assert (H : In h2 (List.filter (tied flt h2) (h1 :: t1))).
      { rewrite Hlev. cbn [List.filter]. rewrite tied_refl. by left. }
      apply filter_In in H as [H _].
      by apply list_elem_of_In. }
    assert (H12 : flt (score h1) (score h2) = false).
    { apply elem_of_cons in Hin12 as [->|H].
      - by apply strict_weak_order_irrefl.
      - by apply Hh2. }
    assert (H21 : flt (score h2) (score h1) = false).
    { apply elem_of_cons in Hin21 as [->|H].
      - by apply strict_weak_order_irrefl.
      - by apply Hh1. }
    assert (Hhead : h1 = h2).
    { pose proof (Hlev h1) as H. cbn [List.filter] in H.
      rewrite tied_refl in H.
      assert (Ht : tied flt h1 h2 = true).
      { unfold tied. by rewrite H12, H21. }
      rewrite Ht in H. by injection H. }
    subst h2. f_equal. apply IH; [done | done |].
    intros x. specialize (Hlev x). cbn [List.filter] in Hlev.
    destruct (tied flt x h1); [by injection Hlev | done].
Qed.

Lemma stable_sort_by_score_unique (candidates p1 p2 : list candidate) :
  stable_sort_by_score flt candidates p1 →
  stable_sort_by_score flt candidates p2 → p1 = p2.
Proof.
  intros (_ & Hs1 & Hl1) (_ & Hs2 & Hl2).
  apply sorted_levels_unique; [done | done |].
  intros x. by rewrite Hl1, Hl2.
Qed.

End Sorting.

Section Selecting.
Hypothesis fgt_order : strict_weak_order fgt.

(** What the loop over the pool returns: the index it started with, when
    no score exceeds the running maximum; otherwise the first index of
    the pool whose score no score of the pool exceeds. *)
Lemma select_loop_first_maximal lam ranked (rem : list candidate) :
  ∀ i0 m0 idx0 res,
    sel lam ranked i0 rem m0 idx0 = Some res →
    (res = idx0 ∧
     ∀ j c' m', rem !! j = Some c' → mmr lam ranked c' = Some m' →
                fgt m' m0 = false) ∨
    (∃ k c m, res = Some (i0 + k)%nat ∧ rem !! k = Some c ∧
       mmr lam ranked c = Some m ∧ fgt m m0 = true ∧
       ∀ j c' m', rem !! j = Some c' → mmr lam ranked c' = Some m' →
                  fgt m' m = false ∧ ((j < k)%nat → fgt m m' = true)).
Proof.
  pose proof fgt_order as [Hasym Hneg].
  induction rem as [|c tl IH]; intros i0 m0 idx0 res; simpl.
  - intros [= <-]. left. split; [done|].
    intros j c' m' H. by rewrite lookup_nil in H.
  - destruct (mmr lam ranked c) as [m|] eqn:Hm; [|discriminate].
    destruct (fgt m m0) eqn:Hgt; intros Hrun;
      destruct (IH _ _ _ _ Hrun)
        as [[-> Hall]|(k & c1 & m1 & -> & Hk & Hm1 & Hgt1 & Hall)].
    + right. exists 0%nat, c, m. rewrite Nat.add_0_r.
      split; [done|]. split; [done|]. split; [done|]. split; [done|].
      intros [|j] c' m' Hj Hm'; simpl in Hj.
      * assert (m' = m) as -> by congruence.
        split; [by apply strict_weak_order_irrefl | lia].
      * split; [by eapply Hall | lia].
    + right. exists (S k), c1, m1.
      replace (i0 + S k)%nat with (S i0 + k)%nat by lia.
      split; [done|]. split; [done|]. split; [done|].
      split; [by eapply strict_weak_order_trans|].
      intros [|j] c' m' Hj Hm'; simpl in Hj.
      * assert (m' = m) as -> by congruence.
        split; [by apply Hasym | done].
      * destruct (Hall _ _ _ Hj Hm') as [H1 H2].
        split; [done|]. intros Hlt. apply H2. lia.
    + left. split; [done|].
      intros [|j] c' m' Hj Hm'; simpl in Hj.
      * congruence.
      * by eapply Hall.
    + right. exists (S k), c1, m1.
      replace (i0 + S k)%nat with (S i0 + k)%nat by lia.
      assert (Hm1m : fgt m1 m = true).
      { destruct (Hneg _ m _ Hgt1) as [H|H]; [done | congruence]. }
      split; [done|]. split; [done|]. split; [done|]. split; [done|].
      intros [|j] c' m' Hj Hm'; simpl in Hj.
      * assert (m' = m) as -> by congruence.
        split; [by apply Hasym | done].
      * destruct (Hall _ _ _ Hj Hm') as [H1 H2].
        split; [done|]. intros Hlt. apply H2. lia.
Qed.

(** The loop of [rank_candidates] selects as [selects_by_mmr] says. *)
Lemma mmr_loop_selects fuel lam total :
  ∀ (ranked remaining res : list candidate),
    (length remaining ≤ fuel)%nat →
    (length ranked + length remaining ≤ total)%nat →
    mmr_loop fgt fadd fsub fmul fdiv float_of_nat zero one neg_inf
      fuel lam total ranked remaining = Some res →
    selects lam ranked remaining res.
Proof.
  induction fuel as [|fuel IH]; intros ranked remaining res Hfuel Htotal; simpl.
  - destruct remaining; [|simpl in Hfuel; lia]. intros [= <-]. constructor.
  - destruct remaining as [|c tl].
    { intros [= <-]. constructor. }
    destruct (length ranked <? total)%nat eqn:Hlt; cbn [negb].
    2:{ apply Nat.ltb_ge in Hlt. simpl in Htotal. lia. }
    unfold select_best.
    destruct (sel lam ranked 0 (c :: tl) neg_inf None) as [best|] eqn:Hbest;
      [|discriminate].
    destruct (select_loop_first_maximal _ _ _ _ _ _ _ Hbest)
      as [[-> Hall]|(k & chosen & m & -> & Hk & Hm & Hgt & Hall)].
    + intros [= <-]. apply selects_none.
      intros c' m' [j Hj]%list_elem_of_lookup Hm'. by eapply Hall.
    + cbn [Nat.add]. rewrite Hk. intros Hrun.
      assert (Hdel : length (delete k (c :: tl)) = length tl).
      { rewrite length_delete; [|by eexists]. simpl. lia. }
      eapply selects_step; [exact Hk | exact Hm | exact Hgt | exact Hall |].
      apply IH; [| |exact Hrun].
      * rewrite Hdel. simpl in Hfuel. lia.
      * rewrite length_app, Hdel. simpl in *. lia.
Qed.

(** No other list is reached from the same ranking and pool. *)
Lemma mmr_loop_selects_unique fuel lam total :
  ∀ (ranked remaining res res' : list candidate),
    (length remaining ≤ fuel)%nat →
    (length ranked + length remaining ≤ total)%nat →
    mmr_loop fgt fadd fsub fmul fdiv float_of_nat zero one neg_inf
      fuel lam total ranked remaining = Some res →
    selects lam ranked remaining res' → res' = res.
Proof.
  pose proof fgt_order as [Hasym Hneg].
  induction fuel as [|fuel IH]; intros ranked remaining res res' Hfuel Htotal; simpl.
  - destruct remaining; [|simpl in Hfuel; lia]. intros [= <-] Hsel.
    inversion Hsel as [| |? ? i chosen m ? Hi]; subst; [done | done |].
    by rewrite lookup_nil in Hi.
  - destruct remaining as [|c tl].
    { intros [= <-] Hsel.
      inversion Hsel as [| |? ? i chosen m ? Hi]; subst; [done | done |].
      by rewrite lookup_nil in Hi. }
    destruct (length ranked <? total)%nat eqn:Hlt; cbn [negb].
    2:{ apply Nat.ltb_ge in Hlt. simpl in Htotal. lia. }
    unfold select_best.
    destruct (sel lam ranked 0 (c :: tl) neg_inf None) as [best|] eqn:Hbest;
      [|discriminate].
    destruct (select_loop_first_maximal _ _ _ _ _ _ _ Hbest)
      as [[-> Hall]|(k & chosen & m & -> & Hk & Hm & Hgt & Hall)].
    + intros [= <-] Hsel.
      inversion Hsel as [|? ? Hnone|? ? i ch' m' ? Hi Hm' Hgt' Hall' Hrest];
        subst; [done|].
      rewrite (Hall _ _ _ Hi Hm') in Hgt'. discriminate.
    + cbn [Nat.add]. rewrite Hk. intros Hrun Hsel.
      assert (Hdel : length (delete k (c :: tl)) = length tl).
      { rewrite length_delete; [|by eexists]. simpl. lia. }
      inversion Hsel as [|? ? Hnone|? ? i ch' m' ? Hi Hm' Hgt' Hall' Hrest];
        subst.
      * assert (Hin : chosen ∈ c :: tl) by by eapply list_elem_of_lookup_2.
        rewrite (Hnone _ _ Hin Hm) in Hgt. discriminate.
      * assert (i = k) as ->.
        { destruct (lt_eq_lt_dec i k) as [[Hlt'|Heq]|Hlt']; [|done|].
          - destruct (Hall _ _ _ Hi Hm') as [_ H]. specialize (H Hlt').
            destruct (Hall' _ _ _ Hk Hm) as [H' _]. congruence.
          - destruct (Hall' _ _ _ Hk Hm) as [_ H]. specialize (H Hlt').
            destruct (Hall _ _ _ Hi Hm') as [H' _]. congruence. }
        assert (ch' = chosen) as -> by congruence.
        eapply IH; [| |exact Hrun|exact Hrest].
        -- rewrite Hdel. simpl in Hfuel. lia.
        -- rewrite length_app, Hdel. simpl in *. lia.
Qed.

End Selecting.

(** [rank_candidates] returns the one list that [selects_by_mmr] reaches
    from the head of the sorted candidates. *)
Lemma rank_candidates_order mmr_lambda lambda_param
    (candidates res : list candidate) :
  strict_weak_order fgt →
  rank_candidates flt fgt fadd fsub fmul fdiv float_of_nat zero one neg_inf
    mmr_lambda candidates lambda_param = Some res →
  let pool := sorted_by_score flt candidates in
  selects (default mmr_lambda lambda_param) (take 1 pool) (drop 1 pool) res ∧
  ∀ res', selects (default mmr_lambda lambda_param) (take 1 pool) (drop 1 pool) res' →
          res' = res.
Proof.
  intros Hgt. unfold rank_candidates.
  destruct candidates as [|c0 cs].
  { intros [= <-]. cbn. split; [constructor|].
    intros res' Hsel.
    inversion Hsel as [| |? ? i chosen m ? Hi]; subst; [done | done |].
    by rewrite lookup_nil in Hi. }
  set (sorted := sorted_by_score flt (c0 :: cs)).
  destruct (length sorted <=? 1)%nat eqn:Hlen.
  { apply Nat.leb_le in Hlen. intros [= <-]. cbn zeta.
    destruct sorted as [|x [|y tl]]; [| |simpl in Hlen; lia].
    - cbn. split; [constructor|]. intros res' Hsel.
      inversion Hsel as [| |? ? i chosen m ? Hi]; subst; [done | done |].
      by rewrite lookup_nil in Hi.
    - cbn. split; [constructor|]. intros res' Hsel.
      inversion Hsel as [| |? ? i chosen m ? Hi]; subst; [done | done |].
      by rewrite lookup_nil in Hi. }
  destruct sorted as [|first rest] eqn:Hs.
  { simpl in Hlen. discriminate. }
  intros Hrun. cbn zeta. cbn [take drop]. rewrite take_0.
  assert (Hfuel : (length rest ≤ length rest)%nat) by lia.
  assert (Htotal : (length [first] + length rest ≤ length (first :: rest))%nat)
    by (simpl; lia).
  split.
  - exact (mmr_loop_selects Hgt _ _ _ _ _ _ Hfuel Htotal Hrun).
  - intros res' Hsel.
    exact (mmr_loop_selects_unique Hgt _ _ _ _ _ _ _ Hfuel Htotal Hrun Hsel).
Qed.

(** The loop never stops for want of fuel. *)
Lemma mmr_loop_fuel lam total fuel :
  ∀ (ranked remaining : list candidate),
    (length remaining ≤ fuel)%nat →
    mmr_loop fgt fadd fsub fmul fdiv float_of_nat zero one neg_inf
      fuel lam total ranked remaining =
    mmr_loop fgt fadd fsub fmul fdiv float_of_nat zero one neg_inf
      (length remaining) lam total ranked remaining.
Proof.
  induction fuel as [|fuel IH]; intros ranked remaining Hlen.
  - destruct remaining; [done | simpl in Hlen; lia].
  - destruct remaining as [|c tl]; [done|].
    cbn [mmr_loop length].
    destruct (negb _); [done|].
    destruct (select_best _ _ _ _ _ _ _ _ _ _ _ _) as [[i|]|]; try done.
    destruct ((c :: tl) !! i) as [chosen|] eqn:Hi; [|done].
    assert (Hdel : length (delete i (c :: tl)) = length tl).
    { rewrite length_delete; [|by eexists]. simpl. lia. }
    rewrite IH by (simpl in Hlen; lia).
    by rewrite Hdel.
Qed.

End Selector_properties.


(** C6.  [rank_candidates] is a function of the texts and scores of the
    candidates, in their order, and of lambda, and the order of what it
    returns is fixed by the scores alone.  Two runs on candidate lists
    with the same texts and scores in the same order raise together or
    return lists with the same texts and scores in the same order.  When
    a run returns [res]: the pool it ranks is the stable ascending sort
    of the candidates by score; [res] starts with the head of the pool,
    and every further candidate is the one at the first position of what
    is left of the pool whose MMR score no other exceeds, so that ties
    go to the candidate earlier in the pool; and no other pool and no
    other result fit this description.  The comparisons [<] and [>] of
    floats are required to be strict weak orders. *)
Theorem rank_candidates_deterministic
    {F : Type} (flt fgt : F → F → bool) (fadd fsub fmul : F → F → F)
    (fdiv : F → F → option F) (float_of_nat : nat → F) (zero one neg_inf : F) :
  Selector.strict_weak_order flt →
  Selector.strict_weak_order fgt →
  (∀ mmr_lambda lambda_param (l1 l2 : list (Types.CandidateQuote F)),
     Forall2 Selector.same_text_and_score l1 l2 →
     option_Forall2 (Forall2 Selector.same_text_and_score)
       (Selector.rank_candidates flt fgt fadd fsub fmul fdiv float_of_nat
          zero one neg_inf mmr_lambda l1 lambda_param)
       (Selector.rank_candidates flt fgt fadd fsub fmul fdiv float_of_nat
          zero one neg_inf mmr_lambda l2 lambda_param)) ∧
  (∀ mmr_lambda lambda_param (candidates res : list (Types.CandidateQuote F)),
     Selector.rank_candidates flt fgt fadd fsub fmul fdiv float_of_nat
       zero one neg_inf mmr_lambda candidates lambda_param = Some res →
     let pool := Selector.sorted_by_score flt candidates in
     let selects :=
       Selector.selects_by_mmr fgt fadd fsub fmul fdiv float_of_nat zero one
         neg_inf (default mmr_lambda lambda_param) in
     Selector.stable_sort_by_score flt candidates pool ∧
     selects (take 1 pool) (drop 1 pool) res ∧
     ∀ pool' res',
       Selector.stable_sort_by_score flt candidates pool' →
       selects (take 1 pool') (drop 1 pool') res' →
       pool' = pool ∧ res' = res).
Proof.
  intros Hlt Hgt. split.
  - intros mmr_lambda lp l1 l2. apply rank_candidates_related.
  - intros mmr_lambda lp candidates res Hrun pool selects.
    pose proof (sorted_by_score_stable_sort flt Hlt candidates) as Hsort.
    destruct (rank_candidates_order flt fgt fadd fsub fmul fdiv float_of_nat
                zero one neg_inf mmr_lambda lp candidates res Hgt Hrun)
      as [Hsel Hone].
    split; [exact Hsort|]. split; [exact Hsel|].
    intros pool' res' Hsort' Hsel'.
    assert (pool' = pool) as ->
      by exact (stable_sort_by_score_unique flt Hlt _ _ _ Hsort' Hsort).
    split; [reflexivity | by apply Hone].
Qed.

Lemma xlt_asym a b : Selector.xlt a b = true → Selector.xlt b a = false.
Proof.
  destruct a as [|x], b as [|y]; simpl; try done.
  rewrite !negb_true_iff, negb_false_iff.
  intros H. apply Qle_bool_iff. apply not_true_iff_false in H.
  rewrite Qle_bool_iff in H. apply Qnot_le_lt in H. by apply Qlt_le_weak.
Qed.

Lemma xlt_negative_transitive a b c :
  Selector.xlt a c = true → Selector.xlt a b = true ∨ Selector.xlt b c = true.
Proof.
  destruct a as [|x], b as [|y], c as [|z]; simpl; try done; try (by left);
    try (by right).
  rewrite !negb_true_iff. intros H.
  apply not_true_iff_false in H. rewrite Qle_bool_iff in H. apply Qnot_le_lt in H.
  destruct (Qlt_le_dec x y) as [Hxy|Hyx].
  - left. apply not_true_iff_false. rewrite Qle_bool_iff. by apply Qlt_not_le.
  - right. apply not_true_iff_false. rewrite Qle_bool_iff. apply Qlt_not_le.
    by eapply Qle_lt_trans.
Qed.

Lemma xlt_strict_weak_order : Selector.strict_weak_order Selector.xlt.
Proof. split; [apply xlt_asym | apply xlt_negative_transitive]. Qed.

Lemma xgt_strict_weak_order : Selector.strict_weak_order Selector.xgt.
Proof.
  split.
  - intros a b. apply (xlt_asym b a).
  - intros a b c H.
    destruct (xlt_negative_transitive c b a H) as [H'|H']; [by right | by left].
Qed.

Lemma rank_candidates_deterministic_witness :
  let pool := Selector.sorted_by_score Selector.xlt Selector.example_candidates in
  let selects :=
    Selector.selects_by_mmr Selector.xgt (Selector.xlift Qplus)
      (Selector.xlift Qminus) (Selector.xlift Qmult) Selector.xdiv
      Selector.x_of_nat (Selector.Fin 0) (Selector.Fin 1) Selector.NegInf
      (Selector.Fin 1) in
  ∃ res,
    Selector.xrank (Selector.Fin 1) Selector.example_candidates None = Some res ∧
    Types.text <$> res = ["to be or not to be"; "not to be"; "the question";
                          "thou art a villain"] ∧
    Selector.stable_sort_by_score Selector.xlt Selector.example_candidates pool ∧
    selects (take 1 pool) (drop 1 pool) res ∧
    ∀ pool' res',
      Selector.stable_sort_by_score Selector.xlt Selector.example_candidates
        pool' →
      selects (take 1 pool') (drop 1 pool') res' →
      pool' = pool ∧ res' = res.
Proof.
  intros pool selects.
  destruct (Selector.xrank (Selector.Fin 1) Selector.example_candidates None)
    as [res|] eqn:Hrun; [|vm_compute in Hrun; discriminate].
  exists res. split; [reflexivity|].
  split.
  { pose proof Hrun as Hres. vm_compute in Hres. injection Hres as <-.
    reflexivity. }
  destruct (rank_candidates_deterministic Selector.xlt Selector.xgt
              (Selector.xlift Qplus) (Selector.xlift Qminus)
              (Selector.xlift Qmult) Selector.xdiv Selector.x_of_nat
              (Selector.Fin 0) (Selector.Fin 1) Selector.NegInf
              xlt_strict_weak_order xgt_strict_weak_order) as [_ Horder].
  exact (Horder (Selector.Fin 1) None Selector.example_candidates res Hrun).
Defined.

(** With lambda = 1 the three candidates of score 1/4 tie in every step;
    they come out in their order in the pool. *)
Example rank_ties_in_pool_order :
  fmap (M:=option) (fmap (M:=list) Types.text)
    (Selector.xrank (Selector.Fin 1) Selector.example_candidates None)
  = Some ["to be or not to be"; "not to be"; "the question";
          "thou art a villain"].
Proof. vm_compute. reflexivity. Qed.

Section UsedMap_properties.
Import UsedMap.

Lemma truthy_id_Some tid : tid ≠ "" → truthy_id (Some tid) = Some tid.
Proof. destruct tid; simpl; congruence. Qed.

Lemma truthy_id_inv o tid : truthy_id o = Some tid → o = Some tid ∧ tid ≠ "".
Proof.
  destruct o as [[|c id]|]; simpl; intros H; inversion H; subst.
  split; [reflexivity | discriminate].
Qed.

(** Marking in a session whose id is set makes the pair visible. *)
Lemma was_used_mark_used k r s tid :
  active_translation_id s = Some tid → tid ≠ "" →
  was_used k r (mark_used k r s) = true.
Proof.
  destruct s as [dir act maps]. simpl. intros -> Hne.
  destruct tid as [|c tid]; [done|].
  unfold was_used, mark_used. simpl.
  rewrite lookup_insert_eq. simpl. rewrite lookup_insert_eq. simpl.
  apply bool_decide_eq_true. set_solver.
Qed.

(** What [was_used] answers right after [load]: exactly what the ledger
    file of that session records. *)
Lemma was_used_load fs tid s k r :
  was_used k r (load fs tid s) = true → ledger_records fs s tid k r.
Proof.
  unfold was_used, load, ledger_records.
  destruct tid as [|c tid]; [discriminate|].
  cbn [active_translation_id used_maps truthy_id Py.is_empty].
  rewrite lookup_insert_eq.
  destruct (fs !! _get_filepath s (String c tid)) as [[data|]|] eqn:Hf;
    cbn [default from_option id].
  - rewrite lookup_fmap.
    destruct (data !! k) as [ranges|] eqn:Hk;
      cbn [default from_option id fmap option_fmap option_map].
    + intros H%bool_decide_eq_true.
      exists data, ranges. repeat split; try done.
      by apply elem_of_list_to_set in H.
    + intros H%bool_decide_eq_true. set_solver.
  - rewrite lookup_empty. intros H%bool_decide_eq_true. set_solver.
  - rewrite lookup_empty. intros H%bool_decide_eq_true. set_solver.
Qed.

Lemma load_missing_file fs tid s :
  fs !! _get_filepath s tid = None →
  used_maps (load fs tid s) !! tid = Some ∅ ∧
  active_translation_id (load fs tid s) = Some tid.
Proof.
  intros Hf. unfold load. simpl. rewrite Hf, lookup_insert_eq. done.
Qed.

Lemma mark_used_storage_dir k r s : storage_dir (mark_used k r s) = storage_dir s.
Proof. unfold mark_used. by destruct (truthy_id _). Qed.

(** C5.  Used-once guarantee.  In a session whose id [t1] is set, a pair
    marked with [mark_used] is reported by the next [was_used].  Loading
    afterwards a fresh session with a different id [t2], one whose ledger
    file does not record the pair, makes [was_used] answer false for the
    same key and range; when that ledger file does not exist, [load]
    starts the session with an empty map (and has no failing path). *)
Theorem UsedMap_used_once_guarantee
    (fs : filesystem) (s : t) (t1 t2 k : string) (r : context_range) :
  active_translation_id s = Some t1 → t1 ≠ "" → t2 ≠ t1 →
  ¬ ledger_records fs s t2 k r →
  was_used k r (mark_used k r s) = true ∧
  was_used k r (load fs t2 (mark_used k r s)) = false ∧
  (fs !! _get_filepath s t2 = None →
     used_maps (load fs t2 (mark_used k r s)) !! t2 = Some ∅ ∧
     active_translation_id (load fs t2 (mark_used k r s)) = Some t2).
Proof.
  intros Hact Hne Hdiff Hfresh. split; [|split].
  - by eapply was_used_mark_used.
  - destruct (was_used k r (load fs t2 (mark_used k r s))) eqn:Hw; [|done].
    apply was_used_load in Hw. exfalso. apply Hfresh.
    unfold ledger_records, _get_filepath in *.
    by rewrite mark_used_storage_dir in Hw.
  - intros Hf. apply load_missing_file.
    unfold _get_filepath in *. by rewrite mark_used_storage_dir.
Qed.

Lemma UsedMap_used_once_guarantee_witness :
  let fs : filesystem := ∅ in
  let s := load fs "t1" (init "data/used_maps/") in
  let r := RangeList [0; 1; 2]%Z in
  was_used "Hamlet|I|II|3" r (mark_used "Hamlet|I|II|3" r s) = true ∧
  was_used "Hamlet|I|II|3" r
    (load fs "t2" (mark_used "Hamlet|I|II|3" r s)) = false ∧
  (fs !! _get_filepath s "t2" = None →
     used_maps (load fs "t2" (mark_used "Hamlet|I|II|3" r s)) !! "t2" = Some ∅ ∧
     active_translation_id (load fs "t2" (mark_used "Hamlet|I|II|3" r s))
       = Some "t2").
Proof.
  intros fs s r.
  apply (UsedMap_used_once_guarantee fs s "t1" "t2" "Hamlet|I|II|3" r).
  - reflexivity.
  - discriminate.
  - discriminate.
  - intros (data & ranges & Hf & _). discriminate Hf.
Defined.

(** C10.  Before any session is loaded ([active_translation_id] is
    [None]) [mark_used] leaves the whole state as it is and [was_used]
    answers false, also right after a [mark_used] of the same pair; both
    return normally. *)
Theorem UsedMap_inert_before_load (k : string) (r : context_range) (s : t) :
  active_translation_id s = None →
  mark_used k r s = s ∧
  was_used k r s = false ∧
  was_used k r (mark_used k r s) = false.
Proof.
  destruct s as [dir act maps]. simpl. intros ->.
  unfold mark_used, was_used. simpl. done.
Qed.

Lemma UsedMap_inert_before_load_witness :
  let s := init "data/used_maps/" in
  let r := RangeList [0; 1; 2]%Z in
  mark_used "Hamlet|I|II|3" r s = s ∧
  was_used "Hamlet|I|II|3" r s = false ∧
  was_used "Hamlet|I|II|3" r (mark_used "Hamlet|I|II|3" r s) = false.
Proof.
  intros s r. apply (UsedMap_inert_before_load "Hamlet|I|II|3" r s).
  reflexivity.
Defined.

End UsedMap_properties.

Section TranslationManager_runs.
Import Types TranslationManager.
Context {F : Type}.

Local Abbreviation candidate := (CandidateQuote F).

Lemma runs_ret {A} (a : A) s : runs (ret a) s (Return a) s [].
Proof. unfold runs, ret. by rewrite app_nil_r. Qed.

Lemma runs_raise {A} e s : runs (@raise A e) s (Raise e) s [].
Proof. unfold runs, raise. by rewrite app_nil_r. Qed.

Lemma runs_call {A} (f : nat → outcome A) s :
  ∃ s', runs (call f) s (f (calls s)) s' [].
Proof. eexists. unfold runs, call. simpl. by rewrite app_nil_r. Qed.

Lemma runs_emit e s : ∃ s', runs (emit e) s (Return tt) s' [e].
Proof. eexists. unfold runs, emit. by simpl. Qed.

Lemma runs_mark_used k wi s :
  ∃ s', runs (mark_used k wi) s (Return tt) s' [Marked k wi].
Proof. eexists. unfold runs, mark_used. by simpl. Qed.

Lemma runs_save (c : @collaborators F) s : ∃ s', runs (save c) s (Return tt) s' [].
Proof. eexists. unfold runs, save. simpl. by rewrite app_nil_r. Qed.

Lemma runs_read_used_map s :
  runs (λ s0 : state, (Return (used_map s0), s0)) s (Return (used_map s)) s [].
Proof. unfold runs. by rewrite app_nil_r. Qed.

Lemma runs_bind_return {A B} (m : M A) (k : A → M B) s a s1 n1 r s2 n2 :
  runs m s (Return a) s1 n1 → runs (k a) s1 r s2 n2 →
  runs (bind m k) s r s2 (n1 ++ n2).
Proof.
  intros (Hm & Hl1 & Ht1) (Hk & Hl2 & Ht2). unfold runs, bind.
  rewrite Hm, Hk, Hl2, Hl1, Ht2, Ht1. by rewrite app_assoc.
Qed.

Lemma runs_bind_raise {A B} (m : M A) (k : A → M B) s e s1 n1 :
  runs m s (Raise e) s1 n1 → runs (bind m k) s (Raise e) s1 n1.
Proof. intros (Hm & Hl1 & Ht1). unfold runs, bind. by rewrite Hm. Qed.

Lemma runs_try_return {A} (m : M A) h s a s1 n1 :
  runs m s (Return a) s1 n1 → runs (try_except m h) s (Return a) s1 n1.
Proof. intros (Hm & Hl1 & Ht1). unfold runs, try_except. by rewrite Hm. Qed.

Lemma runs_try_raise {A} (m : M A) h s e s1 n1 r s2 n2 :
  runs m s (Raise e) s1 n1 → runs (h e) s1 r s2 n2 →
  runs (try_except m h) s r s2 (n1 ++ n2).
Proof.
  intros (Hm & Hl1 & Ht1) (Hk & Hl2 & Ht2). unfold runs, try_except.
  rewrite Hm, Hk, Hl2, Hl1, Ht2, Ht1. by rewrite app_assoc.
Qed.

Lemma runs_total {A} (m : M A) s r s' new new' :
  runs m s r s' new → new = new' → runs m s r s' new'.
Proof. by intros H <-. Qed.

Lemma always_ret {A} (a : A) (Q : outcome A → list event → Prop) :
  Q (Return a) [] → always (ret a) Q.
Proof. intros HQ s. exists (Return a), s, []. split; [apply runs_ret | done]. Qed.

Lemma always_raise {A} e (Q : outcome A → list event → Prop) :
  Q (Raise e) [] → always (raise e) Q.
Proof. intros HQ s. exists (Raise e), s, []. split; [apply runs_raise | done]. Qed.

Lemma always_call {A} (f : nat → outcome A) (Q : outcome A → list event → Prop) :
  (∀ r, Q r []) → always (call f) Q.
Proof.
  intros HQ s. destruct (runs_call f s) as [s' H]. by exists (f (calls s)), s', [].
Qed.

Lemma always_read_used_map (Q : outcome UsedMap.t → list event → Prop) :
  (∀ um, Q (Return um) []) →
  always (λ s0 : state, (Return (used_map s0), s0)) Q.
Proof.
  intros HQ s. exists (Return (used_map s)), s, [].
  split; [apply runs_read_used_map | done].
Qed.

Lemma always_emit e (Q : outcome unit → list event → Prop) :
  Q (Return tt) [e] → always (emit e) Q.
Proof. intros HQ s. destruct (runs_emit e s) as [s' H]. by exists (Return tt), s', [e]. Qed.

Lemma always_mark_used k wi (Q : outcome unit → list event → Prop) :
  Q (Return tt) [Marked k wi] → always (mark_used k wi) Q.
Proof.
  intros HQ s. destruct (runs_mark_used k wi s) as [s' H].
  by exists (Return tt), s', [Marked k wi].
Qed.

Lemma always_save (c : @collaborators F) (Q : outcome unit → list event → Prop) :
  Q (Return tt) [] → always (save c) Q.
Proof. intros HQ s. destruct (runs_save c s) as [s' H]. by exists (Return tt), s', []. Qed.

Lemma always_bind {A B} (m : M A) (k : A → M B)
    (Q1 : outcome A → list event → Prop) (Q : outcome B → list event → Prop) :
  always m Q1 →
  (∀ a n1, Q1 (Return a) n1 → always (k a) (λ r n2, Q r (n1 ++ n2))) →
  (∀ e n1, Q1 (Raise e) n1 → Q (Raise e) n1) →
  always (bind m k) Q.
Proof.
  intros Hm Hk He s. destruct (Hm s) as (r & s1 & n1 & H1 & HQ1).
  destruct r as [a|e].
  - destruct (Hk a n1 HQ1 s1) as (r2 & s2 & n2 & H2 & HQ2).
    exists r2, s2, (n1 ++ n2). split; [by eapply runs_bind_return | done].
  - exists (Raise e), s1, n1. split; [by eapply runs_bind_raise | by apply He].
Qed.

Lemma always_try {A} (m : M A) (h : exn → M A)
    (Q1 : outcome A → list event → Prop) (Q : outcome A → list event → Prop) :
  always m Q1 →
  (∀ a n1, Q1 (Return a) n1 → Q (Return a) n1) →
  (∀ e n1, Q1 (Raise e) n1 → always (h e) (λ r n2, Q r (n1 ++ n2))) →
  always (try_except m h) Q.
Proof.
  intros Hm Hr Hh s. destruct (Hm s) as (r & s1 & n1 & H1 & HQ1).
  destruct r as [a|e].
  - exists (Return a), s1, n1. split; [by eapply runs_try_return | by apply Hr].
  - destruct (Hh e n1 HQ1 s1) as (r2 & s2 & n2 & H2 & HQ2).
    exists r2, s2, (n1 ++ n2). split; [by eapply runs_try_raise | done].
Qed.

Lemma always_weaken {A} (m : M A) (Q1 Q : outcome A → list event → Prop) :
  always m Q1 → (∀ r n, Q1 r n → Q r n) → always m Q.
Proof.
  intros Hm HQ s. destruct (Hm s) as (r & s1 & n1 & H1 & HQ1).
  exists r, s1, n1. split; [done | by apply HQ].
Qed.

(** [_create_single_quote_result] returns the failsafe result of the quote
    and appends at most the mark of its reference. *)
Lemma create_single_always (c : @collaborators F) (quote : candidate) modern_line :
  always (_create_single_quote_result c quote modern_line)
    (λ r new,
       r = Return (Failsafe (text quote)
                     (result_reference "failsafe_1" (reference quote)) modern_line) ∧
       new = marks_failsafe (reference quote)).
Proof.
  unfold _create_single_quote_result, marks_failsafe.
  destruct (word_indices_failsafe (reference quote)) as [wi|].
  - eapply always_bind with (Q1 := λ r n, r = Return tt ∧ n = [Marked _ wi]).
    + eapply always_bind with (Q1 := λ r n, r = Return tt ∧ n = [Marked _ wi]).
      * by apply always_mark_used.
      * intros [] n1 [_ ->]. apply always_save. by rewrite app_nil_r.
      * intros e n1 [[=] _].
    + intros [] n1 [_ ->]. apply always_ret. by rewrite app_nil_r.
    + intros e n1 [[=] _].
  - eapply always_bind with (Q1 := λ r n, r = Return tt ∧ n = []).
    + by apply always_ret.
    + intros [] n1 [_ ->]. by apply always_ret.
    + intros e n1 [[=] _].
Qed.

Lemma failsafe_search_always (c : @collaborators F) modern_line :
  always (failsafe_search c modern_line) (@failsafe_outcome F modern_line).
Proof.
  unfold failsafe_search.
  eapply always_try with
    (Q1 := λ r n, @failsafe_outcome F modern_line r n ∨ (∃ e, r = Raise e) ∧ n = []).
  - eapply always_bind with (Q1 := λ r n, n = []).
    + by apply always_call.
    + intros results n1 ->.
      destruct (results !! "line") as [[|top tl]|].
      * apply always_ret. left. by left.
      * eapply always_bind; [apply create_single_always| |].
        -- intros r n1 [[= ->] ->]. apply always_ret. left. right.
           exists top. by rewrite app_nil_r.
        -- intros e n1 [[=] _].
      * apply always_ret. left. by left.
    + intros e n1 ->. right. split; [by eexists | done].
  - intros a n1 [H|[[e [=]] _]]. done.
  - intros e n1 [[[[=] _]|(q & [=] & _)]|[_ ->]].
    apply always_ret. by left.
Qed.

Lemma mark_references_always references :
  always (mark_references references)
    (λ r new, r = Return tt ∧ new = marks_main references).
Proof.
  induction references as [|ref tl IH].
  - by apply always_ret.
  - simpl. unfold marks_main. simpl.
    destruct (word_indices_main ref) as [wi|]; simpl.
    + eapply always_bind with (Q1 := λ r n, r = Return tt ∧ n = [Marked _ wi]).
      * by apply always_mark_used.
      * intros [] n1 [_ ->]. eapply always_weaken; [exact IH|].
        intros r n [-> ->]. done.
      * intros e n1 [[=] _].
    + eapply always_bind with (Q1 := λ r n, r = Return tt ∧ n = []).
      * by apply always_ret.
      * intros [] n1 [_ ->]. eapply always_weaken; [exact IH|].
        intros r n [-> ->]. done.
      * intros e n1 [[=] _].
Qed.

Lemma filter_marks_failsafe ref :
  filter is_mark (marks_failsafe ref) = marks_failsafe ref.
Proof. unfold marks_failsafe. by destruct (word_indices_failsafe ref). Qed.

Lemma filter_marks_main references :
  filter is_mark (marks_main references) = marks_main references.
Proof.
  unfold marks_main. induction references as [|ref tl IH]; [done|].
  cbn [omap list_omap]. destruct (word_indices_main ref) as [wi|];
    cbn [fmap option_fmap option_map]; [|done].
  rewrite filter_cons_True by done. by rewrite IH.
Qed.

Lemma failsafe_outcome_ends_well modern_line r before new :
  filter is_mark before = [] →
  @failsafe_outcome F modern_line r new →
  ∃ o, r = Return o ∧ @run_ends_well F (before ++ new) (Return o).
Proof.
  intros Hb [[-> ->]|(q & -> & ->)].
  - exists None. split; [done|]. simpl. by rewrite app_nil_r.
  - eexists. split; [done|]. simpl. exists q. repeat split.
    by rewrite filter_app, Hb, filter_marks_failsafe.
Qed.

Lemma main_steps_always (c : @collaborators F) recurse modern_line
    selector_results use_hybrid_search :
  always recurse (@main_outcome F) →
  always (main_steps c recurse modern_line selector_results use_hybrid_search)
    (@main_outcome F).
Proof.
  intros Hrec. unfold main_steps.
  eapply always_bind with (Q1 := λ r n, n = []);
    [by apply always_read_used_map | | by intros e n1 ->].
  intros um n0 ->. simpl.
  eapply always_bind with (Q1 := λ r n, n = []);
    [by apply always_call | | by intros e n1 ->].
  intros prepared n0 ->. simpl.
  eapply always_bind with (Q1 := λ r n, n = []); [| | by intros e n1 ->].
  { destruct (_ <? 3)%nat; [|by apply always_ret].
    eapply always_bind with (Q1 := λ r n, n = []); [| | by intros e n1 ->].
    - eapply always_try with (Q1 := λ r n, n = []).
      + eapply always_bind with (Q1 := λ r n, n = []);
          [ | | by intros e n1 ->].
        * destruct use_hybrid_search; by apply always_call.
        * intros ext n0 ->. simpl.
          eapply always_bind with (Q1 := λ r n, n = []);
            [by apply always_read_used_map | | by intros e n1 ->].
          intros um' n0 ->. simpl.
          eapply always_bind with (Q1 := λ r n, n = []);
            [by apply always_call | | by intros e n1 ->].
          intros prepared' n0 ->. simpl. by apply always_ret.
      + by intros a n1 ->.
      + intros e n1 ->. by apply always_ret.
    - intros extended n0 ->. simpl.
      destruct (_ <? 1)%nat; [by apply always_raise | by apply always_ret]. }
  intros step1 n0 ->. simpl.
  eapply always_bind with (Q1 := λ r n, n = []);
    [by apply always_call | | by intros e n1 ->].
  intros [assembled_result|] n0 ->; simpl.
  2:{ destruct use_hybrid_search; simpl; [by apply always_raise | exact Hrec]. }
  destruct (_ || _); [by apply always_raise|].
  destruct (mapM _ _) as [used_candidates|]; [|by apply always_raise].
  set (text := Py.strip (assembled_text assembled_result)).
  set (references := reference <$> used_candidates).
  eapply always_bind with (Q1 := λ r n, n = []);
    [by apply always_call | | by intros e n1 ->].
  intros ok n0 ->. simpl.
  eapply always_bind with
    (Q1 := λ r n, r = Return tt ∧ n = [Validated text references ok]);
    [by apply always_emit | | by intros e n1 [[=] _]].
  intros [] n0 [_ ->].
  destruct ok; simpl; [|by apply always_raise].
  eapply always_bind; [apply mark_references_always | | by intros e n1 [[=] _]].
  intros [] n0 [_ ->].
  eapply always_bind with (Q1 := λ r n, r = Return tt ∧ n = []);
    [by apply always_save | | by intros e n1 [[=] _]].
  intros [] n0 [_ ->].
  apply always_ret. simpl.
  exists references, []. rewrite !app_nil_r. done.
Qed.

Lemma main_handler_always (c : @collaborators F) modern_line selector_results :
  always (main_handler c modern_line selector_results)
    (@failsafe_outcome F modern_line).
Proof.
  unfold main_handler.
  destruct (selector_results !! "line") as [[|top tl]|];
    try apply failsafe_search_always.
  eapply always_bind; [apply create_single_always| |].
  - intros r n1 [[= ->] ->]. apply always_ret. right.
    exists top. by rewrite app_nil_r.
  - intros e n1 [[=] _].
Qed.

Lemma hybrid_prelude_always (c : @collaborators F) modern_line :
  always (hybrid_prelude c modern_line)
    (λ r new,
       (∃ results, r = Return (inl results) ∧ new = []) ∨
       (∃ o, r = Return (inr o) ∧ @failsafe_outcome F modern_line (Return o) new)).
Proof.
  unfold hybrid_prelude.
  eapply always_try with
    (Q1 := λ r n, n = [] ∧ ∀ o, r ≠ Return (inr o)).
  - eapply always_bind with (Q1 := λ r n, n = []);
      [by apply always_call | | by intros e n1 ->].
    intros results n0 ->. simpl.
    destruct (_ =? 0)%nat; [by apply always_raise | by apply always_ret].
  - intros [results|o] n1 [-> Hne]; [left; by eexists | by destruct (Hne o)].
  - intros e n1 [-> _]. simpl.
    eapply always_bind; [apply failsafe_search_always| |].
    + intros o n1 Ho. apply always_ret. right. exists o.
      by rewrite app_nil_r.
    + intros e' n1 [[[=] _]|(q & [=] & _)].
Qed.

Lemma started_guard {A} (m : M A) (Q : outcome A → list event → Prop) s :
  is_Some (UsedMap.truthy_id (translation_id s)) →
  always m Q →
  ∃ r s' new,
    runs (λ s0 : state,
            if negb (bool_decide (is_Some (UsedMap.truthy_id (translation_id s0))))
            then (Raise RuntimeError, s0) else m s0) s r s' new ∧
    Q r new.
Proof.
  intros Hid Hm. destruct (Hm s) as (r & s' & new & Hrun & HQ).
  exists r, s', new. split; [|done]. unfold runs in *.
  by rewrite bool_decide_true.
Qed.

(** The body of [translate_line], once the session is started, always
    returns, and the run ends well. *)
Lemma translate_line_body_always (c : @collaborators F) recurse modern_line
    selector_results use_hybrid_search :
  always recurse (@main_outcome F) →
  ∀ s, is_Some (UsedMap.truthy_id (translation_id s)) →
    ∃ r s' new,
      runs (translate_line_body c recurse modern_line selector_results
              use_hybrid_search) s r s' new ∧
      ∃ o, r = Return o ∧ run_ends_well (F:=F) new (Return o).
Proof.
  intros Hrec s Hid. unfold translate_line_body.
  apply started_guard; [done|].
  eapply always_try with
    (Q1 := λ r new, ∃ o, r = Return o ∧ run_ends_well (F:=F) new (Return o)).
  - eapply always_bind with
      (Q1 := λ r new,
         (∃ results, r = Return (inl results) ∧ new = []) ∨
         (∃ o, r = Return (inr o) ∧ @failsafe_outcome F modern_line (Return o) new)).
    + destruct (_ && _); [apply hybrid_prelude_always|].
      apply always_ret. left. by eexists.
    + intros start n1 [(results & [= ->] & ->)|(o & [= ->] & Ho)].
      * simpl. eapply always_try; [by apply main_steps_always| |].
        -- intros o n1 Ho. by exists o.
        -- intros e n1 Hn1. simpl in Hn1.
           eapply always_weaken; [apply main_handler_always|].
           intros r n Hr. by eapply failsafe_outcome_ends_well.
      * apply always_ret. rewrite app_nil_r.
        destruct (failsafe_outcome_ends_well _ _ [] _ eq_refl Ho)
          as (o' & [= <-] & Hw). by exists o.
    + intros e n1 [(r & [=] & _)|(o & [=] & _)].
  - intros o n1 Ho. done.
  - intros e n1 (o & [=] & _).
Qed.

(** A run of [translate_line] in a started session always returns, and
    the run ends well. *)
Lemma translate_line_ends_well (c : @collaborators F) default_hybrid modern_line
    selector_results use_hybrid_search s :
  is_Some (UsedMap.truthy_id (translation_id s)) →
  ∃ o s' new,
    translate_line c default_hybrid modern_line selector_results
      use_hybrid_search s = (Return o, s') ∧
    new_events s s' = new ∧
    run_ends_well (F:=F) new (Return o).
Proof.
  intros Hid. unfold translate_line.
  assert (Hrec : always (translate_line_body c (raise ValueError) modern_line ∅ true)
                        (@main_outcome F)).
  { intros s0.
    destruct (decide (is_Some (UsedMap.truthy_id (translation_id s0)))) as [Hs|Hs].
    - destruct (translate_line_body_always c (raise ValueError) modern_line ∅ true
                  (always_raise _ _ eq_refl) s0 Hs)
        as (r & s' & new & Hrun & o & -> & Hw).
      by exists (Return o), s', new.
    - exists (Raise RuntimeError), s0, []. split; [|done].
      unfold runs, translate_line_body.
      rewrite bool_decide_false by done. simpl. by rewrite app_nil_r. }
  destruct (translate_line_body_always c _ modern_line selector_results
              (default default_hybrid use_hybrid_search) Hrec s Hid)
    as (r & s' & new & (Hrun & Hlog & _) & o & -> & Hw).
  exists o, s', new. repeat split; [done| |done].
  unfold new_events. by rewrite Hlog, drop_app_length.
Qed.

(** Without a started session [translate_line] raises at once. *)
Lemma translate_line_not_started (c : @collaborators F) default_hybrid modern_line
    selector_results use_hybrid_search s :
  ¬ is_Some (UsedMap.truthy_id (translation_id s)) →
  translate_line c default_hybrid modern_line selector_results
    use_hybrid_search s = (Raise RuntimeError, s).
Proof.
  intros Hid. unfold translate_line, translate_line_body.
  by rewrite bool_decide_false.
Qed.

End TranslationManager_runs.

(** C9.  In a started session [translate_line] never raises, whatever the
    retrieval, selection, assembly and validation collaborators return or
    raise: it returns [None], or the failsafe result of a candidate, or a
    translated line whose text and references the validator accepted during
    the run. *)
Theorem translate_line_never_raises
    {F : Type} (c : @TranslationManager.collaborators F)
    (default_hybrid : bool) (modern_line : string)
    (selector_results : gmap string (list (Types.CandidateQuote F)))
    (use_hybrid_search : option bool) (s : TranslationManager.state) :
  is_Some (UsedMap.truthy_id (TranslationManager.translation_id s)) →
  ∃ o s',
    TranslationManager.translate_line c default_hybrid modern_line
      selector_results use_hybrid_search s = (TranslationManager.Return o, s') ∧
    (o = None ∨
     (∃ (quote : Types.CandidateQuote F) original,
        o = Some (TranslationManager.Failsafe (Types.text quote)
                    (TranslationManager.result_reference "failsafe_1"
                       (Types.reference quote)) original)) ∨
     (∃ text temp_ids refs original search_type references,
        o = Some (TranslationManager.Translated text temp_ids refs original
                    search_type) ∧
        TranslationManager.Validated text references true
          ∈ TranslationManager.new_events s s')).
Proof.
  intros Hid.
  destruct (translate_line_ends_well c default_hybrid modern_line
              selector_results use_hybrid_search s Hid)
    as (o & s' & new & Hrun & Hnew & Hw).
  exists o, s'. split; [done|].
  destruct o as [[text ids refs original st|text ref original]|]; simpl in Hw.
  - right. right. destruct Hw as (references & before & -> & _ & _).
    exists text, ids, refs, original, st, references. split; [done|].
    rewrite Hnew. apply elem_of_app. right. by left.
  - right. left. destruct Hw as (quote & -> & -> & _). by exists quote, original.
  - by left.
Qed.

(** C2 fails as stated: with a selector that raises, [translate_line]
    falls back to the first line candidate, which
    [_create_single_quote_result] marks as used although no validation was
    run. *)
Lemma failsafe_marks_without_validation :
  ¬ TranslationManager.marks_only_after_validation
      (TranslationManager.new_events TranslationManager.started_state
         (snd (TranslationManager.translate_line
                 TranslationManager.failing_collaborators false
                 "So strange a day" TranslationManager.example_results None
                 TranslationManager.started_state))).
Proof.
  intros H.
  destruct (H [] "THE TRAGEDY OF MACBETH|I|III|38" [0; 1; 2; 3]%Z [])
    as (text & references & Hin & _).
  - vm_compute. reflexivity.
  - by apply elem_of_nil in Hin.
Qed.

(** C2, as the code has it.  In every run of [translate_line] a pair is
    marked used in one of two ways only.  On the main path the marks are
    those of the references of the assembled line, they all come after the
    validator accepted its text with these references, and the run returns
    that line.  On the failsafe path the single mark is the one of the
    candidate [_create_single_quote_result] returns, made without
    validation, and the run returns that failsafe result. *)
Theorem marks_follow_validation_or_failsafe
    {F : Type} (c : @TranslationManager.collaborators F)
    (default_hybrid : bool) (modern_line : string)
    (selector_results : gmap string (list (Types.CandidateQuote F)))
    (use_hybrid_search : option bool) (s : TranslationManager.state)
    (key : string) (word_indices : list Z) :
  let run := TranslationManager.translate_line c default_hybrid modern_line
               selector_results use_hybrid_search s in
  let new := TranslationManager.new_events s (snd run) in
  TranslationManager.Marked key word_indices ∈ new →
  (∃ text temp_ids refs original search_type references before,
     fst run = TranslationManager.Return
                 (Some (TranslationManager.Translated text temp_ids refs
                          original search_type)) ∧
     new = before ++ TranslationManager.Validated text references true
                  :: TranslationManager.marks_main references ∧
     filter TranslationManager.is_mark before = [] ∧
     TranslationManager.Marked key word_indices
       ∈ TranslationManager.marks_main references) ∨
  (∃ (quote : Types.CandidateQuote F) original,
     fst run = TranslationManager.Return
                 (Some (TranslationManager.Failsafe (Types.text quote)
                          (TranslationManager.result_reference "failsafe_1"
                             (Types.reference quote)) original)) ∧
     filter TranslationManager.is_mark new
       = [TranslationManager.Marked key word_indices] ∧
     TranslationManager.marks_failsafe (Types.reference quote)
       = [TranslationManager.Marked key word_indices]).
Proof.
  intros run new Hin. subst run new.
  destruct (decide (is_Some (UsedMap.truthy_id
                               (TranslationManager.translation_id s))))
    as [Hid|Hid].
  - destruct (translate_line_ends_well c default_hybrid modern_line
                selector_results use_hybrid_search s Hid)
      as (o & s' & new & Hrun & Hnew & Hw).
    rewrite Hrun in *. simpl in *. rewrite Hnew in *.
    assert (Hfil : TranslationManager.Marked key word_indices
                     ∈ filter TranslationManager.is_mark new).
    { by apply list_elem_of_filter. }
    destruct o as [[text ids refs original st|text ref original]|]; simpl in Hw.
    + left. destruct Hw as (references & before & -> & Hb & ->).
      exists text, ids, (zip_with TranslationManager.result_reference ids references),
        original, st, references, before.
      repeat split; try done.
      rewrite filter_app, Hb, filter_cons_False in Hfil by (simpl; auto).
      by rewrite filter_marks_main in Hfil.
    + right. destruct Hw as (quote & -> & -> & Hm).
      exists quote, original. rewrite Hm in Hfil |- *.
      unfold TranslationManager.marks_failsafe in *.
      destruct (TranslationManager.word_indices_failsafe (Types.reference quote)).
      * apply list_elem_of_singleton in Hfil as <-. done.
      * by apply elem_of_nil in Hfil.
    + rewrite Hw in Hfil. by apply elem_of_nil in Hfil.
  - rewrite (translate_line_not_started c _ _ _ _ _ Hid) in Hin. simpl in Hin.
    unfold TranslationManager.new_events in Hin.
    rewrite drop_all in Hin. by apply elem_of_nil in Hin.
Qed.

Lemma marks_follow_validation_or_failsafe_witness :
  let run := TranslationManager.translate_line
               TranslationManager.working_collaborators false
               "So strange a day" TranslationManager.example_results None
               TranslationManager.started_state in
  let new := TranslationManager.new_events TranslationManager.started_state
               (snd run) in
  let key := "THE TRAGEDY OF MACBETH|I|III|38" in
  let word_indices := [0; 1; 2; 3]%Z in
  (∃ text temp_ids refs original search_type references before,
     fst run = TranslationManager.Return
                 (Some (TranslationManager.Translated text temp_ids refs
                          original search_type)) ∧
     new = before ++ TranslationManager.Validated text references true
                  :: TranslationManager.marks_main references ∧
     filter TranslationManager.is_mark before = [] ∧
     TranslationManager.Marked key word_indices
       ∈ TranslationManager.marks_main references) ∨
  (∃ (quote : Types.CandidateQuote Selector.xrat) original,
     fst run = TranslationManager.Return
                 (Some (TranslationManager.Failsafe (Types.text quote)
                          (TranslationManager.result_reference "failsafe_1"
                             (Types.reference quote)) original)) ∧
     filter TranslationManager.is_mark new
       = [TranslationManager.Marked key word_indices] ∧
     TranslationManager.marks_failsafe (Types.reference quote)
       = [TranslationManager.Marked key word_indices]).
Proof.
  intros run new key word_indices.
  apply (marks_follow_validation_or_failsafe
           TranslationManager.working_collaborators false "So strange a day"
           TranslationManager.example_results None
           TranslationManager.started_state key word_indices).
  vm_compute. right. left.
Defined.

Lemma translate_line_never_raises_witness :
  ∃ o s',
    TranslationManager.translate_line TranslationManager.failing_collaborators
      false "So strange a day" ∅ None TranslationManager.started_state
      = (TranslationManager.Return o, s') ∧
    (o = None ∨
     (∃ (quote : Types.CandidateQuote Selector.xrat) original,
        o = Some (TranslationManager.Failsafe (Types.text quote)
                    (TranslationManager.result_reference "failsafe_1"
                       (Types.reference quote)) original)) ∨
     (∃ text temp_ids refs original search_type references,
        o = Some (TranslationManager.Translated text temp_ids refs original
                    search_type) ∧
        TranslationManager.Validated text references true
          ∈ TranslationManager.new_events TranslationManager.started_state s')).
Proof.
  apply (translate_line_never_raises TranslationManager.failing_collaborators
           false "So strange a day" ∅ None TranslationManager.started_state).
  vm_compute. by eexists.
Defined.

Section Validator_properties.
Import Types Validator TranslationManager.
Context (SPACY_AVAILABLE : bool) (nlp : string → option Chunking.Doc)
        (ground_truth : list ReferenceDict).

Local Abbreviation extract := (extract_reference SPACY_AVAILABLE nlp ground_truth).
Local Abbreviation validate := (Validator.validate_line SPACY_AVAILABLE nlp ground_truth).

Lemma result_reference_lookup temp_id (ref : ReferenceDict) :
  result_reference temp_id ref !! "title"
    = Some (get ref "title" (VStr "Unknown")) ∧
  result_reference temp_id ref !! "act"
    = Some (get ref "act" (VStr "Unknown")) ∧
  result_reference temp_id ref !! "scene"
    = Some (get ref "scene" (VStr "Unknown")) ∧
  result_reference temp_id ref !! "line"
    = Some (get ref "line" (VStr "Unknown")) ∧
  result_reference temp_id ref !! "word_index"
    = Some (get ref "word_index" (VStr "0,0")).
Proof. unfold result_reference. repeat split; by simplify_map_eq. Qed.

(** The reference of a result has the fields of the candidate's reference
    when the candidate's reference has them all. *)
Lemma extract_result_reference temp_id (ref : ReferenceDict) :
  is_Some (ref !! "title") → is_Some (ref !! "act") →
  is_Some (ref !! "scene") → is_Some (ref !! "line") →
  is_Some (ref !! "word_index") →
  extract (result_reference temp_id ref) = extract ref.
Proof.
  intros Ht Ha Hs Hl Hw.
  destruct (result_reference_lookup temp_id ref) as (H1 & H2 & H3 & H4 & H5).
  assert (Hget : ∀ k d d',
            is_Some (ref !! k) →
            result_reference temp_id ref !! k = Some (get ref k d') →
            get (result_reference temp_id ref) k d = get ref k d).
  { intros k d d' [v Hv] Hk. unfold get in *. by rewrite Hk, Hv. }
  unfold extract_reference.
  rewrite (Hget "title" _ _ Ht H1), (Hget "act" _ _ Ha H2),
    (Hget "scene" _ _ Hs H3), (Hget "line" _ _ Hl H4),
    (Hget "word_index" _ _ Hw H5).
  done.
Qed.

Lemma string_eqb_refl (x : string) : String.eqb x x = true.
Proof. apply String.eqb_refl. Qed.

(** A text that is the fragment its single reference extracts validates. *)
Lemma validate_own_fragment (ref : ReferenceDict) text :
  extract ref = Fragment text → validate text [ref] = Some true.
Proof.
  intros H. unfold Validator.validate_line. simpl. rewrite H. simpl.
  by rewrite string_eqb_refl.
Qed.

(** The failsafe result of a quote whose reference has all its fields and
    whose text is the fragment the reference extracts validates. *)
Lemma failsafe_result_validates {F} temp_id (quote : CandidateQuote F) :
  is_Some (reference quote !! "title") → is_Some (reference quote !! "act") →
  is_Some (reference quote !! "scene") → is_Some (reference quote !! "line") →
  is_Some (reference quote !! "word_index") →
  extract (reference quote) = Fragment (text quote) →
  validate (text quote) [result_reference temp_id (reference quote)] = Some true.
Proof.
  intros. apply validate_own_fragment. by rewrite extract_result_reference.
Qed.

End Validator_properties.

(** C3 at the failing input.  The first line of "Venus and Adonis" has no
    act and no scene; its candidate, as retrieved, validates against the
    corpus, but the result [_create_single_quote_result] builds from it
    carries ["Unknown"] for both and does not. *)
Theorem failsafe_result_fails_validation_without_act :
  let validate := Validator.validate_line false (λ _, None)
                    TranslationManager.poem_ground_truth in
  let quote := TranslationManager.poem_quote in
  let run := TranslationManager._create_single_quote_result
               TranslationManager.failing_collaborators quote
               "As the sun rose red" TranslationManager.started_state in
  validate (Types.text quote) [Types.reference quote] = Some true ∧
  ∃ r, fst run = TranslationManager.Return r ∧
       validate (TranslationManager.result_text r)
                (TranslationManager.failsafe_references r) = Some false.
Proof.
  split.
  - vm_compute. reflexivity.
  - eexists. split; [vm_compute; reflexivity|]. vm_compute. reflexivity.
Qed.

(** ** The model on concrete inputs *)

Section Examples.

Example findall_words_apostrophes :
  Py.findall_words "'Tis o'er, the lovers' vows -- that's all"
  = ["Tis"; "o'er"; "the"; "lovers"; "vows"; "that's"; "all"].
Proof. reflexivity. Qed.

Example final_phrases_hamlet :
  PhraseChunker.final_phrases "To be, or not to be, that is the question"
  = ["To be,"; "or not to be,"; "that is the question"].
Proof. reflexivity. Qed.

Example phrase_chunks_hamlet :
  (λ c, (PhraseChunker.text c, PhraseChunker.word_index c,
         PhraseChunker.phrase_position c, PhraseChunker.total_phrases_in_line c))
    <$> PhraseChunker.chunk_from_line_chunks false (λ _, None)
          [PhraseChunker.hamlet_line]
  = [("or not to be", (2, 5)%Z, 1, 3); ("that is the question", (6, 9)%Z, 2, 3)].
Proof. vm_compute. reflexivity. Qed.

Example fragment_chunks_hamlet :
  fmap (M:=option)
    (fmap (M:=list)
       (λ c, (FragmentChunker.text c, FragmentChunker.word_index c,
              FragmentChunker.total_fragments_in_line c)))
    (FragmentChunker.chunk_from_line_chunks 3 false (λ _, None)
       [PhraseChunker.hamlet_line])
  = Some [("To be or not to be", (0, 5)%Z, Some 2);
          ("that is the question", (6, 9)%Z, Some 2)].
Proof. vm_compute. reflexivity. Qed.

(** The ["metadata"] entry [translate_line] adds to the prompt structure
    has no ["temp_id"]: on it [_mini_validate] raises. *)
Example mini_validate_metadata_raises :
  Assembler._mini_validate "to be"
    (Assembler.example_quote_data ++ [("metadata", [Assembler.Metadata 2])])
  = Assembler.MiniRaise.
Proof. reflexivity. Qed.

Example translate_line_main_path :
  let run := TranslationManager.translate_line
               TranslationManager.working_collaborators false
               "So strange a day" TranslationManager.example_results None
               TranslationManager.started_state in
  TranslationManager.log (snd run)
  = [ TranslationManager.Validated "So foul and fair"
        [TranslationManager.example_reference] true;
      TranslationManager.Marked "THE TRAGEDY OF MACBETH|I|III|38"
        [0; 1; 2; 3]%Z ] ∧
  UsedMap.was_used "THE TRAGEDY OF MACBETH|I|III|38"
    (UsedMap.RangeList [0; 1; 2; 3]%Z)
    (TranslationManager.used_map (snd run)) = true.
Proof. vm_compute. split; reflexivity. Qed.

End Examples.

(* ===================================================================== *)
(** * Part III: further properties of the code                            *)
(* ===================================================================== *)

Section UsedMap_operations.
Import UsedMap.

Lemma list_to_set_elements (X : gset string) :
  list_to_set (C:=gset string) (elements X) = X.
Proof. apply set_eq. intros x. by rewrite elem_of_list_to_set, elem_of_elements. Qed.

Lemma was_used_active k r s tid :
  active_translation_id s = Some tid → tid ≠ "" →
  was_used k r s =
    bool_decide (context_str r ∈
                   default ∅ (default ∅ (used_maps s !! tid) !! k)).
Proof.
  intros Hact Hne. unfold was_used. by rewrite Hact, truthy_id_Some.
Qed.

(** What [was_used] answers after [load], from the file of the session. *)
Lemma was_used_after_load k r fs tid s :
  tid ≠ "" →
  was_used k r (load fs tid s) =
    match fs !! _get_filepath s tid with
    | Some (Ledger data) =>
        bool_decide (context_str r ∈ default [] (data !! k))
    | _ => false
    end.
Proof.
  intros Hne.
  rewrite (was_used_active k r (load fs tid s) tid eq_refl Hne).
  unfold load. cbn [used_maps].
  rewrite lookup_insert_eq. cbn [default from_option id].
  destruct (fs !! _get_filepath s tid) as [[data|]|]; [|done|done].
  rewrite lookup_fmap.
  destruct (data !! k) as [ranges|]; cbn [fmap option_fmap option_map default from_option id].
  - apply bool_decide_ext. by rewrite elem_of_list_to_set.
  - apply bool_decide_ext. set_solver.
Qed.

(** The path [save] writes to in a session whose id is set. *)
Lemma save_active io s fs tid :
  active_translation_id s = Some tid → tid ≠ "" →
  save io None s fs =
    match io with
    | OpenFails => fs
    | DumpFails => <[_get_filepath s tid := Malformed]> fs
    | Written read_back =>
        <[_get_filepath s tid := read_back (serializable_map s tid)]> fs
    end.
Proof.
  intros Hact Hne. unfold save. cbn [truthy_id].
  by rewrite Hact, (truthy_id_Some tid Hne).
Qed.

(** X1.  What [save] writes, [load] reads back, and a failed write is
    not harmless.  In a session whose id is set, and for a [UsedMap] on
    the same storage directory that loads this id after the [save]:
    when the write completes and the text written for the map reads back
    as that map, the loader answers [was_used] as the saving one did,
    for every key and range; when [open] fails the files are as they
    were; when [json.dump] fails after [open] has emptied the file, the
    loader finds nothing used, whatever the file held before. *)
Theorem UsedMap_save_load_round_trip
    (fs : filesystem) (s s0 : t) (tid : string)
    (read_back : gmap string (list string) → ledger_file) :
  active_translation_id s = Some tid → tid ≠ "" →
  storage_dir s0 = storage_dir s →
  read_back (serializable_map s tid) = Ledger (serializable_map s tid) →
  (∀ k r, was_used k r (load (save (Written read_back) None s fs) tid s0)
          = was_used k r s) ∧
  save OpenFails None s fs = fs ∧
  (∀ k r, was_used k r (load (save DumpFails None s fs) tid s0) = false).
Proof.
  intros Hact Hne Hdir Hjson.
  assert (Hpath : _get_filepath s0 tid = _get_filepath s tid).
  { unfold _get_filepath. by rewrite Hdir. }
  split; [|split].
  - intros k r.
    rewrite (was_used_after_load k r _ tid s0 Hne), Hpath.
    rewrite (save_active _ s fs tid Hact Hne), lookup_insert_eq, Hjson.
    rewrite (was_used_active k r s tid Hact Hne).
    unfold serializable_map. rewrite lookup_fmap.
    destruct (default ∅ (used_maps s !! tid) !! k) as [X|];
      cbn [fmap option_fmap option_map default from_option id].
    + apply bool_decide_ext. by rewrite elem_of_elements.
    + apply bool_decide_ext. set_solver.
  - by rewrite (save_active _ s fs tid Hact Hne).
  - intros k r.
    rewrite (was_used_after_load k r _ tid s0 Hne), Hpath.
    by rewrite (save_active _ s fs tid Hact Hne), lookup_insert_eq.
Qed.

Lemma UsedMap_save_load_round_trip_witness :
  let s := mark_used "Hamlet|I|II|3" (RangeList [0; 1; 2]%Z)
             (load ∅ "t1" (init "data/used_maps/")) in
  let s0 := init "data/used_maps/" in
  let fs := save (Written Ledger) None s ∅ in
  (∀ k r, was_used k r (load (save (Written Ledger) None s fs) "t1" s0)
          = was_used k r s) ∧
  save OpenFails None s fs = fs ∧
  (∀ k r, was_used k r (load (save DumpFails None s fs) "t1" s0) = false).
Proof.
  intros s s0 fs.
  apply (UsedMap_save_load_round_trip fs s s0 "t1" Ledger);
    [reflexivity | discriminate | reflexivity | reflexivity].
Defined.

(** [was_used] after [mark_used], in a session whose id is set. *)
Lemma was_used_mark_used_eq
    (s : t) (tid k k' : string) (r r' : context_range) :
  active_translation_id s = Some tid → tid ≠ "" →
  was_used k' r' (mark_used k r s) =
    was_used k' r' s ||
    bool_decide (k' = k ∧ context_str r' = context_str r).
Proof.
  intros Hact Hne.
  assert (Hact' : active_translation_id (mark_used k r s) = Some tid).
  { unfold mark_used. rewrite Hact, (truthy_id_Some tid Hne). done. }
  rewrite (was_used_active k' r' s tid Hact Hne).
  rewrite (was_used_active k' r' _ tid Hact' Hne).
  unfold mark_used. rewrite Hact, (truthy_id_Some tid Hne).
  cbn [used_maps]. rewrite lookup_insert_eq. cbn [default from_option id].
  destruct (decide (k' = k)) as [->|Hk].
  - rewrite lookup_insert_eq. cbn [default from_option id].
    apply eq_true_iff_eq.
    rewrite orb_true_iff, !bool_decide_eq_true. set_solver.
  - rewrite lookup_insert_ne by done.
    rewrite (bool_decide_eq_false_2 (k' = k ∧ _)) by tauto.
    by rewrite orb_false_r.
Qed.

(** X2.  [mark_used] adds one pair and nothing else: in a session whose
    id is set, [was_used] answers true after it exactly for the pairs
    that were used before and for the pairs with the marked key and the
    same range string; in any session, a pair that was used stays
    used. *)
Theorem UsedMap_mark_used_adds_one_pair
    (s : t) (k k' : string) (r r' : context_range) :
  (∀ tid, active_translation_id s = Some tid → tid ≠ "" →
     was_used k' r' (mark_used k r s) =
       was_used k' r' s ||
       bool_decide (k' = k ∧ context_str r' = context_str r)) ∧
  (was_used k' r' s = true → was_used k' r' (mark_used k r s) = true).
Proof.
  split; [intros tid; apply was_used_mark_used_eq|].
  intros Hused.
  destruct (truthy_id (active_translation_id s)) as [tid|] eqn:Hid.
  - apply truthy_id_inv in Hid as [Hact Hne].
    by rewrite (was_used_mark_used_eq s tid _ _ _ _ Hact Hne), Hused.
  - unfold was_used in Hused. by rewrite Hid in Hused.
Qed.

Lemma UsedMap_mark_used_adds_one_pair_witness :
  let s := load ∅ "t1" (init "data/used_maps/") in
  was_used "Hamlet|I|II|3" (RangeStr "0,1,2")
    (mark_used "Hamlet|I|II|3" (RangeList [0; 1; 2]%Z) s) =
  was_used "Hamlet|I|II|3" (RangeStr "0,1,2") s ||
  bool_decide ("Hamlet|I|II|3" = "Hamlet|I|II|3" ∧
               context_str (RangeStr "0,1,2") = context_str (RangeList [0; 1; 2]%Z)).
Proof.
  intros s.
  destruct (UsedMap_mark_used_adds_one_pair s "Hamlet|I|II|3" "Hamlet|I|II|3"
              (RangeList [0; 1; 2]%Z) (RangeStr "0,1,2")) as [Heq _].
  apply (Heq "t1"); [reflexivity | discriminate].
Defined.

Lemma mark_used_eq k r s tid :
  active_translation_id s = Some tid → tid ≠ "" →
  mark_used k r s =
    {| storage_dir := storage_dir s;
       active_translation_id := Some tid;
       used_maps :=
         <[tid := <[k := default ∅ (default ∅ (used_maps s !! tid) !! k)
                         ∪ {[context_str r]}]>
                    (default ∅ (used_maps s !! tid))]> (used_maps s) |}.
Proof.
  intros Hact Hne. unfold mark_used. rewrite Hact, (truthy_id_Some tid Hne). done.
Qed.

(** X3.  Marks compose as set insertions: marking the same pair twice is
    marking it once, and two marks give the same state in either
    order. *)
Theorem UsedMap_mark_used_idempotent_commutative
    (s : t) (k1 k2 : string) (r1 r2 : context_range) :
  mark_used k1 r1 (mark_used k1 r1 s) = mark_used k1 r1 s ∧
  mark_used k1 r1 (mark_used k2 r2 s) = mark_used k2 r2 (mark_used k1 r1 s).
Proof.
  destruct (truthy_id (active_translation_id s)) as [tid|] eqn:Hid.
  2:{ unfold mark_used. rewrite Hid. rewrite Hid. done. }
  apply truthy_id_inv in Hid as [Hact Hne].
  assert (Hm : ∀ k r, active_translation_id (mark_used k r s) = Some tid).
  { intros k r. by rewrite (mark_used_eq k r s tid). }
  split.
  - rewrite (mark_used_eq k1 r1 _ tid (Hm _ _) Hne).
    rewrite (mark_used_eq k1 r1 s tid Hact Hne).
    cbn [storage_dir used_maps]. f_equal.
    rewrite lookup_insert_eq. cbn [default from_option id].
    rewrite lookup_insert_eq. cbn [default from_option id].
    rewrite !insert_insert_eq. f_equal. f_equal. set_solver.
  - rewrite (mark_used_eq k1 r1 _ tid (Hm _ _) Hne).
    rewrite (mark_used_eq k2 r2 _ tid (Hm _ _) Hne).
    rewrite (mark_used_eq k1 r1 s tid Hact Hne).
    rewrite (mark_used_eq k2 r2 s tid Hact Hne).
    cbn [storage_dir used_maps]. f_equal.
    rewrite !lookup_insert_eq. cbn [default from_option id].
    rewrite !insert_insert_eq. f_equal.
    destruct (decide (k1 = k2)) as [->|Hk].
    + rewrite !lookup_insert_eq. cbn [default from_option id].
      rewrite !insert_insert_eq. f_equal. set_solver.
    + rewrite !lookup_insert_ne by done.
      by rewrite insert_insert_ne.
Qed.

(** X4.  [reset] empties a session and only that one: after [reset()]
    every [was_used] of the active session answers false; a [reset] of
    another session leaves the answers of the active one as they were;
    and [reset("")] is [reset()], the empty id being falsy. *)
Theorem UsedMap_reset_clears_one_session
    (s : t) (other k : string) (r : context_range) :
  was_used k r (reset None s) = false ∧
  (other ≠ "" → active_translation_id s ≠ Some other →
   was_used k r (reset (Some other) s) = was_used k r s) ∧
  reset (Some "") s = reset None s.
Proof.
  split; [|split].
  - unfold reset, id_or_active. cbn [truthy_id].
    destruct (truthy_id (active_translation_id s)) as [tid|] eqn:Hid.
    + unfold was_used. cbn [active_translation_id used_maps]. rewrite Hid.
      rewrite lookup_insert_eq. cbn [default from_option id].
      rewrite lookup_empty. cbn [default from_option id].
      apply bool_decide_eq_false. set_solver.
    + unfold was_used. by rewrite Hid.
  - intros Hne Hother. unfold reset, id_or_active.
    rewrite (truthy_id_Some other Hne), (truthy_id_Some other Hne).
    unfold was_used. cbn [active_translation_id used_maps].
    destruct (truthy_id (active_translation_id s)) as [tid|] eqn:Hid; [|done].
    apply truthy_id_inv in Hid as [Hact _].
    rewrite lookup_insert_ne; [done|]. intros ->. by apply Hother.
  - reflexivity.
Qed.

Lemma UsedMap_reset_clears_one_session_witness :
  let s := mark_used "Hamlet|I|II|3" (RangeList [0; 1; 2]%Z)
             (load ∅ "t1" (init "data/used_maps/")) in
  let r := RangeList [0; 1; 2]%Z in
  was_used "Hamlet|I|II|3" r (reset None s) = false ∧
  was_used "Hamlet|I|II|3" r (reset (Some "t2") s) = true.
Proof.
  intros s r.
  destruct (UsedMap_reset_clears_one_session s "t2" "Hamlet|I|II|3" r)
    as (Hreset & Hother & _).
  split; [exact Hreset|].
  rewrite Hother; [vm_compute; reflexivity | discriminate | discriminate].
Defined.

Lemma ledger_records_was_used fs tid s k r :
  tid ≠ "" → ledger_records fs s tid k r → was_used k r (load fs tid s) = true.
Proof.
  intros Hne (data & ranges & Hf & Hk & Hr).
  rewrite (was_used_active k r (load fs tid s) tid eq_refl Hne).
  unfold load. cbn [used_maps]. rewrite lookup_insert_eq, Hf.
  cbn [default from_option id]. rewrite lookup_fmap, Hk.
  cbn [fmap option_fmap option_map default from_option id].
  apply bool_decide_eq_true. by apply elem_of_list_to_set.
Qed.

(** X5.  [load] replaces what the session has in memory by what its
    ledger file records: after [load] of a non-empty id, [was_used]
    answers true exactly for the pairs the file of that id records, so a
    mark made since the last [save] is lost when the same id is loaded
    again. *)
Theorem UsedMap_load_reads_the_ledger
    (fs : filesystem) (s : t) (tid k : string) (r : context_range) :
  tid ≠ "" →
  (was_used k r (load fs tid s) = true ↔ ledger_records fs s tid k r) ∧
  (fs !! _get_filepath s tid = None →
   was_used k r (load fs tid (mark_used k r s)) = false).
Proof.
  intros Hne. split.
  - split; [apply was_used_load | by apply ledger_records_was_used].
  - intros Hf.
    destruct (was_used k r (load fs tid (mark_used k r s))) eqn:Hw; [|done].
    apply was_used_load in Hw as (data & ranges & Hf' & _).
    unfold _get_filepath in *. rewrite mark_used_storage_dir in Hf'.
    congruence.
Qed.

Lemma UsedMap_load_reads_the_ledger_witness :
  let s := load ∅ "t1" (init "data/used_maps/") in
  let r := RangeList [0; 1; 2]%Z in
  was_used "Hamlet|I|II|3" r (mark_used "Hamlet|I|II|3" r s) = true ∧
  was_used "Hamlet|I|II|3" r (load ∅ "t1" (mark_used "Hamlet|I|II|3" r s)) = false.
Proof.
  intros s r. split; [vm_compute; reflexivity|].
  apply (UsedMap_load_reads_the_ledger ∅ s "t1" "Hamlet|I|II|3" r);
    [discriminate | reflexivity].
Defined.

End UsedMap_operations.

Section Py_filter_facts.

Lemma isalnum_lower_char c : Py.isalnum (Py.lower_char c) = Py.isalnum c.
Proof. by destruct c as [[] [] [] [] [] [] [] []]. Qed.

Lemma isspace_not_isalnum c : Py.isspace c = true → Py.isalnum c = false.
Proof. by destruct c as [[] [] [] [] [] [] [] []]. Qed.

Lemma str_filter_app p (a b : string) :
  Py.str_filter p (a +:+ b) = Py.str_filter p a +:+ Py.str_filter p b.
Proof.
  induction a as [|c a IH]; [done|]. rewrite append_cons. simpl.
  destruct (p c); [by rewrite append_cons, IH | done].
Qed.

Lemma str_filter_lower s :
  Py.str_filter Py.isalnum (Py.lower s) = Py.lower (Py.str_filter Py.isalnum s).
Proof.
  unfold Py.lower. induction s as [|c s IH]; [done|]. simpl.
  rewrite isalnum_lower_char. destruct (Py.isalnum c); simpl; by rewrite IH.
Qed.

Lemma str_filter_lstrip s :
  Py.str_filter Py.isalnum (Py.lstrip s) = Py.str_filter Py.isalnum s.
Proof.
  induction s as [|c s IH]; [done|]. simpl.
  destruct (Py.isspace c) eqn:E; [|done].
  by rewrite (isspace_not_isalnum c E).
Qed.

Lemma str_filter_rstrip s :
  Py.str_filter Py.isalnum (Py.rstrip s) = Py.str_filter Py.isalnum s.
Proof.
  induction s as [|c s IH]; [done|]. simpl.
  destruct (Py.rstrip s) as [|d r] eqn:E.
  - simpl in IH. rewrite <- IH.
    destruct (Py.isspace c) eqn:Ec; [by rewrite (isspace_not_isalnum c Ec)|].
    simpl. by destruct (Py.isalnum c).
  - change (Py.str_filter Py.isalnum (String c (String d r)))
      with (if Py.isalnum c then String c (Py.str_filter Py.isalnum (String d r))
            else Py.str_filter Py.isalnum (String d r)).
    by rewrite IH.
Qed.

Lemma str_filter_strip s :
  Py.str_filter Py.isalnum (Py.strip s) = Py.str_filter Py.isalnum s.
Proof. unfold Py.strip. by rewrite str_filter_rstrip, str_filter_lstrip. Qed.

Lemma str_filter_collapse_ws_aux b s :
  Py.str_filter Py.isalnum (Py.collapse_ws_aux b s) = Py.str_filter Py.isalnum s.
Proof.
  revert b. induction s as [|c s IH]; intros b; [done|]. simpl.
  destruct (Py.isspace c) eqn:E.
  - rewrite (isspace_not_isalnum c E). destruct b; simpl; by rewrite IH.
  - simpl. by rewrite IH.
Qed.

Lemma str_filter_join_space (l : list string) :
  Py.str_filter Py.isalnum (Py.join " " l)
  = Py.join "" (Py.str_filter Py.isalnum <$> l).
Proof.
  induction l as [|x [|y l] IH]; [done|done|].
  change (Py.join " " (x :: y :: l)) with (x +:+ " " +:+ Py.join " " (y :: l)).
  rewrite !str_filter_app, IH. simpl Py.str_filter at 2.
  rewrite append_empty_l. rewrite !fmap_cons.
  change (Py.join "" (?a :: ?b :: ?c)) with (a +:+ "" +:+ Py.join "" (b :: c)).
  by rewrite append_empty_l.
Qed.

End Py_filter_facts.

Section Validator_normal_form.
Import Types Chunking Validator.
Context (SPACY_AVAILABLE : bool) (nlp : string → option Doc)
        (ground_truth : list ReferenceDict).

Local Abbreviation validate := (validate_line SPACY_AVAILABLE nlp ground_truth).
Local Abbreviation extract := (extract_all SPACY_AVAILABLE nlp ground_truth).

(** The alphanumeric-only form the validator compares is the normal form
    of the assembler's [_mini_validate]. *)
Lemma alpha_only_normalize_text text :
  Py.str_filter Py.isalnum (_normalize_and_clean text) = Assembler.normalize_text text.
Proof.
  unfold _normalize_and_clean, Assembler.normalize_text, _normalize_quotes.
  rewrite str_filter_strip. unfold Py.collapse_ws.
  rewrite str_filter_collapse_ws_aux. apply str_filter_lower.
Qed.

(** The answer of [validate_line] in terms of the normal form. *)
Lemma validate_line_alnum_form (text : string) (references : list ReferenceDict) :
  validate text references =
    match extract references with
    | None => None
    | Some [] => Some false
    | Some fragments =>
        Some (String.eqb (Assembler.normalize_text text)
                (Assembler.concat_str (Assembler.normalize_text <$> fragments)))
    end.
Proof.
  unfold validate_line.
  destruct (extract references) as [[|f fs]|]; [done| |done].
  set (frs := f :: fs).
  assert (Hmap : Py.str_filter Py.isalnum <$> (_normalize_and_clean <$> frs)
                 = Assembler.normalize_text <$> frs).
  { rewrite <- list_fmap_compose. apply list_fmap_ext.
    intros i x _. apply alpha_only_normalize_text. }
  rewrite alpha_only_normalize_text, Hmap.
  destruct (String.eqb (_normalize_and_clean text)
              (Py.join " " (_normalize_and_clean <$> frs))) eqn:E; [|done].
  apply String.eqb_eq in E. f_equal. symmetry. apply String.eqb_eq.
  by rewrite <- alpha_only_normalize_text, E, str_filter_join_space, Hmap.
Qed.

(** X6.  [validate_line] reads the assembled text only through its
    alphanumeric-only lower-cased form, the normal form [_mini_validate]
    uses: the answer is [False] when no fragment is extracted, and
    otherwise whether that form of the text is the concatenation of the
    forms of the extracted fragments; two assembled texts with the same
    form are validated alike. *)
Theorem validate_line_normal_form
    (assembled_text other_text : string) (references : list ReferenceDict) :
  validate assembled_text references =
    match extract references with
    | None => None
    | Some [] => Some false
    | Some fragments =>
        Some (String.eqb (Assembler.normalize_text assembled_text)
                (Assembler.concat_str (Assembler.normalize_text <$> fragments)))
    end ∧
  (Assembler.normalize_text assembled_text = Assembler.normalize_text other_text →
   validate assembled_text references = validate other_text references).
Proof.
  split; [apply validate_line_alnum_form|].
  intros Heq. rewrite !validate_line_alnum_form.
  destruct (extract references) as [[|f fs]|]; [done| |done].
  by rewrite Heq.
Qed.

End Validator_normal_form.

Lemma validate_line_normal_form_witness :
  Validator.validate_line false (λ _, None) TranslationManager.poem_ground_truth
    "Even as the sun with purple-colour'd face,"
    [Types.reference TranslationManager.poem_quote]
  = Validator.validate_line false (λ _, None) TranslationManager.poem_ground_truth
    "EVEN AS THE SUN -- with purple colour'd face!"
    [Types.reference TranslationManager.poem_quote].
Proof.
  apply (validate_line_normal_form false (λ _, None)
           TranslationManager.poem_ground_truth).
  vm_compute. reflexivity.
Defined.

Section Py_number_facts.

Lemma pretty_N_char_digit d :
  (d < 10)%N →
  Py.isdigit (pretty_N_char d) = true ∧ Py.digit_val (pretty_N_char d) = Z.of_N d.
Proof.
  intros H.
  assert (d = 0 ∨ d = 1 ∨ d = 2 ∨ d = 3 ∨ d = 4 ∨ d = 5 ∨ d = 6 ∨ d = 7
          ∨ d = 8 ∨ d = 9)%N as Hd by lia.
  repeat (destruct Hd as [->|Hd]; [by vm_compute|]). subst. by vm_compute.
Qed.

Lemma N_div_mod_10 (x : N) :
  Z.of_N x = (10 * Z.of_N (x `div` 10) + Z.of_N (x `mod` 10))%Z.
Proof.
  rewrite (N.div_mod x 10) at 1 by done.
  by rewrite N2Z.inj_add, N2Z.inj_mul.
Qed.

(** Reading back the digits [pretty] writes in front of [s]. *)
Lemma parse_digits_pretty_N_go x :
  (0 < x)%N →
  ∃ P : Z, ∀ s acc prev,
    Py.parse_digits acc prev (pretty_N_go x s)
    = Py.parse_digits (acc * P + Z.of_N x) true s.
Proof.
  induction (N.lt_wf_0 x) as [x _ IH]. intros Hx.
  destruct (pretty_N_char_digit (x `mod` 10)%N) as [Hd Hv];
    [by apply N.mod_lt|].
  destruct (decide (x `div` 10 = 0)%N) as [Hz|Hnz].
  - exists 10%Z. intros s acc prev.
    rewrite pretty_N_go_step, Hz, pretty_N_go_0 by done.
    cbn [Py.parse_digits]. rewrite Hd, Hv. f_equal.
    rewrite (N_div_mod_10 x), Hz. ring.
  - destruct (IH (x `div` 10)%N) as [P HP]; [by apply N.div_lt | by apply N.neq_0_lt_0 |].
    exists (10 * P)%Z. intros s acc prev.
    rewrite pretty_N_go_step, HP by done.
    cbn [Py.parse_digits]. rewrite Hd, Hv. f_equal.
    rewrite (N_div_mod_10 x). ring.
Qed.

(** No character [pretty] writes satisfies a predicate that no digit
    satisfies. *)
Lemma str_any_pretty_N_go (p : ascii → bool) x s :
  (∀ d, (d < 10)%N → p (pretty_N_char d) = false) →
  Py.str_any p s = false → Py.str_any p (pretty_N_go x s) = false.
Proof.
  intros Hp. revert s. induction (N.lt_wf_0 x) as [x _ IH]. intros s Hs.
  destruct (decide (x = 0)%N) as [->|Hx]; [by rewrite pretty_N_go_0|].
  rewrite pretty_N_go_step by lia. apply IH; [apply N.div_lt; lia|].
  simpl. rewrite Hp, Hs; [done | by apply N.mod_lt].
Qed.

Lemma pretty_N_go_nonempty x s : (0 < x)%N → pretty_N_go x s ≠ "".
Proof.
  revert s. induction (N.lt_wf_0 x) as [x _ IH]. intros s Hx.
  rewrite pretty_N_go_step by done.
  destruct (decide (x `div` 10 = 0)%N) as [Hz|Hnz].
  - by rewrite Hz, pretty_N_go_0.
  - apply IH; [by apply N.div_lt | by apply N.neq_0_lt_0].
Qed.

Lemma not_digit_char (p : ascii → bool) :
  (∀ c, p c = true → Py.isdigit c = false) →
  ∀ d, (d < 10)%N → p (pretty_N_char d) = false.
Proof.
  intros Hp d Hd. destruct (p (pretty_N_char d)) eqn:E; [|done].
  apply Hp in E. destruct (pretty_N_char_digit d Hd) as [E' _]. congruence.
Qed.

Lemma lstrip_no_space s : Py.str_any Py.isspace s = false → Py.lstrip s = s.
Proof.
  destruct s as [|c s]; [done|]. simpl.
  intros H. apply orb_false_iff in H as [-> _]. done.
Qed.

Lemma rstrip_no_space s : Py.str_any Py.isspace s = false → Py.rstrip s = s.
Proof.
  induction s as [|c s IH]; [done|]. simpl.
  intros H. apply orb_false_iff in H as [Hc Hs].
  rewrite (IH Hs), Hc. by destruct s.
Qed.

Lemma strip_no_space s : Py.str_any Py.isspace s = false → Py.strip s = s.
Proof.
  intros H. unfold Py.strip. by rewrite lstrip_no_space, rstrip_no_space.
Qed.

Lemma str_any_pretty_Z (p : ascii → bool) (z : Z) :
  (∀ c, p c = true → Py.isdigit c = false) → p "-"%char = false →
  Py.str_any p (Py.str_of_Z z) = false.
Proof.
  intros Hp Hdash. unfold Py.str_of_Z, pretty, pretty_Z.
  pose proof (not_digit_char p Hp) as Hd.
  destruct z as [|x|x].
  - pose proof (Hd 0%N eq_refl) as H0. simpl in *. by rewrite H0.
  - unfold pretty, pretty_positive, pretty, pretty_N.
    rewrite decide_False by done. by apply str_any_pretty_N_go.
  - unfold pretty, pretty_positive, pretty, pretty_N.
    rewrite decide_False by done. simpl. rewrite Hdash. simpl.
    by apply str_any_pretty_N_go.
Qed.

(** [int(str(n)) == n] *)
Lemma int_of_str_str_of_Z (z : Z) : Py.int_of_str (Py.str_of_Z z) = Some z.
Proof.
  unfold Py.int_of_str.
  rewrite strip_no_space
    by (apply str_any_pretty_Z; [by intros [[] [] [] [] [] [] [] []] | done]).
  unfold Py.str_of_Z, pretty, pretty_Z. destruct z as [|x|x]; [done| |].
  - unfold pretty, pretty_positive, pretty, pretty_N.
    rewrite decide_False by done.
    destruct (parse_digits_pretty_N_go (N.pos x)) as [P HP]; [done|].
    pose proof (HP "" 0%Z false) as H0.
    change (Py.parse_digits (0 * P + Z.of_N (N.pos x)) true "")
      with (Some (Z.pos x)) in H0.
    assert (Hsign : Py.str_any (λ c, Ascii.eqb c "-" || Ascii.eqb c "+")
                      (pretty_N_go (N.pos x) "") = false).
    { apply str_any_pretty_N_go; [|done].
      apply (not_digit_char (λ c, Ascii.eqb c "-" || Ascii.eqb c "+")).
      by intros [[] [] [] [] [] [] [] []]. }
    destruct (pretty_N_go (N.pos x) "") as [|c ds] eqn:E.
    { by apply pretty_N_go_nonempty in E. }
    simpl in Hsign. apply orb_false_iff in Hsign as [Hc _].
    destruct c as [[] [] [] [] [] [] [] []]; try discriminate Hc; exact H0.
  - unfold pretty, pretty_positive, pretty, pretty_N.
    rewrite decide_False by done. simpl.
    destruct (parse_digits_pretty_N_go (N.pos x)) as [P HP]; [done|].
    rewrite append_empty_l, (HP "" 0%Z false). reflexivity.
Qed.

Lemma split_char_no_sep sep s :
  Py.contains_char sep s = false → Py.split_char sep s = [s].
Proof.
  unfold Py.contains_char. induction s as [|c s IH]; [done|]. simpl.
  intros H. apply orb_false_iff in H as [Hc Hs].
  rewrite Ascii.eqb_sym, Hc, (IH Hs). done.
Qed.

Lemma split_char_app sep a b :
  Py.contains_char sep a = false →
  Py.split_char sep (a +:+ String sep b) = a :: Py.split_char sep b.
Proof.
  unfold Py.contains_char. induction a as [|c a IH].
  - intros _. rewrite append_empty_l. simpl. by rewrite Ascii.eqb_refl.
  - intros H. simpl in H. apply orb_false_iff in H as [Hc Hs].
    rewrite append_cons. simpl. rewrite Ascii.eqb_sym, Hc, (IH Hs). done.
Qed.

Lemma contains_char_append c a b :
  Py.contains_char c (a +:+ b) = Py.contains_char c a || Py.contains_char c b.
Proof.
  unfold Py.contains_char. induction a as [|d a IH]; [done|].
  rewrite append_cons. simpl. by rewrite IH, orb_assoc.
Qed.

Lemma contains_comma_str_of_Z z : Py.contains_char "," (Py.str_of_Z z) = false.
Proof.
  apply str_any_pretty_Z; [|done].
  intros c H. apply Ascii.eqb_eq in H as <-. done.
Qed.

(** The range string [f"{a},{b}"] is read back as [(a, b)]. *)
Lemma parse_range_str (a b : Z) :
  Validator.parse_range "," (Py.str_of_Z a +:+ "," +:+ Py.str_of_Z b) = Some (a, b).
Proof.
  unfold Validator.parse_range.
  change ("," +:+ Py.str_of_Z b) with (String "," (Py.str_of_Z b)).
  rewrite split_char_app by apply contains_comma_str_of_Z.
  rewrite split_char_no_sep by apply contains_comma_str_of_Z.
  by rewrite !int_of_str_str_of_Z.
Qed.

End Py_number_facts.

Section LineChunker_properties.
Import Chunking LineChunker.
Context (SPACY_AVAILABLE : bool) (nlp : string → option Doc).

Local Abbreviation step := (LineChunker.step SPACY_AVAILABLE nlp).
Local Abbreviation chunk_loop := (LineChunker.chunk_loop SPACY_AVAILABLE nlp).
Local Abbreviation chunk_text := (LineChunker.chunk_text SPACY_AVAILABLE nlp).

(** What one iteration does to the counters and what it appends. *)
Lemma step_spec st raw_line st' out :
  step st raw_line = (st', out) →
  match out with
  | Some c =>
      chunk_counter st' = S (chunk_counter st) ∧
      scene_line_index st' = S (scene_line_index st) ∧
      current_title st' = current_title st ∧
      current_act st' = current_act st ∧
      current_scene st' = current_scene st ∧
      chunk_id c = "chunk_" +:+ Py.str_of_nat (S (chunk_counter st)) ∧
      title c = current_title st ∧ act c = current_act st ∧
      scene c = current_scene st ∧ line c = S (scene_line_index st) ∧
      text c = _normalize_quotes (Py.strip raw_line) ∧ text c ≠ "" ∧
      is_title (text c) = false ∧ _is_structural_line (text c) = false ∧
      word_count c =
        length (token_texts (_process_line_with_spacy SPACY_AVAILABLE nlp (text c)))
  | None =>
      chunk_counter st' = chunk_counter st ∧
      (st' = st ∨ scene_line_index st' = 0)
  end.
Proof.
  unfold LineChunker.step.
  destruct (Py.is_empty (Py.strip raw_line)) eqn:Hempty.
  { intros [= <- <-]. auto. }
  set (line := _normalize_quotes (Py.strip raw_line)).
  assert (Hline : line ≠ "").
  { subst line. unfold _normalize_quotes. intros E. by rewrite E in Hempty. }
  clearbody line.
  destruct (is_title line) eqn:Htitle.
  { intros [= <- <-]. auto. }
  destruct (act_pattern line) eqn:Hact.
  { intros [= <- <-]. auto. }
  destruct (scene_pattern line) eqn:Hscene.
  { intros [= <- <-]. auto. }
  destruct (if Py.contains "SONNETS" (Py.upper (current_title st))
            then sonnet_number_pattern line else None).
  { intros [= <- <-]. auto. }
  destruct (_is_structural_line line) eqn:Hstruct.
  { intros [= <- <-]. auto. }
  intros [= <- <-]. cbn. repeat split; done.
Qed.

Lemma chunk_loop_cons raw_line lines st :
  chunk_loop (raw_line :: lines) st =
    match snd (step st raw_line) with
    | Some c => c :: chunk_loop lines (fst (step st raw_line))
    | None => chunk_loop lines (fst (step st raw_line))
    end.
Proof. cbn [LineChunker.chunk_loop]. by destruct (step st raw_line) as [st' [c|]]. Qed.

(** The chunk at position [i] of the output of the loop bears the
    number of chunks made before it, plus one. *)
Lemma chunk_loop_ids lines : ∀ st i c,
  chunk_loop lines st !! i = Some c →
  chunk_id c = "chunk_" +:+ Py.str_of_nat (S (chunk_counter st + i)).
Proof.
  induction lines as [|raw_line lines IH]; intros st i c; [done|].
  rewrite chunk_loop_cons.
  destruct (step st raw_line) as [st' out] eqn:Hstep.
  pose proof (step_spec _ _ _ _ Hstep) as Hs. cbn [fst snd].
  destruct out as [c0|].
  - destruct Hs as (Hcnt & _ & _ & _ & _ & Hid & _).
    destruct i as [|i].
    + intros [= <-]. by rewrite Nat.add_0_r.
    + intros Hi. change (chunk_loop lines st' !! i = Some c) in Hi.
      rewrite (IH _ _ _ Hi), Hcnt. do 2 f_equal. lia.
  - destruct Hs as [Hcnt _]. intros Hi. by rewrite (IH _ _ _ Hi), Hcnt.
Qed.

(** The first chunk the loop makes from a state continues the numbering
    of that state, or starts a new one. *)
Lemma chunk_loop_head lines : ∀ st c,
  head (chunk_loop lines st) = Some c →
  line c = 1 ∨
  (title c = current_title st ∧ act c = current_act st ∧
   scene c = current_scene st ∧ line c = S (scene_line_index st)).
Proof.
  induction lines as [|raw_line lines IH]; intros st c; [done|].
  rewrite chunk_loop_cons.
  destruct (step st raw_line) as [st' out] eqn:Hstep.
  pose proof (step_spec _ _ _ _ Hstep) as Hs. cbn [fst snd].
  destruct out as [c0|].
  - intros [= <-]. right. tauto.
  - destruct Hs as [_ [->|Hz]]; [apply IH|].
    intros Hc. destruct (IH _ _ Hc) as [H1|(_ & _ & _ & H1)]; left; [done|].
    by rewrite H1, Hz.
Qed.

Lemma chunk_loop_lines lines : ∀ st i p c,
  chunk_loop lines st !! i = Some p →
  chunk_loop lines st !! S i = Some c →
  line c = 1 ∨
  (title c = title p ∧ act c = act p ∧ scene c = scene p ∧ line c = S (line p)).
Proof.
  induction lines as [|raw_line lines IH]; intros st i p c; [done|].
  rewrite chunk_loop_cons.
  destruct (step st raw_line) as [st' out] eqn:Hstep.
  pose proof (step_spec _ _ _ _ Hstep) as Hs. cbn [fst snd].
  destruct out as [c0|]; [|apply IH].
  destruct i as [|i]; [|apply IH].
  intros [= <-] Hc. change (chunk_loop lines st' !! 0 = Some c) in Hc.
  destruct Hs as (_ & Hidx & Ht & Ha & Hsc & _ & Ht' & Ha' & Hsc' & Hl & _).
  destruct (chunk_loop_head lines st' c) as [H1|(H1 & H2 & H3 & H4)].
  { by rewrite <- head_lookup in Hc. }
  - by left.
  - right. rewrite H1, H2, H3, H4, Ht, Ha, Hsc, Hidx, Ht', Ha', Hsc', Hl. done.
Qed.

Lemma chunk_loop_texts lines : ∀ st,
  sublist (text <$> chunk_loop lines st)
          ((λ raw_line, _normalize_quotes (Py.strip raw_line)) <$> lines) ∧
  ∀ c, c ∈ chunk_loop lines st →
    text c ≠ "" ∧ is_title (text c) = false ∧
    _is_structural_line (text c) = false ∧
    word_count c =
      length (token_texts (_process_line_with_spacy SPACY_AVAILABLE nlp (text c))).
Proof.
  induction lines as [|raw_line lines IH]; intros st.
  { split; [constructor|]. intros c H. by apply elem_of_nil in H. }
  rewrite chunk_loop_cons.
  destruct (step st raw_line) as [st' out] eqn:Hstep.
  pose proof (step_spec _ _ _ _ Hstep) as Hs. cbn [fst snd].
  destruct (IH st') as [Hsub Hall].
  destruct out as [c0|].
  - destruct Hs as (_ & _ & _ & _ & _ & _ & _ & _ & _ & _ & Ht & H1 & H2 & H3 & H4).
    split.
    + rewrite !fmap_cons, Ht. by constructor.
    + intros c [->|Hc]%elem_of_cons; [done | by apply Hall].
  - split; [|done]. rewrite fmap_cons. by constructor.
Qed.

Lemma chunk_id_inj n m :
  "chunk_" +:+ Py.str_of_nat n = "chunk_" +:+ Py.str_of_nat m → n = m.
Proof.
  intros H. apply (inj (String.app "chunk_")) in H.
  by apply (inj pretty) in H.
Qed.

(** X7.  [chunk_text] numbers its chunks consecutively from 1: the chunk
    at position [i] of the result has the id ["chunk_{i+1}"], so no two
    chunks share an id. *)
Theorem chunk_text_ids_are_consecutive (text : string) :
  (∀ i c, chunk_text text !! i = Some c →
     chunk_id c = "chunk_" +:+ Py.str_of_nat (S i)) ∧
  NoDup (chunk_id <$> chunk_text text).
Proof.
  assert (Hid : ∀ i c, chunk_text text !! i = Some c →
                  chunk_id c = "chunk_" +:+ Py.str_of_nat (S i)).
  { intros i c Hi. unfold LineChunker.chunk_text in Hi.
    by rewrite (chunk_loop_ids _ _ _ _ Hi). }
  split; [exact Hid|].
  apply NoDup_alt. intros i j x Hi Hj.
  rewrite list_lookup_fmap in Hi, Hj.
  destruct (chunk_text text !! i) as [ci|] eqn:Ei; [|discriminate].
  destruct (chunk_text text !! j) as [cj|] eqn:Ej; [|discriminate].
  injection Hi as <-. injection Hj as Hj.
  rewrite (Hid _ _ Ei), (Hid _ _ Ej) in Hj.
  apply chunk_id_inj in Hj. lia.
Qed.

(** X8.  Line numbers restart with each header and count up in between:
    the first chunk has line 1, and every later chunk either has line 1
    or has the title, act and scene of the chunk before it and the next
    line number. *)
Theorem chunk_text_line_numbering (text : string) :
  (∀ c, chunk_text text !! 0 = Some c → line c = 1) ∧
  (∀ i p c, chunk_text text !! i = Some p → chunk_text text !! S i = Some c →
     line c = 1 ∨
     (title c = title p ∧ act c = act p ∧ scene c = scene p ∧
      line c = S (line p))).
Proof.
  split.
  - intros c Hc. unfold LineChunker.chunk_text in Hc.
    rewrite <- head_lookup in Hc.
    by destruct (chunk_loop_head _ _ _ Hc) as [H|(_ & _ & _ & H)].
  - intros i p c. apply chunk_loop_lines.
Qed.


End LineChunker_properties.

Section Validator_extraction.
Import Types Chunking Validator.
Context (SPACY_AVAILABLE : bool) (nlp : string → option Doc)
        (ground_truth : list ReferenceDict).

Local Abbreviation validate := (validate_line SPACY_AVAILABLE nlp ground_truth).
Local Abbreviation extract := (extract_reference SPACY_AVAILABLE nlp ground_truth).
Local Abbreviation tokenize := (_tokenize_line_for_validation SPACY_AVAILABLE nlp).

(** The words whose index lies in a range are a slice of the words. *)
Lemma words_in_range_shift (words : list string) : ∀ (off : nat) (first last : Z),
  words_in_range (imap (λ k word, (word, off + k)) words) first last
  = take (Z.to_nat (last + 1 - Z.max first (Z.of_nat off)))
         (drop (Z.to_nat (first - Z.of_nat off)) words).
Proof.
  unfold words_in_range.
  induction words as [|w ws IH]; intros off first last.
  { by rewrite drop_nil, take_nil. }
  cbn [imap]. rewrite Nat.add_0_r.
  rewrite (imap_ext _ (λ k word, (word, S off + k)))
    by (intros; simpl; f_equal; lia).
  destruct (decide (first ≤ Z.of_nat off ≤ last)%Z) as [Hin|Hout].
  - rewrite filter_cons_True by done. rewrite fmap_cons, IH. cbn [fst].
    replace (Z.to_nat (first - Z.of_nat off)) with 0 by lia.
    replace (Z.to_nat (first - Z.of_nat (S off))) with 0 by lia.
    rewrite !drop_0.
    replace (Z.to_nat (last + 1 - Z.max first (Z.of_nat off)))
      with (S (Z.to_nat (last + 1 - Z.max first (Z.of_nat (S off))))) by lia.
    done.
  - rewrite filter_cons_False by done. rewrite IH.
    destruct (decide (Z.of_nat off < first)%Z).
    + replace (Z.to_nat (first - Z.of_nat off))
        with (S (Z.to_nat (first - Z.of_nat (S off)))) by lia.
      cbn [drop]. f_equal. lia.
    + replace (Z.to_nat (last + 1 - Z.max first (Z.of_nat (S off)))) with 0 by lia.
      replace (Z.to_nat (last + 1 - Z.max first (Z.of_nat off))) with 0 by lia.
      done.
Qed.

Lemma words_in_range_slice line_text (i n : nat) :
  words_in_range (tokenize line_text) (Z.of_nat i) (Z.of_nat i + Z.of_nat n - 1)
  = take n (drop i (fst <$> tokenize line_text)).
Proof.
  unfold _tokenize_line_for_validation.
  set (words := if negb SPACY_AVAILABLE then _ else _).
  rewrite (imap_ext _ (λ k word, (word, 0 + k))) by done.
  rewrite words_in_range_shift.
  rewrite fmap_imap, (imap_ext _ (const id)) by done.
  rewrite imap_const, list_fmap_id.
  f_equal; [lia | f_equal; lia].
Qed.

Lemma str_of_Z_nonempty z : Py.str_of_Z z ≠ "".
Proof.
  intros E. pose proof (int_of_str_str_of_Z z) as H. rewrite E in H. discriminate.
Qed.

(** What the validator extracts for a reference that carries the
    identity of a chunk, when its lookup finds a line. *)
Lemma extract_reference_carried ref title act scene line first last entry gt_line :
  VectorStore.carries ref title act scene line (first, last) →
  title ≠ "" →
  find_entry ground_truth (VStr title) (get ref "act" (VStr ""))
    (get ref "scene" (VStr "")) (VInt line) = Some entry →
  entry !! "text" = Some (VStr gt_line) →
  extract ref =
    match words_in_range (tokenize gt_line) first last with
    | [] => Skipped
    | fragment_words => Fragment (Py.join " " fragment_words)
    end.
Proof.
  intros (Ht & Hl & Hw & _ & _) Hne Hfind Htext.
  unfold extract_reference, get. rewrite Ht, Hl, Hw.
  cbn [default from_option id truthy str fst snd].
  assert (Py.is_empty title = false) as -> by by destruct title.
  assert (Py.is_empty (Py.str_of_Z line) = false) as ->.
  { destruct (Py.str_of_Z line) eqn:E; [by apply str_of_Z_nonempty in E | done]. }
  cbn [negb orb]. unfold get in Hfind. rewrite Hfind, Htext.
  cbn [default from_option id].
  set (wi := Py.str_of_Z first +:+ "," +:+ Py.str_of_Z last).
  assert (Py.is_empty wi = false) as ->.
  { subst wi. destruct (Py.str_of_Z first) eqn:E; [by apply str_of_Z_nonempty in E | done]. }
  assert (Py.contains_char "," wi = true) as ->.
  { subst wi. rewrite contains_char_append.
    change ("," +:+ Py.str_of_Z last) with (String "," (Py.str_of_Z last)).
    apply orb_true_iff. right. done. }
  subst wi. rewrite parse_range_str. done.
Qed.

(** A text with the normal form of the fragment its reference extracts
    validates. *)
Lemma validate_fragment_form ref text fragment :
  extract ref = Fragment fragment →
  Assembler.normalize_text text = Assembler.normalize_text fragment →
  validate text [ref] = Some true.
Proof.
  intros He Hn. rewrite validate_line_alnum_form.
  cbn [extract_all]. rewrite He. cbn [fmap list_fmap].
  unfold Assembler.concat_str. cbn [Py.join]. rewrite Hn.
  by rewrite String.eqb_refl.
Qed.


End Validator_extraction.

Section Tokenizer_facts.
Import Chunking.

Local Abbreviation alnum := (Py.str_filter Py.isalnum).

Lemma isword_not_isalnum c : Py.isword c = false → Py.isalnum c = false.
Proof. unfold Py.isword. by intros [-> _]%orb_false_iff. Qed.

Lemma is_apostrophe_not_isalnum c : Py.is_apostrophe c = true → Py.isalnum c = false.
Proof. by destruct c as [[] [] [] [] [] [] [] []]. Qed.

Lemma alnum_join_cons x (l : list string) :
  alnum (Py.join " " (x :: l)) = alnum x +:+ alnum (Py.join " " l).
Proof.
  destruct l as [|y l]; [by rewrite append_nil_r|].
  change (Py.join " " (x :: y :: l)) with (x +:+ " " +:+ Py.join " " (y :: l)).
  by rewrite !str_filter_app.
Qed.

(** The words of the regular expression keep every alphanumeric
    character of the line, in order. *)
Lemma findall_words_aux_alnum s : ∀ cur,
  match cur with
  | Some (w, pend) => alnum pend = ""
  | None => True
  end →
  alnum (Py.join " " (Py.findall_words_aux cur s))
  = match cur with Some (w, _) => alnum w | None => "" end +:+ alnum s.
Proof.
  induction s as [|c s IH]; intros cur Hcur.
  - destruct cur as [[w pend]|]; simpl; by rewrite ?append_nil_r.
  - cbn [Py.findall_words_aux]. destruct cur as [[w pend]|].
    + destruct (Py.isword c) eqn:Hw.
      * rewrite IH by done. rewrite !str_filter_app, Hcur, append_empty_l.
        rewrite append_assoc. f_equal. simpl. by destruct (Py.isalnum c).
      * destruct (Py.is_apostrophe c) eqn:Ha.
        -- rewrite IH.
           ++ simpl. by rewrite (is_apostrophe_not_isalnum c Ha).
           ++ rewrite str_filter_app, Hcur. simpl.
              by rewrite (is_apostrophe_not_isalnum c Ha).
        -- rewrite alnum_join_cons, (IH None I). simpl.
           by rewrite (isword_not_isalnum c Hw).
    + destruct (Py.isword c) eqn:Hw.
      * rewrite IH by done. simpl. by destruct (Py.isalnum c).
      * rewrite (IH None I). simpl. by rewrite (isword_not_isalnum c Hw).
Qed.

Lemma findall_words_normal_form line :
  Assembler.normalize_text (Py.join " " (Py.findall_words line))
  = Assembler.normalize_text line.
Proof.
  unfold Assembler.normalize_text, Py.findall_words.
  by rewrite (findall_words_aux_alnum line None I), append_empty_l.
Qed.


(** The validator tokenizes a line as the phrase chunker does. *)
Lemma tokenize_process SPACY_AVAILABLE nlp line :
  fst <$> Validator._tokenize_line_for_validation SPACY_AVAILABLE nlp line
  = token_texts (_process_line_with_spacy SPACY_AVAILABLE nlp line).
Proof.
  unfold Validator._tokenize_line_for_validation, _process_line_with_spacy.
  rewrite fmap_imap, (imap_ext _ (const id)) by done.
  rewrite imap_const, list_fmap_id.
  destruct SPACY_AVAILABLE; [|done]. simpl.
  by destruct (nlp (_normalize_quotes line)).
Qed.

End Tokenizer_facts.

Section Chunk_round_trip.
Import Types Chunking Validator.
Context (SPACY_AVAILABLE : bool) (nlp : string → option Doc)
        (ground_truth : list ReferenceDict).

Local Abbreviation validate := (validate_line SPACY_AVAILABLE nlp ground_truth).
Local Abbreviation tokenize := (_tokenize_line_for_validation SPACY_AVAILABLE nlp).








End Chunk_round_trip.



Section LineChunker_round_trip.
Import Types Chunking Validator LineChunker.
Context (SPACY_AVAILABLE : bool) (nlp : string → option Doc).

Local Abbreviation chunk_text := (LineChunker.chunk_text SPACY_AVAILABLE nlp).

Lemma chunk_loop_titles lines : ∀ st c,
  current_title st ≠ "" →
  c ∈ LineChunker.chunk_loop SPACY_AVAILABLE nlp lines st → title c ≠ "".
Proof.
  induction lines as [|raw_line lines IH]; intros st c Hst.
  { intros H. by apply elem_of_nil in H. }
  rewrite chunk_loop_cons.
  assert (Hnext : current_title (fst (LineChunker.step SPACY_AVAILABLE nlp st raw_line)) ≠ "").
  { unfold LineChunker.step, _normalize_quotes.
    destruct (Py.is_empty (Py.strip raw_line)) eqn:Hempty; [done|].
    destruct (is_title _).
    { cbn. intros E. by rewrite E in Hempty. }
    destruct (act_pattern _); [done|]. destruct (scene_pattern _); [done|].
    destruct (if Py.contains _ _ then _ else _); [done|].
    by destruct (_is_structural_line _). }
  destruct (LineChunker.step SPACY_AVAILABLE nlp st raw_line) as [st' out] eqn:Hstep.
  pose proof (step_spec _ _ _ _ _ _ Hstep) as Hs. cbn [fst snd] in *.
  destruct out as [c0|]; [|by apply IH].
  intros [->|H]%elem_of_cons; [|by eapply IH].
  destruct Hs as (_ & _ & _ & _ & _ & _ & -> & _). done.
Qed.

(** The metadata stored for a line chunk carries its identity. *)
Lemma clean_meta_carries (c : chunk) :
  VectorStore.carries (VectorStore.clean_meta (to_dict c))
    (title c) (act c) (scene c) (Z.of_nat (line c))
    (0%Z, (Z.of_nat (word_count c) - 1)%Z).
Proof.
  unfold VectorStore.carries, VectorStore.clean_meta, to_dict.
  cbn [list_to_map foldr fst snd uncurry].
  repeat split.
  - apply map_lookup_filter_Some. split; [by simplify_map_eq|].
    cbn. split; [|done]. rewrite !not_elem_of_cons. repeat split; try done.
    apply not_elem_of_nil.
  - apply map_lookup_filter_Some. split; [by simplify_map_eq|].
    cbn. split; [|done]. rewrite !not_elem_of_cons. repeat split; try done.
    apply not_elem_of_nil.
  - apply map_lookup_filter_Some. split; [by simplify_map_eq|].
    cbn. split; [|done]. rewrite !not_elem_of_cons. repeat split; try done.
    apply not_elem_of_nil.
  - destruct (act c) as [a|] eqn:Ha; cbn.
    + apply map_lookup_filter_Some. split; [by simplify_map_eq|].
      cbn. split; [|done]. rewrite !not_elem_of_cons. repeat split; try done.
      apply not_elem_of_nil.
    + apply map_lookup_filter_None. right. intros v Hv.
      simplify_map_eq. cbn. intros [_ ?]. done.
  - destruct (scene c) as [a|] eqn:Ha; cbn.
    + apply map_lookup_filter_Some. split; [by simplify_map_eq|].
      cbn. split; [|done]. rewrite !not_elem_of_cons. repeat split; try done.
      apply not_elem_of_nil.
    + apply map_lookup_filter_None. right. intros v Hv.
      simplify_map_eq. cbn. intros [_ ?]. done.
Qed.

(** X12.  A line chunk validates against the ground truth it is part of.
    For a chunk of [chunk_text] with at least one word, the metadata the
    vector store keeps for it, and [lines.json] as ground truth: when
    the validator's lookup of that metadata finds the chunk itself (no
    earlier line has the same title, act, scene and line number),
    [validate_line] accepts the text of the line.  With spaCy the tokens
    of the line must keep its letters and digits; the words of the
    regular expression always do. *)
Theorem line_chunk_validates (text : string) (c : chunk) :
  let ground_truth := to_dict <$> chunk_text text in
  let ref := VectorStore.clean_meta (to_dict c) in
  c ∈ chunk_text text →
  (1 ≤ word_count c)%nat →
  (∀ doc, SPACY_AVAILABLE = true → nlp (LineChunker.text c) = Some doc →
     Assembler.normalize_text
       (Py.join " " (Chunking.text <$> word_tokens (tok <$> doc)))
     = Assembler.normalize_text (LineChunker.text c)) →
  find_entry ground_truth (VStr (title c)) (get ref "act" (VStr ""))
    (get ref "scene" (VStr "")) (VInt (Z.of_nat (line c))) = Some (to_dict c) →
  validate_line SPACY_AVAILABLE nlp ground_truth (LineChunker.text c) [ref]
  = Some true.
Proof.
  intros ground_truth ref Hc Hwords Hnlp Hfind.
  assert (Htitle : title c ≠ "").
  { eapply chunk_loop_titles; [|exact Hc]. done. }
  destruct (chunk_loop_texts SPACY_AVAILABLE nlp (Py.split_char "010" text)
              LineChunker.initial) as [_ Hall].
  destruct (Hall c Hc) as (_ & _ & _ & Hcount).
  assert (Htext : to_dict c !! "text" = Some (VStr (LineChunker.text c))).
  { unfold to_dict. cbn [list_to_map foldr fst snd uncurry]. by simplify_map_eq. }
  pose proof (extract_reference_carried SPACY_AVAILABLE nlp ground_truth
                _ _ _ _ _ _ _ _ _ (clean_meta_carries c) Htitle Hfind Htext) as He.
  replace (Z.of_nat (word_count c) - 1)%Z
    with (Z.of_nat 0 + Z.of_nat (word_count c) - 1)%Z in He by lia.
  change 0%Z with (Z.of_nat 0) in He at 1.
  rewrite words_in_range_slice, tokenize_process, drop_0, Hcount, firstn_all in He.
  set (words := token_texts _) in *.
  destruct words as [|w ws] eqn:Ew; [simpl in Hcount; lia|].
  eapply validate_fragment_form; [exact He|]. rewrite <- Ew. subst words.
  unfold _process_line_with_spacy, _normalize_quotes.
  destruct SPACY_AVAILABLE; cbn [negb].
  - destruct (nlp (LineChunker.text c)) as [doc|] eqn:Hdoc; cbn [token_texts].
    + symmetry. by apply Hnlp.
    + symmetry. apply findall_words_normal_form.
  - symmetry. apply findall_words_normal_form.
Qed.

End LineChunker_round_trip.

Lemma line_chunk_validates_witness :
  let chunks := LineChunker.chunk_text false (λ _, None) Sample.macbeth_text in
  Validator.validate_line false (λ _, None) (LineChunker.to_dict <$> chunks)
    (LineChunker.text Sample.macbeth_line)
    [VectorStore.clean_meta (LineChunker.to_dict Sample.macbeth_line)]
  = Some true.
Proof.
  intros chunks.
  apply (line_chunk_validates false (λ _, None) Sample.macbeth_text
           Sample.macbeth_line).
  - vm_compute. left.
  - vm_compute. lia.
  - discriminate.
  - vm_compute. reflexivity.
Defined.

Section Selector_ranking.
Import Types Selector.
Context {F : Type}
        (flt fgt : F → F → bool)
        (fadd fsub fmul : F → F → F)
        (fdiv : F → F → option F)
        (float_of_nat : nat → F)
        (zero one neg_inf : F).

Local Abbreviation candidate := (CandidateQuote F).
Local Abbreviation mmr := (mmr_score fgt fadd fsub fmul fdiv float_of_nat zero one).
Local Abbreviation sel := (select_loop fgt fadd fsub fmul fdiv float_of_nat zero one).
Local Abbreviation best :=
  (select_best fgt fadd fsub fmul fdiv float_of_nat zero one neg_inf).
Local Abbreviation loop :=
  (mmr_loop fgt fadd fsub fmul fdiv float_of_nat zero one neg_inf).
Local Abbreviation rank :=
  (rank_candidates flt fgt fadd fsub fmul fdiv float_of_nat zero one neg_inf).

(** The index the selection loop returns is one of the pool. *)
Lemma select_loop_index lam ranked (rem : list candidate) :
  ∀ i0 m0 idx0 k,
    sel lam ranked i0 rem m0 idx0 = Some (Some k) →
    idx0 = Some k ∨ (i0 ≤ k < i0 + length rem)%nat.
Proof.
  induction rem as [|c tl IH]; intros i0 m0 idx0 k; simpl.
  - intros [= <-]. by left.
  - destruct (mmr lam ranked c) as [m|]; [|discriminate].
    destruct (fgt m m0); intros Hrun; apply IH in Hrun as [H|H].
    + injection H as <-. right. lia.
    + right. lia.
    + by left.
    + right. lia.
Qed.

(** When some candidate of the pool scores above the running maximum,
    the loop returns an index. *)
Lemma select_loop_some lam ranked (rem : list candidate) :
  ∀ i0 m0 idx0 res,
    sel lam ranked i0 rem m0 idx0 = Some res →
    is_Some idx0 ∨
      (∃ c m, c ∈ rem ∧ mmr lam ranked c = Some m ∧ fgt m m0 = true) →
    is_Some res.
Proof.
  induction rem as [|c tl IH]; intros i0 m0 idx0 res; simpl.
  - intros [= <-] [H|(c & m & Hc & _)]; [done | by apply elem_of_nil in Hc].
  - destruct (mmr lam ranked c) as [m|] eqn:Hm; [|discriminate].
    destruct (fgt m m0) eqn:Hgt; intros Hrun Hsome.
    + eapply IH; [exact Hrun|]. left. by eexists.
    + eapply IH; [exact Hrun|].
      destruct Hsome as [H|(c' & m' & Hc & Hm' & Hgt')]; [by left|].
      apply elem_of_cons in Hc as [->|Hc]; [congruence|].
      right. by exists c', m'.
Qed.

(** The loop moves candidates from the pool to the ranking, one at a
    time. *)
Lemma mmr_loop_moves fuel lam total :
  ∀ (ranked remaining res : list candidate),
    loop fuel lam total ranked remaining = Some res →
    ∃ picked rest, res = ranked ++ picked ∧ picked ++ rest ≡ₚ remaining.
Proof.
  induction fuel as [|fuel IH]; intros ranked remaining res; simpl.
  - intros [= <-]. exists [], remaining. by rewrite app_nil_r.
  - destruct remaining as [|c tl].
    { intros [= <-]. exists [], []. by rewrite app_nil_r. }
    destruct (negb _).
    { intros [= <-]. exists [], (c :: tl). by rewrite app_nil_r. }
    destruct (best lam ranked (c :: tl)) as [[i|]|]; [|..|discriminate].
    + destruct ((c :: tl) !! i) as [chosen|] eqn:Hi.
      * intros Hrun. apply IH in Hrun as (picked & rest & -> & Hperm).
        exists (chosen :: picked), rest. split; [by rewrite <- app_assoc|].
        rewrite <- app_comm_cons, Hperm. symmetry. by apply delete_Permutation.
      * intros [= <-]. exists [], (c :: tl). by rewrite app_nil_r.
    + intros [= <-]. exists [], (c :: tl). by rewrite app_nil_r.
Qed.

Lemma mmr_loop_complete fuel lam total :
  ∀ (ranked remaining res : list candidate),
    (∀ ranked' c m, c ∈ remaining → mmr lam ranked' c = Some m →
       fgt m neg_inf = true) →
    (length remaining ≤ fuel)%nat →
    (length ranked + length remaining ≤ total)%nat →
    loop fuel lam total ranked remaining = Some res →
    res ≡ₚ ranked ++ remaining.
Proof.
  induction fuel as [|fuel IH]; intros ranked remaining res Hfin Hfuel Htotal; simpl.
  - destruct remaining; [|simpl in Hfuel; lia]. intros [= <-]. by rewrite app_nil_r.
  - destruct remaining as [|c tl].
    { intros [= <-]. by rewrite app_nil_r. }
    destruct (length ranked <? total)%nat eqn:Hlt; cbn [negb].
    2:{ apply Nat.ltb_ge in Hlt. simpl in Htotal. lia. }
    destruct (best lam ranked (c :: tl)) as [[i|]|] eqn:Hbest; [|..|discriminate].
    + pose proof (select_loop_index _ _ _ _ _ _ _ Hbest) as [H|H]; [done|].
      destruct (lookup_lt_is_Some_2 (c :: tl) i ltac:(lia)) as [chosen Hi].
      rewrite Hi. intros Hrun.
      assert (Hdel : length (delete i (c :: tl)) = length tl).
      { rewrite length_delete; [|by eexists]. simpl. lia. }
      pose proof (delete_Permutation _ _ _ Hi) as Hp.
      apply IH in Hrun.
      * rewrite Hrun, <- app_assoc. apply Permutation_app_head. simpl.
        by symmetry.
      * intros ranked' c' m Hc'. apply Hfin. rewrite Hp. by right.
      * rewrite Hdel. simpl in Hfuel. lia.
      * rewrite length_app, Hdel. simpl in *. lia.
    + exfalso. unfold select_best in Hbest.
      destruct (mmr lam ranked c) as [m|] eqn:Hm.
      * assert (Hs : is_Some (@None nat)); [|by destruct Hs].
        eapply select_loop_some; [exact Hbest|].
        right. exists c, m. repeat split; [by left | done |].
        eapply Hfin; [|exact Hm]. by left.
      * simpl in Hbest. by rewrite Hm in Hbest.
Qed.

(** The result holds candidates of the input only, and starts as the
    sorted input does. *)
Lemma rank_candidates_submseteq
    (mmr_lambda : F) (lambda_param : option F)
    (candidates res : list candidate) :
  rank mmr_lambda candidates lambda_param = Some res →
  res ⊆+ candidates ∧ head res = head (sorted_by_score flt candidates).
Proof.
  unfold rank_candidates.
  destruct candidates as [|c0 cs]; [by intros [= <-]|].
  set (sorted := sorted_by_score flt (c0 :: cs)).
  assert (Hperm : sorted ≡ₚ c0 :: cs) by apply sorted_by_score_perm.
  destruct (length sorted <=? 1)%nat eqn:Hlen.
  { intros [= <-]. split; [by rewrite Hperm | done]. }
  destruct sorted as [|first rest] eqn:Hs.
  { by apply Permutation_nil_cons in Hperm. }
  intros Hrun.
  apply mmr_loop_moves in Hrun as (picked & others & -> & Hp).
  split; [|done].
  rewrite <- Hperm. simpl. apply submseteq_skip.
  rewrite <- Hp. by apply submseteq_inserts_r.
Qed.

(** X13.  [rank_candidates] reorders and never invents: what it returns
    holds each candidate at most as often as the input does, and starts
    with the first candidate of the input sorted by score; when every
    MMR score computed for a candidate is greater than minus infinity
    (no NaN among the scores), the result is a permutation of the
    input, so no candidate is dropped. *)
Theorem rank_candidates_keeps_candidates
    (mmr_lambda : F) (lambda_param : option F)
    (candidates res : list candidate) :
  rank mmr_lambda candidates lambda_param = Some res →
  res ⊆+ candidates ∧
  head res = head (sorted_by_score flt candidates) ∧
  ((∀ ranked c m, c ∈ candidates →
      mmr (default mmr_lambda lambda_param) ranked c = Some m →
      fgt m neg_inf = true) →
   res ≡ₚ candidates).
Proof.
  intros Hrun.
  destruct (rank_candidates_submseteq _ _ _ _ Hrun) as [Hsub Hhead].
  split; [done|]. split; [done|].
  unfold rank_candidates in Hrun.
  destruct candidates as [|c0 cs]; [by injection Hrun as <-|].
  set (sorted := sorted_by_score flt (c0 :: cs)) in *.
  assert (Hperm : sorted ≡ₚ c0 :: cs) by apply sorted_by_score_perm.
  destruct (length sorted <=? 1)%nat eqn:Hlen.
  { by injection Hrun as <-. }
  destruct sorted as [|first rest] eqn:Hs.
  { by apply Permutation_nil_cons in Hperm. }
  intros Hfin. rewrite <- Hperm. change (first :: rest) with ([first] ++ rest).
  eapply mmr_loop_complete; [| | |exact Hrun]; [|simpl; lia..].
  intros ranked c m Hc. apply Hfin. rewrite <- Hperm. by right.
Qed.

(** The first element of the sorted list has a score no other score is
    less than, when [<] on the scores is a strict weak order. *)
Lemma insert_by_score_head (c : candidate) l :
  head (insert_by_score flt c l) =
    match head l with
    | Some d => if flt (score d) (score c) then Some d else Some c
    | None => Some c
    end.
Proof. destruct l as [|d l]; simpl; [done|]. by destruct (flt _ _). Qed.

Lemma sorted_by_score_head_minimal (l : list candidate) first :
  (∀ a b, flt a b = true → flt b a = false) →
  (∀ a b c, flt a c = true → flt a b = true ∨ flt b c = true) →
  head (sorted_by_score flt l) = Some first →
  first ∈ l ∧ ∀ c, c ∈ l → flt (score c) (score first) = false.
Proof.
  intros Hasym Hneg. revert first.
  induction l as [|c l IH]; intros first; simpl; [done|].
  rewrite insert_by_score_head.
  destruct (head (sorted_by_score flt l)) as [d|] eqn:Hd.
  - destruct (IH d eq_refl) as [Hin Hmin].
    destruct (flt (score d) (score c)) eqn:Hdc; intros [= <-].
    + split; [by right|]. intros x [->|Hx]%elem_of_cons; [by apply Hasym | by apply Hmin].
    + split; [by left|]. intros x [->|Hx]%elem_of_cons.
      * destruct (flt (score c) (score c)) eqn:E; [|done].
        by rewrite (Hasym _ _ E) in E.
      * destruct (flt (score x) (score c)) eqn:E; [|done].
        destruct (Hneg _ (score d) _ E) as [H|H]; [|congruence].
        by rewrite (Hmin x Hx) in H.
  - intros [= <-]. destruct l as [|x l]; [|simpl in Hd].
    + split; [by left|]. intros x [->|Hx]%elem_of_cons.
      * destruct (flt (score c) (score c)) eqn:E; [|done].
        by rewrite (Hasym _ _ E) in E.
      * by apply elem_of_nil in Hx.
    + rewrite insert_by_score_head in Hd. by repeat case_match.
Qed.

(** X14.  The candidate ranked first is always a best-scoring one:
    whatever lambda is, the first element of the result of
    [rank_candidates] is a candidate whose score no candidate's score is
    less than, when [<] on the scores is a strict weak order (as it is
    on floats that are not NaN). *)
Theorem rank_candidates_best_first
    (mmr_lambda : F) (lambda_param : option F)
    (candidates res : list candidate) (first : candidate) :
  (∀ a b, flt a b = true → flt b a = false) →
  (∀ a b c, flt a c = true → flt a b = true ∨ flt b c = true) →
  rank_candidates flt fgt fadd fsub fmul fdiv float_of_nat zero one neg_inf
    mmr_lambda candidates lambda_param = Some res →
  head res = Some first →
  first ∈ candidates ∧
  ∀ c, c ∈ candidates → flt (score c) (score first) = false.
Proof.
  intros Hasym Hneg Hrun Hhead.
  apply (sorted_by_score_head_minimal candidates first Hasym Hneg).
  rewrite <- Hhead. symmetry.
  by destruct (rank_candidates_submseteq _ _ _ _ Hrun).
Qed.

End Selector_ranking.

Lemma xrat_max_similarity_finite text ranked : ∀ q m,
  Selector.max_similarity_loop Selector.xgt Selector.xdiv Selector.x_of_nat
    (Selector.Fin 0) text ranked (Selector.Fin q) = Some m →
  ∃ q', m = Selector.Fin q'.
Proof.
  induction ranked as [|c tl IH]; intros q m; simpl.
  - intros [= <-]. by eexists.
  - unfold Selector.compute_similarity.
    destruct (_ || _).
    + unfold Selector.py_max. destruct (Selector.xgt _ _); apply IH.
    + unfold Selector.xdiv, Selector.x_of_nat.
      destruct (Qeq_bool _ _); [discriminate|].
      unfold Selector.py_max. destruct (Selector.xgt _ _); apply IH.
Qed.

Lemma rank_candidates_keeps_candidates_witness :
  ∃ res, Selector.xrank (Selector.Fin (3 # 5)) Selector.example_candidates None
           = Some res ∧
         res ≡ₚ Selector.example_candidates.
Proof.
  eexists. split; [vm_compute; reflexivity|].
  eapply (rank_candidates_keeps_candidates Selector.xlt Selector.xgt
            (Selector.xlift Qplus) (Selector.xlift Qminus) (Selector.xlift Qmult)
            Selector.xdiv Selector.x_of_nat (Selector.Fin 0) (Selector.Fin 1)
            Selector.NegInf (Selector.Fin (3 # 5)) None
            Selector.example_candidates).
  - vm_compute. reflexivity.
  - intros ranked c m Hc. unfold Selector.mmr_score.
    assert (Hs : ∃ q, Types.score c = Selector.Fin q).
    { unfold Selector.example_candidates in Hc.
      repeat (apply elem_of_cons in Hc as [->|Hc]; [by eexists|]).
      by apply elem_of_nil in Hc. }
    destruct Hs as [q ->]. cbn [Selector.xlift Selector.xdiv].
    destruct (Qeq_bool _ _); [discriminate|].
    destruct (Selector.max_similarity_loop _ _ _ _ _ _ _) as [ms|] eqn:Hms;
      [|discriminate].
    apply xrat_max_similarity_finite in Hms as [q' ->].
    intros [= <-]. reflexivity.
Defined.

Lemma rank_candidates_best_first_witness :
  ∃ res first,
    Selector.xrank (Selector.Fin (3 # 5)) Selector.example_candidates None
      = Some res ∧ head res = Some first ∧
    first ∈ Selector.example_candidates ∧
    ∀ c, c ∈ Selector.example_candidates →
      Selector.xlt (Types.score c) (Types.score first) = false.
Proof.
  eexists _, _. split; [vm_compute; reflexivity|]. split; [reflexivity|].
  eapply (rank_candidates_best_first Selector.xlt Selector.xgt
            (Selector.xlift Qplus) (Selector.xlift Qminus) (Selector.xlift Qmult)
            Selector.xdiv Selector.x_of_nat (Selector.Fin 0) (Selector.Fin 1)
            Selector.NegInf (Selector.Fin (3 # 5)) None
            Selector.example_candidates).
  - apply xlt_asym.
  - apply xlt_negative_transitive.
  - vm_compute. reflexivity.
  - reflexivity.
Defined.

Section Selection_keys.
Import Types Selection.
Context {F : Type}.
Local Abbreviation candidate := (CandidateQuote F).

(** The key [filter_candidates] looks up is the key [translate_line]
    marks, for a reference with a title whose act and scene are not
    [None]. *)
Lemma reference_key_ref_key_of (ref : ReferenceDict) :
  is_Some (ref !! "title") →
  ref !! "act" ≠ Some VNone → ref !! "scene" ≠ Some VNone →
  reference_key ref = TranslationManager.ref_key_of ref.
Proof.
  intros [t Ht] Ha Hs.
  unfold reference_key, TranslationManager.ref_key_of, Validator.get.
  rewrite Ht. cbn [default from_option id].
  destruct (ref !! "act") as [[]|]; try done;
    destruct (ref !! "scene") as [[]|]; done.
Qed.

(** With a comma in the word index, the main path and the failsafe mark
    the word indices [filter_candidates] looks up. *)
Lemma check_word_index_comma (ref : ReferenceDict) s wi :
  Validator.get ref "word_index" (VStr "") = VStr s →
  Py.contains_char "," s = true →
  TranslationManager.word_indices_main ref = Some wi ∨
  TranslationManager.word_indices_failsafe ref = Some wi →
  check_word_index ref = Indices wi.
Proof.
  intros Hs Hcomma Hwi.
  assert (Hparse : (λ r, TranslationManager.int_range (fst r) (snd r))
                     <$> Validator.parse_range "," s = Some wi).
  { unfold TranslationManager.word_indices_main,
      TranslationManager.word_indices_failsafe in Hwi.
    rewrite Hs, Hcomma in Hwi.
    destruct (Py.is_empty s); [by destruct Hwi|]. by destruct Hwi. }
  unfold check_word_index. rewrite Hs, Hcomma.
  destruct (Py.is_empty s) eqn:He.
  { apply is_empty_true in He. by subst. }
  unfold Validator.parse_range in Hparse.
  destruct (Py.split_char "," s) as [|a [|b [|? ?]]]; try discriminate.
  destruct (Py.int_of_str a), (Py.int_of_str b); try discriminate.
  by injection Hparse as <-.
Qed.

(** X15.  What [translate_line] marks, [filter_candidates] drops.  In a
    session whose id is set, after the word indices of a reference have
    been marked under the manager's key, no candidate with that
    reference passes the filter, when the reference has a title, its
    act and scene are not [None], and its word index is written with a
    comma, as the chunkers write it. *)
Theorem marked_reference_is_filtered
    (s : UsedMap.t) (tid : string) (ref : ReferenceDict) (word_index : string)
    (wi : list Z) (cand : candidate) (candidates : list candidate) :
  UsedMap.active_translation_id s = Some tid → tid ≠ "" →
  is_Some (ref !! "title") →
  ref !! "act" ≠ Some VNone → ref !! "scene" ≠ Some VNone →
  Validator.get ref "word_index" (VStr "") = VStr word_index →
  Py.contains_char "," word_index = true →
  TranslationManager.word_indices_main ref = Some wi ∨
  TranslationManager.word_indices_failsafe ref = Some wi →
  reference cand = ref →
  cand ∉ filter_candidates
           (UsedMap.mark_used (TranslationManager.ref_key_of ref)
              (UsedMap.RangeList wi) s)
           candidates.
Proof.
  intros Hact Hne Ht Ha Hs Hw Hcomma Hwi Href Hin.
  unfold filter_candidates in Hin.
  apply list_elem_of_In, filter_In in Hin as [_ Hkeep].
  unfold keeps in Hkeep. rewrite Href in Hkeep.
  destruct (_ || _); [discriminate|].
  rewrite (check_word_index_comma ref word_index wi Hw Hcomma Hwi) in Hkeep.
  rewrite (reference_key_ref_key_of ref Ht Ha Hs) in Hkeep.
  by rewrite (was_used_mark_used _ _ s tid Hact Hne) in Hkeep.
Qed.

Lemma append_inj_l (p x y : string) : p +:+ x = p +:+ y → x = y.
Proof. apply (inj (String.app p)). Qed.



End Selection_keys.

Section Selection_prompt.
Import Types Selection.
Context {F : Type}
        (flt fgt : F → F → bool)
        (fadd fsub fmul : F → F → F)
        (fdiv : F → F → option F)
        (float_of_nat : nat → F)
        (zero one neg_inf : F).

Local Abbreviation candidate := (CandidateQuote F).
Local Abbreviation top_of :=
  (level_top flt fgt fadd fsub fmul fdiv float_of_nat zero one neg_inf).
Local Abbreviation prepare :=
  (prepare_prompt_structure flt fgt fadd fsub fmul fdiv float_of_nat zero one neg_inf).

(** [f"{level}_{i + 1}"] *)
Local Abbreviation key_of level i := (level +:+ "_" +:+ Py.str_of_nat (i + 1)).

Lemma key_of_inj level i j : key_of level i = key_of level j → i = j.
Proof.
  intros E. do 2 apply append_inj_l in E.
  apply (inj pretty) in E. lia.
Qed.

Lemma level_map_snoc level (top : list candidate) x m :
  level_map level (top ++ [x]) m
  = <[key_of level (length top) := x]> (level_map level top m).
Proof.
  unfold level_map. rewrite imap_app, foldl_app. simpl.
  by rewrite Nat.add_0_r.
Qed.

Lemma level_map_lookup_in level (top : list candidate) m : ∀ i c,
  top !! i = Some c → level_map level top m !! key_of level i = Some c.
Proof.
  induction top as [|x top IH] using rev_ind; intros i c Hi; [done|].
  rewrite level_map_snoc.
  destruct (decide (i = length top)) as [->|Hne].
  - rewrite lookup_insert_eq. by rewrite list_lookup_middle in Hi.
  - rewrite lookup_insert_ne by (intros E; by apply key_of_inj in E).
    apply IH. apply lookup_lt_Some in Hi as Hlt.
    rewrite length_app in Hlt. simpl in Hlt.
    by rewrite lookup_app_l in Hi by lia.
Qed.

Lemma level_map_lookup_Some level (top : list candidate) m key c :
  level_map level top m !! key = Some c →
  m !! key = Some c ∨ ∃ i, top !! i = Some c ∧ key = key_of level i.
Proof.
  induction top as [|x top IH] using rev_ind; [by left|].
  rewrite level_map_snoc.
  destruct (decide (key = key_of level (length top))) as [->|Hne].
  - rewrite lookup_insert_eq. intros [= <-]. right.
    exists (length top). by rewrite list_lookup_middle.
  - rewrite lookup_insert_ne by done. intros H.
    destruct (IH H) as [?|(i & Hi & ->)]; [by left|].
    right. exists i. split; [|done]. by apply lookup_app_l_Some.
Qed.

Lemma level_map_lookup_other level (top : list candidate) m key :
  (∀ i, key ≠ key_of level i) →
  level_map level top m !! key = m !! key.
Proof.
  intros Hkey. induction top as [|x top IH] using rev_ind; [done|].
  rewrite level_map_snoc, lookup_insert_ne; [done|]. intros E. by eapply Hkey.
Qed.

Lemma level_options_lookup level (top : list candidate) i o :
  level_options level top !! i = Some o →
  ∃ c, top !! i = Some c ∧ temp_id o = key_of level i ∧ form o = level ∧
       option_text o = text c ∧ option_score o = score c.
Proof.
  unfold level_options. rewrite list_lookup_imap.
  destruct (top !! i) as [c|]; [|done]. intros [= <-]. by exists c.
Qed.

(** The candidates of a level that reach the prompt: at most five, all
    of them candidates of the level that pass the filter. *)
Lemma level_top_spec used_map mmr_lambda (candidates top : list candidate) :
  top_of used_map mmr_lambda candidates = Some top →
  (length top ≤ 5)%nat ∧
  ∀ c, c ∈ top → c ∈ candidates ∧ keeps used_map c = true.
Proof.
  unfold level_top.
  destruct (filter_candidates used_map candidates) as [|f fs] eqn:Hf.
  { intros [= <-]. split; [simpl; lia|]. intros c H. by apply elem_of_nil in H. }
  destruct (Selector.rank_candidates _ _ _ _ _ _ _ _ _ _ _ _ _) as [ranked|] eqn:Hr;
    [|discriminate].
  intros [= <-]. split.
  { rewrite length_take. unfold max_options. lia. }
  intros c Hc.
  apply rank_candidates_submseteq in Hr as [Hsub _].
  assert (Hin : c ∈ f :: fs).
  { eapply elem_of_submseteq; [|exact Hsub].
    apply elem_of_take in Hc as (i & Hi & _). by eapply list_elem_of_lookup_2. }
  rewrite <- Hf in Hin. unfold filter_candidates in Hin.
  apply list_elem_of_In, filter_In in Hin as [Hin Hk].
  split; [by apply list_elem_of_In | done].
Qed.

(** X17.  The prompt and the chunk map of [prepare_prompt_structure]
    agree.  The prompt has the three levels in order, each with at most
    five options; option [i] (from 0) of a level has the id
    ["{level}_{i+1}"], and the chunk map sends that id to a candidate of
    that level with the text and score of the option, one that passed
    [filter_candidates]; every key of the chunk map is the id of an
    option. *)
Theorem prepare_prompt_structure_consistent
    (used_map : UsedMap.t) (selector_results : gmap string (list candidate))
    (mmr_lambda : F)
    (prompt_data : list (string * list (prompt_option F)))
    (chunk_map : gmap string candidate) :
  prepare used_map selector_results mmr_lambda = Some (prompt_data, chunk_map) →
  fst <$> prompt_data = ["line"; "phrases"; "fragments"] ∧
  (∀ level opts, (level, opts) ∈ prompt_data →
     (length opts ≤ 5)%nat ∧
     ∀ i o, opts !! i = Some o →
       temp_id o = key_of level i ∧ form o = level ∧
       ∃ cand, chunk_map !! temp_id o = Some cand ∧
               option_text o = text cand ∧ option_score o = score cand ∧
               cand ∈ default [] (selector_results !! level) ∧
               keeps used_map cand = true) ∧
  (∀ key cand, chunk_map !! key = Some cand →
     ∃ level opts o, (level, opts) ∈ prompt_data ∧ o ∈ opts ∧ temp_id o = key).
Proof.
  unfold prepare_prompt_structure. cbn [levels_loop].
  destruct (top_of used_map mmr_lambda (default [] (selector_results !! "line")))
    as [t1|] eqn:H1; [|discriminate].
  destruct (top_of used_map mmr_lambda (default [] (selector_results !! "phrases")))
    as [t2|] eqn:H2; [|discriminate].
  destruct (top_of used_map mmr_lambda (default [] (selector_results !! "fragments")))
    as [t3|] eqn:H3; [|discriminate].
  intros [= <- <-].
  apply level_top_spec in H1 as [Hl1 Hc1], H2 as [Hl2 Hc2], H3 as [Hl3 Hc3].
  set (m1 := level_map "line" t1 ∅).
  set (m2 := level_map "phrases" t2 m1).
  set (m3 := level_map "fragments" t3 m2).
  assert (Hopts : ∀ level top,
    (length top ≤ 5)%nat →
    (∀ c, c ∈ top → c ∈ default [] (selector_results !! level) ∧
                    keeps used_map c = true) →
    (∀ i c, top !! i = Some c → m3 !! key_of level i = Some c) →
    (length (level_options level top) ≤ 5)%nat ∧
    ∀ i o, level_options level top !! i = Some o →
      temp_id o = key_of level i ∧ form o = level ∧
      ∃ cand, m3 !! temp_id o = Some cand ∧
              option_text o = text cand ∧ option_score o = score cand ∧
              cand ∈ default [] (selector_results !! level) ∧
              keeps used_map cand = true).
  { intros level top Hlen Hc Hm. split.
    { unfold level_options. by rewrite length_imap. }
    intros i o Ho.
    apply level_options_lookup in Ho as (c & Hi & Hid & Hform & Ht & Hs).
    repeat split; [done..|]. exists c. rewrite Hid.
    destruct (Hc c) as [Hin Hk]; [by eapply list_elem_of_lookup_2|].
    repeat split; try done. by apply Hm. }
  split; [done|]. split.
  - intros level opts Hin.
    apply elem_of_cons in Hin as [[= -> ->]|Hin];
      [|apply elem_of_cons in Hin as [[= -> ->]|Hin];
        [|apply elem_of_cons in Hin as [[= -> ->]|Hin];
          [|by apply elem_of_nil in Hin]]];
      apply Hopts; try done.
    + intros i c Hi. subst m3 m2.
      rewrite !level_map_lookup_other by (intros j; discriminate).
      by apply level_map_lookup_in.
    + intros i c Hi. subst m3.
      rewrite level_map_lookup_other by (intros j; discriminate).
      by apply level_map_lookup_in.
    + intros i c Hi. by apply level_map_lookup_in.
  - intros key cand Hkey.
    assert (Hfound : ∀ level top i,
      top !! i = Some cand → key = key_of level i →
      ∃ o, o ∈ level_options level top ∧ temp_id o = key).
    { intros level top i Hi ->.
      eexists. split.
      - eapply list_elem_of_lookup_2. unfold level_options.
        rewrite list_lookup_imap, Hi. simpl. reflexivity.
      - reflexivity. }
    apply level_map_lookup_Some in Hkey as [Hkey|(i & Hi & Hk)].
    2:{ destruct (Hfound _ _ _ Hi Hk) as (o & Ho & Hid).
        exists "fragments", (level_options "fragments" t3), o.
        split; [|done]. do 2 right. left. }
    apply level_map_lookup_Some in Hkey as [Hkey|(i & Hi & Hk)].
    2:{ destruct (Hfound _ _ _ Hi Hk) as (o & Ho & Hid).
        exists "phrases", (level_options "phrases" t2), o.
        split; [|done]. right. left. }
    apply level_map_lookup_Some in Hkey as [Hkey|(i & Hi & Hk)]; [done|].
    destruct (Hfound _ _ _ Hi Hk) as (o & Ho & Hid).
    exists "line", (level_options "line" t1), o.
    split; [|done]. left.
Qed.

End Selection_prompt.

Lemma marked_reference_is_filtered_witness :
  let s := TranslationManager.used_map TranslationManager.started_state in
  TranslationManager.example_quote ∉
    Selection.filter_candidates
      (UsedMap.mark_used
         (TranslationManager.ref_key_of TranslationManager.example_reference)
         (UsedMap.RangeList [0; 1; 2; 3]%Z) s)
      [TranslationManager.example_quote].
Proof.
  intros s.
  apply (marked_reference_is_filtered s "t1"
           TranslationManager.example_reference "0,3" [0; 1; 2; 3]%Z
           TranslationManager.example_quote [TranslationManager.example_quote]).
  - reflexivity.
  - discriminate.
  - by eexists.
  - vm_compute. discriminate.
  - vm_compute. discriminate.
  - reflexivity.
  - reflexivity.
  - left. vm_compute. reflexivity.
  - reflexivity.
Defined.


Lemma prepare_prompt_structure_consistent_witness :
  ∃ prompt_data chunk_map,
    Selection.prepare_prompt_structure Selector.xlt Selector.xgt
      (Selector.xlift Qplus) (Selector.xlift Qminus) (Selector.xlift Qmult)
      Selector.xdiv Selector.x_of_nat (Selector.Fin 0) (Selector.Fin 1)
      Selector.NegInf
      (TranslationManager.used_map TranslationManager.started_state)
      {[ "fragments" := Selector.example_candidates ]} (Selector.Fin (3 # 5))
    = Some (prompt_data, chunk_map) ∧
    fst <$> prompt_data = ["line"; "phrases"; "fragments"] ∧
    ∀ key cand, chunk_map !! key = Some cand →
      ∃ level opts o, (level, opts) ∈ prompt_data ∧ o ∈ opts ∧
                      Selection.temp_id o = key.
Proof.
  destruct (Selection.prepare_prompt_structure Selector.xlt Selector.xgt
      (Selector.xlift Qplus) (Selector.xlift Qminus) (Selector.xlift Qmult)
      Selector.xdiv Selector.x_of_nat (Selector.Fin 0) (Selector.Fin 1)
      Selector.NegInf
      (TranslationManager.used_map TranslationManager.started_state)
      {[ "fragments" := Selector.example_candidates ]} (Selector.Fin (3 # 5)))
    as [[prompt_data chunk_map]|] eqn:Hrun.
  - exists prompt_data, chunk_map. split; [reflexivity|].
    destruct (prepare_prompt_structure_consistent _ _ _ _ _ _ _ _ _ _ _ _ _ _ _ Hrun)
      as (Hlevels & _ & Hkeys).
    split; [exact Hlevels | exact Hkeys].
  - vm_compute in Hrun. discriminate Hrun.
Defined.

Section Assembly_properties.
Import Assembler TranslationManager Assembly.
Context (respond : nat → string → quote_data → outcome string)
        (parse : string → option string)
        (shuffle : nat → nat → list prompt_entry → list prompt_entry).

Local Abbreviation run_attempts := (attempts respond parse shuffle).

Lemma collect_entries_metadata quotes n :
  Metadata n ∈ quotes → collect_entries quotes = None.
Proof.
  induction quotes as [|[tid text|m] tl IH]; simpl.
  - intros H. by apply elem_of_nil in H.
  - intros [[=]|H]%elem_of_cons. by rewrite IH.
  - done.
Qed.

Lemma collect_quotes_metadata (qd : quote_data) form quotes n :
  (form, quotes) ∈ qd → Metadata n ∈ quotes → collect_quotes qd = None.
Proof.
  intros Hin Hm. induction qd as [|[f qs] tl IH]; simpl.
  - by apply elem_of_nil in Hin.
  - apply elem_of_cons in Hin as [[= <- <-]|Hin].
    + by rewrite (collect_entries_metadata _ _ Hm).
    + destruct (collect_entries qs); [|done]. by rewrite IH.
Qed.

(** On a prompt with the metadata entry [_mini_validate] raises, whatever
    the line is. *)
Lemma mini_validate_metadata line (qd : quote_data) form quotes n :
  (form, quotes) ∈ qd → Metadata n ∈ quotes → _mini_validate line qd = MiniRaise.
Proof.
  intros Hin Hm. unfold _mini_validate.
  by rewrite (collect_quotes_metadata _ _ _ _ Hin Hm).
Qed.

Lemma dict_set_elem key options (d : quote_data) :
  (key, options) ∈ dict_set key options d.
Proof.
  induction d as [|[k v] tl IH]; simpl; [by left|].
  destruct (String.eqb k key); [by left | by right].
Qed.

Lemma removelast_submseteq {A} (l : list A) : removelast l ⊆+ l.
Proof.
  induction l as [|x [|y l] IH]; simpl; [done| |].
  - by apply submseteq_cons.
  - by apply submseteq_skip.
Qed.

Lemma pop_if_many_submseteq options : pop_if_many options ⊆+ options.
Proof.
  unfold pop_if_many. destruct (1 <? _)%nat; [apply removelast_submseteq | done].
Qed.

Lemma pop_if_many_single (x : prompt_entry) : pop_if_many [x] = [x].
Proof. done. Qed.

Section Shuffled.
Hypothesis shuffle_perm : ∀ i k l, shuffle i k l ≡ₚ l.

(** The retry step keeps the metadata entry: a single option is neither
    removed nor changed by a shuffle. *)
Lemma pop_and_shuffle_single i (w : quote_data) form x :
  (form, [x]) ∈ w → (form, [x]) ∈ pop_and_shuffle shuffle i w.
Proof.
  intros [k Hk]%list_elem_of_lookup_1. unfold pop_and_shuffle.
  apply elem_of_lookup_imap. exists k, (form, [x]). split; [|done].
  simpl. rewrite pop_if_many_single. f_equal.
  symmetry. apply Permutation_singleton_r. apply shuffle_perm.
Qed.

(** The retry step makes no option up. *)
Lemma imap_options_submseteq (g : nat → list prompt_entry → list prompt_entry)
    (w : quote_data) :
  (∀ k l, g k l ⊆+ l) →
  options_of (imap (λ k kv, (fst kv, g k (snd kv))) w) ⊆+ options_of w.
Proof.
  unfold options_of. revert g. induction w as [|[f qs] tl IH]; intros g Hg; [done|].
  rewrite imap_cons. simpl. apply submseteq_app; [apply Hg|].
  apply (IH (g ∘ S)). intros k l. apply Hg.
Qed.

Lemma pop_and_shuffle_options i (w : quote_data) :
  options_of (pop_and_shuffle shuffle i w) ⊆+ options_of w.
Proof.
  unfold pop_and_shuffle.
  apply (imap_options_submseteq (λ k l, shuffle i k (pop_if_many l))).
  intros k l. rewrite shuffle_perm. apply pop_if_many_submseteq.
Qed.

(** With the metadata entry in the prompt, no attempt ends with an
    assembled line: an attempt whose reply has a text raises. *)
Lemma attempts_metadata left : ∀ retries modern_line (w : quote_data) form n,
  (form, [Metadata n]) ∈ w →
  run_attempts left retries modern_line w = Return None ∨
  ∃ e, run_attempts left retries modern_line w = Raise e.
Proof.
  induction left as [|left IH]; intros retries modern_line w form n Hin; simpl.
  - by left.
  - set (w' := if (0 <? retries)%nat then pop_and_shuffle shuffle retries w else w).
    assert (Hin' : (form, [Metadata n]) ∈ w').
    { unfold w'. destruct (0 <? retries)%nat; [|done].
      by apply pop_and_shuffle_single. }
    destruct (respond retries modern_line w') as [response|e]; [|right; by eexists].
    destruct (_extract_output parse response) as [line|].
    + rewrite (mini_validate_metadata line w' form [Metadata n] n Hin')
        by (by left).
      right. by eexists.
    + by eapply IH.
Qed.

(** An assembled line comes from the mini-validation of a reply against
    options of the prompt. *)
Lemma attempts_options left : ∀ retries modern_line (w : quote_data) r,
  run_attempts left retries modern_line w = Return (Some r) →
  ∃ (w' : quote_data) line,
    options_of w' ⊆+ options_of w ∧
    _mini_validate line w' = MiniDict (assembled_text r) (assembled_temp_ids r).
Proof.
  induction left as [|left IH]; intros retries modern_line w r; simpl; [done|].
  set (w' := if (0 <? retries)%nat then pop_and_shuffle shuffle retries w else w).
  assert (Hsub : options_of w' ⊆+ options_of w).
  { unfold w'. destruct (0 <? retries)%nat; [|done].
    apply pop_and_shuffle_options. }
  destruct (respond retries modern_line w') as [response|e]; [|done].
  assert (Hrec : run_attempts left (S retries) modern_line w' = Return (Some r) →
            ∃ (w'' : quote_data) line,
              options_of w'' ⊆+ options_of w ∧
              _mini_validate line w'' =
                MiniDict (assembled_text r) (assembled_temp_ids r)).
  { intros H. destruct (IH _ _ _ _ H) as (w'' & line & Hs & Hv).
    exists w'', line. split; [by etrans | done]. }
  destruct (_extract_output parse response) as [line|]; [|exact Hrec].
  destruct (_mini_validate line w') as [text ids| |] eqn:Hv; [|exact Hrec|done].
  intros [= <-]. by exists w', line.
Qed.

End Shuffled.

(** The listed quotes of a prompt are its options, in the same order. *)
Lemma collect_entries_options quotes all :
  collect_entries quotes = Some all →
  (λ q, Quote (temp_id q) (original q)) <$> all = quotes.
Proof.
  revert all. induction quotes as [|[tid text|m] tl IH]; simpl; intros all.
  - by intros [= <-].
  - destruct (collect_entries tl) as [l|]; [|done]. simpl.
    intros [= <-]. simpl. f_equal. by apply IH.
  - done.
Qed.

Lemma collect_quotes_options (qd : quote_data) all :
  collect_quotes qd = Some all →
  (λ q, Quote (temp_id q) (original q)) <$> all = options_of qd.
Proof.
  unfold options_of.
  revert all. induction qd as [|[f qs] tl IH]; simpl; intros all.
  - by intros [= <-].
  - destruct (collect_entries qs) as [l1|] eqn:E1; [|done].
    destruct (collect_quotes tl) as [l2|]; [|done]. simpl.
    intros [= <-]. rewrite fmap_app.
    by rewrite (collect_entries_options _ _ E1), (IH _ eq_refl).
Qed.

(** What [_mini_validate] returns is made of listed quotes: at most
    three, each used at most as often as it is listed, whose normal forms
    concatenate to the normal form of the line. *)
Lemma mini_validate_picks line (qd : quote_data) text ids :
  _mini_validate line qd = MiniDict text ids →
  text = line ∧
  ∃ all picks,
    collect_quotes qd = Some all ∧ picks ⊆+ all ∧ (length picks ≤ 3)%nat ∧
    ids = temp_id <$> picks ∧
    normalize_text line = concat_str (normalized <$> picks).
Proof.
  unfold _mini_validate.
  destruct (collect_quotes qd) as [all|] eqn:Hall; [|done].
  destruct (match_quotes normalized (normalize_text line) all)
    as [used|] eqn:Hm; [|done].
  intros [= <- <-]. split; [done|].
  set (normB := λ b : nat * listed_quote, normalized (snd b)).
  unfold match_quotes in Hm.
  rewrite <- (tagged_snd all) in Hm.
  rewrite <- (sort_desc_fmap snd normalized) in Hm.
  change (@nil listed_quote) with (snd <$> @nil (nat * listed_quote)) in Hm.
  rewrite (match_positions_fmap snd normalized) in Hm.
  fold normB in Hm.
  destruct (match_positions normB 3 (normalize_text line)
              (sort_desc normB (tagged all)) []) as [tused|] eqn:Ht; [|done].
  injection Hm as <-.
  assert (Hnd : NoDup (sort_desc normB (tagged all))).
  { rewrite sort_desc_perm. eapply NoDup_fmap_1, tagged_NoDup_fst. }
  destruct (match_positions_sound normB 3 _ _ _ _
              (sort_desc_sorted normB _) Hnd Ht)
    as (picks & rest & Hres & Hlen & Hrem & Hperm & _).
  simpl in Hres. subst tused. rewrite sort_desc_perm in Hperm.
  exists all, (snd <$> picks). split; [done|]. split; [|split; [|split]].
  - assert (Hsub : snd <$> picks ⊆+ snd <$> tagged all).
    { rewrite Hperm, fmap_app. by apply submseteq_inserts_r. }
    by rewrite tagged_snd in Hsub.
  - by rewrite length_fmap.
  - done.
  - rewrite Hrem, <- list_fmap_compose. reflexivity.
Qed.

(** X18.  An assembled line is made of the options given.  When
    [assemble_line] returns a result, its [temp_ids] name at most three
    options of the prompt it was called with, none more often than the
    prompt lists it, whatever the retries removed and shuffled, and the
    text is the concatenation of the texts of these options, in this
    order, up to case and to what is not a letter or a digit. *)
Theorem assemble_line_uses_given_options
    (modern_line : string) (prompt_data : quote_data) (max_retries : nat)
    (r : assembled) :
  (∀ i k l, shuffle i k l ≡ₚ l) →
  Assembly.assemble_line respond parse shuffle modern_line prompt_data max_retries
    = Return (Some r) →
  ∃ picks : list (string * string),
    (length picks ≤ 3)%nat ∧
    (λ p, Quote (fst p) (snd p)) <$> picks ⊆+ options_of prompt_data ∧
    assembled_temp_ids r = fst <$> picks ∧
    normalize_text (assembled_text r)
      = concat_str ((λ p, normalize_text (snd p)) <$> picks).
Proof.
  intros Hperm Hrun. unfold Assembly.assemble_line in Hrun.
  destruct (attempts_options Hperm _ _ _ _ _ Hrun) as (w & line & Hsub & Hv).
  destruct (mini_validate_picks _ _ _ _ Hv)
    as (-> & all & picks & Hall & Hp & Hlen & Hids & Htext).
  exists ((λ q, (temp_id q, original q)) <$> picks).
  rewrite length_fmap, <- !list_fmap_compose.
  split; [done|]. split; [|split].
  - etrans; [|exact Hsub]. rewrite <- (collect_quotes_options _ _ Hall).
    by apply fmap_submseteq.
  - done.
  - rewrite Htext. f_equal. apply list_fmap_ext. intros i q Hi. simpl.
    eapply collect_quotes_normalized; [exact Hall|].
    eapply elem_of_submseteq; [|exact Hp]. by eapply list_elem_of_lookup_2.
Qed.

(** X19.  With the entry [translate_line] adds to the prompt,
    [prompt_structure["metadata"] = [{"target_syllables": n}]],
    [assemble_line] never returns an assembled line: [_mini_validate]
    reads ["temp_id"] of every entry of the prompt, so the first attempt
    whose reply has a text raises [KeyError]; the call returns [None] when
    no reply has a text, and raises otherwise. *)
Theorem assemble_line_fails_on_metadata
    (modern_line : string) (prompt_data : quote_data) (n max_retries : nat) :
  (∀ i k l, shuffle i k l ≡ₚ l) →
  let prompt_structure := dict_set "metadata" [Metadata n] prompt_data in
  (∀ r, Assembly.assemble_line respond parse shuffle modern_line prompt_structure
          max_retries ≠ Return (Some r)) ∧
  (∀ response,
     respond 0 modern_line prompt_structure = Return response →
     is_Some (_extract_output parse response) →
     Assembly.assemble_line respond parse shuffle modern_line prompt_structure
       max_retries = Raise KeyError).
Proof.
  intros Hperm prompt_structure.
  assert (Hin : ("metadata", [Metadata n]) ∈ prompt_structure)
    by apply dict_set_elem.
  split.
  - intros r Hr. unfold Assembly.assemble_line in Hr.
    destruct (attempts_metadata Hperm (S max_retries) 0 modern_line _ _ _ Hin)
      as [H|[e H]]; rewrite H in Hr; discriminate Hr.
  - intros response Hresp [line Hline]. unfold Assembly.assemble_line. simpl.
    rewrite Hresp, Hline.
    rewrite (mini_validate_metadata line _ "metadata" [Metadata n] n Hin);
      [done | by left].
Qed.

End Assembly_properties.

Lemma assemble_line_uses_given_options_witness :
  ∃ picks : list (string * string),
    (length picks ≤ 3)%nat ∧
    (λ p, Assembler.Quote (fst p) (snd p)) <$> picks
      ⊆+ Assembly.options_of Assembler.example_quote_data ∧
    ["line_1"] = fst <$> picks ∧
    Assembler.normalize_text "To be, or not"
      = Assembler.concat_str ((λ p, Assembler.normalize_text (snd p)) <$> picks).
Proof.
  apply (assemble_line_uses_given_options
           Assembly.first_option_model Some Assembly.reversing_shuffle
           "Am I, or am I not?" Assembler.example_quote_data 1
           {| TranslationManager.assembled_text := "To be, or not";
              TranslationManager.assembled_temp_ids := ["line_1"] |}).
  - intros i k l. unfold Assembly.reversing_shuffle.
    symmetry. apply Permutation_rev.
  - vm_compute. reflexivity.
Defined.

Lemma assemble_line_fails_on_metadata_witness :
  let prompt_structure :=
    TranslationManager.dict_set "metadata" [Assembler.Metadata 5]
      Assembler.example_quote_data in
  (∀ r, Assembly.assemble_line Assembly.first_option_model Some
          Assembly.reversing_shuffle "Am I, or am I not?" prompt_structure 1
        ≠ TranslationManager.Return (Some r)) ∧
  (∀ response,
     Assembly.first_option_model 0 "Am I, or am I not?" prompt_structure
       = TranslationManager.Return response →
     is_Some (Assembly._extract_output Some response) →
     Assembly.assemble_line Assembly.first_option_model Some
       Assembly.reversing_shuffle "Am I, or am I not?" prompt_structure 1
     = TranslationManager.Raise TranslationManager.KeyError).
Proof.
  apply (assemble_line_fails_on_metadata
           Assembly.first_option_model Some Assembly.reversing_shuffle
           "Am I, or am I not?" Assembler.example_quote_data 5 1).
  intros i k l. unfold Assembly.reversing_shuffle.
  symmetry. apply Permutation_rev.
Defined.

Section Manager_with_assembler.
Import Types Assembler TranslationManager Assembly.
Context {F : Type} (c : @collaborators F)
        (respond : nat → nat → string → quote_data → outcome string)
        (parse : string → option string)
        (shuffle : nat → nat → nat → list prompt_entry → list prompt_entry).

Local Abbreviation manager := (with_assembler c respond parse shuffle).

(** The outcome is not a line of the assembler. *)
Local Abbreviation not_assembled :=
  (λ (r : outcome (option (@result))) (_ : list event),
     ∀ o, r = Return o → is_assembled o = false).

Lemma always_call_spec {A} (f : nat → outcome A)
    (Q : outcome A → list event → Prop) :
  (∀ k, Q (f k) []) → always (call f) Q.
Proof.
  intros HQ s. destruct (runs_call f s) as [s' H].
  by exists (f (calls s)), s', [].
Qed.

Lemma total_options_dict_set key options (d : quote_data) :
  key ∉ fst <$> d →
  total_options (dict_set key options d) = (total_options d + length options)%nat.
Proof.
  unfold total_options. induction d as [|[k v] tl IH]; intros Hk.
  - simpl. lia.
  - rewrite fmap_cons in Hk. apply not_elem_of_cons in Hk as [Hne Hk].
    cbn [dict_set]. destruct (String.eqb k key) eqn:E.
    + apply String.eqb_eq in E. by subst.
    + rewrite !fmap_cons. cbn [sum_list sum_list_with]. rewrite (IH Hk).
      simpl. lia.
Qed.

Lemma failsafe_outcome_not_assembled modern_line r new :
  @failsafe_outcome F modern_line r new → ∀ o, r = Return o → is_assembled o = false.
Proof. intros [[-> _]|(q & -> & _)] o [= <-]; done. Qed.

Hypothesis shuffle_perm : ∀ n i k l, shuffle n i k l ≡ₚ l.
Hypothesis two_options : ∀ n results um prompt_data temp_map,
  prepare_prompt_structure c n results um = Return (prompt_data, temp_map) →
  ("metadata" ∉ (fst <$> prompt_data)) ∧ (2 ≤ total_options prompt_data)%nat.

(** Steps 1 to 7 with two options or more: the metadata entry stays in
    the prompt, the assembler returns [None] or raises, and no step after
    the second is reached. *)
Lemma main_steps_not_assembled recurse modern_line selector_results use_hybrid_search :
  always recurse not_assembled →
  always (main_steps manager recurse modern_line selector_results use_hybrid_search)
         not_assembled.
Proof.
  intros Hrec. unfold main_steps.
  eapply always_bind with (Q1 := λ r n, True);
    [by apply always_read_used_map | | by intros e n1 _ o [=]].
  intros um n0 _. simpl.
  eapply always_bind with
    (Q1 := λ r n, ∀ pd tm, r = Return (pd, tm) →
             ("metadata" ∉ (fst <$> pd)) ∧ (2 ≤ total_options pd)%nat);
    [ | | by intros e n1 _ o [=]].
  { apply always_call_spec. intros k pd tm. apply two_options. }
  intros [pd tm] n1 Hpd. destruct (Hpd pd tm eq_refl) as [Hkey Htwo]. simpl.
  set (prompt_structure :=
         dict_set "metadata" [Metadata (_count_syllables modern_line)] pd).
  assert (Hthree : (total_options prompt_structure <? 3)%nat = false).
  { apply Nat.ltb_ge. unfold prompt_structure.
    rewrite (total_options_dict_set _ _ _ Hkey). simpl. lia. }
  rewrite Hthree.
  eapply always_bind with (Q1 := λ r n, r = Return (prompt_structure, tm));
    [by apply always_ret | | by intros e n2 [=]].
  intros step1 n2 [= ->]. simpl.
  eapply always_bind with (Q1 := λ r n, ∀ a, r ≠ Return (Some a));
    [ | | by intros e n3 _ o [=]].
  { apply always_call_spec. intros k a. simpl. unfold Assembly.assemble_line.
    destruct (attempts_metadata (respond k) parse (shuffle k) (shuffle_perm k)
                (S (if use_hybrid_search then 0 else 1)) 0 modern_line
                prompt_structure "metadata" (_count_syllables modern_line)
                (dict_set_elem _ _ _)) as [H|[e H]];
      rewrite H; discriminate. }
  intros [a|] n3 Ha; [by destruct (Ha a)|]. simpl.
  destruct use_hybrid_search; simpl.
  - apply always_raise. by intros o [=].
  - eapply always_weaken; [exact Hrec|]. by intros r n H.
Qed.

Lemma translate_line_body_not_assembled recurse modern_line selector_results
    use_hybrid_search :
  always recurse not_assembled →
  always (translate_line_body manager recurse modern_line selector_results
            use_hybrid_search)
         not_assembled.
Proof.
  intros Hrec s.
  destruct (decide (is_Some (UsedMap.truthy_id (translation_id s)))) as [Hs|Hs].
  2:{ exists (Raise RuntimeError), s, []. split; [|by intros o [=]].
      unfold runs, translate_line_body.
      rewrite bool_decide_false by done. simpl. by rewrite app_nil_r. }
  unfold translate_line_body. apply started_guard; [done|].
  eapply always_try with (Q1 := not_assembled).
  - eapply always_bind with
      (Q1 := λ r new, ∀ o, r = Return (inr o) → is_assembled o = false).
    + destruct (_ && _); [|apply always_ret; by intros o [=]].
      eapply always_weaken; [apply hybrid_prelude_always|].
      intros r n [(results & -> & _)|(o' & -> & Ho')] o [= <-].
      by eapply failsafe_outcome_not_assembled.
    + intros [results|early] n1 Hearly; simpl.
      * eapply always_try with (Q1 := not_assembled);
          [by apply main_steps_not_assembled | by intros a n2 H | ].
        intros e n2 _.
        eapply always_weaken; [apply main_handler_always|].
        intros r n Hr. by eapply failsafe_outcome_not_assembled.
      * apply always_ret. intros o [= <-]. by apply Hearly.
    + by intros e n1 _ o [=].
  - by intros a n1 H.
  - intros e n1 _.
    eapply always_weaken; [apply failsafe_search_always|].
    intros r n Hr. by eapply failsafe_outcome_not_assembled.
Qed.

Lemma translate_line_not_assembled default_hybrid modern_line selector_results
    use_hybrid_search s o s' :
  translate_line manager default_hybrid modern_line selector_results
    use_hybrid_search s = (Return o, s') →
  is_assembled o = false.
Proof.
  unfold translate_line. intros Hrun.
  assert (Hrec : always (translate_line_body manager (raise ValueError)
                           modern_line ∅ true) not_assembled).
  { apply translate_line_body_not_assembled. apply always_raise. by intros o' [=]. }
  destruct (translate_line_body_not_assembled _ modern_line selector_results
              (default default_hybrid use_hybrid_search) Hrec s)
    as (r & s1 & new & (Hr & _) & HQ).
  rewrite Hrun in Hr. injection Hr as <- <-. by apply HQ.
Qed.

End Manager_with_assembler.

(** X20.  With two options or more the line the language model assembles
    is never used.  When every prompt of the selector has at least two
    options, [translate_line] with [Assembler.assemble_line] as the
    assembler, whatever the language model replies, returns in a started
    session [None] or the failsafe result of a candidate, and never a
    translated line: the metadata entry added in step 1 makes
    [_mini_validate] raise or the assembler return [None]. *)
Theorem translate_line_never_assembles_two_options
    {F : Type} (c : @TranslationManager.collaborators F)
    (respond : nat → nat → string → Assembler.quote_data →
               TranslationManager.outcome string)
    (parse : string → option string)
    (shuffle : nat → nat → nat → list Assembler.prompt_entry →
               list Assembler.prompt_entry)
    (default_hybrid : bool) (modern_line : string)
    (selector_results : gmap string (list (Types.CandidateQuote F)))
    (use_hybrid_search : option bool) (s : TranslationManager.state) :
  (∀ n i k l, shuffle n i k l ≡ₚ l) →
  (∀ n results um prompt_data temp_map,
     TranslationManager.prepare_prompt_structure c n results um
       = TranslationManager.Return (prompt_data, temp_map) →
     ("metadata" ∉ (fst <$> prompt_data)) ∧
     (2 ≤ TranslationManager.total_options prompt_data)%nat) →
  is_Some (UsedMap.truthy_id (TranslationManager.translation_id s)) →
  ∃ o s',
    TranslationManager.translate_line
      (Assembly.with_assembler c respond parse shuffle)
      default_hybrid modern_line selector_results use_hybrid_search s
    = (TranslationManager.Return o, s') ∧
    Assembly.is_assembled o = false.
Proof.
  intros Hperm Htwo Hid.
  destruct (translate_line_ends_well
              (Assembly.with_assembler c respond parse shuffle)
              default_hybrid modern_line selector_results use_hybrid_search s Hid)
    as (o & s' & new & Hrun & _ & _).
  exists o, s'. split; [exact Hrun|].
  by eapply translate_line_not_assembled.
Qed.

Lemma translate_line_never_assembles_two_options_witness :
  ∃ o s',
    TranslationManager.translate_line
      (Assembly.with_assembler TranslationManager.working_collaborators
         (λ _, Assembly.first_option_model) Some (λ _, Assembly.reversing_shuffle))
      false "So strange a day" TranslationManager.example_results None
      TranslationManager.started_state
    = (TranslationManager.Return o, s') ∧
    Assembly.is_assembled o = false.
Proof.
  apply (translate_line_never_assembles_two_options
           TranslationManager.working_collaborators
           (λ _, Assembly.first_option_model) Some
           (λ _, Assembly.reversing_shuffle)).
  - intros n i k l. unfold Assembly.reversing_shuffle. symmetry. apply Permutation_rev.
  - intros n results um prompt_data temp_map [= <- <-]. split.
    + vm_compute. intros H. repeat (apply elem_of_cons in H as [H|H]; [discriminate|]).
      by apply elem_of_nil in H.
    + vm_compute. lia.
  - by eexists.
Defined.

Section Embeddings_batching.
Import TranslationManager Embeddings.

Lemma batch_tokens_snoc batch text :
  batch_tokens (batch ++ [text]) = (batch_tokens batch + estimate_tokens text)%N.
Proof.
  unfold batch_tokens. induction batch as [|x l IH].
  - simpl. lia.
  - change ((x :: l) ++ [text]) with (x :: (l ++ [text])).
    rewrite !fmap_cons. cbn [foldr]. rewrite IH. lia.
Qed.

(** What the first loop keeps true, after the texts [seen]. *)
Lemma add_text_invariant (seen : list string) :
  let st := foldl add_text {| batches := []; current_batch := [];
                              current_tokens := 0 |} seen in
  concat (batches st) ++ current_batch st = seen ∧
  Forall within_limits (batches st) ∧
  (current_batch st = [] → seen = []) ∧
  (current_batch st ≠ [] → within_limits (current_batch st)) ∧
  current_tokens st = batch_tokens (current_batch st) ∧
  (∀ i, batches st !! i = Some [] →
     i = 0%nat ∧ ∃ text rest, seen = text :: rest ∧
                              (MAX_TOKENS < estimate_tokens text)%N).
Proof.
  induction seen as [|text seen IH] using rev_ind.
  - simpl. repeat split; done.
  - rewrite foldl_app. cbn [foldl].
    cbn zeta in IH. remember (foldl add_text _ seen) as st eqn:Hst.
    destruct IH as (Hcat & Hall & Hempty & Hcur & Htok & Hnil).
    unfold add_text.
    destruct ((MAX_TOKENS <? current_tokens st + estimate_tokens text)%N ||
              (BATCH_SIZE_LIMIT <=? length (current_batch st))%nat) eqn:Hflush;
      cbn [batches current_batch current_tokens].
    + (* the current batch is closed and the text starts a new one *)
      split; [|split; [|split; [|split; [|split]]]].
      * rewrite concat_app. simpl. rewrite app_nil_r, Hcat. done.
      * apply Forall_app. split; [done|]. apply Forall_singleton.
        destruct (current_batch st) as [|x l] eqn:Hc; [|by apply Hcur].
        split; [simpl; lia | left; unfold batch_tokens, MAX_TOKENS; simpl; lia].
      * by intros [? ?]%app_eq_nil.
      * intros _. split; [unfold BATCH_SIZE_LIMIT; simpl; lia | by right].
      * unfold batch_tokens. simpl. lia.
      * intros i [[_ H]|[Hlen Hb]]%lookup_snoc_Some.
        -- destruct (Hnil i H) as (-> & t & rest & -> & Ht).
           split; [done|]. by exists t, (rest ++ [text]).
        -- pose proof (Hempty Hb) as Hseen. rewrite Hseen in Hcat, Hnil |- *.
           apply app_eq_nil in Hcat as [Hcat _].
           assert (Hbs : batches st = []).
           { destruct (batches st) as [|b bs] eqn:Hbs; [done|].
             exfalso. specialize (Hnil 0%nat). simpl in *.
             destruct b as [|y b]; [|by apply app_eq_nil in Hcat as [? _]].
             by destruct (Hnil eq_refl) as (_ & ? & ? & ? & _). }
           rewrite Hbs in Hlen. simpl in Hlen. split; [done|].
           exists text, []. split; [done|].
           apply orb_true_iff in Hflush as [Hf|Hf].
           ++ apply N.ltb_lt in Hf. rewrite Htok, Hb in Hf.
              unfold batch_tokens in Hf. simpl in Hf. lia.
           ++ rewrite Hb in Hf. by vm_compute in Hf.
    + (* the text joins the current batch *)
      apply orb_false_iff in Hflush as [Hf1 Hf2].
      apply N.ltb_ge in Hf1. apply Nat.leb_gt in Hf2.
      split; [|split; [|split; [|split; [|split]]]].
      * by rewrite app_assoc, Hcat.
      * done.
      * by intros [? ?]%app_eq_nil.
      * intros _. split.
        -- rewrite length_app. simpl. lia.
        -- left. rewrite batch_tokens_snoc, <- Htok. done.
      * by rewrite batch_tokens_snoc, Htok.
      * intros i H. destruct (Hnil i H) as (-> & t & rest & -> & Ht).
        split; [done|]. by exists t, (rest ++ [text]).
Qed.

(** The embeddings of the batches are put together in the order of the
    batches. *)
Lemma embed_batches_fmap {E} (create : nat → list string → outcome (list E))
    (f : string → E) (bs : list (list string)) :
  (∀ idx batch, create idx batch = Return (f <$> batch)) →
  ∀ idx, embed_batches create idx bs = Return (f <$> concat bs).
Proof.
  intros Hcreate. induction bs as [|b bs IH]; intros idx; simpl; [done|].
  by rewrite Hcreate, IH, fmap_app.
Qed.

Lemma make_batches_concat texts : concat (make_batches texts) = texts.
Proof.
  unfold make_batches.
  destruct (add_text_invariant texts) as (Hcat & _).
  cbn zeta in Hcat.
  destruct (current_batch _) as [|x l].
  - by rewrite app_nil_r in Hcat.
  - rewrite concat_app. simpl. by rewrite app_nil_r.
Qed.

End Embeddings_batching.

(** X21.  The batches of [embed_texts] are a partition of the texts
    within the limits: put together in order they are the texts; a batch
    has at most 1500 texts, and at most 600000 estimated tokens unless it
    is a single text; and only the first batch can be empty, which it is
    exactly when the first text alone is estimated above 600000 tokens. *)
Theorem embed_texts_batches_partition (texts : list string) :
  let bs := Embeddings.make_batches texts in
  concat bs = texts ∧
  Forall Embeddings.within_limits bs ∧
  (∀ i, bs !! i = Some [] →
     i = 0%nat ∧
     ∃ text rest, texts = text :: rest ∧
       (Embeddings.MAX_TOKENS < Embeddings.estimate_tokens text)%N) ∧
  (∀ text rest, texts = text :: rest →
     (Embeddings.MAX_TOKENS < Embeddings.estimate_tokens text)%N →
     bs !! 0%nat = Some []).
Proof.
  intros bs. split; [apply make_batches_concat|].
  unfold bs, Embeddings.make_batches.
  destruct (add_text_invariant texts) as (Hcat & Hall & Hempty & Hcur & Htok & Hnil).
  cbn zeta in *.
  set (st := foldl Embeddings.add_text _ texts) in *.
  split; [|split].
  - destruct (Embeddings.current_batch st) as [|x l] eqn:Hc; [exact Hall|].
    apply Forall_app. split; [exact Hall|].
    apply Forall_singleton. by apply Hcur.
  - intros i Hi. apply Hnil.
    destruct (Embeddings.current_batch st) as [|x l] eqn:Hc; [done|].
    apply lookup_snoc_Some in Hi as [[_ Hi]|[_ Hi]]; [done | discriminate].
  - intros text rest -> Hbig.
    (* the first step closes the empty batch *)
    assert (Hfirst : ∀ l init,
              Embeddings.batches init !! 0%nat = Some [] →
              Embeddings.batches (foldl Embeddings.add_text init l) !! 0%nat
                = Some []).
    { induction l as [|y l IH]; intros init Hinit; [done|].
      simpl. apply IH. unfold Embeddings.add_text.
      destruct (_ || _); simpl; [|done].
      by apply lookup_app_l_Some. }
    assert (Hst : Embeddings.batches st !! 0%nat = Some []).
    { unfold st. simpl. apply Hfirst. unfold Embeddings.add_text. simpl.
      apply N.ltb_lt in Hbig. rewrite N.add_0_l in *.
      by rewrite Hbig. }
    destruct (Embeddings.current_batch st); [done|].
    by apply lookup_app_l_Some.
Qed.

(** X22.  One embedding per text, in the order of the texts: when the
    embedding service answers every batch with one vector for each of its
    texts, in order ([f] gives the vector of a text), [embed_texts]
    returns the vectors of the texts in the order of the texts, however
    the texts were put into batches. *)
Theorem embed_texts_one_vector_per_text
    {E : Type} (create : nat → list string → TranslationManager.outcome (list E))
    (f : string → E) (texts : list string) :
  (∀ idx batch, create idx batch = TranslationManager.Return (f <$> batch)) →
  Embeddings.embed_texts create texts = TranslationManager.Return (f <$> texts).
Proof.
  intros Hcreate. unfold Embeddings.embed_texts.
  rewrite (embed_batches_fmap create f _ Hcreate).
  by rewrite make_batches_concat.
Qed.

Lemma embed_texts_one_vector_per_text_witness :
  Embeddings.embed_texts
    (λ _ batch, TranslationManager.Return (String.length <$> batch))
    ["To be"; "or not"; "to be"]
  = TranslationManager.Return (String.length <$> ["To be"; "or not"; "to be"]).
Proof.
  apply (embed_texts_one_vector_per_text
           (λ _ batch, TranslationManager.Return (String.length <$> batch))
           String.length ["To be"; "or not"; "to be"]).
  intros idx batch. reflexivity.
Defined.

Section Scene_properties.
Import Types Assembler TranslationManager Scene.
Context {F : Type} (c : @collaborators F) (default_hybrid : bool).

(** A result, if there is one, is about the line [modern_line]. *)
Local Abbreviation about modern_line :=
  (λ (r : outcome (option result)) (_ : list event),
     ∀ res, r = Return (Some res) → original_modern_line res = modern_line).

Lemma failsafe_outcome_about modern_line r new :
  @failsafe_outcome F modern_line r new →
  ∀ res, r = Return (Some res) → original_modern_line res = modern_line.
Proof. intros [[-> _]|(q & -> & _)] res [= <-]. done. Qed.

Lemma main_steps_about recurse modern_line selector_results use_hybrid_search :
  always recurse (about modern_line) →
  always (main_steps c recurse modern_line selector_results use_hybrid_search)
         (about modern_line).
Proof.
  intros Hrec. unfold main_steps.
  eapply always_bind with (Q1 := λ r n, True);
    [by apply always_read_used_map | | by intros e n1 _ res [=]].
  intros um n0 _. simpl.
  eapply always_bind with (Q1 := λ r n, True);
    [by apply always_call | | by intros e n1 _ res [=]].
  intros prepared n1 _. simpl.
  eapply always_bind with (Q1 := λ r n, True); [| | by intros e n2 _ res [=]].
  { destruct (_ <? 3)%nat; [|by apply always_ret].
    eapply always_bind with (Q1 := λ r n, True); [| | done].
    - eapply always_try with (Q1 := λ r n, True); [|done|].
      + eapply always_bind with (Q1 := λ r n, True); [| |done].
        * destruct use_hybrid_search; by apply always_call.
        * intros ext n2 _. simpl.
          eapply always_bind with (Q1 := λ r n, True);
            [by apply always_read_used_map | | done].
          intros um' n3 _. simpl.
          eapply always_bind with (Q1 := λ r n, True);
            [by apply always_call | | done].
          intros prepared' n4 _. simpl. by apply always_ret.
      + intros e n2 _. by apply always_ret.
    - intros extended n2 _. simpl.
      destruct (_ <? 1)%nat; [by apply always_raise | by apply always_ret]. }
  intros step1 n2 _. simpl.
  eapply always_bind with (Q1 := λ r n, True);
    [by apply always_call | | by intros e n3 _ res [=]].
  intros [assembled_result|] n3 _; simpl.
  2:{ destruct use_hybrid_search; simpl.
      - apply always_raise. by intros res [=].
      - eapply always_weaken; [exact Hrec|]. by intros r n H. }
  destruct (_ || _); [apply always_raise; by intros res [=]|].
  destruct (mapM _ _) as [used_candidates|];
    [|apply always_raise; by intros res [=]].
  eapply always_bind with (Q1 := λ r n, True);
    [by apply always_call | | by intros e n4 _ res [=]].
  intros ok n4 _. simpl.
  eapply always_bind with (Q1 := λ r n, True);
    [by apply always_emit | | by intros e n5 _ res [=]].
  intros [] n5 _.
  destruct ok; simpl; [|apply always_raise; by intros res [=]].
  eapply always_bind with (Q1 := λ r n, True);
    [ | | by intros e n6 _ res [=]].
  { eapply always_weaken; [apply mark_references_always | done]. }
  intros [] n6 _.
  eapply always_bind with (Q1 := λ r n, True);
    [by apply always_save | | by intros e n7 _ res [=]].
  intros [] n7 _.
  apply always_ret. by intros res [= <-].
Qed.

Lemma translate_line_body_about recurse modern_line selector_results
    use_hybrid_search :
  always recurse (about modern_line) →
  always (translate_line_body c recurse modern_line selector_results
            use_hybrid_search)
         (about modern_line).
Proof.
  intros Hrec s.
  destruct (decide (is_Some (UsedMap.truthy_id (translation_id s)))) as [Hs|Hs].
  2:{ exists (Raise RuntimeError), s, []. split; [|by intros o [=]].
      unfold runs, translate_line_body.
      rewrite bool_decide_false by done. simpl. by rewrite app_nil_r. }
  unfold translate_line_body. apply started_guard; [done|].
  eapply always_try with (Q1 := about modern_line).
  - eapply always_bind with
      (Q1 := λ r new, ∀ o res, r = Return (inr o) → o = Some res →
                        original_modern_line res = modern_line).
    + destruct (_ && _); [|apply always_ret; by intros o res [=]].
      eapply always_weaken; [apply hybrid_prelude_always|].
      intros r n [(results & -> & _)|(o' & -> & Ho')] o res [= <-] ->.
      by eapply failsafe_outcome_about.
    + intros [results|early] n1 Hearly; simpl.
      * eapply always_try with (Q1 := about modern_line);
          [by apply main_steps_about | by intros a n2 H | ].
        intros e n2 _.
        eapply always_weaken; [apply main_handler_always|].
        intros r n Hr. by eapply failsafe_outcome_about.
      * apply always_ret. intros res [= ->]. by eapply Hearly.
    + by intros e n1 _ res [=].
  - by intros a n1 H.
  - intros e n1 _.
    eapply always_weaken; [apply failsafe_search_always|].
    intros r n Hr. by eapply failsafe_outcome_about.
Qed.

(** In a started session [translate_line] returns, keeps the session,
    and a result is about the line it was called with. *)
Lemma translate_line_returns modern_line selector_results use_hybrid_search s :
  is_Some (UsedMap.truthy_id (translation_id s)) →
  ∃ o s',
    translate_line c default_hybrid modern_line selector_results
      use_hybrid_search s = (Return o, s') ∧
    translation_id s' = translation_id s ∧
    ∀ res, o = Some res → original_modern_line res = modern_line.
Proof.
  intros Hid. unfold translate_line.
  assert (Hrec : always (translate_line_body c (raise ValueError)
                           modern_line ∅ true) (@main_outcome F)).
  { intros s0.
    destruct (decide (is_Some (UsedMap.truthy_id (translation_id s0)))) as [Hs|Hs].
    - destruct (translate_line_body_always c (raise ValueError) modern_line ∅ true
                  (always_raise _ _ eq_refl) s0 Hs)
        as (r & s' & new & Hrun & o & -> & Hw).
      by exists (Return o), s', new.
    - exists (Raise RuntimeError), s0, []. split; [|done].
      unfold runs, translate_line_body.
      rewrite bool_decide_false by done. simpl. by rewrite app_nil_r. }
  destruct (translate_line_body_always c _ modern_line selector_results
              (default default_hybrid use_hybrid_search) Hrec s Hid)
    as (r & s' & new & (Hrun & Hlog & Hsame) & o & -> & Hw).
  exists o, s'. split; [done|]. split; [done|].
  assert (Hrec' : always (translate_line_body c (raise ValueError)
                            modern_line ∅ true) (about modern_line)).
  { apply translate_line_body_about. apply always_raise. by intros res [=]. }
  destruct (translate_line_body_about _ modern_line selector_results
              (default default_hybrid use_hybrid_search) Hrec' s)
    as (r2 & s2 & new2 & (Hrun2 & _) & HQ).
  rewrite Hrun in Hrun2. injection Hrun2 as <- <-.
  intros res ->. by apply HQ.
Qed.

Lemma call_runs {A} (f : nat → outcome A) s :
  ∃ s', call f s = (f (calls s), s') ∧ translation_id s' = translation_id s.
Proof. by eexists. Qed.

(** The loop of [translate_scene] and of [translate_group], with the
    retrieval [search] of a line and the mode [mode]. *)
Lemma translate_loop_returns
    (loop : list string → M (list result))
    (search : string → nat → outcome (gmap string (list (CandidateQuote F))))
    (mode : option bool) :
  (∀ line tl, loop (line :: tl) =
     bind (call (search line)) (λ selector_results,
       bind (translate_line c default_hybrid line selector_results mode)
         (λ translated,
            bind (loop tl) (λ rest,
              ret (match translated with
                   | Some r => r :: rest
                   | None => rest
                   end))))) →
  loop [] = ret [] →
  ∀ lines s, is_Some (UsedMap.truthy_id (translation_id s)) →
    ∃ r s',
      loop lines s = (r, s') ∧
      translation_id s' = translation_id s ∧
      match r with
      | Return results => sublist (original_modern_line <$> results) lines
      | Raise e => ∃ line n, line ∈ lines ∧ search line n = Raise e
      end.
Proof.
  intros Hcons Hnil lines.
  induction lines as [|line tl IH]; intros s Hid.
  - rewrite Hnil. by exists (Return []), s.
  - rewrite Hcons. unfold bind at 1.
    destruct (call_runs (search line) s) as (s1 & -> & Hid1).
    destruct (search line (calls s)) as [selector_results|e] eqn:Hsearch.
    2:{ exists (Raise e), s1. split; [done|]. split; [done|].
        exists line, (calls s). split; [by left | done]. }
    unfold bind at 1.
    destruct (translate_line_returns line selector_results mode s1)
      as (o & s2 & -> & Hid2 & Habout); [by rewrite Hid1|].
    unfold bind at 1.
    destruct (IH s2) as (r & s3 & -> & Hid3 & Hr);
      [by rewrite Hid2, Hid1|].
    destruct r as [rest|e].
    + unfold ret. eexists (Return _), s3. split; [done|].
      split; [by rewrite Hid3, Hid2, Hid1|].
      destruct o as [res|].
      * rewrite fmap_cons, (Habout res eq_refl). by apply sublist_skip.
      * by apply sublist_cons.
    + exists (Raise e), s3. split; [done|].
      split; [by rewrite Hid3, Hid2, Hid1|].
      destruct Hr as (l & n & Hl & Hn). exists l, n. split; [by right | done].
Qed.

End Scene_properties.

(** X23.  A scene is translated line by line, in order, and failed lines
    are skipped.  In a started session [translate_scene] and
    [translate_group] either return results whose modern lines are, in
    order, some of the lines given (every result is about a line of the
    scene, no line has two results, the order is kept), or raise what the
    retrieval of one of the lines raised, which is called outside every
    [try]; nothing else makes them raise. *)
Theorem translate_scene_keeps_line_order
    {F : Type} (c : @TranslationManager.collaborators F) (default_hybrid : bool)
    (scene_lines : list string) (use_hybrid_search : bool)
    (s : TranslationManager.state) :
  is_Some (UsedMap.truthy_id (TranslationManager.translation_id s)) →
  match fst (Scene.translate_scene c default_hybrid scene_lines s) with
  | TranslationManager.Return results =>
      sublist (Scene.original_modern_line <$> results) scene_lines
  | TranslationManager.Raise e =>
      ∃ line n, line ∈ scene_lines ∧
        TranslationManager.retrieve_all c n line 5 = TranslationManager.Raise e
  end ∧
  match fst (Scene.translate_group c default_hybrid scene_lines
               use_hybrid_search s) with
  | TranslationManager.Return results =>
      sublist (Scene.original_modern_line <$> results) scene_lines
  | TranslationManager.Raise e =>
      ∃ line n, line ∈ scene_lines ∧
        (if use_hybrid_search
         then TranslationManager.hybrid_search c n line 10
         else TranslationManager.retrieve_all c n line 5)
        = TranslationManager.Raise e
  end.
Proof.
  intros Hid. split.
  - destruct (translate_loop_returns c default_hybrid
                (Scene.translate_scene c default_hybrid)
                (λ line n, TranslationManager.retrieve_all c n line 5) None
                (λ _ _, eq_refl) eq_refl scene_lines s Hid)
      as (r & s' & -> & _ & Hr).
    exact Hr.
  - destruct use_hybrid_search.
    + destruct (translate_loop_returns c default_hybrid
                  (λ l, Scene.translate_group c default_hybrid l true)
                  (λ line n, TranslationManager.hybrid_search c n line 10)
                  (Some true) (λ _ _, eq_refl) eq_refl scene_lines s Hid)
        as (r & s' & -> & _ & Hr).
      exact Hr.
    + destruct (translate_loop_returns c default_hybrid
                  (λ l, Scene.translate_group c default_hybrid l false)
                  (λ line n, TranslationManager.retrieve_all c n line 5)
                  (Some false) (λ _ _, eq_refl) eq_refl scene_lines s Hid)
        as (r & s' & -> & _ & Hr).
      exact Hr.
Qed.

Lemma translate_scene_keeps_line_order_witness :
  let c := TranslationManager.working_collaborators in
  let s := TranslationManager.started_state in
  let scene_lines := ["So strange a day"; "I never saw the like"] in
  match fst (Scene.translate_scene c false scene_lines s) with
  | TranslationManager.Return results =>
      sublist (Scene.original_modern_line <$> results) scene_lines
  | TranslationManager.Raise e =>
      ∃ line n, line ∈ scene_lines ∧
        TranslationManager.retrieve_all c n line 5 = TranslationManager.Raise e
  end ∧
  match fst (Scene.translate_group c false scene_lines true s) with
  | TranslationManager.Return results =>
      sublist (Scene.original_modern_line <$> results) scene_lines
  | TranslationManager.Raise e =>
      ∃ line n, line ∈ scene_lines ∧
        TranslationManager.hybrid_search c n line 10 = TranslationManager.Raise e
  end.
Proof.
  intros c s scene_lines.
  apply (translate_scene_keeps_line_order c false scene_lines true s).
  by eexists.
Defined.

Section LineChunker_queries.
Import Chunking LineChunker.
Context (SPACY_AVAILABLE : bool) (nlp : string → option Doc).

Local Abbreviation chunk_text := (LineChunker.chunk_text SPACY_AVAILABLE nlp).

Lemma take_min_length {X} (l : list X) n : take (n `min` length l) l = take n l.
Proof.
  destruct (decide (n ≤ length l)%nat) as [H|H].
  - by rewrite Nat.min_l.
  - rewrite Nat.min_r by lia. rewrite firstn_all. symmetry. apply take_ge. lia.
Qed.

(** A slice with bounds inside the list. *)
Lemma py_slice_inside {X} (l : list X) (first last : Z) :
  (0 ≤ first ≤ last)%Z → (last ≤ Z.of_nat (length l))%Z →
  py_slice l first last
  = take (Z.to_nat (last - first)) (drop (Z.to_nat first) l).
Proof.
  intros H1 H2. unfold py_slice, slice.
  rewrite (proj2 (Z.ltb_ge first 0)) by lia.
  rewrite (proj2 (Z.ltb_ge last 0)) by lia.
  f_equal; [lia | f_equal; lia].
Qed.

Lemma get_dialogue_exchange_inside (chunks : list chunk) (start_index max_lines : Z) :
  (0 ≤ start_index < Z.of_nat (length chunks))%Z → (0 ≤ max_lines)%Z →
  get_dialogue_exchange chunks start_index max_lines
  = take (Z.to_nat max_lines) (drop (Z.to_nat start_index) chunks).
Proof.
  intros Hs Hm. unfold get_dialogue_exchange.
  destruct chunks as [|c0 cs] eqn:Hc; [simpl in Hs; lia|]. rewrite <- Hc in *.
  rewrite (proj2 (Z.ltb_ge start_index 0)) by lia.
  rewrite (proj2 (Z.leb_gt _ _)) by lia. cbn [orb].
  rewrite py_slice_inside by lia.
  rewrite <- (take_min_length (drop _ _) (Z.to_nat max_lines)).
  f_equal. rewrite length_drop. lia.
Qed.

(** X24.  [get_dialogue_exchange] returns up to [max_lines] consecutive
    chunks from [start_index]: nothing for a start index outside the
    list; otherwise, for [max_lines] not negative, the chunks at the
    positions [start_index], [start_index + 1], ... as far as the list
    goes and at most [max_lines] of them, which on the chunks of
    [chunk_text] have the ids ["chunk_{start_index + 1}"],
    ["chunk_{start_index + 2}"], ... *)
Theorem get_dialogue_exchange_consecutive
    (text : string) (start_index max_lines : Z) :
  let chunks := chunk_text text in
  let exchange := get_dialogue_exchange chunks start_index max_lines in
  ((start_index < 0)%Z ∨ (Z.of_nat (length chunks) ≤ start_index)%Z →
     exchange = []) ∧
  ((0 ≤ start_index < Z.of_nat (length chunks))%Z → (0 ≤ max_lines)%Z →
     exchange = take (Z.to_nat max_lines) (drop (Z.to_nat start_index) chunks) ∧
     Z.of_nat (length exchange)
       = Z.min max_lines (Z.of_nat (length chunks) - start_index) ∧
     ∀ i c, exchange !! i = Some c →
       chunks !! (Z.to_nat start_index + i)%nat = Some c ∧
       chunk_id c = "chunk_" +:+ Py.str_of_nat (Z.to_nat start_index + i + 1)).
Proof.
  intros chunks exchange. split.
  - intros Hout. unfold exchange, get_dialogue_exchange.
    destruct chunks as [|c0 cs]; [done|].
    destruct Hout as [H|H].
    + by rewrite (proj2 (Z.ltb_lt start_index 0)) by lia.
    + rewrite (proj2 (Z.leb_le _ start_index)) by lia. by rewrite orb_true_r.
  - intros Hs Hm.
    assert (Hex : exchange
                  = take (Z.to_nat max_lines) (drop (Z.to_nat start_index) chunks))
      by by apply get_dialogue_exchange_inside.
    split; [exact Hex|]. split.
    + rewrite Hex, length_take, length_drop. lia.
    + intros i c Hi. rewrite Hex in Hi.
      apply lookup_take_Some in Hi as [Hi _]. rewrite lookup_drop in Hi.
      split; [exact Hi|].
      unfold chunks, LineChunker.chunk_text in Hi.
      rewrite (chunk_loop_ids SPACY_AVAILABLE nlp _ _ _ _ Hi).
      f_equal. f_equal. simpl. lia.
Qed.

End LineChunker_queries.

Section SearchEngine_properties.
Import Chunking TranslationManager SearchEngine.
Context (SPACY_AVAILABLE : bool) (nlp : string → option Doc).
Context {E R : Type}
        (embed : list nat → string → outcome E)
        (query : list nat → string → E → nat → outcome R).

(** What the keyword loop may add to a result: nothing to the line
    level, and at most [n] query results to each of the other two. *)
Local Abbreviation extends n :=
  (λ (result' result : search_chunks R),
     line result' = line result ∧
     ∃ ps fs, phrases result' = phrases result ++ ps ∧
              fragments result' = fragments result ++ fs ∧
              (length ps ≤ n)%nat ∧ (length fs ≤ n)%nat).

Lemma keyword_level_line k (emb : E) (result : search_chunks R) j :
  keyword_level query k emb result (j, "line") = result.
Proof. reflexivity. Qed.

Lemma keyword_level_phrases k (emb : E) (result : search_chunks R) j :
  keyword_level query k emb result (j, "phrases") =
  match query [3; k; j] "phrases" emb 3 with
  | Raise _ => result
  | Return keyword_results =>
      {| line := line result; phrases := phrases result ++ [keyword_results];
         fragments := fragments result |}
  end.
Proof. reflexivity. Qed.

Lemma keyword_level_fragments k (emb : E) (result : search_chunks R) j :
  keyword_level query k emb result (j, "fragments") =
  match query [3; k; j] "fragments" emb 3 with
  | Raise _ => result
  | Return keyword_results =>
      {| line := line result; phrases := phrases result;
         fragments := fragments result ++ [keyword_results] |}
  end.
Proof. reflexivity. Qed.

Lemma keyword_step_extends (result : search_chunks R) (kk : nat * string) :
  extends 1%nat (keyword_step embed query result kk) result.
Proof.
  unfold keyword_step.
  destruct (embed [3; fst kk] (snd kk)) as [emb|e].
  2:{ split; [done|]. exists [], []. rewrite !app_nil_r.
      repeat split; simpl; lia. }
  change (imap pair ["line"; "phrases"; "fragments"])
    with [(0%nat, "line"); (1%nat, "phrases"); (2%nat, "fragments")].
  cbn [foldl].
  rewrite keyword_level_line, keyword_level_phrases, keyword_level_fragments.
  destruct (query [3; fst kk; 1%nat] "phrases" emb 3) as [pr|e1];
    destruct (query [3; fst kk; 2%nat] "fragments" emb 3) as [fr|e2];
    cbn [line phrases fragments]; (split; [done|]).
  - exists [pr], [fr]. repeat split; simpl; lia.
  - exists [pr], []. rewrite app_nil_r. repeat split; simpl; lia.
  - exists [], [fr]. rewrite app_nil_r. repeat split; simpl; lia.
  - exists [], []. rewrite !app_nil_r. repeat split; simpl; lia.
Qed.

Lemma keyword_loop_extends (kws : list (nat * string)) : ∀ result : search_chunks R,
  extends (length kws) (foldl (keyword_step embed query) result kws) result.
Proof.
  induction kws as [|kk kws IH]; intros result.
  - split; [done|]. exists [], []. rewrite !app_nil_r.
    repeat split; simpl; lia.
  - cbn [foldl].
    destruct (IH (keyword_step embed query result kk))
      as (Hl & ps & fs & Hp & Hf & Hlp & Hlf).
    destruct (keyword_step_extends result kk)
      as (Hl1 & ps1 & fs1 & Hp1 & Hf1 & Hlp1 & Hlf1).
    split; [by rewrite Hl|].
    exists (ps1 ++ ps), (fs1 ++ fs).
    rewrite Hp, Hp1, Hf, Hf1, <- !app_assoc, !length_app. simpl.
    repeat split; lia.
Qed.

Lemma top_keywords_length modern_line : (length (top_keywords modern_line) ≤ 3)%nat.
Proof. unfold top_keywords, most_common. rewrite length_take. lia. Qed.

(** X25.  The keyword search of [hybrid_search] never gives line
    results.  When [search_line] raises, [hybrid_search] returns the
    empty structure; otherwise it returns the line result of
    [search_line] unchanged, and the phrase and fragment results of
    [search_line] followed by at most three more of each, one for a
    keyword: the loop looks up [self.vector_stores["line"]], and the key
    of the line store is ["lines"], so the [KeyError] is taken for a
    failed search and passed over. *)
Theorem hybrid_search_keeps_line_results (modern_line : string) (top_k : nat) :
  let hybrid := hybrid_search SPACY_AVAILABLE nlp embed query modern_line top_k in
  match search_line SPACY_AVAILABLE nlp embed query modern_line top_k with
  | Raise _ => hybrid = {| line := None; phrases := []; fragments := [] |}
  | Return vector_results =>
      line hybrid = line vector_results ∧
      ∃ ps fs,
        phrases hybrid = phrases vector_results ++ ps ∧
        fragments hybrid = fragments vector_results ++ fs ∧
        (length ps ≤ 3)%nat ∧ (length fs ≤ 3)%nat
  end.
Proof.
  intros hybrid. unfold hybrid, hybrid_search.
  destruct (search_line _ _ _ _ modern_line top_k) as [vr|e]; [|done].
  destruct (keyword_loop_extends (imap pair (top_keywords modern_line)) vr)
    as (Hl & ps & fs & Hp & Hf & Hlp & Hlf).
  rewrite length_imap in Hlp, Hlf.
  pose proof (top_keywords_length modern_line).
  split; [done|]. exists ps, fs. repeat split; try done; lia.
Qed.

End SearchEngine_properties.

Section Chunk_ids.
Import Chunking.
Context (SPACY_AVAILABLE : bool) (nlp : string → option Doc) (min_words : nat).

Lemma str_of_nat_str_of_Z n : Py.str_of_nat n = Py.str_of_Z (Z.of_nat n).
Proof.
  unfold Py.str_of_nat, Py.str_of_Z, pretty, pretty_nat, pretty_Z.
  destruct n as [|n]; [done|]. simpl Z.of_nat.
  unfold pretty, pretty_positive. f_equal; lia.
Qed.

Lemma str_of_nat_no_underscore n : Py.contains_char "_" (Py.str_of_nat n) = false.
Proof.
  rewrite str_of_nat_str_of_Z. apply str_any_pretty_Z; [|done].
  intros c H. apply Ascii.eqb_eq in H as <-. done.
Qed.

(** A string is cut at its first underscore in one way only. *)
Lemma underscore_inj s1 : ∀ s2 t1 t2,
  Py.contains_char "_" s1 = false → Py.contains_char "_" s2 = false →
  s1 +:+ String "_" t1 = s2 +:+ String "_" t2 → s1 = s2 ∧ t1 = t2.
Proof.
  unfold Py.contains_char.
  induction s1 as [|c s1 IH]; intros [|d s2] t1 t2 H1 H2 E.
  - rewrite !append_empty_l in E. by injection E as <-.
  - rewrite append_empty_l, append_cons in E. injection E as <- _.
    simpl in H2. discriminate.
  - rewrite append_empty_l, append_cons in E. injection E as -> _.
    simpl in H1. discriminate.
  - rewrite !append_cons in E. injection E as <- E.
    simpl in H1, H2.
    apply orb_false_iff in H1 as [_ H1]. apply orb_false_iff in H2 as [_ H2].
    destruct (IH _ _ _ H1 H2 E) as [-> ->]. done.
Qed.

(** The id of a chunk of a level tells the number of the line and the
    position. *)
Lemma level_id_inj (prefix : string) n k n' k' :
  prefix +:+ ("chunk_" +:+ Py.str_of_nat n) +:+ "_" +:+ Py.str_of_nat k
  = prefix +:+ ("chunk_" +:+ Py.str_of_nat n') +:+ "_" +:+ Py.str_of_nat k' →
  n = n' ∧ k = k'.
Proof.
  intros E.
  change ("_" +:+ Py.str_of_nat k) with (String "_" (Py.str_of_nat k)) in E.
  change ("_" +:+ Py.str_of_nat k') with (String "_" (Py.str_of_nat k')) in E.
  rewrite !append_assoc in E.
  assert (Hcut : ∀ p x y : string, p +:+ x = p +:+ y → x = y).
  { intros p x y. apply (inj (String.app p)). }
  apply Hcut, Hcut in E.
  apply underscore_inj in E as [En Ek]; try apply str_of_nat_no_underscore.
  split; by apply (inj pretty).
Qed.

Lemma sorted_positions_NoDup {C} (pos : C → nat) (l : list C) :
  StronglySorted (λ a b, pos a < pos b)%nat l → NoDup (pos <$> l).
Proof.
  induction 1 as [|c l Hs IH Hall]; [constructor|].
  rewrite fmap_cons. constructor; [|done].
  intros (c' & Hc' & Hin)%list_elem_of_fmap.
  rewrite Forall_forall in Hall. specialize (Hall c' Hin). lia.
Qed.

(** The chunks a chunker makes of line chunks with the ids
    ["chunk_{n}"], for pairwise distinct [n], have pairwise distinct ids,
    when the id of a chunk of a line is [prefix + line_id + "_" + k] and
    [k] differs between the chunks of one line. *)
Lemma level_ids_NoDup {C} (idf : C → string) (pos : C → nat) (prefix : string)
    (f : line_chunk → list C) :
  (∀ lc, NoDup (pos <$> f lc) ∧
         ∀ c, c ∈ f lc →
           idf c = prefix +:+ lc_chunk_id lc +:+ "_" +:+ Py.str_of_nat (pos c)) →
  ∀ lines ns,
    lc_chunk_id <$> lines = (λ n, "chunk_" +:+ Py.str_of_nat n) <$> ns →
    NoDup ns →
    NoDup (idf <$> flat_map f lines).
Proof.
  intros Hf lines. induction lines as [|lc lines IH]; intros ns Hids Hnd.
  { constructor. }
  destruct ns as [|n ns]; [done|].
  rewrite !fmap_cons in Hids. injection Hids as Hid Hids.
  apply NoDup_cons in Hnd as [Hn Hnd].
  cbn [flat_map]. rewrite fmap_app. apply NoDup_app.
  destruct (Hf lc) as [Hpos Hidf].
  split; [|split].
  - apply NoDup_fmap_2_strong; [|by eapply NoDup_fmap_1].
    intros c c' Hc Hc' E.
    rewrite (Hidf c Hc), (Hidf c' Hc'), Hid in E.
    apply level_id_inj in E as [_ E].
    (* the two chunks of the line have the same position *)
    clear -E Hc Hc' Hpos.
    apply list_elem_of_lookup_1 in Hc as [i Hi], Hc' as [j Hj].
    assert (i = j) as ->.
    { eapply NoDup_lookup; [exact Hpos| |];
        rewrite list_lookup_fmap; [by rewrite Hi | by rewrite Hj, E]. }
    congruence.
  - intros x (c & -> & Hc)%list_elem_of_fmap (c' & E & Hc')%list_elem_of_fmap.
    apply list_elem_of_In, in_flat_map in Hc' as (lc' & Hlc' & Hc').
    apply list_elem_of_In in Hlc', Hc'.
    destruct (Hf lc') as [_ Hidf'].
    rewrite (Hidf c Hc), (Hidf' c' Hc'), Hid in E.
    assert (Hin : lc_chunk_id lc' ∈ lc_chunk_id <$> lines)
      by by apply list_elem_of_fmap_2.
    rewrite Hids in Hin. apply list_elem_of_fmap in Hin as (n' & En' & Hn').
    rewrite En' in E. apply level_id_inj in E as [-> _]. done.
  - by apply (IH ns).
Qed.

(** The positions of the phrase chunks of a line grow, and the id of a
    chunk is made of the id of the line and the position. *)
Lemma phrase_loop_ids lc token_words token_pos total :
  ∀ phrases phrase_idx used,
    let out := PhraseChunker.phrase_loop SPACY_AVAILABLE nlp lc token_words
                 token_pos total phrase_idx phrases used in
    Forall (λ c, (phrase_idx ≤ PhraseChunker.phrase_position c)%nat ∧
                 PhraseChunker.chunk_id c =
                   "phrase_" +:+ lc_chunk_id lc +:+ "_"
                     +:+ Py.str_of_nat (PhraseChunker.phrase_position c)) out ∧
    StronglySorted (λ a b, (PhraseChunker.phrase_position a
                            < PhraseChunker.phrase_position b)%nat) out.
Proof.
  induction phrases as [|phrase rest IH]; intros idx used; cbn zeta.
  { split; constructor. }
  assert (Hnext : ∀ us,
    Forall (λ c, (idx ≤ PhraseChunker.phrase_position c)%nat ∧
                 PhraseChunker.chunk_id c =
                   "phrase_" +:+ lc_chunk_id lc +:+ "_"
                     +:+ Py.str_of_nat (PhraseChunker.phrase_position c))
      (PhraseChunker.phrase_loop SPACY_AVAILABLE nlp lc token_words token_pos
         total (S idx) rest us) ∧
    StronglySorted (λ a b, (PhraseChunker.phrase_position a
                            < PhraseChunker.phrase_position b)%nat)
      (PhraseChunker.phrase_loop SPACY_AVAILABLE nlp lc token_words token_pos
         total (S idx) rest us)).
  { intros us. destruct (IH (S idx) us) as [Ha Hs]. split; [|done].
    eapply Forall_impl; [exact Ha|]. intros c [H1 H2]. split; [lia | done]. }
  simpl. destruct (_ <? 3)%nat; [apply Hnext|].
  destruct (find_slice _ _) as [i|]; [|apply Hnext].
  destruct (any_used used i _); [apply Hnext|].
  destruct (IH (S idx) (update_used used i
              (i + length (token_texts
                 (_process_line_with_spacy SPACY_AVAILABLE nlp phrase)))))
    as [Ha Hs].
  destruct (Hnext (update_used used i
              (i + length (token_texts
                 (_process_line_with_spacy SPACY_AVAILABLE nlp phrase)))))
    as [Ha' _].
  split.
  - constructor; [by split | exact Ha'].
  - constructor; [exact Hs|].
    eapply Forall_impl; [exact Ha|]. intros c [H1 _]. simpl. lia.
Qed.

Lemma subtree_loop_ids lc token_words line_doc :
  ∀ used fragment_idx,
    let out := FragmentChunker.subtree_loop min_words lc token_words line_doc
                 used fragment_idx in
    Forall (λ c, (fragment_idx ≤ FragmentChunker.fragment_position c)%nat ∧
                 FragmentChunker.chunk_id c =
                   "fragment_" +:+ lc_chunk_id lc +:+ "_"
                     +:+ Py.str_of_nat (FragmentChunker.fragment_position c)) out ∧
    StronglySorted (λ a b, (FragmentChunker.fragment_position a
                            < FragmentChunker.fragment_position b)%nat) out.
Proof.
  induction line_doc as [|token rest IH]; intros used idx; cbn zeta.
  { split; constructor. }
  simpl. destruct (_ || _); [apply IH|].
  destruct (find_slice _ _) as [i|]; [|apply IH].
  destruct (any_used used i _); [apply IH|].
  match goal with
  | |- context [FragmentChunker.subtree_loop _ _ _ rest ?us (S idx)] =>
      destruct (IH us (S idx)) as [Ha Hs]
  end.
  split.
  - constructor; [by split|].
    eapply Forall_impl; [exact Ha|]. intros c [H1 H2]. split; [lia | done].
  - constructor; [exact Hs|].
    eapply Forall_impl; [exact Ha|]. intros c [H1 _]. simpl. lia.
Qed.

Lemma window_loop_ids lc line_tokens pos_tags positions :
  ∀ used fragment_idx,
    let out := FragmentChunker.window_loop min_words lc line_tokens pos_tags
                 positions used fragment_idx in
    Forall (λ c, (fragment_idx ≤ FragmentChunker.fragment_position c)%nat ∧
                 FragmentChunker.chunk_id c =
                   "fragment_" +:+ lc_chunk_id lc +:+ "_"
                     +:+ Py.str_of_nat (FragmentChunker.fragment_position c)) out ∧
    StronglySorted (λ a b, (FragmentChunker.fragment_position a
                            < FragmentChunker.fragment_position b)%nat) out.
Proof.
  induction positions as [|i rest IH]; intros used idx; cbn zeta.
  { split; constructor. }
  simpl. destruct (FragmentChunker.first_window _ _ _ _) as [w|]; [|apply IH].
  match goal with
  | |- context [FragmentChunker.window_loop _ _ _ _ rest ?us (S idx)] =>
      destruct (IH us (S idx)) as [Ha Hs]
  end.
  split.
  - constructor; [by split|].
    eapply Forall_impl; [exact Ha|]. intros c [H1 H2]. split; [lia | done].
  - constructor; [exact Hs|].
    eapply Forall_impl; [exact Ha|]. intros c [H1 _]. simpl. lia.
Qed.

Lemma fragment_chunks_for_line_ids lc line_doc :
  let out := FragmentChunker.chunks_for_line min_words lc line_doc in
  Forall (λ c, FragmentChunker.chunk_id c =
                 "fragment_" +:+ lc_chunk_id lc +:+ "_"
                   +:+ Py.str_of_nat (FragmentChunker.fragment_position c)) out ∧
  StronglySorted (λ a b, (FragmentChunker.fragment_position a
                          < FragmentChunker.fragment_position b)%nat) out.
Proof.
  cbn zeta. unfold FragmentChunker.chunks_for_line.
  set (primary := match line_doc with
                  | Some ((_ :: _) as doc) => _
                  | _ => []
                  end).
  assert (Hp : Forall (λ c, FragmentChunker.chunk_id c =
                 "fragment_" +:+ lc_chunk_id lc +:+ "_"
                   +:+ Py.str_of_nat (FragmentChunker.fragment_position c)) primary ∧
               StronglySorted (λ a b, (FragmentChunker.fragment_position a
                          < FragmentChunker.fragment_position b)%nat) primary).
  { subst primary. destruct line_doc as [[|t doc]|]; try (split; constructor).
    match goal with
    | |- context [FragmentChunker.subtree_loop _ _ ?tw ?d ?us ?k] =>
        destruct (subtree_loop_ids lc tw d us k) as [Ha Hs]
    end.
    split; [|done]. eapply Forall_impl; [exact Ha|]. by intros c [_ H]. }
  destruct primary as [|c0 cs]; [|exact Hp].
  match goal with
  | |- context [FragmentChunker.window_loop _ _ ?lt ?pt ?ps ?us ?k] =>
      destruct (window_loop_ids lc lt pt ps us k) as [Ha Hs]
  end.
  split; [|done]. eapply Forall_impl; [exact Ha|]. by intros c [_ H].
Qed.

Lemma all_line_chunks_flat_map lcs chunks :
  FragmentChunker.all_line_chunks min_words SPACY_AVAILABLE nlp lcs = Some chunks →
  chunks = flat_map (λ lc, FragmentChunker.chunks_for_line min_words lc
                             (FragmentChunker.line_doc_for SPACY_AVAILABLE nlp lc))
                    lcs.
Proof.
  revert chunks. induction lcs as [|lc rest IH]; simpl; intros chunks.
  - by intros [= <-].
  - destruct (if SPACY_AVAILABLE then _ else _) as [doc|] eqn:Hdoc; [|discriminate].
    destruct (FragmentChunker.all_line_chunks _ _ _ rest) as [cr|]; [|discriminate].
    simpl. intros [= <-]. rewrite <- (IH cr eq_refl). f_equal.
    unfold FragmentChunker.line_doc_for. destruct SPACY_AVAILABLE.
    + destruct (nlp _); simpl in Hdoc; by inversion Hdoc.
    + by inversion Hdoc.
Qed.

Lemma update_totals_ids chunks :
  FragmentChunker.chunk_id <$> FragmentChunker.update_totals chunks
  = FragmentChunker.chunk_id <$> chunks.
Proof.
  unfold FragmentChunker.update_totals. rewrite <- list_fmap_compose.
  by apply list_fmap_ext.
Qed.

(** The line chunks of a text have the ids ["chunk_1"], ["chunk_2"],
    ... *)
Lemma chunk_text_line_ids text :
  lc_chunk_id <$> (LineChunker.as_line_chunk
                     <$> LineChunker.chunk_text SPACY_AVAILABLE nlp text)
  = (λ n, "chunk_" +:+ Py.str_of_nat n)
      <$> seq 1 (length (LineChunker.chunk_text SPACY_AVAILABLE nlp text)).
Proof.
  apply list_eq. intros i. rewrite !list_lookup_fmap.
  destruct (LineChunker.chunk_text SPACY_AVAILABLE nlp text !! i) as [c|] eqn:Hi.
  - rewrite lookup_seq_lt by (by eapply lookup_lt_Some). simpl.
    unfold LineChunker.chunk_text in Hi.
    by rewrite (chunk_loop_ids SPACY_AVAILABLE nlp _ _ _ _ Hi).
  - rewrite lookup_seq_ge by (by apply lookup_ge_None). done.
Qed.

(** X26.  Chunk ids are unique within a level.  For the line chunks of a
    text, the phrase chunks the phrase chunker makes of them have
    pairwise distinct ids, and so have the fragment chunks of the fragment
    chunker: an id is made of the id of the line, ["chunk_{n}"], and the
    position of the chunk in the line, and tells both.  These ids are the
    ids under which [VectorStore.add_documents] stores the chunks. *)
Theorem phrase_and_fragment_ids_are_unique (text : string) :
  let line_chunks :=
    LineChunker.as_line_chunk <$> LineChunker.chunk_text SPACY_AVAILABLE nlp text in
  NoDup (PhraseChunker.chunk_id
           <$> PhraseChunker.chunk_from_line_chunks SPACY_AVAILABLE nlp line_chunks) ∧
  NoDup (FragmentChunker.chunk_id
           <$> default [] (FragmentChunker.chunk_from_line_chunks
                             min_words SPACY_AVAILABLE nlp line_chunks)).
Proof.
  intros line_chunks.
  pose proof (chunk_text_line_ids text) as Hids. fold line_chunks in Hids.
  assert (Hnd : NoDup (seq 1 (length (LineChunker.chunk_text SPACY_AVAILABLE nlp text))))
    by apply NoDup_seq.
  split.
  - unfold PhraseChunker.chunk_from_line_chunks.
    eapply (level_ids_NoDup PhraseChunker.chunk_id PhraseChunker.phrase_position
              "phrase_"); [|exact Hids|exact Hnd].
    intros lc. unfold PhraseChunker.chunks_for_line.
    match goal with
    | |- context [PhraseChunker.phrase_loop _ _ _ ?tw ?tp ?tot ?k ?ps ?us] =>
        destruct (phrase_loop_ids lc tw tp tot ps k us) as [Ha Hs]
    end.
    split; [by apply sorted_positions_NoDup|].
    intros c Hc. rewrite Forall_forall in Ha. by destruct (Ha c Hc).
  - unfold FragmentChunker.chunk_from_line_chunks.
    destruct (FragmentChunker.all_line_chunks _ _ _ line_chunks) as [chunks|] eqn:Hall;
      [|constructor].
    simpl. rewrite update_totals_ids, (all_line_chunks_flat_map _ _ Hall).
    eapply (level_ids_NoDup FragmentChunker.chunk_id
              FragmentChunker.fragment_position "fragment_");
      [|exact Hids|exact Hnd].
    intros lc.
    destruct (fragment_chunks_for_line_ids lc
                (FragmentChunker.line_doc_for SPACY_AVAILABLE nlp lc)) as [Ha Hs].
    split; [by apply sorted_positions_NoDup|].
    intros c Hc. rewrite Forall_forall in Ha. by apply Ha.
Qed.

End Chunk_ids.

Section Failsafe_reuse.
Import Types Assembler TranslationManager.
Context {F : Type} (c : @collaborators F).

(** A computation that changes neither the used map nor the session,
    and whose outcome satisfies [Q]. *)
Local Abbreviation keeps m Q :=
  (∀ s : state, ∃ r s',
     m s = (r, s') ∧ used_map s' = used_map s ∧
     translation_id s' = translation_id s ∧ Q r).

Lemma keeps_ret {A} (a : A) (Q : outcome A → Prop) :
  Q (Return a) → keeps (ret a) Q.
Proof. intros HQ s. by exists (Return a), s. Qed.

Lemma keeps_raise {A} e (Q : outcome A → Prop) :
  Q (Raise e) → keeps (@raise A e) Q.
Proof. intros HQ s. by exists (Raise e), s. Qed.

Lemma keeps_call {A} (f : nat → outcome A) (Q : outcome A → Prop) :
  (∀ n, Q (f n)) → keeps (call f) Q.
Proof. intros HQ s. eexists _, _. by repeat split. Qed.

Lemma keeps_read_used_map (Q : outcome UsedMap.t → Prop) :
  (∀ um, Q (Return um)) → keeps (λ s0 : state, (Return (used_map s0), s0)) Q.
Proof. intros HQ s. eexists _, _. by repeat split. Qed.

Lemma keeps_bind {A B} (m : M A) (k : A → M B)
    (Q1 : outcome A → Prop) (Q : outcome B → Prop) :
  keeps m Q1 →
  (∀ a, Q1 (Return a) → keeps (k a) Q) →
  (∀ e, Q1 (Raise e) → Q (Raise e)) →
  keeps (bind m k) Q.
Proof.
  intros Hm Hk He s. destruct (Hm s) as (r & s1 & Hr & Hu & Ht & HQ1).
  unfold bind. rewrite Hr. destruct r as [a|e].
  - destruct (Hk a HQ1 s1) as (r2 & s2 & -> & Hu2 & Ht2 & HQ2).
    exists r2, s2. by rewrite Hu2, Ht2.
  - exists (Raise e), s1. repeat split; try done. by apply He.
Qed.

Lemma keeps_try {A} (m : M A) (h : exn → M A)
    (Q1 : outcome A → Prop) (Q : outcome A → Prop) :
  keeps m Q1 →
  (∀ a, Q1 (Return a) → Q (Return a)) →
  (∀ e, Q1 (Raise e) → keeps (h e) Q) →
  keeps (try_except m h) Q.
Proof.
  intros Hm Hr Hh s. destruct (Hm s) as (r & s1 & Hrun & Hu & Ht & HQ1).
  unfold try_except. rewrite Hrun. destruct r as [a|e].
  - exists (Return a), s1. repeat split; try done. by apply Hr.
  - destruct (Hh e HQ1 s1) as (r2 & s2 & -> & Hu2 & Ht2 & HQ2).
    exists r2, s2. by rewrite Hu2, Ht2.
Qed.

Hypothesis assembler_raises :
  ∀ n modern_line prompt max_retries,
    ∃ e, assemble_line c n modern_line prompt max_retries = Raise e.

(** When the assembler raises, steps 1 to 7 raise, and neither the used
    map nor the session has changed. *)
Lemma main_steps_raises recurse modern_line selector_results use_hybrid_search :
  keeps (main_steps c recurse modern_line selector_results use_hybrid_search)
        (λ r, ∃ e, r = Raise e).
Proof.
  unfold main_steps.
  eapply keeps_bind with (Q1 := λ r, True);
    [by apply keeps_read_used_map | | by eauto].
  intros um _. simpl.
  eapply keeps_bind with (Q1 := λ r, True); [by apply keeps_call | | by eauto].
  intros prepared _. simpl.
  eapply keeps_bind with (Q1 := λ r, True); [| | by eauto].
  { destruct (_ <? 3)%nat; [|by apply keeps_ret].
    eapply keeps_bind with (Q1 := λ r, True); [| | done].
    - eapply keeps_try with (Q1 := λ r, True); [|done|].
      + eapply keeps_bind with (Q1 := λ r, True); [| |done].
        * destruct use_hybrid_search; by apply keeps_call.
        * intros ext _. simpl.
          eapply keeps_bind with (Q1 := λ r, True);
            [by apply keeps_read_used_map | | done].
          intros um' _. simpl.
          eapply keeps_bind with (Q1 := λ r, True);
            [by apply keeps_call | | done].
          intros prepared' _. simpl. by apply keeps_ret.
      + intros e _. by apply keeps_ret.
    - intros extended _. simpl.
      destruct (_ <? 1)%nat; [by apply keeps_raise | by apply keeps_ret]. }
  intros step1 _. simpl.
  eapply keeps_bind with (Q1 := λ r, ∃ e, r = Raise e); [| |by eauto].
  - apply keeps_call. intros n. apply assembler_raises.
  - by intros a [e [=]].
Qed.

(** The failsafe result of a quote. *)
Local Abbreviation failsafe_of quote modern_line :=
  (Failsafe (text quote) (result_reference "failsafe_1" (reference quote))
            modern_line).

(** [_create_single_quote_result] marks the word indices of the quote
    without asking whether they are used. *)
Lemma create_single_marks (quote : CandidateQuote F) modern_line s :
  ∃ s',
    _create_single_quote_result c quote modern_line s
      = (Return (failsafe_of quote modern_line), s') ∧
    translation_id s' = translation_id s ∧
    used_map s' =
      match word_indices_failsafe (reference quote) with
      | Some wi => UsedMap.mark_used (ref_key_of (reference quote))
                     (UsedMap.RangeList wi) (used_map s)
      | None => used_map s
      end.
Proof.
  unfold _create_single_quote_result.
  destruct (word_indices_failsafe (reference quote)) as [wi|];
    eexists; by repeat split.
Qed.

(** With an assembler that raises, [translate_line] returns the failsafe
    result of the first line candidate. *)
Lemma translate_line_body_failsafe recurse modern_line selector_results
    use_hybrid_search (quote : CandidateQuote F) rest s :
  is_Some (UsedMap.truthy_id (translation_id s)) →
  selector_results !! "line" = Some (quote :: rest) →
  ∃ s',
    translate_line_body c recurse modern_line selector_results
      use_hybrid_search s = (Return (Some (failsafe_of quote modern_line)), s') ∧
    translation_id s' = translation_id s ∧
    used_map s' =
      match word_indices_failsafe (reference quote) with
      | Some wi => UsedMap.mark_used (ref_key_of (reference quote))
                     (UsedMap.RangeList wi) (used_map s)
      | None => used_map s
      end.
Proof.
  intros Hid Hline. unfold translate_line_body.
  rewrite bool_decide_true by done. cbn [negb].
  assert (Hne : bool_decide (selector_results = ∅) = false).
  { apply bool_decide_eq_false. intros ->. by rewrite lookup_empty in Hline. }
  rewrite Hne, andb_false_r.
  unfold try_except at 1, bind at 1, ret at 1, try_except at 1.
  destruct (main_steps_raises recurse modern_line selector_results
              use_hybrid_search s)
    as (r & s1 & Hrun & Hu & Ht & e & ->).
  rewrite Hrun. unfold main_handler. rewrite Hline.
  unfold bind at 1.
  destruct (create_single_marks quote modern_line s1) as (s2 & -> & Ht2 & Hu2).
  unfold ret. exists s2. rewrite Ht2, Hu2, Ht, Hu. done.
Qed.

End Failsafe_reuse.

(** X27.  The failsafe gives out a quote that is already used.  When the
    assembler raises (as it does on the prompt with the metadata entry)
    and the results given have a first line candidate, [translate_line]
    returns the failsafe result of that candidate and marks its word
    indices, without asking the used map: a second call whose results
    have the same first line candidate returns the same quote again,
    although [was_used] answers true for that quote and these indices
    after the first call. *)
Theorem failsafe_reuses_a_used_quote
    {F : Type} (c : @TranslationManager.collaborators F)
    (default_hybrid : bool) (line1 line2 : string)
    (results1 results2 : gmap string (list (Types.CandidateQuote F)))
    (use_hybrid_search : option bool)
    (quote : Types.CandidateQuote F) (rest1 rest2 : list (Types.CandidateQuote F))
    (wi : list Z) (tid : string) (s : TranslationManager.state) :
  (∀ n modern_line prompt max_retries,
     ∃ e, TranslationManager.assemble_line c n modern_line prompt max_retries
          = TranslationManager.Raise e) →
  is_Some (UsedMap.truthy_id (TranslationManager.translation_id s)) →
  UsedMap.active_translation_id (TranslationManager.used_map s) = Some tid →
  tid ≠ "" →
  results1 !! "line" = Some (quote :: rest1) →
  results2 !! "line" = Some (quote :: rest2) →
  TranslationManager.word_indices_failsafe (Types.reference quote) = Some wi →
  ∃ s1 s2,
    TranslationManager.translate_line c default_hybrid line1 results1
      use_hybrid_search s
    = (TranslationManager.Return
         (Some (TranslationManager.Failsafe (Types.text quote)
                  (TranslationManager.result_reference "failsafe_1"
                     (Types.reference quote)) line1)), s1) ∧
    UsedMap.was_used (TranslationManager.ref_key_of (Types.reference quote))
      (UsedMap.RangeList wi) (TranslationManager.used_map s1) = true ∧
    TranslationManager.translate_line c default_hybrid line2 results2
      use_hybrid_search s1
    = (TranslationManager.Return
         (Some (TranslationManager.Failsafe (Types.text quote)
                  (TranslationManager.result_reference "failsafe_1"
                     (Types.reference quote)) line2)), s2).
Proof.
  intros Hasm Hid Hact Hne H1 H2 Hwi.
  unfold TranslationManager.translate_line.
  destruct (translate_line_body_failsafe c Hasm
              (TranslationManager.translate_line_body c
                 (TranslationManager.raise TranslationManager.ValueError)
                 line1 ∅ true)
              line1 results1 (default default_hybrid use_hybrid_search)
              quote rest1 s Hid H1) as (s1 & Hrun1 & Ht1 & Hu1).
  assert (Hid1 : is_Some (UsedMap.truthy_id (TranslationManager.translation_id s1)))
    by by rewrite Ht1.
  destruct (translate_line_body_failsafe c Hasm
              (TranslationManager.translate_line_body c
                 (TranslationManager.raise TranslationManager.ValueError)
                 line2 ∅ true)
              line2 results2 (default default_hybrid use_hybrid_search)
              quote rest2 s1 Hid1 H2) as (s2 & Hrun2 & _ & _).
  exists s1, s2. split; [exact Hrun1|]. split; [|exact Hrun2].
  rewrite Hu1, Hwi. by eapply was_used_mark_used.
Qed.

Lemma failsafe_reuses_a_used_quote_witness :
  let c := TranslationManager.failing_collaborators in
  let quote := TranslationManager.example_quote in
  ∃ s1 s2,
    TranslationManager.translate_line c false "So strange a day"
      TranslationManager.example_results None TranslationManager.started_state
    = (TranslationManager.Return
         (Some (TranslationManager.Failsafe (Types.text quote)
                  (TranslationManager.result_reference "failsafe_1"
                     (Types.reference quote)) "So strange a day")), s1) ∧
    UsedMap.was_used (TranslationManager.ref_key_of (Types.reference quote))
      (UsedMap.RangeList [0; 1; 2; 3]%Z) (TranslationManager.used_map s1) = true ∧
    TranslationManager.translate_line c false "A day so dark and bright"
      TranslationManager.example_results None s1
    = (TranslationManager.Return
         (Some (TranslationManager.Failsafe (Types.text quote)
                  (TranslationManager.result_reference "failsafe_1"
                     (Types.reference quote)) "A day so dark and bright")), s2).
Proof.
  intros c quote.
  apply (failsafe_reuses_a_used_quote c false "So strange a day"
           "A day so dark and bright" TranslationManager.example_results
           TranslationManager.example_results None quote [] [] [0; 1; 2; 3]%Z "t1"
           TranslationManager.started_state).
  - intros n modern_line prompt max_retries. by eexists.
  - by eexists.
  - reflexivity.
  - discriminate.
  - reflexivity.
  - reflexivity.
  - vm_compute. reflexivity.
Defined.

Section SceneSaver_properties.
Import SceneSaver.
Context {X : Type}.

Lemma same_length_length (original_lines : list string) n :
  length (same_length original_lines n) = n.
Proof.
  unfold same_length.
  destruct (length original_lines <? n)%nat eqn:E1.
  - apply Nat.ltb_lt in E1. rewrite length_app, length_replicate. lia.
  - apply Nat.ltb_ge in E1.
    destruct (n <? length original_lines)%nat eqn:E2.
    + apply Nat.ltb_lt in E2. rewrite length_take. lia.
    + apply Nat.ltb_ge in E2. lia.
Qed.

Lemma enhance_source (originals : list string) (translated : list (line_data X)) :
  source <$> imap (enhance originals) translated = translated.
Proof.
  rewrite fmap_imap. rewrite (imap_ext _ (const id)) by done.
  by rewrite imap_const, list_fmap_id.
Qed.

(** The checkpoint after [k] lines. *)
Local Abbreviation checkpoint_at output_dir act scene all originals :=
  (λ k : nat, save (X:=X) output_dir act scene (take k all) (take k originals)).

(** The numbers of the lines after which a checkpoint is written. *)
Local Abbreviation due checkpoint_interval n :=
  (λ k : nat, bool_decide ((Z.of_nat k mod checkpoint_interval = 0)%Z ∨ k = n)).

(** The loop writes, at every line that is due, the lines so far. *)
Lemma checkpoints_spec output_dir act scene checkpoint_interval n originals :
  checkpoint_interval ≠ 0%Z →
  ∀ (todo accumulated : list (enhanced_line X)),
    checkpoints output_dir act scene checkpoint_interval n originals
      accumulated (S (length accumulated)) todo
    = Some (checkpoint_at output_dir act scene (accumulated ++ todo) originals
              <$> List.filter (due checkpoint_interval n)
                    (seq (S (length accumulated)) (length todo))).
Proof.
  intros Hz. induction todo as [|line rest IH]; intros accumulated; [done|].
  cbn [checkpoints length seq List.filter].
  rewrite (proj2 (Z.eqb_neq _ _) Hz).
  specialize (IH (accumulated ++ [line])).
  rewrite length_app, Nat.add_1_r, <- app_assoc in IH. cbn [app] in IH.
  rewrite IH. cbn [fmap option_fmap option_map]. f_equal.
  assert (Htake : take (S (length accumulated)) (accumulated ++ line :: rest)
                  = accumulated ++ [line]).
  { rewrite (take_app_ge) by lia.
    replace (S (length accumulated) - length accumulated)%nat with 1%nat by lia.
    done. }
  destruct (_ || _) eqn:Hdue.
  - rewrite bool_decide_true.
    2:{ apply orb_true_iff in Hdue as [H|H];
          [left; by apply Z.eqb_eq | right; by apply Nat.eqb_eq]. }
    rewrite fmap_cons. cbn [app]. by rewrite Htake.
  - rewrite bool_decide_false; [done|].
    apply orb_false_iff in Hdue as [H1 H2].
    apply Z.eqb_neq in H1. apply Nat.eqb_neq in H2. tauto.
Qed.

Lemma filter_due_last checkpoint_interval n :
  n ≠ 0%nat →
  last (List.filter (due checkpoint_interval n) (seq 1 n)) = Some n.
Proof.
  intros Hn. destruct n as [|m]; [done|].
  rewrite seq_S, List.filter_app. cbn [List.filter].
  rewrite bool_decide_true by (right; lia).
  by rewrite last_snoc.
Qed.

(** X28.  [save_scene] writes the scene in growing checkpoints and ends
    with all of it.  The lines are enhanced in order, each keeping its own
    modern line when it has one, and the list of original lines is made
    as long as the scene.  For an interval that is not 0 a checkpoint is
    written after line [k] exactly when the interval divides [k] or [k] is
    the last line, and holds the first [k] lines; so the last write of a
    scene that is not empty holds every line.  For an empty scene nothing
    is written, and with the interval 0 a scene that is not empty raises
    [ZeroDivisionError] before anything is written. *)
Theorem save_scene_checkpoints
    (output_dir act scene : string) (translated : list (line_data X))
    (original : option (list string)) (checkpoint_interval : Z) :
  let n := length translated in
  let result :=
    save_scene output_dir act scene translated original checkpoint_interval in
  ∃ (originals : list string) (enhanced : list (enhanced_line X)),
    length originals = n ∧
    (∀ given, original = Some given → originals = same_length given n) ∧
    enhanced = imap (enhance originals) translated ∧
    source <$> enhanced = translated ∧
    (n = 0%nat → result = Some []) ∧
    (n ≠ 0%nat → checkpoint_interval = 0%Z → result = None) ∧
    (checkpoint_interval ≠ 0%Z →
       result = Some (checkpoint_at output_dir act scene enhanced originals
                        <$> List.filter (due checkpoint_interval n) (seq 1 n)) ∧
       (n ≠ 0%nat →
          ∃ checkpoints,
            result = Some checkpoints ∧
            last checkpoints = Some (save output_dir act scene enhanced originals))).
Proof.
  intros n result. unfold result, save_scene.
  set (given := match original with
                | Some l => l
                | None => _
                end).
  set (originals := same_length given (length translated)).
  set (enhanced := imap (enhance originals) translated).
  assert (Hlen : length enhanced = n) by apply length_imap.
  exists originals, enhanced.
  split; [apply same_length_length|].
  split; [by intros l ->|].
  split; [done|].
  split; [apply enhance_source|].
  rewrite Hlen.
  split; [|split].
  - intros Hn. destruct enhanced; [done | simpl in Hlen; lia].
  - intros Hn ->. destruct enhanced; [simpl in Hlen; lia | done].
  - intros Hz.
    pose proof (checkpoints_spec output_dir act scene checkpoint_interval n
                  originals Hz enhanced []) as Hspec.
    cbn [length app] in Hspec. rewrite Hlen in Hspec.
    split; [exact Hspec|].
    intros Hn. eexists. split; [exact Hspec|].
    rewrite fmap_last, (filter_due_last _ _ Hn). cbn.
    f_equal. f_equal; apply take_ge; [lia|].
    unfold originals. rewrite same_length_length. lia.
Qed.

End SceneSaver_properties.
